(** * pm-email-validator: a shallow embedding of the validator core

  The development follows the layout of the TypeScript sources:

  - [Js]        the few string primitives of the JavaScript runtime the
                sources call ([trim], [split], [startsWith], ...);
  - [Limiter]   [core/limiter.ts], the sliding-window [RateLimiter];
  - [Cache]     [core/cache.ts], the expiring, bounded [DnsCache];
  - [Scoring]   [core/scoring.ts], [computeVerdict] and [clampScore];
  - [Rt]        the environment the asynchronous code talks to (clock,
                resolver, sockets, entropy) as a small state monad;
  - [Dns]       [core/dns.ts], [checkDNS];
  - [Smtp]      [core/smtp.ts], [connectAndProbe] and [probeSmtp];
  - [CatchAll]  [core/catchAll.ts], [smtpCatchAllProbe], [checkCatchAll];
  - [Normalize] [core/normalize.ts], [normalizeEmail];
  - [Verify]    [verify.ts], the head of [runValidation];
  - [Regex]     regular expressions and their [test], by derivatives;
  - [Syntax]    [core/syntax.ts], [validateSyntax];
  - [Provider], [Canonical], [RoleEmail], [Patterns]
                what [runValidation] reads of the results of its
                collaborators, and [getHighestSeverity];
  - [Pipeline]  [verify.ts], the stages of [runValidation] after the
                syntax gate, [verifyEmail] and [debugVerifyEmail];
  - [Typo]      [core/typo.ts], [levenshtein], [findBestMatch] and
                [suggestTypo].

  The definitions come first; the modules [JsProps], [ScoringProps],
  [LimiterProps], [CacheProps], [ProbeProps], [SmtpProps], [DnsProps],
  [CatchAllProps] and [VerifyProps] then state and prove the properties,
  followed by [CacheFacts], [LimiterFacts], [ScoringFacts], [SmtpFacts],
  [DnsFacts], [CatchAllFacts], [NormalizeFacts], [RegexFacts],
  [SyntaxFacts], [VerifyFacts], [IoFacts], [PipelineFacts] and
  [TypoFacts].

  Conventions.  A JavaScript string is the list of its UTF-16 code units
  ([list N]).  A [number] holding a count, a duration or a timestamp is a
  [Z]; the score and the thresholds of [computeVerdict] are rationals,
  to which [Scoring.Num] adds the infinities and not-a-number.
  [Date.now()] is an explicit argument of the cache and limiter methods
  and a reading of the environment clock in the asynchronous code.  A
  function that throws to its caller answers a [Rt.Completion]. *)

From Stdlib Require Import ZArith NArith QArith Qround Lia.
From stdpp Require Import base option list gmap strings.

(* ===================================================================== *)
(** * JavaScript strings *)
(* ===================================================================== *)

Module Js.

(** A string is its sequence of UTF-16 code units. *)
Definition jsstring : Type := list N.

(** The code units of an ASCII literal. *)
Definition js (s : string) : jsstring :=
  (λ a, Ascii.N_of_ascii a) <$> String.list_ascii_of_string s.

Definition CR : N := 13%N.
Definition LF : N := 10%N.
Definition AT : N := 64%N.

(** A line as a server sends it, ended by CR LF. *)
Definition crlf (line : string) : jsstring := js line ++ [CR; LF].

(** [WhiteSpace] and [LineTerminator] of ECMA-262, the code units that
    [String.prototype.trim] strips. *)
Definition isWhiteSpace (c : N) : bool :=
  ((9 <=? c) && (c <=? 13) || (c =? 32) || (c =? 160) || (c =? 5760)
   || (8192 <=? c) && (c <=? 8202) || (c =? 8232) || (c =? 8233)
   || (c =? 8239) || (c =? 8287) || (c =? 12288) || (c =? 65279))%N.

Fixpoint trimStart (s : jsstring) : jsstring :=
  match s with
  | c :: rest => if isWhiteSpace c then trimStart rest else s
  | [] => []
  end.

Definition trimEnd (s : jsstring) : jsstring := rev (trimStart (rev s)).

(** [s.trim()] *)
Definition trim (s : jsstring) : jsstring := trimEnd (trimStart s).

(** [s.startsWith(p)] *)
Fixpoint startsWith (p s : jsstring) : bool :=
  match p, s with
  | [], _ => true
  | a :: p', b :: s' => (a =? b)%N && startsWith p' s'
  | _ :: _, [] => false
  end.

(** [s.endsWith(p)] *)
Definition endsWith (p s : jsstring) : bool := startsWith (rev p) (rev s).

(** [s.includes(p)] *)
Fixpoint includes (p s : jsstring) : bool :=
  startsWith p s
  || match s with
     | [] => false
     | _ :: rest => includes p rest
     end.

(** [s.split(sep)] for a separator of one code unit; [cur] is the piece
    being read.  The result always has at least one piece. *)
Fixpoint splitAt (sep : N) (cur s : jsstring) : list jsstring :=
  match s with
  | [] => [cur]
  | c :: rest =>
      if (c =? sep)%N then cur :: splitAt sep [] rest
      else splitAt sep (cur ++ [c]) rest
  end.

Definition split (sep : N) (s : jsstring) : list jsstring := splitAt sep [] s.

(** [s.split(/\r?\n/)]: a line feed, together with the carriage return
    right before it when there is one, separates two pieces. *)
Fixpoint splitLinesAt (cur s : jsstring) : list jsstring :=
  match s with
  | [] => [cur]
  | c :: rest =>
      if (c =? LF)%N then cur :: splitLinesAt [] rest
      else if (c =? CR)%N then
        match rest with
        | d :: rest' =>
            if (d =? LF)%N then cur :: splitLinesAt [] rest'
            else splitLinesAt (cur ++ [c]) rest
        | [] => splitLinesAt (cur ++ [c]) rest
        end
      else splitLinesAt (cur ++ [c]) rest
  end.

Definition splitLines (s : jsstring) : list jsstring := splitLinesAt [] s.

Definition isDigit (c : N) : bool := ((48 <=? c) && (c <=? 57))%N.

(** How many times the code unit [c] occurs in [s]. *)
Definition occurrences (c : N) (s : jsstring) : nat :=
  length (List.filter (N.eqb c) s).

(** The empty string. *)
Definition emptyString : jsstring := [].

(** Truthiness of a string: only the empty string is falsy. *)
Definition truthy (s : jsstring) : bool :=
  match s with [] => false | _ :: _ => true end.

(** A string of white space only. *)
Definition blank (ws : jsstring) : Prop :=
  Forall (λ c, isWhiteSpace c = true) ws.

(** Built-ins whose tables are part of the runtime, not of the
    repository. [domainToASCII] is [None] when the call throws. *)
Class Runtime := {
  toLowerCase : jsstring → jsstring;
  domainToASCII : jsstring → option jsstring
}.

(** A runtime for closed examples.  It acts as the built-ins do on host
    names written with ASCII letters, digits, dots and hyphens. *)
Definition asciiLower (c : N) : N :=
  if ((65 <=? c) && (c <=? 90))%N then (c + 32)%N else c.

Definition asciiRuntime : Runtime := {|
  toLowerCase s := asciiLower <$> s;
  domainToASCII s := Some (asciiLower <$> s)
|}.

End Js.

Export Js.

(* ===================================================================== *)
(** * core/limiter.ts *)
(* ===================================================================== *)

Module Limiter.
Local Open Scope Z_scope.

(** [class RateLimiter]: [buckets] is a [Map<string, number[]>]. *)
Record RateLimiter := mkRateLimiter {
  limit : Z;
  windowMs : Z;
  buckets : gmap jsstring (list Z)
}.

(** [new RateLimiter(limit, windowMs)] *)
Definition new (limit windowMs : Z) : RateLimiter :=
  mkRateLimiter limit windowMs ∅.

Definition setBucket (key : jsstring) (b : list Z) (l : RateLimiter)
  : RateLimiter :=
  mkRateLimiter (limit l) (windowMs l) (<[key := b]> (buckets l)).

(** [allow(key)], with [now] the value [Date.now()] returns. *)
Definition allow (now : Z) (key : jsstring) (l : RateLimiter)
  : bool * RateLimiter :=
  let windowStart := now - windowMs l in
  let existing := default [] (buckets l !! key) in
  let fresh := filter (λ ts, windowStart ≤ ts) existing in
  if bool_decide (limit l ≤ Z.of_nat (length fresh)) then
    (false, setBucket key fresh l)
  else
    (true, setBucket key (fresh ++ [now]) l).

(** The bucket of [key] as [allow] reads it. *)
Definition bucket (key : jsstring) (l : RateLimiter) : list Z :=
  default [] (buckets l !! key).

(** Every bucket holds at most [limit] timestamps. *)
Definition bounded (l : RateLimiter) : Prop :=
  ∀ k b, buckets l !! k = Some b → Z.of_nat (length b) ≤ limit l.

(** A sequence of [allow] calls, each with its clock reading. *)
Fixpoint allowAll (calls : list (Z * jsstring)) (l : RateLimiter)
  : list bool * RateLimiter :=
  match calls with
  | [] => ([], l)
  | (now, key) :: rest =>
      let '(r, l1) := allow now key l in
      let '(rs, l2) := allowAll rest l1 in
      (r :: rs, l2)
  end.

(** The clock readings of the calls on [key] that were admitted, given
    the calls and the answers they got. *)
Definition admittedTimes (key : jsstring) (calls : list (Z * jsstring))
    (answers : list bool) : list Z :=
  omap (λ '((now, k), answer),
          if answer && bool_decide (k = key) then Some now else None)
       (zip calls answers).

(** The calls of a sequence made on [key]. *)
Definition callsOn (key : jsstring) (calls : list (Z * jsstring))
  : list (Z * jsstring) :=
  filter (λ call, call.2 = key) calls.

(** The clock never goes back from a call to a later one. *)
Definition clockOrdered (calls : list (Z * jsstring)) : Prop :=
  ∀ i j a b, calls !! i = Some a → calls !! j = Some b →
             (i ≤ j)%nat → a.1 ≤ b.1.

(** Two limiters that [allow] cannot tell apart on [key]. *)
Definition agreeOn (key : jsstring) (l1 l2 : RateLimiter) : Prop :=
  limit l1 = limit l2 ∧ windowMs l1 = windowMs l2
  ∧ bucket key l1 = bucket key l2.

End Limiter.

(* ===================================================================== *)
(** * core/cache.ts *)
(* ===================================================================== *)

Module Cache.
Local Open Scope Z_scope.

Section Generic.
Context {T : Type}.

Record CacheEntry := mkEntry {
  data : T;
  expiresAt : Z
}.

(** A JavaScript [Map] iterates in insertion order: the store is the
    list of its bindings, oldest insertion first. *)
Abbreviation Store := (list (jsstring * CacheEntry)).

Definition mapGet (key : jsstring) (s : Store) : option CacheEntry :=
  snd <$> List.find (λ p, bool_decide (p.1 = key)) s.

Definition mapHas (key : jsstring) (s : Store) : bool :=
  bool_decide (is_Some (mapGet key s)).

Definition mapDelete (key : jsstring) (s : Store) : Store :=
  filter (λ p, p.1 ≠ key) s.

(** [Map.prototype.set]: a present key keeps its position, a new one
    goes last. *)
Fixpoint mapSet (key : jsstring) (e : CacheEntry) (s : Store) : Store :=
  match s with
  | [] => [(key, e)]
  | (k, v) :: rest =>
      if bool_decide (k = key) then (k, e) :: rest
      else (k, v) :: mapSet key e rest
  end.

(** [store.keys().next().value] *)
Definition firstKey (s : Store) : option jsstring := fst <$> head s.

Record DnsCache := mkCache {
  store : Store;
  maxEntries : Z;
  ttlMs : Z
}.

(** [new DnsCache(opts)] *)
Definition new (optMaxEntries optTtlMs : option Z) : DnsCache :=
  mkCache [] (default 2000 optMaxEntries)
          (default (10 * 60 * 1000) optTtlMs).

Definition withStore (s : Store) (c : DnsCache) : DnsCache :=
  mkCache s (maxEntries c) (ttlMs c).

(** [get(key)], with [now] the value [Date.now()] returns. *)
Definition get (now : Z) (key : jsstring) (c : DnsCache)
  : option CacheEntry * DnsCache :=
  match mapGet key (store c) with
  | None => (None, c)
  | Some entry =>
      if bool_decide (expiresAt entry < now) then
        (None, withStore (mapDelete key (store c)) c)
      else
        (Some entry,
         withStore (mapSet key entry (mapDelete key (store c))) c)
  end.

(** [set(key, data, ttlMs?)] *)
Definition set (now : Z) (key : jsstring) (d : T) (ttl : option Z)
           (c : DnsCache) : DnsCache :=
  let entry := mkEntry d (now + default (ttlMs c) ttl) in
  let s1 := if mapHas key (store c) then mapDelete key (store c)
            else store c in
  let s2 := mapSet key entry s1 in
  if bool_decide (maxEntries c < Z.of_nat (length s2)) then
    match firstKey s2 with
    | Some oldestKey =>
        if truthy oldestKey then withStore (mapDelete oldestKey s2) c
        else withStore s2 c
    | None => withStore s2 c
    end
  else withStore s2 c.

Definition keys (c : DnsCache) : list jsstring := (store c).*1.

(** A sequence of [get] calls, each with its clock reading. *)
Fixpoint getAll (calls : list (Z * jsstring)) (c : DnsCache) : DnsCache :=
  match calls with
  | [] => c
  | (now, key) :: rest => getAll rest (get now key c).2
  end.

(** What the sequences of uses keep true of a cache whose keys are not
    empty: the keys are distinct and the store is within the capacity. *)
Definition within_capacity (c : DnsCache) : Prop :=
  NoDup (keys c)
  ∧ ([] ∉ keys c)
  ∧ Z.of_nat (length (store c)) ≤ maxEntries c.

(** A use of the cache: a [get] or a [set], with its clock reading. *)
Inductive Call :=
| CallGet (now : Z) (key : jsstring)
| CallSet (now : Z) (key : jsstring) (d : T) (ttl : option Z).

Definition call (op : Call) (c : DnsCache) : DnsCache :=
  match op with
  | CallGet now key => (get now key c).2
  | CallSet now key d ttl => set now key d ttl c
  end.

Definition callAll (ops : list Call) (c : DnsCache) : DnsCache :=
  fold_left (λ c op, call op c) ops c.

(** The keys a sequence of uses writes. *)
Definition keysSet (ops : list Call) : list jsstring :=
  omap (λ op, match op with
              | CallSet _ key _ _ => Some key
              | CallGet _ _ => None
              end) ops.

End Generic.

Arguments CacheEntry : clear implicits.
Arguments DnsCache : clear implicits.
Arguments Call : clear implicits.

End Cache.

(* ===================================================================== *)
(** * core/scoring.ts *)
(* ===================================================================== *)

Module Scoring.
Local Open Scope Q_scope.

Inductive Verdict := Valid | Risky | Unknown | Invalid.

Record Thresholds := mkThresholds {
  valid : Q;
  risky : Q;
  unknown : Q
}.

Definition DEFAULT_THRESHOLDS : Thresholds := mkThresholds 85 60 30.

(** [a >= b] on numbers *)
Definition geb (a b : Q) : bool := Qle_bool b a.

Definition computeVerdict (score : Q) (thresholds : option Thresholds)
  : Verdict :=
  let t := default DEFAULT_THRESHOLDS thresholds in
  if geb score (valid t) then Valid
  else if geb score (risky t) then Risky
  else if geb score (unknown t) then Unknown
  else Invalid.

(** [Math.round]: the nearest integer, a tie going up. *)
Definition mathRound (x : Q) : Z := Qfloor (x + (1 # 2)).

(** [clampScore] on a finite score, where the result is an integer.  The
    other numbers are the matter of [Num.clampScore] below. *)
Definition clampScore (score : Q) : Z :=
  Z.max 0 (Z.min 100 (mathRound score)).

(** [clampScore] on every number.  A score is a JavaScript number: a
    finite value, taken as the rational it denotes, an infinity, or
    not-a-number, which [score -= w] yields as soon as a weight is [NaN]
    or [undefined]. *)
Module Num.

Inductive Number :=
| Finite (q : Q)
| PosInfinity
| NegInfinity
| NaN.

(** [Math.round(x)]: the infinities and [NaN] are returned as they
    are. *)
Definition Math_round (x : Number) : Number :=
  match x with
  | Finite q => Finite (inject_Z (mathRound q))
  | _ => x
  end.

(** [Math.min(a, b)]: [NaN] as soon as an argument is. *)
Definition Math_min (a b : Number) : Number :=
  match a, b with
  | NaN, _ | _, NaN => NaN
  | NegInfinity, _ | _, NegInfinity => NegInfinity
  | PosInfinity, x | x, PosInfinity => x
  | Finite p, Finite q => if Qle_bool p q then Finite p else Finite q
  end.

(** [Math.max(a, b)]: [NaN] as soon as an argument is. *)
Definition Math_max (a b : Number) : Number :=
  match a, b with
  | NaN, _ | _, NaN => NaN
  | PosInfinity, _ | _, PosInfinity => PosInfinity
  | NegInfinity, x | x, NegInfinity => x
  | Finite p, Finite q => if Qle_bool p q then Finite q else Finite p
  end.

(** [a <= b]: false as soon as an argument is [NaN]. *)
Definition leb (a b : Number) : bool :=
  match a, b with
  | NaN, _ | _, NaN => false
  | NegInfinity, _ | _, PosInfinity => true
  | Finite p, Finite q => Qle_bool p q
  | _, _ => false
  end.

(** [Math.max(0, Math.min(100, Math.round(score)))] *)
Definition clampScore (score : Number) : Number :=
  Math_max (Finite 0) (Math_min (Finite 100) (Math_round score)).

End Num.

(** The tiers in the order invalid < unknown < risky < valid. *)
Definition tier (v : Verdict) : nat :=
  match v with
  | Invalid => 0
  | Unknown => 1
  | Risky => 2
  | Valid => 3
  end%nat.

End Scoring.

(* ===================================================================== *)
(** * The environment of the asynchronous code *)
(* ===================================================================== *)

Module Rt.

(** Network operations, in the order they are issued. *)
Inductive NetOp :=
| OpResolveMx (name : jsstring)
| OpResolveTxt (name : jsstring)
| OpResolve4 (name : jsstring)
| OpResolve6 (name : jsstring)
| OpConnect (port : Z) (host : jsstring).

(** How a promise of the runtime settles. *)
Inductive Settled (T : Type) :=
| Fulfilled (v : T)
| Rejected.
Arguments Fulfilled {T} v.
Arguments Rejected {T}.

(** What a probe session can be woken by: the three socket events the
    sources listen to, and the firing of the session timer. *)
Inductive Event :=
| EvData (text : jsstring)
| EvError (message : jsstring)
| EvEnd
| EvTimeout.

(** An entry of [dns.resolveMx]. *)
Record MxRecord := mkMx {
  exchange : jsstring;
  priority : Z
}.

(** The outside world.  Every interaction is numbered by the tick at
    which it happens, so answers may change over time.  A DNS answer is
    [None] when the timer of [withTimeout] wins the race; a connection is
    the sequence of events its handlers see, the timer being armed with
    the given delay. *)
Record Env := mkEnv {
  clock : nat → Z;
  dnsResolveMx : nat → jsstring → Z → option (Settled (list MxRecord));
  dnsResolveTxt : nat → jsstring → Z → option (Settled (list (list jsstring)));
  dnsResolve4 : nat → jsstring → Z → option (Settled (list jsstring));
  dnsResolve6 : nat → jsstring → Z → option (Settled (list jsstring));
  connection : nat → jsstring → Z → list Event;
  randomBytesHex : nat → jsstring
}.

Record World := mkWorld {
  tick : nat;
  ops : list NetOp
}.

(** An environment whose answers do not change with time: a stopped
    clock, one answer per name and kind, one conversation per host. *)
Definition staticEnv
    (mx : jsstring → option (Settled (list MxRecord)))
    (txt : jsstring → option (Settled (list (list jsstring))))
    (a4 a6 : jsstring → option (Settled (list jsstring)))
    (peer : jsstring → list Event) : Env :=
  mkEnv (λ _, 0%Z)
        (λ _ name _, mx name) (λ _ name _, txt name)
        (λ _ name _, a4 name) (λ _ name _, a6 name)
        (λ _ host _, peer host)
        (λ _, js "000102030405060708090a0b0c0d0e0f").

Definition M (A : Type) : Type := Env → World → A * World.

#[export] Instance M_ret : MRet M := λ A a _ w, (a, w).
#[export] Instance M_bind : MBind M :=
  λ A B f m E w, let '(a, w1) := m E w in f a E w1.

Definition next (w : World) : World := mkWorld (S (tick w)) (ops w).
Definition logged (op : NetOp) (w : World) : World :=
  mkWorld (S (tick w)) (ops w ++ [op]).

(** [Date.now()] *)
Definition dateNow : M Z := λ E w, (clock E (tick w), next w).

(** [withTimeout(dns.resolveMx(name), timeoutMs)] and its siblings: the
    query is issued, and the race with the timer is settled. *)
Definition race {T} (a : option (Settled T)) : Settled T :=
  match a with Some s => s | None => Rejected end.

Definition queryMx (name : jsstring) (timeoutMs : Z)
  : M (Settled (list MxRecord)) :=
  λ E w, (race (dnsResolveMx E (tick w) name timeoutMs),
          logged (OpResolveMx name) w).

Definition queryTxt (name : jsstring) (timeoutMs : Z)
  : M (Settled (list (list jsstring))) :=
  λ E w, (race (dnsResolveTxt E (tick w) name timeoutMs),
          logged (OpResolveTxt name) w).

Definition query4 (name : jsstring) (timeoutMs : Z)
  : M (Settled (list jsstring)) :=
  λ E w, (race (dnsResolve4 E (tick w) name timeoutMs),
          logged (OpResolve4 name) w).

Definition query6 (name : jsstring) (timeoutMs : Z)
  : M (Settled (list jsstring)) :=
  λ E w, (race (dnsResolve6 E (tick w) name timeoutMs),
          logged (OpResolve6 name) w).

(** [net.createConnection(25, host)] with the session timer armed for
    [timeoutMs]: the events the handlers will be called with. *)
Definition createConnection (port : Z) (host : jsstring) (timeoutMs : Z)
  : M (list Event) :=
  λ E w, (connection E (tick w) host timeoutMs, logged (OpConnect port host) w).

(** [crypto.randomBytes(16).toString("hex")] *)
Definition randomHex : M jsstring :=
  λ E w, (randomBytesHex E (tick w), next w).

(** How a call ends: it returns a value or it throws.  An [async]
    function that throws rejects its promise and the [await] of a
    rejected promise throws in turn, so one type serves both. *)
Inductive Completion (T : Type) :=
| Returned (v : T)
| Thrown.
Arguments Returned {T} v.
Arguments Thrown {T}.

(** [net.createConnection(25, host)] checks its arguments before there
    is a socket and throws on a host it does not take; a test double put
    in its place may throw as well.  Which hosts are refused is the
    platform's.  The computation [createConnection] above is the call
    that hands back a socket. *)
Class Net := {
  connectThrows : jsstring → bool
}.

(** A platform that takes every host. *)
Definition openNet : Net := {| connectThrows := λ _, false |}.

End Rt.

(* ===================================================================== *)
(** * core/dns.ts *)
(* ===================================================================== *)

Module Dns.
Import Rt.
Local Open Scope Z_scope.

(** [ResolveResult<T>]: [{ ok: true, records }] or [{ ok: false, error }]. *)
Inductive ResolveResult (T : Type) :=
| Ok (records : T)
| Err.
Arguments Ok {T} records.
Arguments Err {T}.

(** The envelopes the one cache holds ([CacheEntry<any>]). *)
Inductive Envelope :=
| EnvMx (r : ResolveResult (list MxRecord))
| EnvTxt (r : ResolveResult (list (list jsstring)))
| EnvAddr (r : ResolveResult (list jsstring)).

Abbreviation DnsCache := (Cache.DnsCache Envelope).

(** The cast of [cache.get<ResolveResult<T>>(key)].  It is unchecked in
    the source; a key carries its query kind, so a cache filled by this
    module never holds another kind under it.  An envelope of another
    kind reads as a failed one here. *)
Class Cached (T : Type) := {
  wrap : ResolveResult T → Envelope;
  unwrap : Envelope → ResolveResult T
}.

#[export] Instance cached_mx : Cached (list MxRecord) := {|
  wrap := EnvMx;
  unwrap e := match e with EnvMx r => r | _ => Err end
|}.

#[export] Instance cached_txt : Cached (list (list jsstring)) := {|
  wrap := EnvTxt;
  unwrap e := match e with EnvTxt r => r | _ => Err end
|}.

#[export] Instance cached_addr : Cached (list jsstring) := {|
  wrap := EnvAddr;
  unwrap e := match e with EnvAddr r => r | _ => Err end
|}.

Definition makeCacheKey (kind name : jsstring) : jsstring :=
  kind ++ js ":" ++ name.

(** [cache?.get(key)] *)
Definition cacheGet (cache : option DnsCache) (key : jsstring)
  : M (option (Cache.CacheEntry Envelope) * option DnsCache) :=
  match cache with
  | None => mret (None, None)
  | Some c =>
      now ← dateNow;
      let '(hit, c1) := Cache.get now key c in
      mret (hit, Some c1)
  end.

(** [cache?.set(key, result)] *)
Definition cacheSet (cache : option DnsCache) (key : jsstring) (e : Envelope)
  : M (option DnsCache) :=
  match cache with
  | None => mret None
  | Some c =>
      now ← dateNow;
      mret (Some (Cache.set now key e None c))
  end.

(** [resolveCached] runs up to its [await] when it is called: the cache
    is read and, on a miss, the query is issued.  What is left after the
    [await] is kept in [Started]. *)
Inductive Started (T : Type) :=
| Hit (r : ResolveResult T)
| Awaiting (key : jsstring) (answer : Settled T).
Arguments Hit {T} r.
Arguments Awaiting {T} key answer.

Definition resolveCached_call {T} `{Cached T} (cache : option DnsCache)
    (key : jsstring) (queryFn : M (Settled T))
  : M (Started T * option DnsCache) :=
  '(hit, cache1) ← cacheGet cache key;
  match hit with
  | Some entry => mret (Hit (unwrap (Cache.data entry)), cache1)
  | None =>
      answer ← queryFn;
      mret (Awaiting key answer, cache1)
  end.

(** The rest of [resolveCached], run when the query has settled. *)
Definition resolveCached_resume {T} `{Cached T} (cache : option DnsCache)
    (s : Started T) : M (ResolveResult T * option DnsCache) :=
  match s with
  | Hit r => mret (r, cache)
  | Awaiting key (Fulfilled records) =>
      let result := Ok records in
      cache1 ← cacheSet cache key (wrap result);
      mret (result, cache1)
  | Awaiting key Rejected =>
      let result := Err in
      cache1 ← cacheSet cache key (wrap result);
      mret (result, cache1)
  end.

Definition resolveMx (domain : jsstring) (timeoutMs : Z)
    (cache : option DnsCache) :=
  resolveCached_call cache (makeCacheKey (js "MX") domain)
                     (queryMx domain timeoutMs).

Definition resolveTxt (name : jsstring) (timeoutMs : Z)
    (cache : option DnsCache) :=
  resolveCached_call cache (makeCacheKey (js "TXT") name)
                     (queryTxt name timeoutMs).

Definition resolveA (domain : jsstring) (timeoutMs : Z)
    (cache : option DnsCache) :=
  resolveCached_call cache (makeCacheKey (js "A") domain)
                     (query4 domain timeoutMs).

Definition resolveAAAA (domain : jsstring) (timeoutMs : Z)
    (cache : option DnsCache) :=
  resolveCached_call cache (makeCacheKey (js "AAAA") domain)
                     (query6 domain timeoutMs).

(** [flattenTxt]: the chunks of each record are joined without a
    separator and the records left empty are dropped ([filter(Boolean)]). *)
Definition flattenTxt (records : list (list jsstring)) : list jsstring :=
  List.filter truthy ((λ chunks, concat chunks) <$> records).

Definition hasSpfRecord `{Runtime} (records : list jsstring) : bool :=
  existsb (λ record, startsWith (js "v=spf1") (toLowerCase record)) records.

Definition hasDmarcRecord `{Runtime} (records : list jsstring) : bool :=
  existsb (λ record, startsWith (js "v=dmarc1") (toLowerCase record)) records.

Definition computeDomainExists (mx txtAtRoot hasA hasAAAA : bool) : bool :=
  mx || txtAtRoot || hasA || hasAAAA.

(** The options of [checkDNS]; every field may be left out. *)
Record DnsOpts := mkOpts {
  opt_mx : option bool;
  opt_spf : option bool;
  opt_dmarc : option bool;
  opt_timeoutMs : option Z
}.

Record DnsResult := mkResult {
  domain : jsstring;
  domainExists : bool;
  mx : option bool;
  spf : option bool;
  dmarc : option bool;
  mxHosts : option (list jsstring)
}.

(** [x !== false] on an optional boolean *)
Definition notFalse (o : option bool) : bool :=
  match o with Some false => false | _ => true end.

(** [res && res.ok] followed by a reading of [res.records] *)
Definition okRecords {T} (res : option (ResolveResult T)) : option T :=
  match res with Some (Ok records) => Some records | _ => None end.

(** What [Promise.all] hands back: the five results, [None] for a lookup
    that was not made. *)
Record Lookups := mkLookups {
  mxRes : option (ResolveResult (list MxRecord));
  spfTxtRes : option (ResolveResult (list (list jsstring)));
  dmarcTxtRes : option (ResolveResult (list (list jsstring)));
  aRes : ResolveResult (list jsstring);
  aaaaRes : ResolveResult (list jsstring)
}.

(** The part of [checkDNS] after [Promise.all]: the results are folded
    into the outcome. *)
Definition assemble `{Runtime} (domain : jsstring)
    (checkMx checkSpf checkDmarc : bool) (found : Lookups) : DnsResult :=
  let '(mx, mxHosts) :=
    if checkMx then
      match okRecords (mxRes found) with
      | Some (r :: records) => (Some true, Some (exchange <$> r :: records))
      | _ => (Some false, None)
      end
    else (None, None) in
  let '(rootTxtRecords, spf) :=
    if checkSpf then
      match okRecords (spfTxtRes found) with
      | Some records =>
          let flat := flattenTxt records in (flat, Some (hasSpfRecord flat))
      | None => ([], Some false)
      end
    else ([], None) in
  let dmarc :=
    if checkDmarc then
      match okRecords (dmarcTxtRes found) with
      | Some records => Some (hasDmarcRecord (flattenTxt records))
      | None => Some false
      end
    else None in
  let hasA := match aRes found with Ok (_ :: _) => true | _ => false end in
  let hasAAAA := match aaaaRes found with Ok (_ :: _) => true | _ => false end in
  mkResult domain
    (computeDomainExists (bool_decide (mx = Some true))
                         (bool_decide (rootTxtRecords ≠ []))
                         hasA hasAAAA)
    mx spf dmarc mxHosts.

(** A lookup that is made only when its toggle is on. *)
Definition callIf {T} (enabled : bool) (cache : option DnsCache)
    (call : option DnsCache → M (Started T * option DnsCache))
  : M (option (Started T) * option DnsCache) :=
  if enabled then
    '(s, cache1) ← call cache;
    mret (Some s, cache1)
  else mret (None, cache).

Definition resumeIf {T} `{Cached T} (cache : option DnsCache)
    (s : option (Started T))
  : M (option (ResolveResult T) * option DnsCache) :=
  match s with
  | Some s =>
      '(r, cache1) ← resolveCached_resume cache s;
      mret (Some r, cache1)
  | None => mret (None, cache)
  end.

(** The part of [checkDNS] up to [Promise.all].  The five lookups are
    started in the order of the source; their continuations run in that
    order too, which is one of the orders [Promise.all] allows, and the
    only place where the order shows is the recency of the entries
    written to the cache. *)
Definition lookupAll (domain : jsstring) (timeoutMs : Z)
    (checkMx checkSpf checkDmarc : bool) (cache : option DnsCache)
  : M (Lookups * option DnsCache) :=
  '(mxP, cache) ← callIf checkMx cache (resolveMx domain timeoutMs);
  '(spfTxtP, cache) ← callIf checkSpf cache (resolveTxt domain timeoutMs);
  '(dmarcTxtP, cache) ←
    callIf checkDmarc cache (resolveTxt (js "_dmarc." ++ domain) timeoutMs);
  '(aP, cache) ← resolveA domain timeoutMs cache;
  '(aaaaP, cache) ← resolveAAAA domain timeoutMs cache;
  '(mxRes, cache) ← resumeIf cache mxP;
  '(spfTxtRes, cache) ← resumeIf cache spfTxtP;
  '(dmarcTxtRes, cache) ← resumeIf cache dmarcTxtP;
  '(aRes, cache) ← resolveCached_resume cache aP;
  '(aaaaRes, cache) ← resolveCached_resume cache aaaaP;
  mret (mkLookups mxRes spfTxtRes dmarcTxtRes aRes aaaaRes, cache).

(** [checkDNS(domain, opts, cache)] *)
Definition checkDNS `{Runtime} (domain : jsstring) (opts : DnsOpts)
    (cache : option DnsCache) : M (DnsResult * option DnsCache) :=
  let timeoutMs := default 4000 (opt_timeoutMs opts) in
  let checkMx := notFalse (opt_mx opts) in
  let checkSpf := notFalse (opt_spf opts) in
  let checkDmarc := notFalse (opt_dmarc opts) in
  '(found, cache1) ←
    lookupAll domain timeoutMs checkMx checkSpf checkDmarc cache;
  mret (assemble domain checkMx checkSpf checkDmarc found, cache1).

(** How a settled query reads once [resolveCached] has caught it. *)
Definition caught {T} (a : option (Settled T)) : ResolveResult T :=
  match race a with Fulfilled records => Ok records | Rejected => Err end.

(** The cache holds [e] under [key], not to expire while the clock of
    [E] runs. *)
Definition holds (E : Env) (c : DnsCache) (key : jsstring) (e : Envelope)
  : Prop :=
  ∃ expiry, Cache.mapGet key (Cache.store c) = Some (Cache.mkEntry e expiry)
            ∧ ∀ n, clock E n ≤ expiry.

(** The cache after some lookups were written to it: [n] bounds its
    size, [held] lists what it holds. *)
Definition filled (E : Env) (cap ttl : Z) (n : nat)
    (held : list (jsstring * Envelope)) (c : DnsCache) : Prop :=
  Cache.maxEntries c = cap ∧ Cache.ttlMs c = ttl
  ∧ (length (Cache.store c) ≤ n)%nat
  ∧ ∀ k e, (k, e) ∈ held → holds E c k e.

(** What the lookups found leaves in a cache: an envelope for each
    lookup that was made, under its key. *)
Definition entriesOf (d : jsstring) (found : Lookups)
  : list (jsstring * Envelope) :=
  [(makeCacheKey (js "AAAA") d, EnvAddr (aaaaRes found));
   (makeCacheKey (js "A") d, EnvAddr (aRes found))]
  ++ from_option
       (λ r, [(makeCacheKey (js "TXT") (js "_dmarc." ++ d), EnvTxt r)]) []
       (dmarcTxtRes found)
  ++ from_option (λ r, [(makeCacheKey (js "TXT") d, EnvTxt r)]) []
       (spfTxtRes found)
  ++ from_option (λ r, [(makeCacheKey (js "MX") d, EnvMx r)]) []
       (mxRes found).

Definition lookupsMade (checkMx checkSpf checkDmarc : bool)
    (found : Lookups) : Prop :=
  (is_Some (mxRes found) ↔ checkMx = true)
  ∧ (is_Some (spfTxtRes found) ↔ checkSpf = true)
  ∧ (is_Some (dmarcTxtRes found) ↔ checkDmarc = true).

End Dns.

(* ===================================================================== *)
(** * The state a probe closure captures *)
(* ===================================================================== *)

(** [connectAndProbe] and [smtpCatchAllProbe] each build a promise around
    one socket; their callbacks share a stage, a [resolved] flag, the
    timer and the socket.  [R] is the type the promise resolves to. *)
Module Probe.

Inductive Stage := Greet | Helo | Mailfrom | Rcpt | Done.

#[export] Instance Stage_eq_dec : EqDecision Stage.
Proof. solve_decision. Defined.

Record Session (R : Type) := mkSession {
  stage : Stage;
  resolved : bool;
  (** what [resolve] was called with, if it was *)
  result : option R;
  (** [socket.destroy()] was called *)
  destroyed : bool;
  (** [clearTimeout(timer)] was called *)
  timerCleared : bool;
  (** the arguments of [socket.write], oldest first *)
  written : list jsstring;
  (** the [lines] array *)
  lines : list jsstring
}.
Arguments mkSession {R}.
Arguments stage {R}.
Arguments resolved {R}.
Arguments result {R}.
Arguments destroyed {R}.
Arguments timerCleared {R}.
Arguments written {R}.
Arguments lines {R}.

Section Closure.
Context {R : Type}.

(** The state right after the handlers are installed. *)
Definition initial : Session R :=
  mkSession Greet false None false false [] [].

Definition setStage (st : Stage) (s : Session R) : Session R :=
  mkSession st (resolved s) (result s) (destroyed s) (timerCleared s)
            (written s) (lines s).

(** [done(result)] *)
Definition done (r : R) (s : Session R) : Session R :=
  if resolved s then s
  else mkSession (stage s) true (Some r) true (timerCleared s)
                 (written s) (lines s).

(** [send(cmd)] *)
Definition send (cmd : jsstring) (s : Session R) : Session R :=
  mkSession (stage s) (resolved s) (result s) (destroyed s) (timerCleared s)
            (written s ++ [cmd ++ [CR; LF]]) (lines s).

Definition clearTimeout (s : Session R) : Session R :=
  mkSession (stage s) (resolved s) (result s) (destroyed s) true
            (written s) (lines s).

(** [lines.push(text)] *)
Definition pushLine (text : jsstring) (s : Session R) : Session R :=
  mkSession (stage s) (resolved s) (result s) (destroyed s) (timerCleared s)
            (written s) (lines s ++ [text]).

(** The timer callback runs unless the timer was cleared. *)
Definition fire (r : R) (s : Session R) : Session R :=
  if timerCleared s then s else done r s.

(** The timer is only cleared on the way to a resolution, and a resolved
    session has a result. *)
Definition settled_inv (s : Session R) : Prop :=
  (timerCleared s = true → resolved s = true)
  ∧ (resolved s = true → is_Some (result s)).

(** An open session has no result yet. *)
Definition pending (s : Session R) : Prop :=
  resolved s = false → result s = None.

End Closure.

(** [line.match(/^(\d{3})/)?.[1]] *)
Definition parseCode (line : jsstring) : option jsstring :=
  match line with
  | a :: b :: c :: _ =>
      if isDigit a && isDigit b && isDigit c then Some [a; b; c] else None
  | _ => None
  end.

(** [text.trim().split(/\r?\n/).pop()], the empty string standing in
    for a missing piece. *)
Definition lastLineOf (text : jsstring) : jsstring :=
  default [] (last (splitLines (trim text))).

End Probe.

(* ===================================================================== *)
(** * core/smtp.ts *)
(* ===================================================================== *)

Module Smtp.
Import Rt Probe.
Local Open Scope Z_scope.

Inductive Status := valid | invalid | unknown.

#[export] Instance Status_eq_dec : EqDecision Status.
Proof. solve_decision. Defined.

Record SmtpProbeResult := mkProbe {
  status : Status;
  code : option jsstring
}.

(** The ["data"] handler. *)
Definition onData (email data : jsstring) (s0 : Session SmtpProbeResult)
  : Session SmtpProbeResult :=
  let text := data in
  let s := pushLine text s0 in
  let lastLine := lastLineOf text in
  match parseCode lastLine with
  | None => s
  | Some code =>
      if bool_decide (stage s = Greet) then
        setStage Helo (send (js "HELO localhost") s)
      else if bool_decide (stage s = Helo)
              && startsWith (js "250") lastLine then
        setStage Mailfrom (send (js "MAIL FROM:<probe@localhost>") s)
      else if bool_decide (stage s = Mailfrom)
              && startsWith (js "250") lastLine then
        setStage Rcpt (send (js "RCPT TO:<" ++ email ++ js ">") s)
      else if bool_decide (stage s = Rcpt)
              && startsWith (js "250") lastLine then
        done (mkProbe valid (Some code))
             (setStage Done (send (js "QUIT") (clearTimeout s)))
      else if bool_decide (stage s = Rcpt)
              && (startsWith (js "550") lastLine
                  || startsWith (js "551") lastLine
                  || startsWith (js "553") lastLine) then
        done (mkProbe invalid (Some code))
             (setStage Done (send (js "QUIT") (clearTimeout s)))
      else if bool_decide (stage s = Rcpt)
              && startsWith (js "4") lastLine then
        done (mkProbe unknown (Some code))
             (setStage Done (send (js "QUIT") (clearTimeout s)))
      else if startsWith (js "5") code then
        done (mkProbe unknown (Some code)) (setStage Done (clearTimeout s))
      else s
  end.

(** The ["error"] and ["end"] handlers. *)
Definition onError (s : Session SmtpProbeResult) : Session SmtpProbeResult :=
  done (mkProbe unknown None) (clearTimeout s).

Definition onEnd (s : Session SmtpProbeResult) : Session SmtpProbeResult :=
  done (mkProbe unknown None) (clearTimeout s).

(** The callback of [setTimeout]. *)
Definition onTimeout (s : Session SmtpProbeResult) : Session SmtpProbeResult :=
  fire (mkProbe unknown None) s.

Definition handle (email : jsstring) (s : Session SmtpProbeResult)
    (ev : Event) : Session SmtpProbeResult :=
  match ev with
  | EvData data => onData email data s
  | EvError _ => onError s
  | EvEnd => onEnd s
  | EvTimeout => onTimeout s
  end.

Definition run (email : jsstring) (events : list Event)
    (s : Session SmtpProbeResult) : Session SmtpProbeResult :=
  fold_left (handle email) events s.

(** What the promise resolves to once the events have been delivered.
    The timer fires after them if it is still armed, so that a session
    the events leave open is closed by it. *)
Definition outcome (email : jsstring) (events : list Event)
  : option SmtpProbeResult :=
  result (run email (events ++ [EvTimeout]) initial).

(** A reply that neither advances nor ends a session waiting for the
    answer to HELO or MAIL FROM. *)
Definition stalls (text : jsstring) : Prop :=
  startsWith (js "250") (lastLineOf text) = false
  ∧ ∀ code, parseCode (lastLineOf text) = Some code →
            startsWith (js "5") code = false.

(** The executor of [connectAndProbe] from the point where
    [net.createConnection] has handed back the socket: the handlers run
    on the events of the connection.  From there the promise always
    resolves (lemma [outcome_is_Some] below), the default is never
    read. *)
Definition session (host email : jsstring) (timeoutMs : Z)
  : M SmtpProbeResult :=
  events ← createConnection 25 host timeoutMs;
  mret (default (mkProbe unknown None) (outcome email events)).

(** [connectAndProbe(host, email, timeoutMs)].  [net.createConnection]
    is the first statement of the executor of the promise: when it
    throws, the promise rejects, no timer or handler having been set
    up and nothing having gone to the network. *)
Definition connectAndProbe `{Net} (host email : jsstring) (timeoutMs : Z)
  : M (Completion SmtpProbeResult) :=
  if connectThrows host then mret Thrown
  else
    r ← session host email timeoutMs;
    mret (Returned r).

(** The [for (const host of mxHosts)] loop of [probeSmtp].  The [await]
    of [connectAndProbe] stands in no [try]: a rejection leaves the
    loop and the function. *)
Fixpoint probeHosts `{Net} (hosts : list jsstring) (email : jsstring)
    (timeoutMs : Z) : M (Completion SmtpProbeResult) :=
  match hosts with
  | [] => mret (Returned (mkProbe unknown None))
  | host :: rest =>
      c ← connectAndProbe host email timeoutMs;
      match c with
      | Thrown => mret Thrown
      | Returned r =>
          if bool_decide (status r ≠ unknown) then mret (Returned r)
          else probeHosts rest email timeoutMs
      end
  end.

(** [probeSmtp(domain, email, opts, limiter, cache)].  The limiter and
    the cache are objects the caller shares: their new states are
    returned beside the completion, which they outlive when the call
    throws. *)
Definition probeSmtp `{Runtime} `{Net} (domain email : jsstring)
    (timeoutMs : Z) (limiter : Limiter.RateLimiter)
    (cache : option Dns.DnsCache)
  : M (Completion SmtpProbeResult * Limiter.RateLimiter
       * option Dns.DnsCache) :=
  now ← dateNow;
  let '(allowed, limiter1) := Limiter.allow now domain limiter in
  if negb allowed then
    mret (Returned (mkProbe unknown (Some (js "rate_limited"))),
          limiter1, cache)
  else
    '(dnsResult, cache1) ←
      Dns.checkDNS domain
        (Dns.mkOpts (Some true) (Some false) (Some false) (Some timeoutMs))
        cache;
    let mxHosts := default [] (Dns.mxHosts dnsResult) in
    if bool_decide (length mxHosts = 0%nat) then
      mret (Returned (mkProbe unknown None), limiter1, cache1)
    else
      c ← probeHosts mxHosts email timeoutMs;
      mret (c, limiter1, cache1).

(** The loop of [probeSmtp] in a run where every call of
    [net.createConnection] hands back a socket: [probeHosts] with
    [session] for [connectAndProbe] (lemma [probeHosts_sessions]
    below). *)
Fixpoint sessions (hosts : list jsstring) (email : jsstring)
    (timeoutMs : Z) : M SmtpProbeResult :=
  match hosts with
  | [] => mret (mkProbe unknown None)
  | host :: rest =>
      r ← session host email timeoutMs;
      if bool_decide (status r ≠ unknown) then mret r
      else sessions rest email timeoutMs
  end.

(** [probeSmtp] in such a run: the function returns (lemma
    [probeSmtp_sessions] below). *)
Definition probeSmtpSessions `{Runtime} (domain email : jsstring)
    (timeoutMs : Z) (limiter : Limiter.RateLimiter)
    (cache : option Dns.DnsCache)
  : M (SmtpProbeResult * Limiter.RateLimiter * option Dns.DnsCache) :=
  now ← dateNow;
  let '(allowed, limiter1) := Limiter.allow now domain limiter in
  if negb allowed then
    mret (mkProbe unknown (Some (js "rate_limited")), limiter1, cache)
  else
    '(dnsResult, cache1) ←
      Dns.checkDNS domain
        (Dns.mkOpts (Some true) (Some false) (Some false) (Some timeoutMs))
        cache;
    let mxHosts := default [] (Dns.mxHosts dnsResult) in
    if bool_decide (length mxHosts = 0%nat) then
      mret (mkProbe unknown None, limiter1, cache1)
    else
      r ← sessions mxHosts email timeoutMs;
      mret (r, limiter1, cache1).

(** Spec side: a session with every host of a list in turn, whatever
    the answers: the per-host outcomes the loop of [probeSmtp] picks
    from. *)
Fixpoint probeEach (hosts : list jsstring) (email : jsstring)
    (timeoutMs : Z) : M (list SmtpProbeResult) :=
  match hosts with
  | [] => mret []
  | host :: rest =>
      r ← session host email timeoutMs;
      rs ← probeEach rest email timeoutMs;
      mret (r :: rs)
  end.

(** Spec side: the first outcome whose status is not unknown, with the
    number of hosts tried to get it. *)
Fixpoint firstDefinitive (rs : list SmtpProbeResult)
  : SmtpProbeResult * nat :=
  match rs with
  | [] => (mkProbe unknown None, 0%nat)
  | r :: rest =>
      if bool_decide (status r ≠ unknown) then (r, 1%nat)
      else let '(r', n) := firstDefinitive rest in (r', S n)
  end.

(** Spec side: the position, in a list of hosts, of the first one
    [net.createConnection] throws on. *)
Fixpoint firstRefused `{Net} (hosts : list jsstring) : option nat :=
  match hosts with
  | [] => None
  | host :: rest =>
      if connectThrows host then Some 0%nat else S <$> firstRefused rest
  end.

(** The four commands of a probe, as they go on the wire. *)
Definition script (email : jsstring) : list jsstring :=
  [js "HELO localhost" ++ [CR; LF];
   js "MAIL FROM:<probe@localhost>" ++ [CR; LF];
   (js "RCPT TO:<" ++ email ++ js ">") ++ [CR; LF];
   js "QUIT" ++ [CR; LF]].

(** How far into the script a session at a given stage is. *)
Definition sent (st : Stage) (n : nat) : Prop :=
  match st with
  | Greet => n = 0%nat
  | Helo => n = 1%nat
  | Mailfrom => n = 2%nat
  | Rcpt => n = 3%nat
  | Done => True
  end.

Definition on_script (email : jsstring) (s : Session SmtpProbeResult)
  : Prop :=
  ∃ n, written s = take n (script email) ∧ sent (stage s) n.

(** What a reply must be for the session to resolve on it with a status
    that is not unknown. *)
Definition decides (text : jsstring) (r : SmtpProbeResult) : Prop :=
  let lastLine := lastLineOf text in
  code r = parseCode lastLine
  ∧ (status r = valid ∧ startsWith (js "250") lastLine = true
     ∨ status r = invalid
       ∧ (startsWith (js "550") lastLine || startsWith (js "551") lastLine
          || startsWith (js "553") lastLine) = true).

End Smtp.

(* ===================================================================== *)
(** * core/catchAll.ts *)
(* ===================================================================== *)

Module CatchAll.
Import Rt Probe.
Local Open Scope Z_scope.

Inductive Confidence := high | low.
Inductive Method := smtp_probe | heuristic | unknown.

Record CatchAllResult := mkCatchAll {
  isCatchAll : bool;
  confidence : Confidence;
  method : Method;
  details : option jsstring
}.

(** What [smtpCatchAllProbe] resolves to. *)
Record ProbeResult := mkProbe {
  accepts : bool;
  code : option jsstring;
  error : option jsstring
}.

Definition generateRandomEmail (domain : jsstring) : M jsstring :=
  randomPart ← randomHex;
  mret (js "catch-all-test-" ++ randomPart ++ js "@" ++ domain).

(** The ["data"] handler of [smtpCatchAllProbe]. *)
Definition onData (testEmail data : jsstring) (s : Session ProbeResult)
  : Session ProbeResult :=
  let text := data in
  let lastLine := lastLineOf text in
  match parseCode lastLine with
  | None => s
  | Some code =>
      if bool_decide (stage s = Greet) then
        setStage Helo (send (js "HELO localhost") s)
      else if bool_decide (stage s = Helo)
              && startsWith (js "250") lastLine then
        setStage Mailfrom (send (js "MAIL FROM:<probe@localhost>") s)
      else if bool_decide (stage s = Mailfrom)
              && startsWith (js "250") lastLine then
        setStage Rcpt (send (js "RCPT TO:<" ++ testEmail ++ js ">") s)
      else if bool_decide (stage s = Rcpt) then
        let s1 := setStage Done (send (js "QUIT") (clearTimeout s)) in
        if startsWith (js "250") lastLine then
          done (mkProbe true (Some code) None) s1
        else if startsWith (js "550") lastLine
                || startsWith (js "551") lastLine
                || startsWith (js "553") lastLine then
          done (mkProbe false (Some code) None) s1
        else if startsWith (js "4") lastLine then
          done (mkProbe false (Some code) (Some (js "temporary_error"))) s1
        else
          done (mkProbe false (Some code) (Some (js "unexpected_response"))) s1
      else if startsWith (js "5") code then
        done (mkProbe false (Some code) (Some (js "rejected_early")))
             (setStage Done (clearTimeout s))
      else s
  end.

(** The ["error"] handler; [message] is [err.message]. *)
Definition onError (message : jsstring) (s : Session ProbeResult)
  : Session ProbeResult :=
  done (mkProbe false None (Some message)) (clearTimeout s).

Definition onEnd (s : Session ProbeResult) : Session ProbeResult :=
  done (mkProbe false None (Some (js "connection_closed"))) (clearTimeout s).

Definition onTimeout (s : Session ProbeResult) : Session ProbeResult :=
  fire (mkProbe false None (Some (js "timeout"))) s.

Definition handle (testEmail : jsstring) (s : Session ProbeResult)
    (ev : Event) : Session ProbeResult :=
  match ev with
  | EvData data => onData testEmail data s
  | EvError message => onError message s
  | EvEnd => onEnd s
  | EvTimeout => onTimeout s
  end.

Definition run (testEmail : jsstring) (events : list Event)
    (s : Session ProbeResult) : Session ProbeResult :=
  fold_left (handle testEmail) events s.

Definition outcome (testEmail : jsstring) (events : list Event)
  : option ProbeResult :=
  result (run testEmail (events ++ [EvTimeout]) initial).

(** [smtpCatchAllProbe(host, testEmail, timeoutMs)] *)
Definition smtpCatchAllProbe (host testEmail : jsstring) (timeoutMs : Z)
  : M ProbeResult :=
  events ← createConnection 25 host timeoutMs;
  mret (default (mkProbe false None (Some (js "timeout")))
                (outcome testEmail events)).

(** [if (result.error)]: an absent or empty message is falsy. *)
Definition hasError (r : ProbeResult) : bool :=
  match error r with Some m => truthy m | None => false end.

Definition inconclusive : CatchAllResult :=
  mkCatchAll false low unknown (Some (js "Could not connect to any MX host")).

(** The [for (const host of mxHosts)] loop of [checkCatchAll]. *)
Fixpoint tryHosts (hosts : list jsstring) (testEmail : jsstring)
    (timeoutMs : Z) : M CatchAllResult :=
  match hosts with
  | [] => mret inconclusive
  | host :: rest =>
      r ← smtpCatchAllProbe host testEmail timeoutMs;
      if hasError r then tryHosts rest testEmail timeoutMs
      else if accepts r then
        mret (mkCatchAll true high smtp_probe
                (Some (js "Random address accepted by " ++ host)))
      else
        mret (mkCatchAll false high smtp_probe
                (Some (js "Random address rejected with code "
                       ++ default (js "undefined") (code r))))
  end.

(** Probing every host of a list in turn, whatever the answers. *)
Fixpoint probeEach (hosts : list jsstring) (testEmail : jsstring)
    (timeoutMs : Z) : M (list ProbeResult) :=
  match hosts with
  | [] => mret []
  | host :: rest =>
      r ← smtpCatchAllProbe host testEmail timeoutMs;
      rs ← probeEach rest testEmail timeoutMs;
      mret (r :: rs)
  end.

(** Spec side: the first host whose probe is conclusive decides, with
    high confidence; without one the detector is inconclusive. *)
Definition conclusive (p : jsstring * ProbeResult) : Prop :=
  hasError p.2 = false.

#[export] Instance conclusive_dec p : Decision (conclusive p).
Proof. unfold conclusive. apply _. Defined.

Definition conclude (probes : list (jsstring * ProbeResult))
  : CatchAllResult :=
  match list_find conclusive probes with
  | Some (_, (host, r)) =>
      if accepts r then
        mkCatchAll true high smtp_probe
          (Some (js "Random address accepted by " ++ host))
      else
        mkCatchAll false high smtp_probe
          (Some (js "Random address rejected with code "
                 ++ default (js "undefined") (code r)))
  | None => inconclusive
  end.

(** [checkCatchAll(domain, opts, cache)] *)
Definition checkCatchAll `{Runtime} (domain : jsstring)
    (optTimeoutMs : option Z) (cache : option Dns.DnsCache)
  : M (CatchAllResult * option Dns.DnsCache) :=
  let timeoutMs := default 5000 optTimeoutMs in
  '(dnsResult, cache1) ←
    Dns.checkDNS domain
      (Dns.mkOpts (Some true) (Some false) (Some false) (Some timeoutMs))
      cache;
  let mxHosts := default [] (Dns.mxHosts dnsResult) in
  if bool_decide (length mxHosts = 0%nat) then
    mret (mkCatchAll false low unknown (Some (js "No MX records found")),
          cache1)
  else
    testEmail ← generateRandomEmail domain;
    r ← tryHosts mxHosts testEmail timeoutMs;
    mret (r, cache1).

(** [mightBeCatchAll(domain, mxHosts)] *)
Definition mightBeCatchAll (domain : jsstring)
    (mxHosts : option (list jsstring)) : bool :=
  let personalTlds :=
    [js ".me"; js ".io"; js ".dev"; js ".page"; js ".app"; js ".xyz"] in
  let hasPersonalTld := existsb (λ tld, endsWith tld domain) personalTlds in
  if hasPersonalTld && negb (includes (js ".") domain) then true
  else false.

End CatchAll.

(* ===================================================================== *)
(** * core/normalize.ts *)
(* ===================================================================== *)

Module Normalize.

Record Normalized := mkNormalized {
  ok : bool;
  reason : option jsstring;
  localPart : option jsstring;
  domain : option jsstring;
  normalizedEmail : option jsstring;
  dnsDomain : option jsstring
}.

Definition failure (reason : string) : Normalized :=
  mkNormalized false (Some (js reason)) None None None None.

Definition normalizeEmail `{Runtime} (email : jsstring) : Normalized :=
  let trimmed := trim email in
  let parts := split AT trimmed in
  match parts with
  | [localPart; domainRaw] =>
      if negb (truthy localPart) then failure "Email local part is missing"
      else if negb (truthy domainRaw) then failure "Email domain is missing"
      else
        let domain := toLowerCase domainRaw in
        let normalizedEmail := localPart ++ js "@" ++ domain in
        match domainToASCII domain with
        | None => failure "Email domain is invalid"
        | Some dnsDomain =>
            if negb (truthy dnsDomain) then failure "Email domain is invalid"
            else mkNormalized true None (Some localPart) (Some domain)
                              (Some normalizedEmail) (Some dnsDomain)
        end
  | _ => failure "Email must contain a single @ symbol"
  end.

(** The inputs the syntax gate is specified to stop: no [@], more than
    one, nothing before it or nothing after it. *)
Definition malformed (email : jsstring) : Prop :=
  occurrences AT email ≠ 1%nat
  ∨ (∃ rest, email = AT :: rest)
  ∨ (∃ front, email = front ++ [AT]).

(** The inputs [normalizeEmail] accepts: once trimmed, a local part and
    a domain around a single [@], neither empty, the lowercased domain
    turning into an ASCII name that is not empty. *)
Definition wellFormed `{Runtime} (email lp dom ascii : jsstring) : Prop :=
  trim email = lp ++ AT :: dom
  ∧ lp ≠ [] ∧ dom ≠ [] ∧ (AT ∉ lp) ∧ (AT ∉ dom)
  ∧ domainToASCII (toLowerCase dom) = Some ascii ∧ ascii ≠ [].

End Normalize.

(* ===================================================================== *)
(** * verify.ts *)
(* ===================================================================== *)

Module Verify.
Import Rt.
Local Open Scope Z_scope.

Inductive Mode := basic | rfc.
Inductive Output := outBasic | outFull.
Inductive Severity := sevHigh | sevMedium | sevLow.

(** A value stored in the [data] of a trace step. *)
Inductive TraceValue :=
| TUndefined
| TString (s : jsstring)
| TBool (b : bool)
| TNumber (n : Z)
| TStrings (l : list jsstring).

Definition ofOption (o : option jsstring) : TraceValue :=
  match o with Some s => TString s | None => TUndefined end.

Record DebugTraceStep := mkStep {
  step : jsstring;
  detail : jsstring;
  data : list (jsstring * TraceValue)
}.

Record Intelligence := mkIntelligence {
  canonical : jsstring;
  provider : option jsstring;
  providerName : jsstring;
  providerType : option jsstring;
  isCustomDomain : bool;
  isRoleEmail : bool;
  roleCategory : option jsstring;
  hasPlusAddressing : bool;
  plusTag : option jsstring;
  dotsRemoved : Z;
  domainClassification : jsstring;
  mxProvider : option jsstring
}.

Record RiskItem := mkRisk {
  signal : jsstring;
  description : jsstring;
  severity : Severity;
  riskDetails : option jsstring
}.

Record ScoreBreakdownItem := mkBreakdown {
  check : jsstring;
  passed : bool;
  impact : Z;
  note : option jsstring
}.

Record SyntaxCheck := mkSyntaxCheck {
  syntaxOk : bool;
  syntaxMode : Mode;
  syntaxReason : option jsstring
}.

Record DnsCheck := mkDnsCheck {
  dnsDomainExists : option bool;
  dnsMx : option bool;
  dnsSpf : option bool;
  dnsDmarc : option bool;
  dnsMxHosts : option (list jsstring)
}.

Record Checks := mkChecks {
  syntax : SyntaxCheck;
  typo : bool * option jsstring;
  disposable : bool * option jsstring;
  dns : DnsCheck;
  smtp : bool * Smtp.Status * option jsstring;
  catchAll : option (bool * bool * jsstring);
  roleEmail : bool * option jsstring * option jsstring;
  patterns : bool * list jsstring
}.

(** The part of a detailed result a basic one lacks. *)
Record Details := mkDetails {
  intelligence : Intelligence;
  risks : list RiskItem;
  scoreBreakdown : list ScoreBreakdownItem
}.

(** [PMEmailResult], and [PMEmailDetailedResult] when [details] is there. *)
Record PMEmailResult := mkPMEmailResult {
  email : jsstring;
  normalizedEmail : jsstring;
  verdict : Scoring.Verdict;
  confidence : Z;
  reasons : list jsstring;
  checks : Checks;
  details : option Details
}.

Record Run := mkRun {
  result : PMEmailResult;
  trace : list DebugTraceStep
}.

Record ValidationRunOptions := mkRunOptions {
  collectTrace : bool;
  includeDetails : bool
}.

Record DnsOptionsResolved := mkDnsResolved {
  r_mx : bool;
  r_spf : bool;
  r_dmarc : bool;
  r_dnsTimeoutMs : Z
}.

Record SmtpOptionsResolved := mkSmtpResolved {
  enabled : bool;
  r_smtpTimeoutMs : Z;
  maxConnectionsPerDomainPerMinute : Z
}.

Record RuntimeOptions := mkRuntimeOptions {
  mode : Mode;
  typoSuggestions : bool;
  disposableEnabled : bool;
  patternsEnabled : bool;
  roleEmailEnabled : bool;
  catchAllEnabled : bool;
  dnsOpts : DnsOptionsResolved;
  smtpOpts : SmtpOptionsResolved
}.

(** The two pools of the module, [limiterPool] and [dnsCachePool].  The
    key of a cache, the template [`${ttlMs}:${maxEntries}`], is kept as the
    pair it is printed from. *)
Record Pools := mkPools {
  limiterPool : gmap Z Limiter.RateLimiter;
  dnsCachePool : gmap (Z * Z) Dns.DnsCache
}.

Section Pipeline.
Context `{Runtime}.

(** The fields of [VerifyOptions] only the stages after the syntax gate
    read: the disposable provider, the scoring overrides, the logger. *)
Context {LateOptions : Type}.

(** [VerifyOptions]; a field of an absent group reads as absent. *)
Record VerifyOptions := mkVerifyOptions {
  o_output : option Output;
  o_mode : option Mode;
  o_typoSuggestions : option bool;
  o_disposable_enabled : option bool;
  o_dns_mx : option bool;
  o_dns_spf : option bool;
  o_dns_dmarc : option bool;
  o_dns_timeoutMs : option Z;
  o_smtp_enabled : option bool;
  o_smtp_timeoutMs : option Z;
  o_smtp_maxConnectionsPerDomainPerMinute : option Z;
  o_catchAll_enabled : option bool;
  o_catchAll_timeoutMs : option Z;
  o_patterns_enabled : option bool;
  o_roleEmail_enabled : option bool;
  o_cache_dnsTtlMs : option Z;
  o_cache_maxEntries : option Z;
  o_late : LateOptions
}.

(** [validateSyntax] of [core/syntax.ts], a regular-expression check the
    orchestrator consumes as a signal: [(ok, reason)]. *)
Context (validateSyntax : jsstring → Mode → bool * option jsstring).

(** A pooled cache is referred to by its key. *)
Definition CacheRef : Type := (Z * Z)%type.

(** Steps 3 to 13 of [runValidation] and the assembly of the result, all
    of what follows the syntax gate.  It is given the locals that are
    live at that point. *)
Context (afterSyntaxGate :
  jsstring → VerifyOptions → ValidationRunOptions → RuntimeOptions →
  CacheRef → Normalize.Normalized → list DebugTraceStep → Pools →
  M (Run * Pools)).

Definition resolveOptions (options : VerifyOptions) : RuntimeOptions :=
  mkRuntimeOptions
    (default basic (o_mode options))
    (default true (o_typoSuggestions options))
    (default true (o_disposable_enabled options))
    (default true (o_patterns_enabled options))
    (default true (o_roleEmail_enabled options))
    (default false (o_catchAll_enabled options))
    (mkDnsResolved (default true (o_dns_mx options))
                   (default true (o_dns_spf options))
                   (default true (o_dns_dmarc options))
                   (default 4000 (o_dns_timeoutMs options)))
    (mkSmtpResolved
       (default false (o_smtp_enabled options))
       (default 4000 (o_smtp_timeoutMs options))
       (default 10 (o_smtp_maxConnectionsPerDomainPerMinute options))).

Definition createDnsCache (options : VerifyOptions) (pools : Pools)
  : CacheRef * Pools :=
  let ttlMs := default (10 * 60 * 1000) (o_cache_dnsTtlMs options) in
  let maxEntries := default 2000 (o_cache_maxEntries options) in
  let key := (ttlMs, maxEntries) in
  match dnsCachePool pools !! key with
  | Some existing => (key, pools)
  | None =>
      let created := Cache.new (Some maxEntries) (Some ttlMs) in
      (key, mkPools (limiterPool pools) (<[key := created]> (dnsCachePool pools)))
  end.

Definition toOutputResult (detailed : PMEmailResult) (output : Output)
  : PMEmailResult :=
  match output with
  | outFull => detailed
  | outBasic =>
      mkPMEmailResult (email detailed) (normalizedEmail detailed)
        (verdict detailed) (confidence detailed) (reasons detailed)
        (checks detailed) None
  end.

Definition buildInvalidResult (email normalizedEmail reason : jsstring)
    (mode : Mode) (smtpEnabled : bool) : PMEmailResult :=
  mkPMEmailResult email normalizedEmail Scoring.Invalid 0 [reason]
    (mkChecks (mkSyntaxCheck false mode (Some reason))
              (false, None)
              (false, None)
              (mkDnsCheck None None None None None)
              (smtpEnabled, Smtp.unknown, None)
              None
              (false, None, None)
              (false, []))
    (Some (mkDetails
       (mkIntelligence normalizedEmail None (js "Unknown") None false false
                       None false None 0 (js "unknown") None)
       []
       [mkBreakdown (js "syntax") false (-100) (Some reason)])).

(** The [pushTrace] closure: [trace] grows only when tracing is on. *)
Definition pushTrace (runOptions : ValidationRunOptions)
    (step detail : jsstring) (data : list (jsstring * TraceValue))
    (trace : list DebugTraceStep) : list DebugTraceStep :=
  if collectTrace runOptions then trace ++ [mkStep step detail data]
  else trace.

Definition truthyOpt (o : option jsstring) : bool :=
  match o with Some s => truthy s | None => false end.

(** [runValidation(email, options, runOptions)] *)
Definition runValidation (email : jsstring) (options : VerifyOptions)
    (runOptions : ValidationRunOptions) (pools : Pools) : M (Run * Pools) :=
  let trace := [] in
  let ro := resolveOptions options in
  let '(cache, pools1) := createDnsCache options pools in
  (* Step 1: Normalize *)
  let normalized := Normalize.normalizeEmail email in
  let trace :=
    pushTrace runOptions (js "normalize")
      (if Normalize.ok normalized then js "normalized" else js "failed")
      [(js "reason", ofOption (Normalize.reason normalized));
       (js "normalizedEmail", ofOption (Normalize.normalizedEmail normalized))]
      trace in
  if negb (Normalize.ok normalized)
     || negb (truthyOpt (Normalize.normalizedEmail normalized))
     || negb (truthyOpt (Normalize.domain normalized))
     || negb (truthyOpt (Normalize.localPart normalized)) then
    let detailed :=
      buildInvalidResult email
        (default (trim email) (Normalize.normalizedEmail normalized))
        (default (js "Invalid email") (Normalize.reason normalized))
        (mode ro) (enabled (smtpOpts ro)) in
    mret (mkRun (if includeDetails runOptions then detailed
                 else toOutputResult detailed outBasic) trace,
          pools1)
  else
    (* Step 2: Syntax validation *)
    let normalizedEmail := default [] (Normalize.normalizedEmail normalized) in
    let '(syntaxOk, syntaxReason) := validateSyntax normalizedEmail (mode ro) in
    let trace :=
      pushTrace runOptions (js "syntax")
        (if syntaxOk then js "ok" else js "failed")
        [(js "mode", TString (match mode ro with
                              | basic => js "basic" | rfc => js "rfc" end));
         (js "reason", ofOption syntaxReason)]
        trace in
    if negb syntaxOk then
      let detailed :=
        buildInvalidResult email normalizedEmail
          (default (js "Invalid email syntax") syntaxReason)
          (mode ro) (enabled (smtpOpts ro)) in
      mret (mkRun (if includeDetails runOptions then detailed
                   else toOutputResult detailed outBasic) trace,
            pools1)
    else
      afterSyntaxGate email options runOptions ro cache normalized trace pools1.

(** [verifyEmail(email, options)] *)
Definition verifyEmail (email : jsstring) (options : VerifyOptions)
    (pools : Pools) : M (PMEmailResult * Pools) :=
  let output := default outBasic (o_output options) in
  let includeDetails := match output with outFull => true | _ => false end in
  '(run, pools1) ←
    runValidation email options (mkRunOptions false includeDetails) pools;
  if includeDetails then mret (result run, pools1)
  else mret (toOutputResult (result run) outBasic, pools1).

(** [debugVerifyEmail(email, options)] *)
Definition debugVerifyEmail (email : jsstring) (options : VerifyOptions)
    (pools : Pools) : M (Run * Pools) :=
  runValidation email options (mkRunOptions true true) pools.

End Pipeline.

End Verify.

(* ===================================================================== *)
(** * Regular expressions *)
(* ===================================================================== *)

(** The regular expressions of [core/syntax.ts] have no group that
    captures and no assertion but the two anchors around the whole
    pattern, and they are tested without flags: [re.test(s)] asks whether
    the code units of [s], all of them, are in the language of the
    pattern.  The test is run by derivatives. *)
Module Regex.

Inductive regex :=
| Void
| Eps
| Class (p : N → bool)
| Seq (r1 r2 : regex)
| Alt (r1 r2 : regex)
| Star (r : regex).

(** A literal code unit, [r+] and [r{2,}]. *)
Definition Chr (c : N) : regex := Class (N.eqb c).
Definition Plus (r : regex) : regex := Seq r (Star r).
Definition TwoOrMore (r : regex) : regex := Seq r (Seq r (Star r)).

Fixpoint nullable (r : regex) : bool :=
  match r with
  | Void => false
  | Eps => true
  | Class _ => false
  | Seq r1 r2 => nullable r1 && nullable r2
  | Alt r1 r2 => nullable r1 || nullable r2
  | Star _ => true
  end.

(** What is left of [r] once the code unit [c] has been read. *)
Fixpoint deriv (c : N) (r : regex) : regex :=
  match r with
  | Void => Void
  | Eps => Void
  | Class p => if p c then Eps else Void
  | Seq r1 r2 =>
      if nullable r1 then Alt (Seq (deriv c r1) r2) (deriv c r2)
      else Seq (deriv c r1) r2
  | Alt r1 r2 => Alt (deriv c r1) (deriv c r2)
  | Star r1 => Seq (deriv c r1) (Star r1)
  end.

(** [/^r$/.test(s)] *)
Definition test (r : regex) (s : jsstring) : bool :=
  nullable (fold_left (λ r c, deriv c r) s r).

(** The language of an expression. *)
Inductive lang : regex → jsstring → Prop :=
| lang_eps : lang Eps []
| lang_class p c : p c = true → lang (Class p) [c]
| lang_seq r1 r2 s1 s2 :
    lang r1 s1 → lang r2 s2 → lang (Seq r1 r2) (s1 ++ s2)
| lang_alt_l r1 r2 s : lang r1 s → lang (Alt r1 r2) s
| lang_alt_r r1 r2 s : lang r2 s → lang (Alt r1 r2) s
| lang_star_nil r : lang (Star r) []
| lang_star_app r s1 s2 :
    lang r s1 → lang (Star r) s2 → lang (Star r) (s1 ++ s2).

End Regex.

(* ===================================================================== *)
(** * core/syntax.ts *)
(* ===================================================================== *)

Module Syntax.
Import Regex Verify.

Definition DOT : N := 46%N.

(** The class [[^\s@]] *)
Definition notSpaceNorAt (c : N) : bool :=
  negb (isWhiteSpace c) && negb (c =? AT)%N.

(** [/^[^\s@]+@[^\s@]+\.[^\s@]+$/] *)
Definition BASIC_RE : regex :=
  Seq (Plus (Class notSpaceNorAt))
      (Seq (Chr AT)
           (Seq (Plus (Class notSpaceNorAt))
                (Seq (Chr DOT) (Plus (Class notSpaceNorAt))))).

Definition isAlpha (c : N) : bool :=
  ((65 <=? c) && (c <=? 90) || (97 <=? c) && (c <=? 122))%N.

(** The class of [localRe], letters, digits and the listed signs. *)
Definition localClass (c : N) : bool :=
  isAlpha c || isDigit c || existsb (N.eqb c) (js "!#$%&'*+/=?^_`{|}~.-").

(** The class [[A-Za-z0-9-]] *)
Definition labelClass (c : N) : bool :=
  isAlpha c || isDigit c || (c =? 45)%N.

Definition localRe : regex := Plus (Class localClass).

(** [/^(?:[A-Za-z0-9-]+\.)+[A-Za-z]{2,}$/] *)
Definition domainRe : regex :=
  Seq (Plus (Seq (Plus (Class labelClass)) (Chr DOT)))
      (TwoOrMore (Class isAlpha)).

Definition reject (reason : string) : bool * option jsstring :=
  (false, Some (js reason)).

(** [validateSyntax(email, mode)]: [(ok, reason)]. *)
Definition validateSyntax (email : jsstring) (mode : Mode)
  : bool * option jsstring :=
  match mode with
  | basic =>
      if negb (test BASIC_RE email)
      then reject "Email does not match basic syntax"
      else (true, None)
  | rfc =>
      if bool_decide (254 < length email)%nat
      then reject "Email length exceeds 254 characters"
      else
        match split AT email with
        | [local; domain] =>
            if negb (truthy local) || negb (truthy domain)
            then reject "Email local or domain part missing"
            else if bool_decide (64 < length local)%nat
            then reject "Local part exceeds 64 characters"
            else if startsWith (js ".") local || endsWith (js ".") local
                    || includes (js "..") local
            then reject "Local part has invalid dot placement"
            else if negb (test localRe local)
            then reject "Local part contains invalid characters"
            else if negb (test domainRe domain)
            then reject "Domain part is invalid"
            else (true, None)
        | _ => reject "Email must contain a single @ symbol"
        end
  end.

(** A string the class [[^\s@]+] matches. *)
Definition plain (s : jsstring) : Prop :=
  s ≠ [] ∧ Forall (λ c, notSpaceNorAt c = true) s.

End Syntax.

(* ===================================================================== *)
(** * verify.ts: the stages after the syntax gate *)
(* ===================================================================== *)

(** What [runValidation] reads of the results of [detectProvider]
    ([core/provider.ts]), [getCanonicalEmail] ([core/canonical.ts]),
    [isRoleEmail] ([core/roleEmail.ts]) and [detectPatterns]
    ([core/patterns.ts]). *)
Module Provider.

Record ProviderInfo := mkInfo {
  id : jsstring;
  name : jsstring;
  type : jsstring
}.

Record ProviderDetectionResult := mkDetection {
  provider : option ProviderInfo;
  detectionMethod : jsstring;
  isCustomDomain : bool;
  mxProvider : option jsstring
}.

End Provider.

Module Canonical.

Record CanonicalResult := mkCanonical {
  canonical : jsstring;
  wasNormalized : bool;
  dotsRemoved : Z;
  plusTagRemoved : bool;
  plusTag : option jsstring
}.

End Canonical.

Module RoleEmail.

Record RoleEmailResult := mkRole {
  isRole : bool;
  prefix : option jsstring;
  category : option jsstring
}.

End RoleEmail.

Module Patterns.
Import Verify.

Record PatternSignal := mkSignal {
  type : jsstring;
  description : jsstring;
  severity : Severity;
  matched : option jsstring
}.

Definition isHigh (s : PatternSignal) : bool :=
  match severity s with sevHigh => true | _ => false end.

Definition isMedium (s : PatternSignal) : bool :=
  match severity s with sevMedium => true | _ => false end.

(** [getHighestSeverity(signals)] *)
Definition getHighestSeverity (signals : list PatternSignal)
  : option Severity :=
  if bool_decide (length signals = 0%nat) then None
  else if existsb isHigh signals then Some sevHigh
  else if existsb isMedium signals then Some sevMedium
  else Some sevLow.

End Patterns.

Module Pipeline.
Import Rt Verify.
Local Open Scope Z_scope.

(** [Weights].  The weights are taken to be integers, as the defaults
    are and as the [impact] of a breakdown item is typed: the score is
    then an integer and [clampScore] is [Scoring.clampScore].  A weight
    that is no integer is outside this model, [NaN] and [undefined]
    included; the score it leads to and what [clampScore] makes of it are
    the matter of [Scoring.Num]. *)
Record Weights := mkWeights {
  typo : Z;
  disposable : Z;
  noMx : Z;
  noSpf : Z;
  noDmarc : Z;
  smtpInvalid : Z;
  smtpUnknown : Z;
  catchAll : Z;
  roleEmail : Z;
  patternHigh : Z;
  patternMedium : Z;
  patternLow : Z;
  plusAddressing : Z
}.

(** [DEFAULT_WEIGHTS] of [core/scoring.ts] *)
Definition DEFAULT_WEIGHTS : Weights :=
  mkWeights 25 60 50 10 10 80 5 10 5 20 10 5 3.

(** [Partial<Weights>]: a key is there, holding an integer, or it is
    not.  A key that is there and holds [undefined], which the spread of
    [mergeWeights] would put in the place of the default, is outside the
    model as well. *)
Record PartialWeights := mkPartial {
  p_typo : option Z;
  p_disposable : option Z;
  p_noMx : option Z;
  p_noSpf : option Z;
  p_noDmarc : option Z;
  p_smtpInvalid : option Z;
  p_smtpUnknown : option Z;
  p_catchAll : option Z;
  p_roleEmail : option Z;
  p_patternHigh : option Z;
  p_patternMedium : option Z;
  p_patternLow : option Z;
  p_plusAddressing : option Z
}.

Definition noWeights : PartialWeights :=
  mkPartial None None None None None None None None None None None None None.

(** [{ ...DEFAULT_WEIGHTS, ...options.scoring?.weights }] *)
Definition mergeWeights (given : option PartialWeights) : Weights :=
  let g := default noWeights given in
  let d := DEFAULT_WEIGHTS in
  mkWeights (default (typo d) (p_typo g))
            (default (disposable d) (p_disposable g))
            (default (noMx d) (p_noMx g))
            (default (noSpf d) (p_noSpf g))
            (default (noDmarc d) (p_noDmarc g))
            (default (smtpInvalid d) (p_smtpInvalid g))
            (default (smtpUnknown d) (p_smtpUnknown g))
            (default (catchAll d) (p_catchAll g))
            (default (roleEmail d) (p_roleEmail g))
            (default (patternHigh d) (p_patternHigh g))
            (default (patternMedium d) (p_patternMedium g))
            (default (patternLow d) (p_patternLow g))
            (default (plusAddressing d) (p_plusAddressing g)).

(** [getPatternImpact(severity, weights)] *)
Definition getPatternImpact (severity : Severity) (weights : Weights) : Z :=
  match severity with
  | sevHigh => patternHigh weights
  | sevMedium => patternMedium weights
  | sevLow => patternLow weights
  end.

(** [getLimiter(limit)] *)
Definition getLimiter (limit : Z) (pools : Pools)
  : Limiter.RateLimiter * Pools :=
  match limiterPool pools !! limit with
  | Some limiter => (limiter, pools)
  | None =>
      let limiter := Limiter.new limit (60 * 1000) in
      (limiter,
       mkPools (<[limit := limiter]> (limiterPool pools)) (dnsCachePool pools))
  end.

(** The objects of the pools are shared: what a callee does to the
    limiter or to the cache it was handed shows in the pool. *)
Definition putLimiter (limit : Z) (limiter : Limiter.RateLimiter)
    (pools : Pools) : Pools :=
  mkPools (<[limit := limiter]> (limiterPool pools)) (dnsCachePool pools).

Definition putCache (ref : CacheRef) (cache : option Dns.DnsCache)
    (pools : Pools) : Pools :=
  match cache with
  | Some c => mkPools (limiterPool pools) (<[ref := c]> (dnsCachePool pools))
  | None => pools
  end.

(** [createInitialChecks(mode, smtpEnabled)] *)
Definition createInitialChecks (mode : Mode) (smtpEnabled : bool) : Checks :=
  mkChecks (mkSyntaxCheck true mode None)
           (true, None)
           (false, None)
           (mkDnsCheck None None None None None)
           (smtpEnabled, Smtp.unknown, None)
           None
           (false, None, None)
           (false, []).

Definition withDns (d : DnsCheck) (c : Checks) : Checks :=
  mkChecks (syntax c) (Verify.typo c) (Verify.disposable c) d (smtp c)
           (Verify.catchAll c) (Verify.roleEmail c) (patterns c).

Definition withRoleEmail (r : bool * option jsstring * option jsstring)
    (c : Checks) : Checks :=
  mkChecks (syntax c) (Verify.typo c) (Verify.disposable c) (dns c) (smtp c)
           (Verify.catchAll c) r (patterns c).

Definition withPatterns (p : bool * list jsstring) (c : Checks) : Checks :=
  mkChecks (syntax c) (Verify.typo c) (Verify.disposable c) (dns c) (smtp c)
           (Verify.catchAll c) (Verify.roleEmail c) p.

Definition withTypo (t : bool * option jsstring) (c : Checks) : Checks :=
  mkChecks (syntax c) t (Verify.disposable c) (dns c) (smtp c)
           (Verify.catchAll c) (Verify.roleEmail c) (patterns c).

Definition withDisposable (d : bool * option jsstring) (c : Checks)
  : Checks :=
  mkChecks (syntax c) (Verify.typo c) d (dns c) (smtp c)
           (Verify.catchAll c) (Verify.roleEmail c) (patterns c).

Definition withSmtp (s : bool * Smtp.Status * option jsstring) (c : Checks)
  : Checks :=
  mkChecks (syntax c) (Verify.typo c) (Verify.disposable c) (dns c) s
           (Verify.catchAll c) (Verify.roleEmail c) (patterns c).

Definition withCatchAll (a : bool * bool * jsstring) (c : Checks) : Checks :=
  mkChecks (syntax c) (Verify.typo c) (Verify.disposable c) (dns c) (smtp c)
           (Some a) (Verify.roleEmail c) (patterns c).

(** The locals [runValidation] builds the result in. *)
Record Locals := mkLocals {
  score : Z;
  l_reasons : list jsstring;
  l_risks : list RiskItem;
  l_scoreBreakdown : list ScoreBreakdownItem;
  l_checks : Checks;
  l_trace : list DebugTraceStep
}.

Definition setScore (n : Z) (l : Locals) : Locals :=
  mkLocals n (l_reasons l) (l_risks l) (l_scoreBreakdown l) (l_checks l)
           (l_trace l).

(** [score -= n] *)
Definition deduct (n : Z) (l : Locals) : Locals := setScore (score l - n) l.

(** [reasons.push(reason)] *)
Definition pushReason (reason : jsstring) (l : Locals) : Locals :=
  mkLocals (score l) (l_reasons l ++ [reason]) (l_risks l)
           (l_scoreBreakdown l) (l_checks l) (l_trace l).

Definition setChecks (c : Checks) (l : Locals) : Locals :=
  mkLocals (score l) (l_reasons l) (l_risks l) (l_scoreBreakdown l) c
           (l_trace l).

Section Stages.
Context `{Runtime}.

(** A provider of disposable domains, an object with a [has] method. *)
Context {DisposableProvider : Type}.

(** The late options: [disposable.provider] and [scoring]. *)
Record LateOptions := mkLate {
  o_disposable_provider : option DisposableProvider;
  o_scoring_weights : option PartialWeights;
  o_scoring_thresholds : option Scoring.Thresholds
}.

Abbreviation Options := (@VerifyOptions LateOptions).

(** The collaborators of the stages, functions of their arguments. *)
Context (detectProvider :
           jsstring → option (list jsstring) → Provider.ProviderDetectionResult)
        (getProviderName : jsstring → option (list jsstring) → jsstring)
        (getCanonicalEmail :
           jsstring → option (list jsstring) → Canonical.CanonicalResult)
        (isRoleEmail : jsstring → RoleEmail.RoleEmailResult)
        (detectPatterns : jsstring → list Patterns.PatternSignal)
        (suggestTypo : jsstring → bool * option jsstring)
        (checkDisposable :
           jsstring → option DisposableProvider → bool * option jsstring).

(** How the list of [{ type, match }] objects of the patterns step is
    kept in a trace. *)
Context (traceOfPatterns : list Patterns.PatternSignal → TraceValue).

Section Run.
Context (runOptions : ValidationRunOptions).

(** The three closures of [runValidation]. *)
Definition trace (step detail : jsstring)
    (data : list (jsstring * TraceValue)) (l : Locals) : Locals :=
  mkLocals (score l) (l_reasons l) (l_risks l) (l_scoreBreakdown l)
           (l_checks l) (pushTrace runOptions step detail data (l_trace l)).

Definition maybePushRisk (risk : RiskItem) (l : Locals) : Locals :=
  if includeDetails runOptions
  then mkLocals (score l) (l_reasons l) (l_risks l ++ [risk])
                (l_scoreBreakdown l) (l_checks l) (l_trace l)
  else l.

Definition maybePushScoreBreakdown (item : ScoreBreakdownItem) (l : Locals)
  : Locals :=
  if includeDetails runOptions
  then mkLocals (score l) (l_reasons l) (l_risks l)
                (l_scoreBreakdown l ++ [item]) (l_checks l) (l_trace l)
  else l.

Definition ofBool (o : option bool) : TraceValue :=
  match o with Some b => TBool b | None => TUndefined end.

Definition ofStrings (o : option (list jsstring)) : TraceValue :=
  match o with Some l => TStrings l | None => TUndefined end.

(** Step 3, after [checkDNS] has answered. *)
Definition stageDns (dnsResult : Dns.DnsResult) (l : Locals) : Locals :=
  let l :=
    trace (js "dns") (js "checked")
      [(js "domainExists", TBool (Dns.domainExists dnsResult));
       (js "mx", ofBool (Dns.mx dnsResult));
       (js "spf", ofBool (Dns.spf dnsResult));
       (js "dmarc", ofBool (Dns.dmarc dnsResult));
       (js "mxHosts", ofStrings (Dns.mxHosts dnsResult))] l in
  setChecks
    (withDns (mkDnsCheck (Some (Dns.domainExists dnsResult))
                         (Dns.mx dnsResult) (Dns.spf dnsResult)
                         (Dns.dmarc dnsResult) (Dns.mxHosts dnsResult))
             (l_checks l)) l.

(** Step 4: provider detection, made for the detailed result only. *)
Definition stageProvider
    (providerResult : option Provider.ProviderDetectionResult) (l : Locals)
  : Locals :=
  match providerResult with
  | Some r =>
      trace (js "provider")
        (match Provider.provider r with
         | Some _ => js "detected"
         | None => js "unknown"
         end)
        [(js "provider", ofOption (Provider.id <$> Provider.provider r));
         (js "providerName",
          ofOption (Provider.name <$> Provider.provider r));
         (js "detectionMethod", TString (Provider.detectionMethod r));
         (js "isCustomDomain", TBool (Provider.isCustomDomain r))] l
  | None => l
  end.

(** Step 5 *)
Definition stageCanonical (canonicalResult : Canonical.CanonicalResult)
    (l : Locals) : Locals :=
  trace (js "canonical")
    (if Canonical.wasNormalized canonicalResult
     then js "normalized" else js "unchanged")
    [(js "canonical", TString (Canonical.canonical canonicalResult));
     (js "dotsRemoved", TNumber (Canonical.dotsRemoved canonicalResult));
     (js "plusTag", ofOption (Canonical.plusTag canonicalResult))] l.

(** A template literal prints an absent string as [undefined]. *)
Definition shown (o : option jsstring) : jsstring :=
  default (js "undefined") o.

(** Step 6.  The role result the later steps read is returned too. *)
Definition stageRoleEmail (roleEmailEnabled : bool) (weights : Weights)
    (localPart : jsstring) (l : Locals)
  : RoleEmail.RoleEmailResult * Locals :=
  if roleEmailEnabled then
    let roleResult := isRoleEmail localPart in
    let l :=
      setChecks
        (withRoleEmail (RoleEmail.isRole roleResult,
                        RoleEmail.prefix roleResult,
                        RoleEmail.category roleResult) (l_checks l)) l in
    let l :=
      trace (js "roleEmail")
        (if RoleEmail.isRole roleResult
         then js "detected" else js "not_detected")
        [(js "prefix", ofOption (RoleEmail.prefix roleResult));
         (js "category", ofOption (RoleEmail.category roleResult))] l in
    if RoleEmail.isRole roleResult then
      let l := deduct (roleEmail weights) l in
      let l :=
        pushReason
          (js "Role-based email address ("
           ++ default (js "generic") (RoleEmail.category roleResult)
           ++ js ")") l in
      let l :=
        maybePushRisk
          (mkRisk (js "role_email") (js "Role-based email address") sevLow
                  (RoleEmail.prefix roleResult)) l in
      (roleResult,
       maybePushScoreBreakdown
         (mkBreakdown (js "role_email") false (- roleEmail weights)
            (Some (js "Role: " ++ shown (RoleEmail.prefix roleResult)))) l)
    else
      (roleResult,
       maybePushScoreBreakdown (mkBreakdown (js "role_email") true 0 None) l)
  else (RoleEmail.mkRole false None None, l).

(** The body of [for (const pattern of patterns)]. *)
Definition eachPattern (weights : Weights) (l : Locals)
    (pattern : Patterns.PatternSignal) : Locals :=
  let impact := getPatternImpact (Patterns.severity pattern) weights in
  let l := deduct impact l in
  let l :=
    maybePushRisk
      (mkRisk (Patterns.type pattern) (Patterns.description pattern)
              (Patterns.severity pattern) (Patterns.matched pattern)) l in
  maybePushScoreBreakdown
    (mkBreakdown (js "pattern_" ++ Patterns.type pattern) false (- impact)
                 (Some (Patterns.description pattern))) l.

(** Step 7 *)
Definition stagePatterns (patternsEnabled : bool) (weights : Weights)
    (localPart : jsstring) (l : Locals) : Locals :=
  if patternsEnabled then
    let patterns := detectPatterns localPart in
    let hasPatterns := bool_decide (0 < length patterns)%nat in
    let l :=
      setChecks
        (withPatterns (hasPatterns, Patterns.type <$> patterns) (l_checks l))
        l in
    let l :=
      trace (js "patterns") (if hasPatterns then js "detected" else js "none")
        [(js "patterns", traceOfPatterns patterns)] l in
    if hasPatterns then
      let highestSeverity := Patterns.getHighestSeverity patterns in
      let l := fold_left (eachPattern weights) patterns l in
      match highestSeverity with
      | Some sevHigh => pushReason (js "Suspicious email pattern detected") l
      | _ => l
      end
    else
      maybePushScoreBreakdown (mkBreakdown (js "patterns") true 0 None) l
  else l.

(** Step 8 *)
Definition stagePlus (weights : Weights)
    (canonicalResult : Canonical.CanonicalResult) (l : Locals) : Locals :=
  if Canonical.plusTagRemoved canonicalResult then
    let l := deduct (plusAddressing weights) l in
    let l :=
      maybePushRisk
        (mkRisk (js "plus_addressing") (js "Uses plus addressing") sevLow
           (Some (js "+" ++ shown (Canonical.plusTag canonicalResult)))) l in
    maybePushScoreBreakdown
      (mkBreakdown (js "plus_addressing") true (- plusAddressing weights)
         (Some (js "Minor signal - user may be tracking source"))) l
  else l.

(** Step 9 *)
Definition stageTypo (typoSuggestions : bool) (weights : Weights)
    (normalizedEmail : jsstring) (l : Locals) : Locals :=
  if typoSuggestions then
    let typo := suggestTypo normalizedEmail in
    let l := setChecks (withTypo typo (l_checks l)) l in
    let l :=
      trace (js "typo")
        (if truthyOpt typo.2 then js "suggested" else js "none")
        [(js "suggestedEmail", ofOption typo.2)] l in
    if truthyOpt typo.2 then
      let l := deduct (Pipeline.typo weights) l in
      let l :=
        pushReason
          (js "Domain looks misspelled. Did you mean " ++ shown typo.2
           ++ js "?") l in
      let l :=
        maybePushRisk
          (mkRisk (js "typo_domain") (js "Domain may be a typo") sevMedium
                  typo.2) l in
      maybePushScoreBreakdown
        (mkBreakdown (js "typo") false (- Pipeline.typo weights)
           (Some (js "Suggestion: " ++ shown typo.2))) l
    else maybePushScoreBreakdown (mkBreakdown (js "typo") true 0 None) l
  else l.

(** Step 10 *)
Definition stageDisposable (disposableEnabled : bool) (weights : Weights)
    (domain : jsstring) (provider : option DisposableProvider) (l : Locals)
  : Locals :=
  if disposableEnabled then
    let disposable := checkDisposable domain provider in
    let l := setChecks (withDisposable disposable (l_checks l)) l in
    let l :=
      trace (js "disposable")
        (if disposable.1 then js "detected" else js "not_detected")
        [(js "source", ofOption disposable.2)] l in
    if disposable.1 then
      let l := deduct (Pipeline.disposable weights) l in
      let l := pushReason (js "Disposable email domain detected") l in
      let l :=
        maybePushRisk
          (mkRisk (js "disposable_domain")
             (js "Disposable/temporary email domain") sevHigh None) l in
      maybePushScoreBreakdown
        (mkBreakdown (js "disposable") false (- Pipeline.disposable weights)
           (Some (js "Temporary email provider"))) l
    else maybePushScoreBreakdown (mkBreakdown (js "disposable") true 0 None) l
  else l.

(** One of the three blocks of step 11: [enabled] is the option,
    [found] the field of the DNS result. *)
Definition dnsImpact (enabled : bool) (found : option bool) (weight : Z)
    (reason signal description check note : string) (severity : Severity)
    (l : Locals) : Locals :=
  if enabled && bool_decide (found = Some false) then
    let l := deduct weight l in
    let l := pushReason (js reason) l in
    let l := maybePushRisk (mkRisk (js signal) (js description) severity None)
                           l in
    maybePushScoreBreakdown
      (mkBreakdown (js check) false (- weight) (Some (js note))) l
  else if enabled then
    maybePushScoreBreakdown (mkBreakdown (js check) true 0 None) l
  else l.

(** Step 11 *)
Definition stageDnsImpact (dnsOpts : DnsOptionsResolved) (weights : Weights)
    (dnsResult : Dns.DnsResult) (l : Locals) : Locals :=
  let l :=
    dnsImpact (r_mx dnsOpts) (Dns.mx dnsResult) (noMx weights)
      "No MX records found; email delivery likely fails"
      "no_mx_records" "Domain has no MX records" "dns_mx"
      "No mail server configured" sevHigh l in
  let l :=
    dnsImpact (r_spf dnsOpts) (Dns.spf dnsResult) (noSpf weights)
      "No SPF record found" "no_spf" "Domain has no SPF record" "dns_spf"
      "Missing email authentication" sevLow l in
  dnsImpact (r_dmarc dnsOpts) (Dns.dmarc dnsResult) (noDmarc weights)
    "No DMARC record found" "no_dmarc" "Domain has no DMARC record"
    "dns_dmarc" "Missing email authentication" sevLow l.

(** Step 12, after [probeSmtp] has answered. *)
Definition stageSmtp (weights : Weights) (smtpResult : Smtp.SmtpProbeResult)
    (l : Locals) : Locals :=
  let status := Smtp.status smtpResult in
  let l :=
    trace (js "smtp")
      (match status with
       | Smtp.valid => js "valid"
       | Smtp.invalid => js "invalid"
       | Smtp.unknown => js "unknown"
       end)
      [(js "code", ofOption (Smtp.code smtpResult))] l in
  let l :=
    setChecks (withSmtp (true, status, Smtp.code smtpResult) (l_checks l)) l in
  match status with
  | Smtp.invalid =>
      let l := deduct (smtpInvalid weights) l in
      let l := pushReason (js "SMTP server rejected recipient") l in
      let l :=
        maybePushRisk
          (mkRisk (js "smtp_invalid")
             (js "SMTP verification failed - address rejected") sevHigh None)
          l in
      maybePushScoreBreakdown
        (mkBreakdown (js "smtp") false (- smtpInvalid weights)
           (Some (js "Rejected with code " ++ shown (Smtp.code smtpResult))))
        l
  | Smtp.unknown =>
      let l := deduct (smtpUnknown weights) l in
      maybePushScoreBreakdown
        (mkBreakdown (js "smtp") true (- smtpUnknown weights)
           (Some (js "Verification inconclusive"))) l
  | Smtp.valid =>
      maybePushScoreBreakdown
        (mkBreakdown (js "smtp") true 0 (Some (js "Address accepted"))) l
  end.

(** Step 13, after [checkCatchAll] has answered. *)
Definition stageCatchAll (weights : Weights)
    (catchAllResult : CatchAll.CatchAllResult) (l : Locals) : Locals :=
  let confidence :=
    match CatchAll.confidence catchAllResult with
    | CatchAll.high => js "high"
    | CatchAll.low => js "low"
    end in
  let l :=
    trace (js "catchAll")
      (if CatchAll.isCatchAll catchAllResult
       then js "detected" else js "not_detected")
      [(js "isCatchAll", TBool (CatchAll.isCatchAll catchAllResult));
       (js "confidence", TString confidence);
       (js "method",
        TString match CatchAll.method catchAllResult with
                | CatchAll.smtp_probe => js "smtp_probe"
                | CatchAll.heuristic => js "heuristic"
                | CatchAll.unknown => js "unknown"
                end)] l in
  let l :=
    setChecks
      (withCatchAll (true, CatchAll.isCatchAll catchAllResult, confidence)
                    (l_checks l)) l in
  if CatchAll.isCatchAll catchAllResult then
    let l := deduct (Pipeline.catchAll weights) l in
    let l :=
      maybePushRisk
        (mkRisk (js "catch_all")
           (js "Domain accepts all addresses (catch-all)") sevMedium
           (Some (js "SMTP verification less reliable"))) l in
    maybePushScoreBreakdown
      (mkBreakdown (js "catch_all") true (- Pipeline.catchAll weights)
         (Some (js "Domain is catch-all"))) l
  else maybePushScoreBreakdown (mkBreakdown (js "catch_all") true 0 None) l.

(** Steps 4 to 11: what is done between the DNS lookups and the SMTP
    probe, none of it with the network. *)
Definition localStages (options : Options) (ro : RuntimeOptions)
    (weights : Weights) (localPart domain normalizedEmail : jsstring)
    (dnsResult : Dns.DnsResult) (l : Locals)
  : option Provider.ProviderDetectionResult
    * Canonical.CanonicalResult * RoleEmail.RoleEmailResult * Locals :=
  let providerResult :=
    if includeDetails runOptions
    then Some (detectProvider domain (Dns.mxHosts dnsResult))
    else None in
  let l := stageProvider providerResult l in
  let canonicalResult :=
    getCanonicalEmail normalizedEmail (Dns.mxHosts dnsResult) in
  let l := stageCanonical canonicalResult l in
  let '(roleResult, l) :=
    stageRoleEmail (roleEmailEnabled ro) weights localPart l in
  let l := stagePatterns (patternsEnabled ro) weights localPart l in
  let l := stagePlus weights canonicalResult l in
  let l := stageTypo (typoSuggestions ro) weights normalizedEmail l in
  let l :=
    stageDisposable (disposableEnabled ro) weights domain
      (o_disposable_provider (o_late options)) l in
  let l := stageDnsImpact (dnsOpts ro) weights dnsResult l in
  (providerResult, canonicalResult, roleResult, l).

(** The end of [runValidation]: the score is clamped, the verdict
    computed, the result put together.  [providerResult] is there
    whenever the details are asked for, step 4 having run. *)
Definition finish (email normalizedEmail domain : jsstring)
    (options : Options)
    (providerResult : option Provider.ProviderDetectionResult)
    (canonicalResult : Canonical.CanonicalResult)
    (roleResult : RoleEmail.RoleEmailResult)
    (dnsResult : Dns.DnsResult) (l : Locals) : Run :=
  let confidence := Scoring.clampScore (inject_Z (score l)) in
  let t := o_scoring_thresholds (o_late options) in
  let verdict :=
    Scoring.computeVerdict (inject_Z confidence)
      (Some (Scoring.mkThresholds
               (default (Scoring.valid Scoring.DEFAULT_THRESHOLDS)
                        (Scoring.valid <$> t))
               (default (Scoring.risky Scoring.DEFAULT_THRESHOLDS)
                        (Scoring.risky <$> t))
               (default (Scoring.unknown Scoring.DEFAULT_THRESHOLDS)
                        (Scoring.unknown <$> t)))) in
  let l :=
    trace (js "score")
      (match verdict with
       | Scoring.Valid => js "valid"
       | Scoring.Risky => js "risky"
       | Scoring.Unknown => js "unknown"
       | Scoring.Invalid => js "invalid"
       end)
      [(js "confidence", TNumber confidence);
       (js "reasons", TStrings (l_reasons l))] l in
  let details :=
    if negb (includeDetails runOptions) then None
    else
      match providerResult with
      | Some provider =>
          Some (mkDetails
            (mkIntelligence
               (Canonical.canonical canonicalResult)
               (Provider.id <$> Provider.provider provider)
               (getProviderName domain (Dns.mxHosts dnsResult))
               (Provider.type <$> Provider.provider provider)
               (Provider.isCustomDomain provider)
               (RoleEmail.isRole roleResult)
               (RoleEmail.category roleResult)
               (Canonical.plusTagRemoved canonicalResult)
               (Canonical.plusTag canonicalResult)
               (Canonical.dotsRemoved canonicalResult)
               (match Provider.provider provider with
                | Some info => Provider.type info
                | None =>
                    if Provider.isCustomDomain provider
                    then js "business" else js "unknown"
                end)
               (Provider.mxProvider provider))
            (l_risks l) (l_scoreBreakdown l))
      | None => None
      end in
  mkRun (mkPMEmailResult email normalizedEmail verdict confidence
                         (l_reasons l) (l_checks l) details)
        (l_trace l).

End Run.

(** Step 12: the limiter of the pool is handed to [probeSmtp], and so is
    the cache.  [verify.ts] awaits [probeSmtp] in no [try]: a run in which
    it throws rejects and has no result.  The step is that of a run in
    which [net.createConnection] hands back every socket, where
    [probeSmtp] is [Smtp.probeSmtpSessions] (lemma
    [SmtpProps.probeSmtp_sessions]). *)
Definition stepSmtp (runOptions : ValidationRunOptions)
    (ro : RuntimeOptions) (weights : Weights)
    (domain normalizedEmail : jsstring) (cache : CacheRef) (l : Locals)
    (pools : Pools) : M (Locals * Pools) :=
  if enabled (smtpOpts ro) then
    let limit := maxConnectionsPerDomainPerMinute (smtpOpts ro) in
    let '(limiter, pools) := getLimiter limit pools in
    '(smtpResult, limiter1, cache1) ←
      Smtp.probeSmtpSessions domain normalizedEmail (r_smtpTimeoutMs (smtpOpts ro))
                     limiter (dnsCachePool pools !! cache);
    mret (stageSmtp runOptions weights smtpResult l,
          putCache cache cache1 (putLimiter limit limiter1 pools))
  else mret (l, pools).

(** Step 13 *)
Definition stepCatchAll (runOptions : ValidationRunOptions)
    (options : Options) (ro : RuntimeOptions) (weights : Weights)
    (domain : jsstring) (dnsResult : Dns.DnsResult) (cache : CacheRef)
    (l : Locals) (pools : Pools) : M (Locals * Pools) :=
  if catchAllEnabled ro
     && match Dns.mxHosts dnsResult with
        | Some hosts => bool_decide (0 < length hosts)%nat
        | None => false
        end
  then
    '(catchAllResult, cache1) ←
      CatchAll.checkCatchAll domain
        (Some (default 5000 (o_catchAll_timeoutMs options)))
        (dnsCachePool pools !! cache);
    mret (stageCatchAll runOptions weights catchAllResult l,
          putCache cache cache1 pools)
  else mret (l, pools).

(** What [runValidation] does once [checkDNS] has answered: steps 3 to
    13 and the assembly of the result. *)
Definition afterLookups (email : jsstring) (options : Options)
    (runOptions : ValidationRunOptions) (ro : RuntimeOptions)
    (cache : CacheRef) (normalized : Normalize.Normalized)
    (trace0 : list DebugTraceStep) (dnsResult : Dns.DnsResult)
    (pools : Pools) : M (Run * Pools) :=
  let localPart := default [] (Normalize.localPart normalized) in
  let domain := default [] (Normalize.domain normalized) in
  let normalizedEmail := default [] (Normalize.normalizedEmail normalized) in
  let weights := mergeWeights (o_scoring_weights (o_late options)) in
  let l :=
    mkLocals 100 [] [] []
      (createInitialChecks (mode ro) (enabled (smtpOpts ro))) trace0 in
  let l := stageDns runOptions dnsResult l in
  (* Steps 4 to 11 *)
  let '(providerResult, canonicalResult, roleResult, l) :=
    localStages runOptions options ro weights localPart domain
                normalizedEmail dnsResult l in
  '(l, pools) ←
    stepSmtp runOptions ro weights domain normalizedEmail cache l pools;
  '(l, pools) ←
    stepCatchAll runOptions options ro weights domain dnsResult cache l pools;
  mret (finish runOptions email normalizedEmail domain options providerResult
               canonicalResult roleResult dnsResult l,
        pools).

(** What follows the syntax gate.  [cache] names the cache
    [createDnsCache] returned; it is in the pool, and what [checkDNS]
    does to it shows there. *)
Definition afterSyntaxGate (email : jsstring) (options : Options)
    (runOptions : ValidationRunOptions) (ro : RuntimeOptions)
    (cache : CacheRef) (normalized : Normalize.Normalized)
    (trace0 : list DebugTraceStep) (pools : Pools) : M (Run * Pools) :=
  (* Step 3 *)
  '(dnsResult, cache1) ←
    Dns.checkDNS (default [] (Normalize.domain normalized))
      (Dns.mkOpts (Some (r_mx (dnsOpts ro))) (Some (r_spf (dnsOpts ro)))
                  (Some (r_dmarc (dnsOpts ro)))
                  (Some (r_dnsTimeoutMs (dnsOpts ro))))
      (dnsCachePool pools !! cache);
  afterLookups email options runOptions ro cache normalized trace0 dnsResult
               (putCache cache cache1 pools).

(** [runValidation], [verifyEmail] and [debugVerifyEmail] with their
    stages in place. *)
Definition runValidation (email : jsstring) (options : Options)
    (runOptions : ValidationRunOptions) (pools : Pools) : M (Run * Pools) :=
  Verify.runValidation Syntax.validateSyntax afterSyntaxGate
                       email options runOptions pools.

Definition verifyEmail (email : jsstring) (options : Options)
    (pools : Pools) : M (PMEmailResult * Pools) :=
  Verify.verifyEmail Syntax.validateSyntax afterSyntaxGate
                     email options pools.

Definition debugVerifyEmail (email : jsstring) (options : Options)
    (pools : Pools) : M (Run * Pools) :=
  Verify.debugVerifyEmail Syntax.validateSyntax afterSyntaxGate
                          email options pools.

End Stages.



(** Two states of the locals that differ by the risks and the score
    breakdown at most. *)
Definition sameBase (l1 l2 : Locals) : Prop :=
  score l1 = score l2 ∧ l_reasons l1 = l_reasons l2
  ∧ l_checks l1 = l_checks l2 ∧ l_trace l1 = l_trace l2.

(** The entries of the checks that are final once the DNS lookups have
    been noted. *)
Definition settled (c : Checks) : SyntaxCheck * DnsCheck :=
  (syntax c, dns c).

(** Under the stock weights, what the checks report has been taken off
    the score; [noMx] tells whether the lack of an MX record has. *)
Definition charged (noMx : bool) (l : Locals) : Prop :=
  score l ≤ 100
  ∧ ((Verify.disposable (l_checks l)).1 = true → score l ≤ 40)
  ∧ (truthyOpt (Verify.typo (l_checks l)).2 = true → score l ≤ 75)
  ∧ ((smtp (l_checks l)).1.2 = Smtp.invalid → score l ≤ 20)
  ∧ (noMx = true → score l ≤ 50).

(** The queries [checkDNS] can issue about a domain, in its order. *)
Definition dnsQueries (domain : jsstring) : list NetOp :=
  [OpResolveMx domain; OpResolveTxt domain;
   OpResolveTxt (js "_dmarc." ++ domain); OpResolve4 domain;
   OpResolve6 domain].

(** [m] adds to the operations of the world only operations of
    [allowed], each at most once and in the order of [allowed]. *)
Definition emits {A} (m : M A) (allowed : list NetOp) : Prop :=
  ∀ E w, ∃ added,
    ops (m E w).2 = ops w ++ added ∧ added `sublist_of` allowed.

End Pipeline.

(* ===================================================================== *)
(** * core/typo.ts *)
(* ===================================================================== *)

Module Typo.
Local Open Scope Z_scope.

(** The body of the inner loop of [levenshtein], run for [j]: the array
    [dp] and [prev] after it.  The reads stay within the array, which has
    one entry more than [b] has code units. *)
Definition cell (a b : jsstring) (i : nat) (st : list Z * Z) (j : nat)
  : list Z * Z :=
  let '(dp, prev) := st in
  let temp := dp !!! j in
  let cost :=
    if bool_decide (a !! (i - 1)%nat = b !! (j - 1)%nat) then 0 else 1 in
  (<[j := Z.min (Z.min (dp !!! j + 1) (dp !!! (j - 1)%nat + 1))
               (prev + cost)]> dp,
   temp).

(** The body of the outer loop, run for [i]. *)
Definition row (a b : jsstring) (dp : list Z) (i : nat) : list Z :=
  let prev := Z.of_nat i - 1 in
  let dp := <[0%nat := Z.of_nat i]> dp in
  (foldl (cell a b i) (dp, prev) (seq 1 (length b))).1.

(** [levenshtein(a, b)] *)
Definition levenshtein (a b : jsstring) : Z :=
  let dp := replicate (length b + 1) 0 in
  let dp :=
    foldl (λ dp j, <[j := Z.of_nat j]> dp) dp (seq 0 (length b + 1)) in
  let dp := foldl (row a b) dp (seq 1 (length a)) in
  dp !!! length b.

(** The recurrence of the edit distance, read from the first code units
    of the two strings. *)
Fixpoint lev (u : jsstring) : jsstring → Z :=
  fix against (v : jsstring) : Z :=
    match u, v with
    | [], _ => Z.of_nat (length v)
    | _, [] => Z.of_nat (length u)
    | x :: u', y :: v' =>
        Z.min (Z.min (lev u' v + 1) (against v' + 1))
              (lev u' v' + (if bool_decide (x = y) then 0 else 1))
    end.

Section Tables.
Context `{Runtime}.

(** The tables of [data/typo.ts]: the domains known to be valid, and
    those that are suggested. *)
Context (COMMON_EMAIL_DOMAINS PRIMARY_DOMAINS : list jsstring).

(** The body of the loop of [findBestMatch]; [best] holds the domain
    and its distance. *)
Definition consider (lower : jsstring) (maxDistance : Z)
    (best : option (jsstring * Z)) (candidate : jsstring)
  : option (jsstring * Z) :=
  let distance := levenshtein lower candidate in
  if bool_decide (distance ≤ maxDistance) && bool_decide (0 < distance) then
    match best with
    | None => Some (candidate, distance)
    | Some (_, bestDistance) =>
        if bool_decide (distance < bestDistance)
        then Some (candidate, distance)
        else best
    end
  else best.

(** [findBestMatch(domain, maxDistance = 2)] *)
Definition findBestMatch (domain : jsstring) (maxDistance : option Z)
  : option jsstring :=
  let maxDistance := default 2 maxDistance in
  let lower := toLowerCase domain in
  if bool_decide (lower ∈ COMMON_EMAIL_DOMAINS) then None
  else fst <$> foldl (consider lower maxDistance) None PRIMARY_DOMAINS.

(** [suggestTypo(email)]: [(ok, suggestedEmail)] *)
Definition suggestTypo (email : jsstring) : bool * option jsstring :=
  match split AT email with
  | [local; domain] =>
      if negb (truthy domain) then (false, None)
      else
        match findBestMatch domain None with
        | Some suggestion =>
            if negb (truthy suggestion) then (true, None)
            else (true, Some (local ++ [AT] ++ suggestion))
        | None => (true, None)
        end
  | _ => (false, None)
  end.

(** [suggestDomain(domain)] *)
Definition suggestDomain (domain : jsstring) : option jsstring :=
  findBestMatch domain None.

(** What [findBestMatch] looks for: a suggested domain that is not the
    domain itself and is within the distance allowed. *)
Definition near (lower : jsstring) (maxDistance : Z) (candidate : jsstring)
  : Prop :=
  0 < levenshtein lower candidate ≤ maxDistance.

End Tables.

End Typo.

(* ===================================================================== *)
(** * Properties of the string primitives *)
(* ===================================================================== *)

Module JsProps.

Lemma occurrences_cons (c x : N) (s : jsstring) :
  occurrences c (x :: s)
  = if (c =? x)%N then S (occurrences c s) else occurrences c s.
Proof. unfold occurrences. simpl. by destruct (c =? x)%N. Qed.

Lemma occurrences_app (c : N) (s t : jsstring) :
  occurrences c (s ++ t) = (occurrences c s + occurrences c t)%nat.
Proof. unfold occurrences. by rewrite List.filter_app, length_app. Qed.

Lemma occurrences_rev (c : N) (s : jsstring) :
  occurrences c (rev s) = occurrences c s.
Proof.
  induction s as [|x s IH]; [done|].
  simpl rev. rewrite occurrences_app, IH, !occurrences_cons.
  change (occurrences c []) with 0%nat. destruct (c =? x)%N; lia.
Qed.

Lemma occurrences_trimStart (c : N) (s : jsstring) :
  isWhiteSpace c = false → occurrences c (trimStart s) = occurrences c s.
Proof.
  intros Hc. induction s as [|x s IH]; [done|].
  simpl. destruct (isWhiteSpace x) eqn:Hx; [|done].
  rewrite IH, occurrences_cons.
  destruct (N.eqb_spec c x) as [->|]; [congruence|done].
Qed.

(** Trimming removes white space only. *)
Lemma occurrences_trim (c : N) (s : jsstring) :
  isWhiteSpace c = false → occurrences c (trim s) = occurrences c s.
Proof.
  intros Hc. unfold trim, trimEnd.
  rewrite occurrences_rev, occurrences_trimStart by done.
  rewrite occurrences_rev. by apply occurrences_trimStart.
Qed.

Lemma trimStart_snoc (c : N) (s : jsstring) :
  isWhiteSpace c = false → trimStart (s ++ [c]) = trimStart s ++ [c].
Proof.
  intros Hc. induction s as [|x s IH]; simpl.
  - by rewrite Hc.
  - by destruct (isWhiteSpace x).
Qed.

(** A first or last character that is not white space stays in place. *)
Lemma trim_cons (c : N) (s : jsstring) :
  isWhiteSpace c = false → ∃ s', trim (c :: s) = c :: s'.
Proof.
  intros Hc. unfold trim, trimEnd. simpl trimStart. rewrite Hc.
  simpl rev. rewrite trimStart_snoc by done.
  rewrite rev_app_distr. simpl. eauto.
Qed.

Lemma trim_snoc (c : N) (s : jsstring) :
  isWhiteSpace c = false → ∃ s', trim (s ++ [c]) = s' ++ [c].
Proof.
  intros Hc. unfold trim, trimEnd. rewrite trimStart_snoc by done.
  rewrite rev_app_distr. simpl. rewrite Hc. simpl.
  rewrite rev_involutive. eauto.
Qed.

(** [split] yields one piece more than there are separators. *)
Lemma splitAt_length (sep : N) (cur s : jsstring) :
  length (splitAt sep cur s) = S (occurrences sep s).
Proof.
  revert cur. induction s as [|x s IH]; intros cur; [done|].
  simpl. rewrite occurrences_cons, (N.eqb_sym sep x).
  destruct (x =? sep)%N; simpl; by rewrite IH.
Qed.

Lemma splitAt_snoc_sep (sep : N) (cur s : jsstring) :
  ∃ pieces, splitAt sep cur (s ++ [sep]) = pieces ++ [[]].
Proof.
  revert cur. induction s as [|x s IH]; intros cur; simpl.
  - rewrite N.eqb_refl. by exists [cur].
  - destruct (x =? sep)%N.
    + destruct (IH []) as [pieces ->]. by exists (cur :: pieces).
    + apply IH.
Qed.

Lemma split_cons_sep (sep : N) (s : jsstring) :
  split sep (sep :: s) = [] :: split sep s.
Proof. unfold split. simpl. by rewrite N.eqb_refl. Qed.

Lemma startsWith_inv (p line : jsstring) :
  startsWith p line = true → ∃ rest, line = p ++ rest.
Proof.
  revert line. induction p as [|a p IH]; intros line; simpl.
  - intros _. by exists line.
  - destruct line as [|b line]; [discriminate|].
    rewrite andb_true_iff, N.eqb_eq. intros [-> Hp].
    destruct (IH _ Hp) as [rest ->]. by exists rest.
Qed.

End JsProps.

(* ===================================================================== *)
(** * Properties of the verdict *)
(* ===================================================================== *)

Module ScoringProps.
Import Scoring.

Lemma geb_true (a b : Q) : geb a b = true ↔ (b <= a)%Q.
Proof. unfold geb. apply Qle_bool_iff. Qed.

Lemma geb_mono (a a' b : Q) : (a <= a')%Q → geb a b = true → geb a' b = true.
Proof.
  rewrite !geb_true. intros Hle Hb. eapply Qle_trans; eassumption.
Qed.

(** C9.  For fixed thresholds, a score that is at least another gets a
    verdict whose tier (invalid < unknown < risky < valid) is at least
    the other's; and the verdict is valid from the valid threshold on,
    else risky from the risky threshold on, else unknown from the unknown
    threshold on, else invalid. *)
Theorem computeVerdict_monotone (thresholds : option Thresholds) (s1 s2 : Q) :
  (s1 <= s2)%Q →
  tier (computeVerdict s1 thresholds) ≤ tier (computeVerdict s2 thresholds)
  ∧ (∀ s : Q,
       let t := default DEFAULT_THRESHOLDS thresholds in
       ((valid t <= s)%Q → computeVerdict s thresholds = Valid)
       ∧ (¬ (valid t <= s)%Q → (risky t <= s)%Q →
          computeVerdict s thresholds = Risky)
       ∧ (¬ (valid t <= s)%Q → ¬ (risky t <= s)%Q → (unknown t <= s)%Q →
          computeVerdict s thresholds = Unknown)
       ∧ (¬ (valid t <= s)%Q → ¬ (risky t <= s)%Q → ¬ (unknown t <= s)%Q →
          computeVerdict s thresholds = Invalid)).
Proof.
  intros Hle. split.
  - unfold computeVerdict.
    set (t := default DEFAULT_THRESHOLDS thresholds).
    destruct (geb s1 (valid t)) eqn:Hv1.
    { rewrite (geb_mono _ _ _ Hle Hv1). reflexivity. }
    destruct (geb s1 (risky t)) eqn:Hr1.
    { rewrite (geb_mono _ _ _ Hle Hr1).
      destruct (geb s2 (valid t)); simpl; lia. }
    destruct (geb s1 (unknown t)) eqn:Hu1.
    { rewrite (geb_mono _ _ _ Hle Hu1).
      destruct (geb s2 (valid t)), (geb s2 (risky t)); simpl; lia. }
    simpl. lia.
  - intros s t. unfold computeVerdict. fold t.
    destruct (geb s (valid t)) eqn:Hv;
      destruct (geb s (risky t)) eqn:Hr;
      destruct (geb s (unknown t)) eqn:Hu;
      repeat match goal with
        | H : geb _ _ = true |- _ => apply geb_true in H
        | H : geb _ _ = false |- _ =>
            apply not_true_iff_false in H; rewrite geb_true in H
        end;
      repeat split; intros; try reflexivity; try contradiction.
Qed.

Lemma computeVerdict_monotone_witness :
  (59 <= 60)%Q
  ∧ tier (computeVerdict 59 None) ≤ tier (computeVerdict 60 None)
  ∧ computeVerdict 59 None = Unknown
  ∧ computeVerdict 60 None = Risky.
Proof.
  assert (Hle : (59 <= 60)%Q) by (unfold Qle; simpl; lia).
  destruct (computeVerdict_monotone None 59 60 Hle) as [Hmono Hcases].
  split; [exact Hle|]. split; [exact Hmono|]. split.
  - destruct (Hcases 59%Q) as (_ & _ & Hunknown & _).
    apply Hunknown; unfold Qle; simpl; lia.
  - destruct (Hcases 60%Q) as (_ & Hrisky & _).
    apply Hrisky; unfold Qle; simpl; lia.
Defined.

End ScoringProps.

(* ===================================================================== *)
(** * Properties of the rate limiter *)
(* ===================================================================== *)

Module LimiterProps.
Import Limiter.
Local Open Scope Z_scope.

Lemma allow_limit now key l : limit (allow now key l).2 = limit l.
Proof. unfold allow. case_bool_decide; reflexivity. Qed.

Lemma allow_windowMs now key l : windowMs (allow now key l).2 = windowMs l.
Proof. unfold allow. case_bool_decide; reflexivity. Qed.

Lemma bucket_setBucket key b l : bucket key (setBucket key b l) = b.
Proof. unfold bucket, setBucket. simpl. by rewrite lookup_insert_eq. Qed.

Lemma allow_bucket now key l :
  let fresh := filter (λ ts, now - windowMs l ≤ ts) (bucket key l) in
  bucket key (allow now key l).2
  = if (allow now key l).1 then fresh ++ [now] else fresh.
Proof.
  unfold allow. fold (bucket key l). simpl.
  case_bool_decide; simpl; apply bucket_setBucket.
Qed.

Lemma allow_other now key l k :
  k ≠ key → buckets (allow now key l).2 !! k = buckets l !! k.
Proof.
  intros Hk. unfold allow.
  case_bool_decide; simpl; by rewrite lookup_insert_ne.
Qed.

(** [allow] keeps every bucket within the limit. *)
Lemma allow_bounded now key l :
  0 ≤ limit l → bounded l → bounded (allow now key l).2.
Proof.
  intros Hlim Hb k b. unfold allow.
  case_bool_decide as Hfull; simpl; intros Hk.
  - destruct (decide (k = key)) as [->|Hne].
    + rewrite lookup_insert_eq in Hk. injection Hk as <-.
      destruct (buckets l !! key) as [b0|] eqn:Hb0; simpl.
      * pose proof (Hb _ _ Hb0).
        pose proof (length_filter (λ ts, now - windowMs l ≤ ts) b0). lia.
      * simpl. lia.
    + rewrite lookup_insert_ne in Hk by done. eauto.
  - destruct (decide (k = key)) as [->|Hne].
    + rewrite lookup_insert_eq in Hk. injection Hk as <-.
      rewrite length_app. simpl. lia.
    + rewrite lookup_insert_ne in Hk by done. eauto.
Qed.

Lemma allowAll_limit calls l : limit (allowAll calls l).2 = limit l.
Proof.
  revert l. induction calls as [|[now key] calls IH]; intros l; simpl; [done|].
  destruct (allow now key l) as [r l1] eqn:Ha.
  specialize (IH l1). destruct (allowAll calls l1) as [rs l2]. simpl in *.
  rewrite IH. change l1 with (r, l1).2. rewrite <- Ha. apply allow_limit.
Qed.

Lemma allowAll_windowMs calls l : windowMs (allowAll calls l).2 = windowMs l.
Proof.
  revert l. induction calls as [|[now key] calls IH]; intros l; simpl; [done|].
  destruct (allow now key l) as [r l1] eqn:Ha.
  specialize (IH l1). destruct (allowAll calls l1) as [rs l2]. simpl in *.
  rewrite IH. change l1 with (r, l1).2. rewrite <- Ha. apply allow_windowMs.
Qed.

Lemma allowAll_bounded calls l :
  0 ≤ limit l → bounded l → bounded (allowAll calls l).2.
Proof.
  revert l.
  induction calls as [|[now key] calls IH]; intros l Hlim Hb; simpl; [done|].
  destruct (allow now key l) as [r l1] eqn:Ha.
  assert (Hl1 : l1 = (allow now key l).2) by (by rewrite Ha).
  specialize (IH l1). destruct (allowAll calls l1) as [rs l2]. simpl in *.
  apply IH; subst l1.
  - by rewrite allow_limit.
  - by apply allow_bounded.
Qed.

Lemma new_bounded limit windowMs : bounded (new limit windowMs).
Proof. intros k b. unfold new. simpl. by rewrite lookup_empty. Qed.

(** C6.  On a limiter built with a limit and a window that are not
    negative, after any sequence of calls: [allow] keeps of the key's
    bucket the timestamps not older than [now - windowMs], answers true
    and appends [now] exactly when fewer than [limit] are kept, answers
    false and stores the kept ones otherwise, and leaves the other
    buckets alone; afterwards the bucket holds no timestamp older than
    the window and at most [limit] of them.  With limit 2 and window 1000,
    two calls succeed, a third within the window fails, and a call after
    the window of the first has elapsed succeeds. *)
Theorem allow_sliding_window (lim win : Z) (calls : list (Z * jsstring))
    (now : Z) (key : jsstring) :
  0 ≤ lim → 0 ≤ win →
  let l := (allowAll calls (new lim win)).2 in
  let fresh := filter (λ ts, now - win ≤ ts) (bucket key l) in
  let admitted := (allow now key l).1 in
  let l' := (allow now key l).2 in
  admitted = bool_decide (Z.of_nat (length fresh) < lim)
  ∧ bucket key l' = (if admitted then fresh ++ [now] else fresh)
  ∧ (∀ k, k ≠ key → buckets l' !! k = buckets l !! k)
  ∧ (∀ ts, ts ∈ bucket key l' → now - win ≤ ts)
  ∧ Z.of_nat (length (bucket key l')) ≤ lim
  ∧ (∀ t0 t1 t2 t3 : Z,
       t0 ≤ t1 → t1 ≤ t2 → t2 ≤ t0 + 1000 → t0 + 1000 < t3 →
       (allowAll [(t0, key); (t1, key); (t2, key); (t3, key)]
                 (new 2 1000)).1 = [true; true; false; true]).
Proof.
  intros Hlim Hwin l fresh admitted l'.
  assert (Hl_lim : limit l = lim) by (unfold l; by rewrite allowAll_limit).
  assert (Hl_win : windowMs l = win)
    by (unfold l; by rewrite allowAll_windowMs).
  assert (Hbucket :
            bucket key l' = (if admitted then fresh ++ [now] else fresh)).
  { unfold l', admitted, fresh. rewrite <- Hl_win. apply allow_bucket. }
  split; [|split; [exact Hbucket|split; [|split; [|split]]]].
  - unfold admitted, allow. fold (bucket key l).
    rewrite Hl_lim, Hl_win. fold fresh.
    repeat case_bool_decide; simpl; try reflexivity; lia.
  - intros k Hk. by apply allow_other.
  - intros ts. rewrite Hbucket. destruct admitted.
    + rewrite elem_of_app, list_elem_of_singleton. intros [Hin| ->]; [|lia].
      unfold fresh in Hin. apply list_elem_of_filter in Hin. tauto.
    + unfold fresh. intros Hin. apply list_elem_of_filter in Hin. tauto.
  - assert (Hb : bounded l').
    { unfold l'. apply allow_bounded; [lia|].
      unfold l. apply allowAll_bounded; [simpl; lia|apply new_bounded]. }
    unfold bucket. destruct (buckets l' !! key) as [b|] eqn:Hk; simpl.
    + specialize (Hb _ _ Hk). unfold l' in Hb. rewrite allow_limit in Hb. lia.
    + lia.
  - intros t0 t1 t2 t3 H01 H12 H20 H03.
    unfold allowAll, allow, new, setBucket. simpl.
    rewrite lookup_empty. simpl.
    rewrite !lookup_insert_eq. simpl.
    rewrite (filter_cons_True _ t0) by lia. rewrite filter_nil. simpl.
    rewrite !lookup_insert_eq. simpl.
    rewrite (filter_cons_True _ t0) by lia.
    rewrite (filter_cons_True _ t1) by lia. rewrite filter_nil. simpl.
    rewrite !lookup_insert_eq. simpl.
    rewrite (filter_cons_False _ t0) by lia.
    destruct (decide (t3 - 1000 ≤ t1)).
    + rewrite (filter_cons_True _ t1) by lia. rewrite filter_nil. reflexivity.
    + rewrite (filter_cons_False _ t1) by lia. rewrite filter_nil. reflexivity.
Qed.

Lemma allow_sliding_window_witness :
  let key := js "example.com" in
  let l := (allowAll [(5, key)] (new 2 1000)).2 in
  0 ≤ 2 ∧ 0 ≤ 1000
  ∧ (allow 7 key l).1 = true
  ∧ bucket key (allow 7 key l).2 = [5; 7]
  ∧ (allowAll [(0, key); (0, key); (0, key); (1001, key)] (new 2 1000)).1
    = [true; true; false; true].
Proof.
  intros key l.
  assert (H2 : 0 ≤ 2) by lia. assert (H1000 : 0 ≤ 1000) by lia.
  destruct (allow_sliding_window 2 1000 [(5, key)] 7 key H2 H1000)
    as (Hadm & Hbucket & _ & _ & _ & Hexample).
  split; [exact H2|]. split; [exact H1000|].
  split; [etrans; [exact Hadm|reflexivity]|].
  split; [etrans; [exact Hbucket|reflexivity]|].
  apply Hexample; lia.
Defined.

End LimiterProps.

(* ===================================================================== *)
(** * Properties of the cache *)
(* ===================================================================== *)

Module CacheProps.
Import Cache.
Local Open Scope Z_scope.

Section Generic.
Context {T : Type}.
Implicit Types (s : list (jsstring * CacheEntry T)) (c : DnsCache T)
  (e : CacheEntry T).

Lemma mapGet_cons k v s key :
  mapGet key ((k, v) :: s)
  = if bool_decide (k = key) then Some v else mapGet key s.
Proof. unfold mapGet. simpl. case_bool_decide; reflexivity. Qed.

Lemma mapGet_app_l s1 s2 key e :
  mapGet key s1 = Some e → mapGet key (s1 ++ s2) = Some e.
Proof.
  induction s1 as [|[k v] s1 IH]; [done|].
  simpl. rewrite !mapGet_cons. case_bool_decide; auto.
Qed.

Lemma mapGet_app_r s1 s2 key :
  mapGet key s1 = None → mapGet key (s1 ++ s2) = mapGet key s2.
Proof.
  induction s1 as [|[k v] s1 IH]; [done|].
  simpl. rewrite !mapGet_cons. case_bool_decide; [done|auto].
Qed.

Lemma mapDelete_cons_eq key v s :
  mapDelete key ((key, v) :: s) = mapDelete key s.
Proof. unfold mapDelete. rewrite filter_cons_False; [done|]. simpl. tauto. Qed.

Lemma mapDelete_cons_ne key k v s :
  k ≠ key → mapDelete key ((k, v) :: s) = (k, v) :: mapDelete key s.
Proof. intros Hk. unfold mapDelete. by rewrite filter_cons_True. Qed.

Lemma mapDelete_app key s1 s2 :
  mapDelete key (s1 ++ s2) = mapDelete key s1 ++ mapDelete key s2.
Proof. unfold mapDelete. apply filter_app. Qed.

Lemma mapDelete_absent key s : key ∉ s.*1 → mapDelete key s = s.
Proof.
  induction s as [|[k v] s IH]; [done|].
  rewrite fmap_cons, not_elem_of_cons. cbn [fst]. intros [Hne Hnin].
  rewrite mapDelete_cons_ne by done. by rewrite IH.
Qed.

Lemma mapGet_delete_eq key s : mapGet key (mapDelete key s) = None.
Proof.
  induction s as [|[k v] s IH]; [done|].
  destruct (decide (k = key)) as [->|Hk].
  - by rewrite mapDelete_cons_eq.
  - rewrite mapDelete_cons_ne, mapGet_cons by done.
    by rewrite bool_decide_eq_false_2.
Qed.

Lemma mapGet_delete_ne key k' s :
  k' ≠ key → mapGet k' (mapDelete key s) = mapGet k' s.
Proof.
  intros Hne. induction s as [|[k v] s IH]; [done|].
  destruct (decide (k = key)) as [->|Hk].
  - rewrite mapDelete_cons_eq, mapGet_cons.
    by rewrite bool_decide_eq_false_2.
  - rewrite mapDelete_cons_ne, !mapGet_cons by done.
    case_bool_decide; [done|exact IH].
Qed.

Lemma mapSet_absent key e s :
  mapGet key s = None → mapSet key e s = s ++ [(key, e)].
Proof.
  induction s as [|[k v] s IH]; [done|].
  rewrite mapGet_cons. simpl. case_bool_decide; [done|].
  intros Hs. by rewrite IH.
Qed.

Lemma mapHas_false key s : mapHas key s = false → mapGet key s = None.
Proof.
  unfold mapHas. intros Hh. apply bool_decide_eq_false in Hh.
  destruct (mapGet key s); [|done]. exfalso. apply Hh. eauto.
Qed.

(** The store a successful [get] leaves: the binding moved last. *)
Lemma refresh_store key e s :
  mapSet key e (mapDelete key s) = mapDelete key s ++ [(key, e)].
Proof. apply mapSet_absent, mapGet_delete_eq. Qed.

Lemma refresh_lookup key e s k' :
  mapGet key s = Some e →
  mapGet k' (mapDelete key s ++ [(key, e)]) = mapGet k' s.
Proof.
  intros He. destruct (decide (k' = key)) as [->|Hne].
  - rewrite mapGet_app_r by apply mapGet_delete_eq.
    rewrite mapGet_cons, bool_decide_eq_true_2 by done. by rewrite He.
  - destruct (mapGet k' s) as [e'|] eqn:Hk'.
    + apply mapGet_app_l. by rewrite mapGet_delete_ne.
    + rewrite mapGet_app_r by (by rewrite mapGet_delete_ne).
      rewrite mapGet_cons, bool_decide_eq_false_2 by done. done.
Qed.

(** A [get] never brings in a binding the store did not have. *)
Lemma get_lookup_sub now key c k' e' :
  mapGet k' (store (get now key c).2) = Some e' →
  mapGet k' (store c) = Some e'.
Proof.
  unfold get. destruct (mapGet key (store c)) as [e|] eqn:He; [|done].
  case_bool_decide; simpl.
  - destruct (decide (k' = key)) as [->|Hne].
    + by rewrite mapGet_delete_eq.
    + by rewrite mapGet_delete_ne.
  - rewrite refresh_store, (refresh_lookup _ _ _ _ He). done.
Qed.

Lemma getAll_lookup_sub calls c k' e' :
  mapGet k' (store (getAll calls c)) = Some e' →
  mapGet k' (store c) = Some e'.
Proof.
  revert c. induction calls as [|[now key] calls IH]; intros c; simpl; [done|].
  intros Hg. apply IH in Hg. by apply get_lookup_sub in Hg.
Qed.

(** C10.  A [get] of a key whose entry is present and has not expired
    returns that entry as it is, with its data and its expiry, and moves
    the binding last in the store; every key reads as before and the
    settings of the cache are kept.  After any number of [get]s an entry
    found in the store is one that was there, expiry included. *)
Theorem get_refreshes_recency_only (now : Z) (key : jsstring)
    (c : DnsCache T) (e : CacheEntry T) :
  mapGet key (store c) = Some e →
  ¬ expiresAt e < now →
  let c' := (get now key c).2 in
  (get now key c).1 = Some e
  ∧ store c' = mapDelete key (store c) ++ [(key, e)]
  ∧ (∀ k, mapGet k (store c') = mapGet k (store c))
  ∧ maxEntries c' = maxEntries c
  ∧ ttlMs c' = ttlMs c
  ∧ (∀ calls k e',
       mapGet k (store (getAll calls c)) = Some e' →
       mapGet k (store c) = Some e').
Proof.
  intros He Hlive c'. unfold c', get. rewrite He.
  rewrite bool_decide_eq_false_2 by done. simpl.
  rewrite refresh_store.
  repeat split; try reflexivity.
  - intros k. by apply refresh_lookup.
  - intros calls k e'. apply getAll_lookup_sub.
Qed.

(** The store [set] builds before it looks at the size. *)
Lemma set_appends now key d ttl c :
  ∃ s1, mapGet key s1 = None
        ∧ (mapGet key (store c) = None → s1 = store c)
        ∧ (let entry := mkEntry d (now + default (ttlMs c) ttl) in
           let s2 := s1 ++ [(key, entry)] in
           set now key d ttl c
           = if bool_decide (maxEntries c < Z.of_nat (length s2)) then
               match firstKey s2 with
               | Some oldestKey =>
                   if truthy oldestKey
                   then withStore (mapDelete oldestKey s2) c
                   else withStore s2 c
               | None => withStore s2 c
               end
             else withStore s2 c).
Proof.
  unfold set. destruct (mapHas key (store c)) eqn:Hhas.
  - exists (mapDelete key (store c)). split; [apply mapGet_delete_eq|].
    split.
    + intros Hnone. unfold mapHas in Hhas. rewrite Hnone in Hhas.
      apply bool_decide_eq_true in Hhas. by destruct Hhas.
    + cbv zeta. by rewrite mapSet_absent by apply mapGet_delete_eq.
  - apply mapHas_false in Hhas. exists (store c).
    split; [done|]. split; [done|].
    cbv zeta. by rewrite mapSet_absent.
Qed.

Lemma set_lookup now key d ttl c :
  1 ≤ maxEntries c →
  mapGet key (store (set now key d ttl c))
  = Some (mkEntry d (now + default (ttlMs c) ttl)).
Proof.
  intros Hcap.
  destruct (set_appends now key d ttl c) as (s1 & Hs1 & _ & Hset).
  cbv zeta in Hset. rewrite Hset. clear Hset.
  set (entry := mkEntry d _).
  assert (Hlook : mapGet key (s1 ++ [(key, entry)]) = Some entry).
  { rewrite mapGet_app_r by done.
    by rewrite mapGet_cons, bool_decide_eq_true_2. }
  case_bool_decide as Hfull; [|exact Hlook].
  destruct s1 as [|[k0 e0] s1']; simpl in Hfull; [lia|].
  cbn [firstKey head app fmap option_fmap option_map fst].
  destruct (truthy k0); [|exact Hlook].
  cbn [store withStore]. rewrite mapGet_delete_ne; [exact Hlook|].
  intros <-. by rewrite mapGet_cons, bool_decide_eq_true_2 in Hs1.
Qed.

(** [set(k, v, ttl)] then [get(k)], in a cache with room for an entry:
    the value until the time to live has elapsed, nothing after. *)
Lemma set_then_get now t key d ttl c :
  1 ≤ maxEntries c →
  let c' := set now key d (Some ttl) c in
  (t ≤ now + ttl → (get t key c').1 = Some (mkEntry d (now + ttl)))
  ∧ (now + ttl < t → (get t key c').1 = None).
Proof.
  intros Hcap c'. unfold get, c'.
  rewrite (set_lookup now key d (Some ttl) c Hcap). simpl.
  split; intros Ht.
  - by rewrite bool_decide_eq_false_2 by lia.
  - by rewrite bool_decide_eq_true_2 by lia.
Qed.

(** [get] on an entry past its expiry: absent, and the entry is gone. *)
Lemma get_expired now key c e :
  mapGet key (store c) = Some e → expiresAt e < now →
  (get now key c).1 = None
  ∧ mapGet key (store (get now key c).2) = None.
Proof.
  intros He Hexp. unfold get. rewrite He.
  rewrite bool_decide_eq_true_2 by done. split; [done|].
  apply mapGet_delete_eq.
Qed.

(** An insertion into a full store evicts the oldest binding, and only
    that one, when its key is not the empty string. *)
Lemma set_evicts_oldest now key d ttl c k0 e0 rest :
  store c = (k0, e0) :: rest →
  NoDup (keys c) → key ∉ keys c → k0 ≠ [] →
  Z.of_nat (length (store c)) = maxEntries c →
  store (set now key d ttl c)
  = rest ++ [(key, mkEntry d (now + default (ttlMs c) ttl))].
Proof.
  intros Hstore Hnodup Hfresh Hk0 Hfull.
  assert (Hnone : mapGet key (store c) = None).
  { unfold keys in Hfresh. clear -Hfresh.
    induction (store c) as [|[k v] s IH]; [done|].
    rewrite fmap_cons, not_elem_of_cons in Hfresh. destruct Hfresh as [Hne Hs].
    rewrite mapGet_cons, bool_decide_eq_false_2 by done. by apply IH. }
  destruct (set_appends now key d ttl c) as (s1 & _ & Hs1 & Hset).
  rewrite (Hs1 Hnone) in Hset. cbv zeta in Hset. rewrite Hset. clear Hset Hs1.
  rewrite bool_decide_eq_true_2 by (rewrite length_app; simpl; lia).
  rewrite Hstore. cbn [firstKey head app fmap option_fmap option_map fst].
  destruct k0 as [|x k0]; [done|]. cbn [truthy withStore store].
  unfold keys in *. rewrite Hstore in *.
  rewrite fmap_cons in Hnodup, Hfresh. cbn [fst] in *.
  apply NoDup_cons in Hnodup as [Hk0rest _].
  apply not_elem_of_cons in Hfresh as [Hne _].
  rewrite mapDelete_cons_eq, mapDelete_app, mapDelete_absent by done.
  by rewrite mapDelete_cons_ne.
Qed.

End Generic.

Lemma get_refreshes_recency_only_witness :
  let c := set 0 (js "A:b.c") 2 None
             (set 0 (js "MX:b.c") 1 None (new (Some 2) (Some 1000))) in
  mapGet (js "MX:b.c") (store c) = Some (mkEntry 1 1000)
  ∧ ¬ expiresAt (mkEntry 1 1000) < 1000
  ∧ (get 1000 (js "MX:b.c") c).1 = Some (mkEntry 1 1000)
  ∧ keys (get 1000 (js "MX:b.c") c).2 = [js "A:b.c"; js "MX:b.c"].
Proof.
  intros c.
  assert (Hpresent : mapGet (js "MX:b.c") (store c) = Some (mkEntry 1 1000))
    by reflexivity.
  assert (Hlive : ¬ expiresAt (mkEntry 1 1000) < 1000) by (simpl; lia).
  destruct (get_refreshes_recency_only 1000 (js "MX:b.c") c (mkEntry 1 1000)
              Hpresent Hlive) as (Hget & Hstore & _).
  split; [exact Hpresent|]. split; [exact Hlive|]. split; [exact Hget|].
  unfold keys. rewrite Hstore. reflexivity.
Defined.

(** C7.  With room for two entries, [set] on the empty key, then on
    the keys a and b, leaves all three in the store: the oldest key is the
    empty string, which the test [if (oldestKey)] takes for an absent key,
    so that nothing is evicted and the store is over its capacity. *)
Theorem set_skips_eviction_of_empty_key :
  let c0 : DnsCache Z := new (Some 2) (Some 1000) in
  let c := set 0 (js "b") 3 None
             (set 0 (js "a") 2 None (set 0 emptyString 1 None c0)) in
  keys c = [emptyString; js "a"; js "b"]
  ∧ maxEntries c < Z.of_nat (length (store c)).
Proof. vm_compute. split; reflexivity. Qed.

End CacheProps.

(* ===================================================================== *)
(** * Properties shared by the two probe closures *)
(* ===================================================================== *)

Module ProbeProps.
Import Rt Probe.

Lemma parseCode_inv (line code : jsstring) :
  parseCode line = Some code →
  ∃ a b c rest, line = a :: b :: c :: rest ∧ code = [a; b; c]
    ∧ isDigit a = true ∧ isDigit b = true ∧ isDigit c = true.
Proof.
  destruct line as [|x [|y [|z rest]]]; simpl; try discriminate.
  destruct (isDigit x) eqn:Hx, (isDigit y) eqn:Hy, (isDigit z) eqn:Hz;
    simpl; try discriminate.
  intros [= <-]. by exists x, y, z, rest.
Qed.

(** Case analysis on every test a handler makes. *)
Ltac split_tests :=
  repeat match goal with
    | |- context [if ?b then _ else _] => destruct b
    end.

Section Closure.
Context {R : Type}.
Implicit Types (s : Session R) (r : R).

Lemma done_resolved_id r s : resolved s = true → done r s = s.
Proof. unfold done. by intros ->. Qed.

Lemma done_open r s :
  resolved s = false →
  result (done r s) = Some r ∧ resolved (done r s) = true.
Proof. unfold done. intros ->. by simpl. Qed.

Lemma done_settled r s :
  (resolved s = true → is_Some (result s)) → settled_inv (done r s).
Proof.
  intros Hres. unfold done. destruct (resolved s) eqn:Hr.
  - split; [by rewrite Hr|]. rewrite Hr. exact Hres.
  - split; simpl; eauto.
Qed.

Lemma initial_settled : settled_inv (@initial R).
Proof. split; simpl; discriminate. Qed.

(** An open session still has its timer. *)
Lemma open_timer_armed s :
  settled_inv s → resolved s = false → timerCleared s = false.
Proof.
  intros [Hs _] Hr. destruct (timerCleared s); [|done].
  rewrite Hs in Hr; done.
Qed.

(** Handlers that leave a resolved session resolved to the same result
    and keep [settled_inv]. *)
Context (h : Session R → Event → Session R).
Hypothesis h_stable : ∀ s ev,
  resolved s = true → result (h s ev) = result s ∧ resolved (h s ev) = true.
Hypothesis h_settled : ∀ s ev, settled_inv s → settled_inv (h s ev).

Lemma fold_stable events s :
  resolved s = true → result (fold_left h events s) = result s.
Proof.
  revert s. induction events as [|ev events IH]; intros s Hr; [done|].
  cbn [fold_left]. destruct (h_stable s ev Hr) as [Hres Hr'].
  by rewrite IH.
Qed.

Lemma fold_settled events s :
  settled_inv s → settled_inv (fold_left h events s).
Proof.
  revert s. induction events as [|ev events IH]; intros s Hs; [done|].
  cbn [fold_left]. by apply IH, h_settled.
Qed.

(** Once an event has resolved the session, the rest changes nothing. *)
Lemma fold_resolved_at pre ev post s r :
  result (h (fold_left h pre s) ev) = Some r →
  resolved (h (fold_left h pre s) ev) = true →
  result (fold_left h (pre ++ ev :: post) s) = Some r.
Proof.
  intros Hres Hr. rewrite fold_left_app. cbn [fold_left].
  by rewrite fold_stable.
Qed.

End Closure.
End ProbeProps.

(* ===================================================================== *)
(** * Properties of the SMTP probe *)
(* ===================================================================== *)

Module SmtpProps.
Import Rt Probe Smtp JsProps ProbeProps.
Local Open Scope Z_scope.

Implicit Types (s : Session SmtpProbeResult) (email text : jsstring).

Lemma smtp_onData_stable email text s :
  resolved s = true →
  result (onData email text s) = result s
  ∧ resolved (onData email text s) = true.
Proof.
  intros Hr. unfold onData.
  destruct (parseCode (lastLineOf text)) as [code|]; [|by simpl].
  split_tests; rewrite ?done_resolved_id by (simpl; exact Hr); simpl; auto.
Qed.

Lemma smtp_handle_stable email s ev :
  resolved s = true →
  result (handle email s ev) = result s ∧ resolved (handle email s ev) = true.
Proof.
  intros Hr. destruct ev as [text|m| |]; simpl.
  - by apply smtp_onData_stable.
  - unfold onError. rewrite done_resolved_id by (simpl; exact Hr). by simpl.
  - unfold onEnd. rewrite done_resolved_id by (simpl; exact Hr). by simpl.
  - unfold onTimeout, fire. destruct (timerCleared s); [done|].
    by rewrite done_resolved_id.
Qed.

Lemma smtp_onData_settled email text s :
  settled_inv s → settled_inv (onData email text s).
Proof.
  intros [H1 H2]. unfold onData.
  destruct (parseCode (lastLineOf text)) as [code|]; [|by split].
  split_tests; try (apply done_settled; exact H2); split; simpl; auto.
Qed.

Lemma smtp_handle_settled email s ev :
  settled_inv s → settled_inv (handle email s ev).
Proof.
  intros Hs. destruct ev as [text|m| |]; simpl.
  - by apply smtp_onData_settled.
  - apply done_settled, Hs.
  - apply done_settled, Hs.
  - unfold onTimeout, fire. destruct (timerCleared s) eqn:?; [done|].
    apply done_settled, Hs.
Qed.

Lemma smtp_run_settled email events :
  settled_inv (run email events initial).
Proof.
  apply fold_settled; [apply smtp_handle_settled|apply initial_settled].
Qed.

(** Once the socket is there, the promise of [connectAndProbe] always
    resolves. *)
Lemma outcome_is_Some email events : is_Some (outcome email events).
Proof.
  unfold outcome, run. rewrite fold_left_app. cbn [fold_left handle].
  pose proof (smtp_run_settled email events) as Hs. unfold run in Hs.
  set (s := fold_left _ events initial) in *.
  unfold onTimeout, fire. destruct (timerCleared s) eqn:Hc.
  - apply Hs, Hs, Hc.
  - destruct (resolved s) eqn:Hr.
    + rewrite done_resolved_id by done. by apply Hs.
    + by rewrite (proj1 (done_open _ _ Hr)).
Qed.

(** The event that resolves an open session decides the outcome. *)
Lemma smtp_outcome_resolved_at email pre ev post r :
  result (handle email (run email pre initial) ev) = Some r →
  resolved (handle email (run email pre initial) ev) = true →
  outcome email (pre ++ ev :: post) = Some r.
Proof.
  intros Hres Hr. unfold outcome, run.
  rewrite <- app_assoc, <- app_comm_cons.
  apply (fold_resolved_at _ (smtp_handle_stable email)); assumption.
Qed.

(** The handler at the [rcpt] stage, once a code has been read. *)
Lemma smtp_onData_rcpt email text s code :
  stage s = Rcpt → parseCode (lastLineOf text) = Some code →
  let lastLine := lastLineOf text in
  let s1 := pushLine text s in
  onData email text s =
    if startsWith (js "250") lastLine then
      done (mkProbe valid (Some code))
           (setStage Done (send (js "QUIT") (clearTimeout s1)))
    else if startsWith (js "550") lastLine || startsWith (js "551") lastLine
            || startsWith (js "553") lastLine then
      done (mkProbe invalid (Some code))
           (setStage Done (send (js "QUIT") (clearTimeout s1)))
    else if startsWith (js "4") lastLine then
      done (mkProbe unknown (Some code))
           (setStage Done (send (js "QUIT") (clearTimeout s1)))
    else if startsWith (js "5") code then
      done (mkProbe unknown (Some code)) (setStage Done (clearTimeout s1))
    else s1.
Proof.
  intros Hst Hp. unfold onData. rewrite Hp. simpl stage. rewrite Hst.
  reflexivity.
Qed.

(** The handler at the [helo] and [mailfrom] stages on a reply that does
    not start with 250. *)
Lemma smtp_onData_early email text s code :
  stage s = Helo ∨ stage s = Mailfrom →
  parseCode (lastLineOf text) = Some code →
  startsWith (js "250") (lastLineOf text) = false →
  onData email text s =
    if startsWith (js "5") code then
      done (mkProbe unknown (Some code))
           (setStage Done (clearTimeout (pushLine text s)))
    else pushLine text s.
Proof.
  intros Hst Hp H250. unfold onData. rewrite Hp, H250. simpl stage.
  destruct Hst as [-> | ->]; reflexivity.
Qed.

(** C1.  In a session that has reached the rcpt stage and is still open,
    the next reply decides the outcome whatever follows: a last line
    starting with 250 gives valid with code 250; one starting with 550,
    551 or 553 gives invalid with that code; one carrying a reply code
    and starting with 4 gives unknown with that code.  A server answering
    220, 250, 250, 550 yields invalid with code 550, and valid when the
    last answer is 250. *)
Theorem rcpt_reply_classifies (email : jsstring) (pre post : list Event)
    (text : jsstring) :
  let s := run email pre initial in
  let lastLine := lastLineOf text in
  stage s = Rcpt → resolved s = false →
  (startsWith (js "250") lastLine = true →
   outcome email (pre ++ EvData text :: post)
   = Some (mkProbe valid (Some (js "250"))))
  ∧ (∀ c, c ∈ [js "550"; js "551"; js "553"] →
     startsWith c lastLine = true →
     outcome email (pre ++ EvData text :: post)
     = Some (mkProbe invalid (Some c)))
  ∧ (∀ code, parseCode lastLine = Some code →
     startsWith (js "4") lastLine = true →
     outcome email (pre ++ EvData text :: post)
     = Some (mkProbe unknown (Some code)))
  ∧ outcome email [EvData (crlf "220 mx.example.com ESMTP");
                   EvData (crlf "250 ok"); EvData (crlf "250 ok");
                   EvData (crlf "550 user unknown")]
    = Some (mkProbe invalid (Some (js "550")))
  ∧ outcome email [EvData (crlf "220 mx.example.com ESMTP");
                   EvData (crlf "250 ok"); EvData (crlf "250 ok");
                   EvData (crlf "250 ok")]
    = Some (mkProbe valid (Some (js "250"))).
Proof.
  intros s lastLine Hst Hr.
  assert (Hopen : resolved (setStage Done (send (js "QUIT")
                     (clearTimeout (pushLine text s)))) = false) by exact Hr.
  split; [|split; [|split; [|split]]].
  - intros H250.
    destruct (startsWith_inv _ _ H250) as [rest Hll].
    assert (Hp : parseCode lastLine = Some (js "250")) by (by rewrite Hll).
    apply smtp_outcome_resolved_at; cbn [handle]; fold s;
      rewrite (smtp_onData_rcpt _ _ _ _ Hst Hp); fold lastLine; rewrite H250;
      by apply done_open.
  - intros c Hc H55.
    destruct (startsWith_inv _ _ H55) as [rest Hll].
    assert (Hp : parseCode lastLine = Some c).
    { rewrite Hll. set_unfold in Hc.
      destruct Hc as [->|[->|[->|[]]]]; reflexivity. }
    assert (Hbr : startsWith (js "250") lastLine = false
                  ∧ (startsWith (js "550") lastLine
                     || startsWith (js "551") lastLine
                     || startsWith (js "553") lastLine) = true).
    { rewrite Hll. set_unfold in Hc.
      destruct Hc as [->|[->|[->|[]]]]; by vm_compute. }
    destruct Hbr as [Hn250 H55x].
    apply smtp_outcome_resolved_at; cbn [handle]; fold s;
      rewrite (smtp_onData_rcpt _ _ _ _ Hst Hp); fold lastLine;
      rewrite Hn250, H55x; by apply done_open.
  - intros code Hp H4.
    destruct (startsWith_inv _ _ H4) as [rest Hll].
    assert (Hbr : startsWith (js "250") lastLine = false
                  ∧ (startsWith (js "550") lastLine
                     || startsWith (js "551") lastLine
                     || startsWith (js "553") lastLine) = false).
    { rewrite Hll. by vm_compute. }
    destruct Hbr as [Hn250 Hn55x].
    apply smtp_outcome_resolved_at; cbn [handle]; fold s;
      rewrite (smtp_onData_rcpt _ _ _ _ Hst Hp); fold lastLine;
      rewrite Hn250, Hn55x, H4; by apply done_open.
  - vm_compute. reflexivity.
  - vm_compute. reflexivity.
Qed.

Lemma rcpt_reply_classifies_witness :
  let email := js "user@example.com" in
  let pre := [EvData (crlf "220 mx.example.com ESMTP");
              EvData (crlf "250 ok"); EvData (crlf "250 ok")] in
  stage (run email pre initial) = Rcpt
  ∧ resolved (run email pre initial) = false
  ∧ startsWith (js "250") (lastLineOf (crlf "250 2.1.5 ok")) = true
  ∧ outcome email (pre ++ [EvData (crlf "250 2.1.5 ok"); EvEnd])
    = Some (mkProbe valid (Some (js "250"))).
Proof.
  intros email pre.
  assert (Hst : stage (run email pre initial) = Rcpt) by reflexivity.
  assert (Hr : resolved (run email pre initial) = false) by reflexivity.
  assert (H250 : startsWith (js "250") (lastLineOf (crlf "250 2.1.5 ok"))
                 = true) by reflexivity.
  split; [exact Hst|split; [exact Hr|split; [exact H250|]]].
  destruct (rcpt_reply_classifies email pre [EvEnd] (crlf "250 2.1.5 ok")
              Hst Hr) as [Hvalid _].
  exact (Hvalid H250).
Defined.

Lemma smtp_run_cons email ev events s :
  run email (ev :: events) s = run email events (handle email s ev).
Proof. reflexivity. Qed.

Lemma smtp_run_app email events1 events2 s :
  run email (events1 ++ events2) s
  = run email events2 (run email events1 s).
Proof. unfold run. apply fold_left_app. Qed.

Lemma smtp_onData_stalls email text s :
  stage s = Helo ∨ stage s = Mailfrom → stalls text →
  onData email text s = pushLine text s.
Proof.
  intros Hst [H250 H5].
  destruct (parseCode (lastLineOf text)) as [code|] eqn:Hp.
  - rewrite (smtp_onData_early _ _ _ _ Hst Hp H250). by rewrite (H5 _ eq_refl).
  - unfold onData. by rewrite Hp.
Qed.

Lemma smtp_run_stalls email texts s :
  stage s = Helo ∨ stage s = Mailfrom → Forall stalls texts →
  run email (EvData <$> texts) s
  = mkSession (stage s) (resolved s) (result s) (destroyed s)
              (timerCleared s) (written s) (lines s ++ texts).
Proof.
  intros Hst Hall. revert s Hst.
  induction Hall as [|text texts Htext _ IH]; intros s Hst.
  - simpl. rewrite app_nil_r. by destruct s.
  - rewrite fmap_cons, smtp_run_cons. cbn [handle].
    rewrite (smtp_onData_stalls _ _ _ Hst Htext), IH by exact Hst.
    simpl. by rewrite <- app_assoc.
Qed.

(** C3, as the code has it.  In an open session waiting for the answer
    to HELO or MAIL FROM, a reply whose last line does not start with 250:
    resolves the session at once to unknown with the reply code when that
    code starts with 5, and sends nothing; otherwise it leaves the stage,
    the commands sent, the timer and the promise as they were.  Replies of
    the second kind alone leave it to the timer to end the session, with
    unknown and no code. *)
Theorem early_reply_without_250 (email : jsstring) (pre : list Event)
    (text : jsstring) :
  let s := run email pre initial in
  let s' := onData email text s in
  stage s = Helo ∨ stage s = Mailfrom →
  resolved s = false →
  startsWith (js "250") (lastLineOf text) = false →
  (∀ code, parseCode (lastLineOf text) = Some code →
     startsWith (js "5") code = true →
     result s' = Some (mkProbe unknown (Some code))
     ∧ resolved s' = true ∧ written s' = written s)
  ∧ ((∀ code, parseCode (lastLineOf text) = Some code →
        startsWith (js "5") code = false) →
     stage s' = stage s ∧ written s' = written s
     ∧ resolved s' = false ∧ result s' = result s
     ∧ timerCleared s' = timerCleared s ∧ destroyed s' = destroyed s)
  ∧ (∀ texts, Forall stalls texts →
       outcome email (pre ++ (EvData <$> texts))
       = Some (mkProbe unknown None)).
Proof.
  intros s s' Hst Hr H250. split; [|split].
  - intros code Hp H5. unfold s'.
    rewrite (smtp_onData_early _ _ _ _ Hst Hp H250), H5.
    unfold done. simpl. rewrite Hr. by simpl.
  - intros H5. unfold s'.
    rewrite (smtp_onData_stalls _ _ _ Hst (conj H250 H5)). by simpl.
  - intros texts Hall. unfold outcome.
    rewrite !smtp_run_app. fold s.
    rewrite (smtp_run_stalls _ _ _ Hst Hall).
    pose proof (open_timer_armed _ (smtp_run_settled email pre) Hr) as Hc.
    fold s in Hc.
    rewrite smtp_run_cons. cbn [handle run fold_left].
    unfold onTimeout, fire, done. simpl.
    rewrite Hc, Hr. by simpl.
Qed.

Lemma early_reply_without_250_witness :
  let email := js "user@example.com" in
  let pre := [EvData (crlf "220 mx.example.com ESMTP")] in
  let s := run email pre initial in
  (stage s = Helo ∨ stage s = Mailfrom)
  ∧ resolved s = false
  ∧ startsWith (js "250") (lastLineOf (crlf "421 try later")) = false
  ∧ stage (onData email (crlf "421 try later") s) = Helo
  ∧ result (onData email (crlf "421 try later") s) = None
  ∧ outcome email (pre ++ (EvData <$> [crlf "421 try later"]))
    = Some (mkProbe unknown None).
Proof.
  intros email pre s.
  assert (Hst : stage s = Helo ∨ stage s = Mailfrom) by (left; reflexivity).
  assert (Hr : resolved s = false) by reflexivity.
  assert (H250 : startsWith (js "250") (lastLineOf (crlf "421 try later"))
                 = false) by reflexivity.
  assert (H5 : ∀ code,
             parseCode (lastLineOf (crlf "421 try later")) = Some code →
             startsWith (js "5") code = false).
  { intros code. vm_compute. by intros [= <-]. }
  destruct (early_reply_without_250 email pre (crlf "421 try later")
              Hst Hr H250) as (_ & Hstall & Hout).
  destruct (Hstall H5) as (Hstage & _ & _ & Hres & _).
  split; [exact Hst|split; [exact Hr|split; [exact H250|]]].
  split; [exact Hstage|split; [exact Hres|]].
  apply Hout. constructor; [|constructor]. by split.
Defined.

(** C3 as it is stated fails on a 5xx reply: a session waiting for the
    answer to HELO that receives 550, a code that is not 250, is resolved
    to unknown with code 550 by that reply, not left waiting. *)
Lemma helo_550_resolves_at_once :
  let email := js "user@example.com" in
  let s := run email [EvData (crlf "220 mx.example.com ESMTP")] initial in
  let s' := onData email (crlf "550 blocked") s in
  stage s = Helo ∧ resolved s = false
  ∧ parseCode (lastLineOf (crlf "550 blocked")) = Some (js "550")
  ∧ result s' = Some (mkProbe unknown (Some (js "550")))
  ∧ ¬ (stage s' = stage s ∧ resolved s' = false ∧ result s' = None).
Proof.
  vm_compute. repeat split; try reflexivity. intros (? & ? & ?). discriminate.
Qed.

Lemma session_run host email timeoutMs E w :
  session host email timeoutMs E w
  = (default (mkProbe unknown None)
             (outcome email (connection E (tick w) host timeoutMs)),
     logged (OpConnect 25 host) w).
Proof. reflexivity. Qed.

Lemma sessions_cons host rest email timeoutMs E w :
  sessions (host :: rest) email timeoutMs E w
  = let r := (session host email timeoutMs E w).1 in
    let w1 := logged (OpConnect 25 host) w in
    if bool_decide (status r ≠ unknown) then (r, w1)
    else sessions rest email timeoutMs E w1.
Proof.
  simpl. unfold mbind, M_bind. rewrite session_run. simpl.
  case_bool_decide; reflexivity.
Qed.

Lemma probeEach_cons host rest email timeoutMs E w :
  (probeEach (host :: rest) email timeoutMs E w).1
  = (session host email timeoutMs E w).1
    :: (probeEach rest email timeoutMs E (logged (OpConnect 25 host) w)).1.
Proof.
  simpl. unfold mbind, M_bind. rewrite session_run. simpl.
  by destruct (probeEach rest email timeoutMs E _).
Qed.

Lemma firstDefinitive_cons r rest :
  firstDefinitive (r :: rest)
  = if bool_decide (status r ≠ unknown) then (r, 1%nat)
    else ((firstDefinitive rest).1, S (firstDefinitive rest).2).
Proof. simpl. by destruct (firstDefinitive rest). Qed.

(** The loop returns the first outcome that is not unknown and has
    connected to the hosts up to that one, in order. *)
Lemma sessions_firstDefinitive hosts email timeoutMs E w :
  let outcomes := (probeEach hosts email timeoutMs E w).1 in
  let loop := sessions hosts email timeoutMs E w in
  loop.1 = (firstDefinitive outcomes).1
  ∧ ops loop.2
    = ops w ++ (OpConnect 25 <$> take (firstDefinitive outcomes).2 hosts).
Proof.
  revert w. induction hosts as [|host rest IH]; intros w.
  - simpl. by rewrite app_nil_r.
  - cbv zeta. rewrite sessions_cons, probeEach_cons. cbv zeta.
    set (r := (session host email timeoutMs E w).1).
    rewrite firstDefinitive_cons.
    case_bool_decide as Hdef.
    + done.
    + specialize (IH (logged (OpConnect 25 host) w)). cbv zeta in IH.
      destruct IH as [IH1 IH2]. cbn [fst snd].
      rewrite IH1, IH2. cbn [logged ops take fmap list_fmap].
      by rewrite <- app_assoc.
Qed.

Lemma firstDefinitive_unknown outcomes :
  Forall (λ o, status o = unknown) outcomes ↔
  status (firstDefinitive outcomes).1 = unknown.
Proof.
  induction outcomes as [|o outcomes IH]; [done|].
  rewrite firstDefinitive_cons, Forall_cons.
  case_bool_decide as Hdef; cbn [fst]; [tauto|].
  destruct (decide (status o = unknown)); tauto.
Qed.

Lemma firstDefinitive_first outcomes :
  status (firstDefinitive outcomes).1 ≠ unknown →
  ∃ before after,
    outcomes = before ++ (firstDefinitive outcomes).1 :: after
    ∧ Forall (λ o, status o = unknown) before.
Proof.
  induction outcomes as [|o outcomes IH]; [done|].
  rewrite firstDefinitive_cons.
  case_bool_decide as Hdef; cbn [fst].
  - intros _. by exists [], outcomes.
  - intros Hr. destruct (IH Hr) as (before & after & Ho & Hb).
    exists (o :: before), after. split.
    + simpl. by rewrite <- Ho.
    + constructor; [|done]. by destruct (decide (status o = unknown)).
Qed.

Lemma probeSmtpSessions_unfold `{Runtime} (E : Env) (w : World)
    (domain email : jsstring) (timeoutMs : Z)
    (limiter : Limiter.RateLimiter) (cache : option Dns.DnsCache) :
  probeSmtpSessions domain email timeoutMs limiter cache E w
  = let gate := Limiter.allow (clock E (tick w)) domain limiter in
    if gate.1 then
      let dns :=
        Dns.checkDNS domain
          (Dns.mkOpts (Some true) (Some false) (Some false) (Some timeoutMs))
          cache E (next w) in
      let hosts := default [] (Dns.mxHosts dns.1.1) in
      if bool_decide (length hosts = 0%nat) then
        (mkProbe unknown None, gate.2, dns.1.2, dns.2)
      else
        let loop := sessions hosts email timeoutMs E dns.2 in
        (loop.1, gate.2, dns.1.2, loop.2)
    else (mkProbe unknown (Some (js "rate_limited")), gate.2, cache, next w).
Proof.
  unfold probeSmtpSessions, mbind, M_bind, mret, M_ret, dateNow. cbv zeta.
  destruct (Limiter.allow _ _ _) as [[] limiter1]; cbn [negb fst snd]; [|done].
  destruct (Dns.checkDNS _ _ _ _ _) as [[dnsResult cache1] w1]. cbn [fst snd].
  case_bool_decide; [done|].
  by destruct (sessions _ _ _ _ _).
Qed.

(** In a run where every socket is created, [probeSmtp] first asks the
    limiter, whose new state it hands back.  When the limiter refuses,
    the result is unknown with code rate_limited, the cache is untouched
    and no network operation is issued.  Otherwise the MX hosts are
    resolved and connected to one after the other in the order of the
    list, up to the first whose outcome is not unknown, which is the
    result; the result is unknown exactly when every host yields unknown,
    which includes the empty list. *)
Lemma probeSmtpSessions_gate_then_first_definitive `{Runtime} (E : Env) (w : World)
    (domain email : jsstring) (timeoutMs : Z)
    (limiter : Limiter.RateLimiter) (cache : option Dns.DnsCache) :
  let gate := Limiter.allow (clock E (tick w)) domain limiter in
  let call := probeSmtpSessions domain email timeoutMs limiter cache E w in
  let dns :=
    Dns.checkDNS domain
      (Dns.mkOpts (Some true) (Some false) (Some false) (Some timeoutMs))
      cache E (next w) in
  let hosts := default [] (Dns.mxHosts dns.1.1) in
  let outcomes := (probeEach hosts email timeoutMs E dns.2).1 in
  call.1.1.2 = gate.2
  ∧ if gate.1 then
      call.1.1.1 = (firstDefinitive outcomes).1
      ∧ call.1.2 = dns.1.2
      ∧ ops call.2
        = ops dns.2
          ++ (OpConnect 25 <$> take (firstDefinitive outcomes).2 hosts)
      ∧ (status call.1.1.1 = unknown
         ∨ ∃ before after,
             outcomes = before ++ call.1.1.1 :: after
             ∧ Forall (λ o, status o = unknown) before)
      ∧ (Forall (λ o, status o = unknown) outcomes ↔
         status call.1.1.1 = unknown)
    else
      call.1.1.1 = mkProbe unknown (Some (js "rate_limited"))
      ∧ call.1.2 = cache
      ∧ ops call.2 = ops w.
Proof.
  intros gate call dns hosts outcomes.
  unfold call. rewrite probeSmtpSessions_unfold. cbv zeta.
  fold gate. destruct gate.1.
  - fold dns. fold hosts.
    pose proof (sessions_firstDefinitive hosts email timeoutMs E dns.2)
      as Hloop.
    cbv zeta in Hloop. fold outcomes in Hloop. destruct Hloop as [Hr Hops].
    assert (Hsame : (if bool_decide (length hosts = 0%nat)
                     then (mkProbe unknown None, gate.2, dns.1.2, dns.2)
                     else ((sessions hosts email timeoutMs E dns.2).1,
                           gate.2, dns.1.2,
                           (sessions hosts email timeoutMs E dns.2).2))
                    = ((sessions hosts email timeoutMs E dns.2).1,
                       gate.2, dns.1.2,
                       (sessions hosts email timeoutMs E dns.2).2)).
    { case_bool_decide as Hnil; [|done].
      apply length_zero_iff_nil in Hnil. by rewrite Hnil. }
    rewrite Hsame. cbn [fst snd]. rewrite Hr, Hops.
    split; [done|]. split; [done|]. split; [done|]. split; [done|]. split.
    + destruct (decide (status (firstDefinitive outcomes).1 = unknown))
        as [Hu|Hd]; [by left|right]. by apply firstDefinitive_first.
    + apply firstDefinitive_unknown.
  - done.
Qed.

(** [probeHosts] goes the way of [sessions] up to the first refused
    host among those it reaches, where it throws; with no such host it
    returns what [sessions] returns. *)
Lemma probeHosts_sessions `{Net} hosts email timeoutMs E w :
  let outcomes := (probeEach hosts email timeoutMs E w).1 in
  let tried := take (firstDefinitive outcomes).2 hosts in
  let loop := probeHosts hosts email timeoutMs E w in
  match firstRefused tried with
  | None =>
      loop = (Returned (sessions hosts email timeoutMs E w).1,
              (sessions hosts email timeoutMs E w).2)
  | Some i =>
      loop.1 = Thrown
      ∧ ops loop.2 = ops w ++ (OpConnect 25 <$> take i hosts)
  end.
Proof.
  revert w. induction hosts as [|host rest IH]; intros w.
  - reflexivity.
  - cbv zeta. rewrite sessions_cons, probeEach_cons, firstDefinitive_cons.
    cbv zeta. cbn [probeHosts]. unfold mbind, M_bind, connectAndProbe.
    destruct (connectThrows host) eqn:Hthrows.
    + assert (Hfirst : ∀ n,
                firstRefused (take (S n) (host :: rest)) = Some 0%nat).
      { intros n. cbn [take firstRefused]. by rewrite Hthrows. }
      case_bool_decide; cbn [fst snd]; rewrite Hfirst;
        cbn [mret M_ret fst snd take fmap list_fmap];
        by rewrite app_nil_r.
    + unfold mbind, M_bind, mret, M_ret. rewrite session_run. cbn [fst snd].
      case_bool_decide as Hdef; cbn [fst snd take firstRefused];
        rewrite Hthrows.
      * reflexivity.
      * specialize (IH (logged (OpConnect 25 host) w)). cbv zeta in IH.
        destruct (firstRefused (take _ rest)) as [i|]; cbn [fmap option_fmap option_map].
        -- destruct IH as [IH1 IH2]. split; [exact IH1|].
           rewrite IH2. cbn [logged ops take fmap list_fmap].
           by rewrite <- app_assoc.
        -- exact IH.
Qed.

Lemma probeSmtp_unfold `{Runtime} `{Net} (E : Env) (w : World)
    (domain email : jsstring) (timeoutMs : Z)
    (limiter : Limiter.RateLimiter) (cache : option Dns.DnsCache) :
  probeSmtp domain email timeoutMs limiter cache E w
  = let gate := Limiter.allow (clock E (tick w)) domain limiter in
    if gate.1 then
      let dns :=
        Dns.checkDNS domain
          (Dns.mkOpts (Some true) (Some false) (Some false) (Some timeoutMs))
          cache E (next w) in
      let hosts := default [] (Dns.mxHosts dns.1.1) in
      let loop := probeHosts hosts email timeoutMs E dns.2 in
      (loop.1, gate.2, dns.1.2, loop.2)
    else (Returned (mkProbe unknown (Some (js "rate_limited"))),
          gate.2, cache, next w).
Proof.
  unfold probeSmtp, mbind, M_bind, mret, M_ret, dateNow. cbv zeta.
  destruct (Limiter.allow _ _ _) as [[] limiter1]; cbn [negb fst snd]; [|done].
  destruct (Dns.checkDNS _ _ _ _ _) as [[dnsResult cache1] w1]. cbn [fst snd].
  case_bool_decide as Hnil.
  - apply length_zero_iff_nil in Hnil. by rewrite Hnil.
  - by destruct (probeHosts _ _ _ _ _).
Qed.

(** [probeSmtp] hands back the limiter and the cache as
    [probeSmtpSessions] does.  It throws exactly when the limiter admits
    the call and [net.createConnection] refuses one of the hosts the loop
    reaches, having connected to the hosts before that one; otherwise it
    returns the result of [probeSmtpSessions], the first outcome that is
    not unknown. *)
Lemma probeSmtp_sessions `{Runtime} `{Net} (E : Env) (w : World)
    (domain email : jsstring) (timeoutMs : Z)
    (limiter : Limiter.RateLimiter) (cache : option Dns.DnsCache) :
  let gate := Limiter.allow (clock E (tick w)) domain limiter in
  let call := probeSmtp domain email timeoutMs limiter cache E w in
  let run := probeSmtpSessions domain email timeoutMs limiter cache E w in
  let dns :=
    Dns.checkDNS domain
      (Dns.mkOpts (Some true) (Some false) (Some false) (Some timeoutMs))
      cache E (next w) in
  let hosts := default [] (Dns.mxHosts dns.1.1) in
  let outcomes := (probeEach hosts email timeoutMs E dns.2).1 in
  let tried := take (firstDefinitive outcomes).2 hosts in
  call.1.1.2 = run.1.1.2
  ∧ call.1.2 = run.1.2
  ∧ match (if gate.1 then firstRefused tried else None) with
    | None => call.1.1.1 = Returned run.1.1.1 ∧ call.2 = run.2
    | Some i =>
        call.1.1.1 = Thrown
        ∧ ops call.2 = ops dns.2 ++ (OpConnect 25 <$> take i hosts)
    end.
Proof.
  intros gate call run dns hosts outcomes tried.
  unfold call, run. rewrite probeSmtp_unfold, probeSmtpSessions_unfold.
  cbv zeta. fold gate. destruct gate.1; [|done].
  fold dns. fold hosts.
  pose proof (probeHosts_sessions hosts email timeoutMs E dns.2) as Hloop.
  cbv zeta in Hloop. fold outcomes in Hloop. fold tried in Hloop.
  assert (Hsame : (if bool_decide (length hosts = 0%nat)
                   then (mkProbe unknown None, gate.2, dns.1.2, dns.2)
                   else ((sessions hosts email timeoutMs E dns.2).1,
                         gate.2, dns.1.2,
                         (sessions hosts email timeoutMs E dns.2).2))
                  = ((sessions hosts email timeoutMs E dns.2).1,
                     gate.2, dns.1.2,
                     (sessions hosts email timeoutMs E dns.2).2)).
  { case_bool_decide as Hnil; [|done].
    apply length_zero_iff_nil in Hnil. by rewrite Hnil. }
  rewrite Hsame. cbn [fst snd].
  split; [done|]. split; [done|].
  destruct (firstRefused tried) as [i|].
  - exact Hloop.
  - by rewrite Hloop.
Qed.

(** C2.  [probeSmtp] throws to its caller.  The limiter admits the
    call, the MX lookup of example.com answers the single host
    mx.example.com, and [net.createConnection] throws on that host: the
    completion of [probeSmtp] is [Thrown], after the lookups of [checkDNS]
    and no connection, and the admission stays charged to the limiter.  On a
    platform that takes the host, whose server then stays silent, the same
    call returns the status unknown. *)
Theorem probeSmtp_throws_when_createConnection_throws :
  let domain := js "example.com" in
  let email := js "user@example.com" in
  let mx name :=
    if bool_decide (name = domain)
    then Some (Fulfilled [mkMx (js "mx.example.com") 10])
    else Some Rejected in
  let E := staticEnv mx (λ _, Some Rejected) (λ _, Some Rejected)
                     (λ _, Some Rejected) (λ _, []) in
  let refusing : Net :=
    {| connectThrows host := bool_decide (host = js "mx.example.com") |} in
  let limiter := Limiter.new 10 60000 in
  let call :=
    @probeSmtp asciiRuntime refusing domain email 1000 limiter None E
               (mkWorld 0 []) in
  let calm :=
    @probeSmtp asciiRuntime openNet domain email 1000 limiter None E
               (mkWorld 0 []) in
  (Limiter.allow 0 domain limiter).1 = true
  ∧ call.1.1.1 = Thrown
  ∧ ops call.2 = [OpResolveMx domain; OpResolve4 domain; OpResolve6 domain]
  ∧ Limiter.buckets call.1.1.2 !! domain = Some [0%Z]
  ∧ calm.1.1.1 = Returned (mkProbe unknown None)
  ∧ ops calm.2 = [OpResolveMx domain; OpResolve4 domain; OpResolve6 domain;
                  OpConnect 25 (js "mx.example.com")].
Proof. vm_compute. repeat split; reflexivity. Qed.

End SmtpProps.

(* ===================================================================== *)
(** * Properties of the DNS check *)
(* ===================================================================== *)

Module DnsProps.
Import Rt Dns.
Local Open Scope Z_scope.

(** The four signals [computeDomainExists] is called with. *)
Lemma assemble_signals `{Runtime} (domain : jsstring)
    (checkMx checkSpf checkDmarc : bool) (found : Lookups) :
  domainExists (assemble domain checkMx checkSpf checkDmarc found)
  = computeDomainExists
      (checkMx && match okRecords (mxRes found) with
                  | Some (_ :: _) => true
                  | _ => false
                  end)
      (checkSpf && match okRecords (spfTxtRes found) with
                   | Some records => bool_decide (flattenTxt records ≠ [])
                   | None => false
                   end)
      (match aRes found with Ok (_ :: _) => true | _ => false end)
      (match aaaaRes found with Ok (_ :: _) => true | _ => false end).
Proof.
  unfold assemble.
  destruct checkMx, (okRecords (mxRes found)) as [[|r rs]|];
    destruct checkSpf, (okRecords (spfTxtRes found)) as [records|];
    try reflexivity;
    cbn [domainExists andb]; f_equal;
    destruct (flattenTxt records); reflexivity.
Qed.

Lemma okRecords_Some {T} (res : option (ResolveResult T)) (records : T) :
  okRecords res = Some records ↔ res = Some (Ok records).
Proof. destruct res as [[r|]|]; simpl; split; congruence. Qed.

Lemma assemble_domainExists `{Runtime} (domain : jsstring)
    (checkMx checkSpf checkDmarc : bool) (found : Lookups) :
  domainExists (assemble domain checkMx checkSpf checkDmarc found) = true ↔
    (checkMx = true ∧ ∃ r rs, mxRes found = Some (Ok (r :: rs)))
    ∨ (checkSpf = true
       ∧ ∃ records, spfTxtRes found = Some (Ok records)
                    ∧ flattenTxt records ≠ [])
    ∨ (∃ r rs, aRes found = Ok (r :: rs))
    ∨ (∃ r rs, aaaaRes found = Ok (r :: rs)).
Proof.
  rewrite assemble_signals. unfold computeDomainExists.
  rewrite !orb_true_iff, !andb_true_iff.
  assert (Hmx : match okRecords (mxRes found) with
                | Some (_ :: _) => true | _ => false end = true
                ↔ ∃ r rs, mxRes found = Some (Ok (r :: rs))).
  { destruct (okRecords (mxRes found)) as [[|r rs]|] eqn:Hok.
    - apply okRecords_Some in Hok. rewrite Hok. split; [done|].
      by intros (? & ? & [=]).
    - apply okRecords_Some in Hok. rewrite Hok. split; eauto.
    - split; [done|]. intros (r & rs & Hres).
      apply okRecords_Some in Hres. congruence. }
  assert (Htxt : match okRecords (spfTxtRes found) with
                 | Some records => bool_decide (flattenTxt records ≠ [])
                 | None => false end = true
                 ↔ ∃ records, spfTxtRes found = Some (Ok records)
                              ∧ flattenTxt records ≠ []).
  { destruct (okRecords (spfTxtRes found)) as [records|] eqn:Hok.
    - apply okRecords_Some in Hok. rewrite Hok, bool_decide_eq_true.
      split; [eauto|]. by intros (? & [= <-] & ?).
    - split; [done|]. intros (records & Hres & _).
      apply okRecords_Some in Hres. congruence. }
  assert (Ha : ∀ res : ResolveResult (list jsstring),
            match res with Ok (_ :: _) => true | _ => false end = true
            ↔ ∃ r rs, res = Ok (r :: rs)).
  { intros [[|r rs]|]; split; try done; eauto; by intros (? & ? & [=]). }
  rewrite Hmx, Htxt, !Ha. tauto.
Qed.

Lemma lookupAll_static (mx : jsstring → option (Settled (list MxRecord)))
    (txt : jsstring → option (Settled (list (list jsstring))))
    (a4 a6 : jsstring → option (Settled (list jsstring)))
    (peer : jsstring → list Event) (w : World)
    (domain : jsstring) (timeoutMs : Z) (checkMx checkSpf checkDmarc : bool) :
  (lookupAll domain timeoutMs checkMx checkSpf checkDmarc None
             (staticEnv mx txt a4 a6 peer) w).1
  = (mkLookups
       (if checkMx then Some (caught (mx domain)) else None)
       (if checkSpf then Some (caught (txt domain)) else None)
       (if checkDmarc then Some (caught (txt (js "_dmarc." ++ domain)))
        else None)
       (caught (a4 domain)) (caught (a6 domain)),
     None).
Proof.
  unfold lookupAll, caught. generalize (js "_dmarc." ++ domain). intros dname.
  unfold callIf, resumeIf, resolveMx, resolveTxt, resolveA, resolveAAAA,
    resolveCached_call, resolveCached_resume, cacheGet, cacheSet,
    queryMx, queryTxt, query4, query6, mbind, M_bind, mret, M_ret.
  destruct checkMx, checkSpf, checkDmarc; cbn;
    destruct (race (mx domain)), (race (txt domain)), (race (txt dname)),
             (race (a4 domain)), (race (a6 domain)); reflexivity.
Qed.

Lemma checkDNS_found `{Runtime} (E : Env) (w : World) (domain : jsstring)
    (opts : DnsOpts) (cache : option DnsCache) :
  (checkDNS domain opts cache E w).1.1
  = assemble domain (notFalse (opt_mx opts)) (notFalse (opt_spf opts))
      (notFalse (opt_dmarc opts))
      (lookupAll domain (default 4000 (opt_timeoutMs opts))
         (notFalse (opt_mx opts)) (notFalse (opt_spf opts))
         (notFalse (opt_dmarc opts)) cache E w).1.1.
Proof.
  unfold checkDNS, mbind, M_bind. cbv zeta.
  by destruct (lookupAll _ _ _ _ _ _ _ _) as [[found cache1] w1].
Qed.

(** C4, as the code has it.  [domainExists] is true exactly when one of
    these holds: the MX lookup is switched on and has found a record; the
    SPF lookup is switched on and the TXT lookup at the root has found a
    record that is not empty once its chunks are joined; the A lookup has
    found a record; the AAAA lookup has found one.  A lookup finds what
    the cache holds for it or else what the resolver answers; without a
    cache, in an environment whose answers do not change, that is the
    answer of the resolver, an error or a timeout counting as nothing
    found. *)
Theorem domainExists_iff_lookup_found `{Runtime} (E : Env) (w : World)
    (domain : jsstring) (opts : DnsOpts) (cache : option DnsCache) :
  let checkMx := notFalse (opt_mx opts) in
  let checkSpf := notFalse (opt_spf opts) in
  let checkDmarc := notFalse (opt_dmarc opts) in
  let timeoutMs := default 4000 (opt_timeoutMs opts) in
  let found :=
    (lookupAll domain timeoutMs checkMx checkSpf checkDmarc cache E w).1.1 in
  (domainExists (checkDNS domain opts cache E w).1.1 = true ↔
     (checkMx = true ∧ ∃ r rs, mxRes found = Some (Ok (r :: rs)))
     ∨ (checkSpf = true
        ∧ ∃ records, spfTxtRes found = Some (Ok records)
                     ∧ flattenTxt records ≠ [])
     ∨ (∃ r rs, aRes found = Ok (r :: rs))
     ∨ (∃ r rs, aaaaRes found = Ok (r :: rs)))
  ∧ (∀ mx txt a4 a6 peer,
       (lookupAll domain timeoutMs checkMx checkSpf checkDmarc None
                  (staticEnv mx txt a4 a6 peer) w).1.1
       = mkLookups
           (if checkMx then Some (caught (mx domain)) else None)
           (if checkSpf then Some (caught (txt domain)) else None)
           (if checkDmarc then Some (caught (txt (js "_dmarc." ++ domain)))
            else None)
           (caught (a4 domain)) (caught (a6 domain))).
Proof.
  intros checkMx checkSpf checkDmarc timeoutMs found. split.
  - rewrite checkDNS_found. apply assemble_domainExists.
  - intros mx txt a4 a6 peer. by rewrite lookupAll_static.
Qed.

(** C4 as it is stated fails when a lookup is switched off: the domain
    has an MX record, the call is made with [mx: false], and
    [domainExists] is false. *)
Lemma domainExists_false_with_mx_record :
  let domain := js "example.com" in
  let mx name :=
    if bool_decide (name = domain)
    then Some (Fulfilled [mkMx (js "mx.example.com") 10])
    else Some Rejected in
  let E := staticEnv mx (λ _, Some Rejected) (λ _, Some Rejected)
                     (λ _, Some Rejected) (λ _, []) in
  let opts := mkOpts (Some false) None None None in
  dnsResolveMx E 0 domain 4000
  = Some (Fulfilled [mkMx (js "mx.example.com") 10])
  ∧ domainExists
      (@checkDNS asciiRuntime domain opts None E (mkWorld 0 [])).1.1 = false.
Proof. vm_compute. split; reflexivity. Qed.

End DnsProps.

(* ===================================================================== *)
(** * Properties of the catch-all detector *)
(* ===================================================================== *)

Module CatchAllProps.
Import Rt Probe CatchAll JsProps ProbeProps.
Local Open Scope Z_scope.

Implicit Types (s : Session ProbeResult) (testEmail text : jsstring).

Lemma catchAll_onData_stable testEmail text s :
  resolved s = true →
  result (onData testEmail text s) = result s
  ∧ resolved (onData testEmail text s) = true.
Proof.
  intros Hr. unfold onData.
  destruct (parseCode (lastLineOf text)) as [code|]; [|by simpl].
  split_tests; rewrite ?done_resolved_id by (simpl; exact Hr); simpl; auto.
Qed.

Lemma catchAll_handle_stable testEmail s ev :
  resolved s = true →
  result (handle testEmail s ev) = result s
  ∧ resolved (handle testEmail s ev) = true.
Proof.
  intros Hr. destruct ev as [text|m| |]; simpl.
  - by apply catchAll_onData_stable.
  - unfold onError. rewrite done_resolved_id by (simpl; exact Hr). by simpl.
  - unfold onEnd. rewrite done_resolved_id by (simpl; exact Hr). by simpl.
  - unfold onTimeout, fire. destruct (timerCleared s); [done|].
    by rewrite done_resolved_id.
Qed.

Lemma catchAll_onData_settled testEmail text s :
  settled_inv s → settled_inv (onData testEmail text s).
Proof.
  intros [H1 H2]. unfold onData.
  destruct (parseCode (lastLineOf text)) as [code|]; [|by split].
  split_tests; try (apply done_settled; exact H2); split; simpl; auto.
Qed.

Lemma catchAll_handle_settled testEmail s ev :
  settled_inv s → settled_inv (handle testEmail s ev).
Proof.
  intros Hs. destruct ev as [text|m| |]; simpl.
  - by apply catchAll_onData_settled.
  - apply done_settled, Hs.
  - apply done_settled, Hs.
  - unfold onTimeout, fire. destruct (timerCleared s) eqn:?; [done|].
    apply done_settled, Hs.
Qed.

Lemma catchAll_run_settled testEmail events :
  settled_inv (run testEmail events initial).
Proof.
  apply fold_settled; [apply catchAll_handle_settled|apply initial_settled].
Qed.

(** The promise of [smtpCatchAllProbe] always resolves. *)
Lemma catchAll_outcome_is_Some testEmail events : is_Some (outcome testEmail events).
Proof.
  unfold outcome, run. rewrite fold_left_app. cbn [fold_left handle].
  pose proof (catchAll_run_settled testEmail events) as Hs. unfold run in Hs.
  set (s := fold_left _ events initial) in *.
  unfold onTimeout, fire. destruct (timerCleared s) eqn:Hc.
  - apply Hs, Hs, Hc.
  - destruct (resolved s) eqn:Hr.
    + rewrite done_resolved_id by done. by apply Hs.
    + by rewrite (proj1 (done_open _ _ Hr)).
Qed.

(** The event that resolves an open session decides the outcome. *)
Lemma catchAll_outcome_resolved_at testEmail pre ev post r :
  result (handle testEmail (run testEmail pre initial) ev) = Some r →
  resolved (handle testEmail (run testEmail pre initial) ev) = true →
  outcome testEmail (pre ++ ev :: post) = Some r.
Proof.
  intros Hres Hr. unfold outcome, run.
  rewrite <- app_assoc, <- app_comm_cons.
  apply (fold_resolved_at _ (catchAll_handle_stable testEmail)); assumption.
Qed.

(** The handler at the [rcpt] stage, once a code has been read. *)
Lemma catchAll_onData_rcpt testEmail text s code :
  stage s = Rcpt → parseCode (lastLineOf text) = Some code →
  let lastLine := lastLineOf text in
  let s1 := setStage Done (send (js "QUIT") (clearTimeout s)) in
  onData testEmail text s =
    if startsWith (js "250") lastLine then
      done (mkProbe true (Some code) None) s1
    else if startsWith (js "550") lastLine || startsWith (js "551") lastLine
            || startsWith (js "553") lastLine then
      done (mkProbe false (Some code) None) s1
    else if startsWith (js "4") lastLine then
      done (mkProbe false (Some code) (Some (js "temporary_error"))) s1
    else
      done (mkProbe false (Some code) (Some (js "unexpected_response"))) s1.
Proof.
  intros Hst Hp. unfold onData. rewrite Hp, Hst. reflexivity.
Qed.

(** How one probe reads: accepted, rejected, or inconclusive. *)
Lemma rcpt_reply_reading testEmail pre post text :
  let s := run testEmail pre initial in
  let lastLine := lastLineOf text in
  let out := outcome testEmail (pre ++ EvData text :: post) in
  stage s = Rcpt → resolved s = false →
  (startsWith (js "250") lastLine = true →
   out = Some (mkProbe true (Some (js "250")) None))
  ∧ (∀ c, c ∈ [js "550"; js "551"; js "553"] →
     startsWith c lastLine = true →
     out = Some (mkProbe false (Some c) None))
  ∧ (∀ code, parseCode lastLine = Some code →
     code ∉ [js "250"; js "550"; js "551"; js "553"] →
     ∃ r, out = Some r ∧ accepts r = false ∧ CatchAll.code r = Some code
          ∧ hasError r = true).
Proof.
  intros s lastLine out Hst Hr.
  split; [|split].
  - intros H250.
    destruct (startsWith_inv _ _ H250) as [rest Hll].
    assert (Hp : parseCode lastLine = Some (js "250")) by (by rewrite Hll).
    apply catchAll_outcome_resolved_at; cbn [handle]; fold s;
      rewrite (catchAll_onData_rcpt _ _ _ _ Hst Hp); fold lastLine; rewrite H250;
      by apply done_open.
  - intros c Hc H55.
    destruct (startsWith_inv _ _ H55) as [rest Hll].
    assert (Hp : parseCode lastLine = Some c).
    { rewrite Hll. set_unfold in Hc. destruct Hc as [->|[->|[->|[]]]]; reflexivity. }
    assert (Hbr : startsWith (js "250") lastLine = false
                  ∧ (startsWith (js "550") lastLine
                     || startsWith (js "551") lastLine
                     || startsWith (js "553") lastLine) = true).
    { rewrite Hll. set_unfold in Hc. destruct Hc as [->|[->|[->|[]]]]; by vm_compute. }
    destruct Hbr as [Hn250 H55x].
    apply catchAll_outcome_resolved_at; cbn [handle]; fold s;
      rewrite (catchAll_onData_rcpt _ _ _ _ Hst Hp); fold lastLine;
      rewrite Hn250, H55x; by apply done_open.
  - intros code Hp Hcode.
    destruct (parseCode_inv _ _ Hp) as (a & b & c & rest & Hll & -> & _).
    assert (Hbr : startsWith (js "250") lastLine = false
                  ∧ (startsWith (js "550") lastLine
                     || startsWith (js "551") lastLine
                     || startsWith (js "553") lastLine) = false).
    { rewrite Hll.
      change (js "250") with [50; 53; 48]%N in *.
      change (js "550") with [53; 53; 48]%N in *.
      change (js "551") with [53; 53; 49]%N in *.
      change (js "553") with [53; 53; 51]%N in *.
      cbn [startsWith]. rewrite !andb_true_r.
      split; apply not_true_iff_false;
        rewrite ?orb_true_iff, !andb_true_iff, !N.eqb_eq;
        intros Heq; apply Hcode.
      - destruct Heq as (<- & <- & <-). set_solver.
      - destruct Heq as [[(<- & <- & <-)|(<- & <- & <-)]|(<- & <- & <-)];
          set_solver. }
    destruct Hbr as [Hn250 Hn55x].
    assert (Hon : ∃ e, truthy e = true
              ∧ onData testEmail text s
                = done (mkProbe false (Some [a; b; c]) (Some e))
                       (setStage Done (send (js "QUIT") (clearTimeout s)))).
    { rewrite (catchAll_onData_rcpt _ _ _ _ Hst Hp). fold lastLine.
      rewrite Hn250, Hn55x.
      destruct (startsWith (js "4") lastLine);
        eexists; (split; [|reflexivity]); reflexivity. }
    destruct Hon as (e & He & Hon).
    exists (mkProbe false (Some [a; b; c]) (Some e)).
    split; [|by repeat split].
    apply catchAll_outcome_resolved_at; cbn [handle]; fold s; rewrite Hon;
      by apply done_open.
Qed.


(** What ends a probe without a reply to RCPT: a socket error, the end
    of the connection, or the timer. *)
Lemma transport_failure_reading testEmail pre post message :
  resolved (run testEmail pre initial) = false →
  outcome testEmail (pre ++ EvError message :: post)
  = Some (mkProbe false None (Some message))
  ∧ outcome testEmail (pre ++ EvEnd :: post)
    = Some (mkProbe false None (Some (js "connection_closed")))
  ∧ outcome testEmail (pre ++ EvTimeout :: post)
    = Some (mkProbe false None (Some (js "timeout")))
  ∧ outcome testEmail pre = Some (mkProbe false None (Some (js "timeout"))).
Proof.
  intros Hr.
  pose proof (open_timer_armed _ (catchAll_run_settled testEmail pre) Hr) as Hc.
  split; [|split; [|split]].
  - apply catchAll_outcome_resolved_at; cbn [handle]; unfold onError; by apply done_open.
  - apply catchAll_outcome_resolved_at; cbn [handle]; unfold onEnd; by apply done_open.
  - apply catchAll_outcome_resolved_at; cbn [handle]; unfold onTimeout, fire;
      rewrite Hc; by apply done_open.
  - unfold outcome, run. rewrite fold_left_app. cbn [fold_left handle].
    fold (run testEmail pre initial). unfold onTimeout, fire. rewrite Hc.
    by apply done_open.
Qed.

Lemma smtpCatchAllProbe_run host testEmail timeoutMs E w :
  smtpCatchAllProbe host testEmail timeoutMs E w
  = (default (mkProbe false None (Some (js "timeout")))
             (outcome testEmail (connection E (tick w) host timeoutMs)),
     logged (OpConnect 25 host) w).
Proof. reflexivity. Qed.

Lemma conclude_cons host r probes :
  conclude ((host, r) :: probes)
  = if hasError r then conclude probes
    else if accepts r then
      mkCatchAll true high smtp_probe
        (Some (js "Random address accepted by " ++ host))
    else
      mkCatchAll false high smtp_probe
        (Some (js "Random address rejected with code "
               ++ default (js "undefined") (CatchAll.code r))).
Proof.
  unfold conclude. cbn [list_find].
  destruct (decide (conclusive (host, r))) as [Hc|Hc];
    unfold conclusive in Hc; cbn [snd] in Hc.
  - by rewrite Hc.
  - apply not_false_is_true in Hc. rewrite Hc.
    by destruct (list_find conclusive probes) as [[i [h' r']]|].
Qed.

(** The loop answers as the first conclusive probe says. *)
Lemma tryHosts_conclude hosts testEmail timeoutMs E w :
  (tryHosts hosts testEmail timeoutMs E w).1
  = conclude (zip hosts (probeEach hosts testEmail timeoutMs E w).1).
Proof.
  revert w. induction hosts as [|host rest IH]; intros w; [done|].
  cbn [tryHosts probeEach]. unfold mbind, M_bind.
  rewrite smtpCatchAllProbe_run.
  set (r := default _ (outcome testEmail _)).
  specialize (IH (logged (OpConnect 25 host) w)).
  destruct (probeEach rest testEmail timeoutMs E _) as [rs w2].
  cbn [fst snd] in *. unfold mret, M_ret. cbn [fst].
  change (zip (host :: rest) (r :: rs)) with ((host, r) :: zip rest rs).
  rewrite conclude_cons.
  destruct (hasError r); [exact IH|]. by destruct (accepts r).
Qed.

Lemma checkCatchAll_unfold `{Runtime} (E : Env) (w : World)
    (domain : jsstring) (optTimeoutMs : option Z) (cache : option Dns.DnsCache) :
  (checkCatchAll domain optTimeoutMs cache E w).1.1
  = let timeoutMs := default 5000 optTimeoutMs in
    let dns :=
      Dns.checkDNS domain
        (Dns.mkOpts (Some true) (Some false) (Some false) (Some timeoutMs))
        cache E w in
    let hosts := default [] (Dns.mxHosts dns.1.1) in
    let testEmail :=
      js "catch-all-test-" ++ randomBytesHex E (tick dns.2)
      ++ js "@" ++ domain in
    if bool_decide (length hosts = 0%nat) then
      mkCatchAll false low unknown (Some (js "No MX records found"))
    else (tryHosts hosts testEmail timeoutMs E (next dns.2)).1.
Proof.
  unfold checkCatchAll, generateRandomEmail, randomHex, mbind, M_bind, mret, M_ret.
  cbv zeta.
  destruct (Dns.checkDNS _ _ _ _ _) as [[dnsResult cache1] w1]. cbn [fst snd].
  case_bool_decide; [done|].
  by destruct (tryHosts _ _ _ _ _).
Qed.

(** C5, as the code has it.  Without MX hosts the answer is not a
    catch-all, with low confidence and method unknown.  Otherwise one
    random address is probed on the hosts in turn and the first conclusive
    probe decides with high confidence and method smtp_probe: a catch-all
    when the address was accepted, not one when it was rejected; when no
    probe is conclusive the answer is not a catch-all with low confidence.
    A probe that reaches RCPT is conclusive on a reply starting with 250
    (accepted) and on one starting with 550, 551 or 553 (rejected); any
    other reply code there leaves it inconclusive.  A socket error gives
    its message as the error, the end of the connection and the timer give
    theirs, and a probe with an error that is not empty is inconclusive. *)
Theorem checkCatchAll_first_conclusive_host `{Runtime} (E : Env) (w : World)
    (domain : jsstring) (optTimeoutMs : option Z)
    (cache : option Dns.DnsCache) :
  let timeoutMs := default 5000 optTimeoutMs in
  let dns :=
    Dns.checkDNS domain
      (Dns.mkOpts (Some true) (Some false) (Some false) (Some timeoutMs))
      cache E w in
  let hosts := default [] (Dns.mxHosts dns.1.1) in
  let testEmail :=
    js "catch-all-test-" ++ randomBytesHex E (tick dns.2)
    ++ js "@" ++ domain in
  let probes := (probeEach hosts testEmail timeoutMs E (next dns.2)).1 in
  let answer := (checkCatchAll domain optTimeoutMs cache E w).1.1 in
  (answer = if bool_decide (hosts = [])
            then mkCatchAll false low unknown
                            (Some (js "No MX records found"))
            else conclude (zip hosts probes))
  ∧ (∀ ps, match list_find conclusive ps with
           | Some (_, (_, r)) =>
               isCatchAll (conclude ps) = accepts r
               ∧ confidence (conclude ps) = high
               ∧ method (conclude ps) = smtp_probe
           | None => conclude ps = inconclusive
           end)
  ∧ (∀ pre post text,
       let s := run testEmail pre initial in
       let lastLine := lastLineOf text in
       let out := outcome testEmail (pre ++ EvData text :: post) in
       stage s = Rcpt → resolved s = false →
       (startsWith (js "250") lastLine = true →
        out = Some (mkProbe true (Some (js "250")) None))
       ∧ (∀ c, c ∈ [js "550"; js "551"; js "553"] →
          startsWith c lastLine = true →
          out = Some (mkProbe false (Some c) None))
       ∧ (∀ code, parseCode lastLine = Some code →
          code ∉ [js "250"; js "550"; js "551"; js "553"] →
          ∃ r, out = Some r ∧ accepts r = false
               ∧ CatchAll.code r = Some code ∧ hasError r = true))
  ∧ (∀ pre post message,
       resolved (run testEmail pre initial) = false →
       outcome testEmail (pre ++ EvError message :: post)
       = Some (mkProbe false None (Some message))
       ∧ outcome testEmail (pre ++ EvEnd :: post)
         = Some (mkProbe false None (Some (js "connection_closed")))
       ∧ outcome testEmail (pre ++ EvTimeout :: post)
         = Some (mkProbe false None (Some (js "timeout")))
       ∧ outcome testEmail pre
         = Some (mkProbe false None (Some (js "timeout")))).
Proof.
  intros timeoutMs dns hosts testEmail probes answer.
  split; [|split; [|split]].
  - unfold answer. rewrite checkCatchAll_unfold. cbv zeta.
    fold timeoutMs. fold dns. fold hosts. fold testEmail.
    destruct hosts as [|host rest] eqn:Hhosts; [done|].
    rewrite bool_decide_eq_false_2 by done.
    rewrite bool_decide_eq_false_2 by done.
    apply tryHosts_conclude.
  - intros ps. unfold conclude.
    destruct (list_find conclusive ps) as [[i [host r]]|]; [|done].
    by destruct (accepts r).
  - intros pre post text. apply rcpt_reply_reading.
  - intros pre post message. apply transport_failure_reading.
Qed.

Lemma checkCatchAll_first_conclusive_host_witness :
  let domain := js "example.com" in
  let mx name :=
    if bool_decide (name = domain)
    then Some (Fulfilled [mkMx (js "mx.example.com") 10])
    else Some Rejected in
  let pre := [EvData (crlf "220 mx.example.com ESMTP");
              EvData (crlf "250 ok"); EvData (crlf "250 ok")] in
  let peer (host : jsstring) := pre ++ [EvData (crlf "250 accepted")] in
  let E := staticEnv mx (λ _, Some Rejected) (λ _, Some Rejected)
                     (λ _, Some Rejected) peer in
  let testEmail :=
    js "catch-all-test-000102030405060708090a0b0c0d0e0f@example.com" in
  stage (run testEmail pre initial) = Rcpt
  ∧ resolved (run testEmail pre initial) = false
  ∧ startsWith (js "250") (lastLineOf (crlf "250 accepted")) = true
  ∧ outcome testEmail (pre ++ [EvData (crlf "250 accepted")])
    = Some (mkProbe true (Some (js "250")) None)
  ∧ (@checkCatchAll asciiRuntime domain None None E (mkWorld 0 [])).1.1
    = mkCatchAll true high smtp_probe
        (Some (js "Random address accepted by mx.example.com")).
Proof.
  intros domain mx pre peer E testEmail.
  assert (Hst : stage (run testEmail pre initial) = Rcpt) by reflexivity.
  assert (Hr : resolved (run testEmail pre initial) = false) by reflexivity.
  assert (H250 : startsWith (js "250") (lastLineOf (crlf "250 accepted"))
                 = true) by reflexivity.
  destruct (@checkCatchAll_first_conclusive_host asciiRuntime E (mkWorld 0 [])
              domain None None) as (Hanswer & _ & Hread & _).
  destruct (Hread pre [] (crlf "250 accepted") Hst Hr) as [Haccept _].
  split; [exact Hst|split; [exact Hr|split; [exact H250|]]].
  split; [exact (Haccept H250)|].
  etrans; [exact Hanswer|]. vm_compute. reflexivity.
Defined.

(** C5 as it is stated fails on a 5xx reply other than 550, 551 and
    553: the only MX host answers 554 to RCPT, and the answer has low
    confidence, not high. *)
Lemma rcpt_554_is_inconclusive :
  let domain := js "example.com" in
  let mx name :=
    if bool_decide (name = domain)
    then Some (Fulfilled [mkMx (js "mx.example.com") 10])
    else Some Rejected in
  let peer (host : jsstring) :=
    [EvData (crlf "220 mx.example.com ESMTP"); EvData (crlf "250 ok");
     EvData (crlf "250 ok"); EvData (crlf "554 transaction failed")] in
  let E := staticEnv mx (λ _, Some Rejected) (λ _, Some Rejected)
                     (λ _, Some Rejected) peer in
  let answer :=
    (@checkCatchAll asciiRuntime domain None None E (mkWorld 0 [])).1.1 in
  outcome (js "probe@example.com") (peer (js "mx.example.com"))
  = Some (mkProbe false (Some (js "554"))
                  (Some (js "unexpected_response")))
  ∧ answer = inconclusive
  ∧ answer ≠ mkCatchAll false high smtp_probe (details answer).
Proof. vm_compute. repeat split; try reflexivity. discriminate. Qed.

End CatchAllProps.

(* ===================================================================== *)
(** * Properties of the orchestrator *)
(* ===================================================================== *)

Module VerifyProps.
Import Rt Normalize Verify JsProps.
Local Open Scope Z_scope.

(** [normalizeEmail] fails on every malformed input. *)
Lemma normalizeEmail_malformed `{Runtime} (email : jsstring) :
  malformed email →
  ∃ reason, normalizeEmail email
            = mkNormalized false (Some reason) None None None None.
Proof.
  intros Hbad. unfold normalizeEmail.
  assert (Hlen : length (split AT (trim email))
                 = S (occurrences AT (trim email)))
    by apply splitAt_length.
  rewrite occurrences_trim in Hlen by done.
  destruct Hbad as [Hcount | [[rest ->] | [front ->]]].
  - destruct (split AT (trim email)) as [|p1 [|p2 [|p3 ps]]] eqn:Hparts;
      simpl in Hlen; try (unfold failure; eauto; fail).
    lia.
  - destruct (trim_cons AT rest eq_refl) as [s' Htrim].
    rewrite Htrim, split_cons_sep.
    destruct (split AT s') as [|p2 [|p3 ps]]; unfold failure; eauto.
  - destruct (trim_snoc AT front eq_refl) as [s' Htrim].
    rewrite Htrim. destruct (splitAt_snoc_sep AT [] s') as [pieces Hp].
    unfold split. rewrite Hp.
    destruct pieces as [|p1 [|p2 [|p3 ps]]]; simpl; unfold failure; eauto.
    destruct p1; simpl; eauto.
Qed.

(** The run stops at the first gate, having touched the cache pool only. *)
Lemma runValidation_malformed `{Runtime} {LateOptions : Type}
    (validateSyntax : jsstring → Mode → bool * option jsstring)
    (afterSyntaxGate :
       jsstring → @VerifyOptions LateOptions → ValidationRunOptions →
       RuntimeOptions → CacheRef → Normalized → list DebugTraceStep →
       Pools → M (Run * Pools))
    (email : jsstring) (options : VerifyOptions)
    (runOptions : ValidationRunOptions) (pools : Pools)
    (E : Env) (w : World) :
  malformed email →
  let out := runValidation validateSyntax afterSyntaxGate
               email options runOptions pools E w in
  verdict (result out.1.1) = Scoring.Invalid
  ∧ confidence (result out.1.1) = 0
  ∧ out.1.2 = (createDnsCache options pools).2
  ∧ out.2 = w.
Proof.
  intros Hbad. destruct (normalizeEmail_malformed email Hbad) as [reason Hn].
  unfold runValidation. cbv zeta.
  destruct (createDnsCache options pools) as [cache pools1].
  rewrite Hn. cbn [Normalize.ok negb orb].
  destruct (includeDetails runOptions); done.
Qed.

(** C8.  For an input without [@], with more than one, with nothing
    before it or nothing after it, the validation (the run itself and its
    two entry points, whatever the options) answers with verdict invalid
    and confidence 0 and leaves the world as it found it: the clock is not
    read and no DNS query or connection is issued. *)
Theorem malformed_input_is_invalid_without_io `{Runtime}
    {LateOptions : Type}
    (validateSyntax : jsstring → Mode → bool * option jsstring)
    (afterSyntaxGate :
       jsstring → @VerifyOptions LateOptions → ValidationRunOptions →
       RuntimeOptions → CacheRef → Normalized → list DebugTraceStep →
       Pools → M (Run * Pools))
    (email : jsstring) (options : VerifyOptions)
    (runOptions : ValidationRunOptions) (pools : Pools)
    (E : Env) (w : World) :
  malformed email →
  let run := runValidation validateSyntax afterSyntaxGate
               email options runOptions pools E w in
  let lean := verifyEmail validateSyntax afterSyntaxGate
                email options pools E w in
  let debug := debugVerifyEmail validateSyntax afterSyntaxGate
                 email options pools E w in
  (verdict (result run.1.1) = Scoring.Invalid
   ∧ confidence (result run.1.1) = 0
   ∧ run.2 = w)
  ∧ (verdict lean.1.1 = Scoring.Invalid
     ∧ confidence lean.1.1 = 0
     ∧ lean.2 = w)
  ∧ (verdict (result debug.1.1) = Scoring.Invalid
     ∧ confidence (result debug.1.1) = 0
     ∧ debug.2 = w).
Proof.
  intros Hbad run lean debug. split; [|split].
  - destruct (runValidation_malformed validateSyntax afterSyntaxGate
                email options runOptions pools E w Hbad)
      as (Hv & Hc & _ & Hw). done.
  - unfold lean, verifyEmail, mbind, M_bind. cbv zeta.
    set (ro := mkRunOptions _ _).
    destruct (runValidation_malformed validateSyntax afterSyntaxGate
                email options ro pools E w Hbad)
      as (Hv & Hc & _ & Hw). cbv zeta in *.
    destruct (runValidation _ _ email options ro pools E w)
      as [[r pools1] w1].
    cbn [fst snd] in *. subst w1.
    destruct (default outBasic (o_output options)); done.
  - destruct (runValidation_malformed validateSyntax afterSyntaxGate
                email options (mkRunOptions true true) pools E w Hbad)
      as (Hv & Hc & _ & Hw). done.
Qed.

Lemma malformed_input_is_invalid_without_io_witness :
  let email := js "invalid-email" in
  let validateSyntax (_ : jsstring) (_ : Mode) := (true, @None jsstring) in
  let afterSyntaxGate (email : jsstring) (_ : @VerifyOptions unit)
        (_ : ValidationRunOptions) (_ : RuntimeOptions) (_ : CacheRef)
        (_ : Normalized) (trace : list DebugTraceStep) (pools : Pools)
      : M (Run * Pools) :=
    _ ← queryMx (js "example.com") 4000;
    mret (mkRun (mkPMEmailResult email email Scoring.Valid 100 []
                   (checks (buildInvalidResult email email [] basic false))
                   None) trace, pools) in
  let options :=
    mkVerifyOptions None None None None None None None None None None None
                    None None None None None None () in
  let E := staticEnv (λ _, Some Rejected) (λ _, Some Rejected)
                     (λ _, Some Rejected) (λ _, Some Rejected) (λ _, []) in
  let w := mkWorld 0 [] in
  let lean := @verifyEmail asciiRuntime unit validateSyntax afterSyntaxGate
                email options (mkPools ∅ ∅) E w in
  malformed email
  ∧ verdict lean.1.1 = Scoring.Invalid
  ∧ confidence lean.1.1 = 0
  ∧ ops lean.2 = [].
Proof.
  intros email validateSyntax afterSyntaxGate options E w lean.
  assert (Hbad : malformed email) by (left; vm_compute; lia).
  destruct (@malformed_input_is_invalid_without_io asciiRuntime unit
              validateSyntax afterSyntaxGate email options
              (mkRunOptions false false) (mkPools ∅ ∅) E w Hbad)
    as (_ & (Hv & Hc & Hw) & _).
  split; [exact Hbad|]. split; [exact Hv|]. split; [exact Hc|].
  unfold lean. by rewrite Hw.
Defined.

End VerifyProps.

(* ===================================================================== *)
(** * Further properties of the cache *)
(* ===================================================================== *)

Module CacheFacts.
Import Cache CacheProps.
Local Open Scope Z_scope.

Section Generic.
Context {T : Type}.
Implicit Types (s : list (jsstring * CacheEntry T)) (c : DnsCache T)
  (e : CacheEntry T).

Lemma mapDelete_keys key s :
  (mapDelete key s).*1 = filter (λ k, k ≠ key) s.*1.
Proof.
  induction s as [|[k v] s IH]; [done|].
  destruct (decide (k = key)) as [->|Hk].
  - rewrite mapDelete_cons_eq, fmap_cons. cbn [fst].
    rewrite filter_cons_False by tauto. exact IH.
  - rewrite mapDelete_cons_ne, !fmap_cons by done. cbn [fst].
    rewrite filter_cons_True by done. by rewrite IH.
Qed.

Lemma mapDelete_NoDup key s : NoDup s.*1 → NoDup (mapDelete key s).*1.
Proof. rewrite mapDelete_keys. apply NoDup_filter. Qed.

Lemma mapDelete_not_in key s : key ∉ (mapDelete key s).*1.
Proof. rewrite mapDelete_keys, list_elem_of_filter. tauto. Qed.

Lemma mapDelete_sub key k s : k ∈ (mapDelete key s).*1 → k ∈ s.*1.
Proof. rewrite mapDelete_keys, list_elem_of_filter. tauto. Qed.

Lemma mapDelete_length key s :
  (length (mapDelete key s) ≤ length s)%nat.
Proof. apply length_filter. Qed.

Lemma mapGet_Some_in key s e : mapGet key s = Some e → key ∈ s.*1.
Proof.
  induction s as [|[k v] s IH]; [done|].
  rewrite mapGet_cons, fmap_cons. cbn [fst].
  case_bool_decide as Hk; [subst; intros _; apply list_elem_of_here|].
  intros Hg. apply list_elem_of_further. auto.
Qed.

Lemma mapGet_None_not_in key s : mapGet key s = None → key ∉ s.*1.
Proof.
  induction s as [|[k v] s IH]; [intros _; apply not_elem_of_nil|].
  rewrite mapGet_cons, fmap_cons. cbn [fst].
  case_bool_decide as Hk; [done|].
  intros Hg. apply not_elem_of_cons. split; [congruence|auto].
Qed.

Lemma mapDelete_length_present key s :
  key ∈ s.*1 → (length (mapDelete key s) < length s)%nat.
Proof.
  induction s as [|[k v] s IH]; [by intros ?%elem_of_nil|].
  rewrite fmap_cons. cbn [fst]. intros Hin.
  destruct (decide (k = key)) as [->|Hk].
  - rewrite mapDelete_cons_eq. cbn [length].
    pose proof (mapDelete_length key s). lia.
  - rewrite mapDelete_cons_ne by done. cbn [length].
    apply elem_of_cons in Hin as [Heq|Hin]; [congruence|].
    specialize (IH Hin). lia.
Qed.

Lemma get_within_capacity now key c :
  within_capacity c → within_capacity (get now key c).2.
Proof.
  intros (Hnd & Hne & Hlen). unfold get, within_capacity, keys in *.
  destruct (mapGet key (store c)) as [e|] eqn:He; [|done].
  pose proof (mapDelete_length_present key _ (mapGet_Some_in _ _ _ He)) as Hlt.
  case_bool_decide; cbn [snd store withStore maxEntries].
  - split; [by apply mapDelete_NoDup|].
    split; [intros Hin; by apply mapDelete_sub in Hin|lia].
  - rewrite refresh_store, fmap_app, length_app. cbn [fmap list_fmap fst length].
    split.
    { apply NoDup_app. split; [by apply mapDelete_NoDup|].
      split; [|apply NoDup_singleton].
      intros k Hk ->%list_elem_of_singleton. by apply mapDelete_not_in in Hk. }
    split; [|lia].
    rewrite elem_of_app, list_elem_of_singleton.
    intros [Hin|Heq]; [by apply mapDelete_sub in Hin|].
    subst key. apply Hne. by eapply mapGet_Some_in.
Qed.

(** [set] in one piece: the binding of [key] goes last, and the oldest
    binding is dropped when the store has grown over the capacity. *)
Lemma set_store now key d ttl c :
  let entry := mkEntry d (now + default (ttlMs c) ttl) in
  let s2 := mapDelete key (store c) ++ [(key, entry)] in
  set now key d ttl c
  = if bool_decide (maxEntries c < Z.of_nat (length s2)) then
      match firstKey s2 with
      | Some oldestKey =>
          if truthy oldestKey then withStore (mapDelete oldestKey s2) c
          else withStore s2 c
      | None => withStore s2 c
      end
    else withStore s2 c.
Proof.
  cbv zeta. unfold set. destruct (mapHas key (store c)) eqn:Hhas.
  - by rewrite mapSet_absent by apply mapGet_delete_eq.
  - apply mapHas_false in Hhas.
    rewrite (mapDelete_absent key (store c))
      by (by apply mapGet_None_not_in).
    by rewrite mapSet_absent.
Qed.

Lemma set_within_capacity now key d ttl c :
  key ≠ [] → within_capacity c → within_capacity (set now key d ttl c).
Proof.
  intros Hkey (Hnd & Hne & Hlen). rewrite set_store. cbv zeta.
  set (entry := mkEntry d _).
  match goal with
  | |- context [firstKey ?x] => remember x as s2 eqn:Hs2
  end.
  unfold keys in *.
  assert (Hnd2 : NoDup s2.*1).
  { subst s2. rewrite fmap_app. cbn [fmap list_fmap fst].
    apply NoDup_app. split; [by apply mapDelete_NoDup|].
    split; [|apply NoDup_singleton].
    intros k Hk ->%list_elem_of_singleton. by apply mapDelete_not_in in Hk. }
  assert (Hne2 : [] ∉ s2.*1).
  { subst s2. rewrite fmap_app. cbn [fmap list_fmap fst].
    rewrite elem_of_app, list_elem_of_singleton.
    intros [Hin|Heq]; [by apply mapDelete_sub in Hin|congruence]. }
  assert (Hlen2 : (length s2 ≤ length (store c) + 1)%nat).
  { subst s2. rewrite length_app. cbn [length].
    pose proof (mapDelete_length key (store c)). lia. }
  clear Hs2. case_bool_decide as Hfull.
  - destruct s2 as [|[k0 e0] s2'].
    { cbn [length] in *. cbn [firstKey head fmap option_fmap option_map].
      unfold within_capacity, keys. cbn [store withStore maxEntries length].
      split; [apply NoDup_nil_2|]. split; [apply not_elem_of_nil|lia]. }
    cbn [firstKey head fmap option_fmap option_map fst].
    assert (Hk0 : k0 ≠ []).
    { intros ->. apply Hne2. rewrite fmap_cons. apply list_elem_of_here. }
    destruct k0 as [|x k0]; [done|]. cbn [truthy].
    unfold within_capacity, keys. cbn [store withStore maxEntries].
    split; [by apply mapDelete_NoDup|].
    split; [intros Hin; by apply mapDelete_sub in Hin|].
    assert (Hlt : (length (mapDelete (x :: k0) ((x :: k0, e0) :: s2'))
                   < length ((x :: k0, e0) :: s2'))%nat).
    { apply mapDelete_length_present. rewrite fmap_cons.
      apply list_elem_of_here. }
    cbn [length] in *. unfold jsstring in *. lia.
  - unfold within_capacity, keys. cbn [store withStore maxEntries].
    split; [done|]. split; [done|lia].
Qed.

Lemma callAll_snoc (ops : list (Call T)) op c :
  callAll (ops ++ [op]) c = call op (callAll ops c).
Proof. unfold callAll. by rewrite fold_left_app. Qed.

Lemma callAll_maxEntries (ops : list (Call T)) c :
  maxEntries (callAll ops c) = maxEntries c.
Proof.
  induction ops as [|op ops IH] using rev_ind; [done|].
  rewrite callAll_snoc. rewrite <- IH. destruct op as [now key|now key d ttl].
  - cbn [call]. unfold get.
    destruct (mapGet key _); [case_bool_decide|]; reflexivity.
  - cbn [call]. rewrite set_store. cbv zeta.
    case_bool_decide; [|reflexivity].
    destruct (firstKey _) as [k|]; [destruct (truthy k)|]; reflexivity.
Qed.

(** X1.  A cache made with a capacity that is not negative, and used
    through any sequence of [get]s and [set]s whose written keys are not
    the empty string, never holds more than [maxEntries] bindings, and no
    key twice. *)
Theorem uses_stay_within_capacity (optMaxEntries optTtlMs : option Z)
    (ops : list (Call T)) :
  0 ≤ default 2000 optMaxEntries →
  [] ∉ keysSet ops →
  let c := callAll ops (new optMaxEntries optTtlMs) in
  Z.of_nat (length (store c)) ≤ default 2000 optMaxEntries
  ∧ NoDup (keys c).
Proof.
  intros Hcap Hkeys c.
  assert (Hinv : within_capacity c).
  { unfold c. clear c.
    induction ops as [|op ops IH] using rev_ind.
    - unfold within_capacity, keys, new. cbn.
      split; [apply NoDup_nil_2|]. split; [apply not_elem_of_nil|exact Hcap].
    - rewrite callAll_snoc. unfold keysSet in Hkeys.
      rewrite omap_app, elem_of_app in Hkeys.
      assert (IH' := IH (λ Hin, Hkeys (or_introl Hin))).
      destruct op as [now key|now key d ttl]; cbn [call].
      + by apply get_within_capacity.
      + apply set_within_capacity; [|exact IH'].
        intros ->. apply Hkeys. right. cbn. apply list_elem_of_here. }
  destruct Hinv as (Hnd & _ & Hlen). split; [|exact Hnd].
  unfold c in Hlen. by rewrite callAll_maxEntries in Hlen.
Qed.

(** X2.  [set] on a key the store holds, in a store within its capacity,
    overwrites: the old binding is dropped, the new one goes last with the
    new data and expiry, and nothing else leaves the store. *)
Theorem set_overwrites_and_refreshes (now : Z) (key : jsstring) (d : T)
    (ttl : option Z) (c : DnsCache T) (e : CacheEntry T) :
  mapGet key (store c) = Some e →
  Z.of_nat (length (store c)) ≤ maxEntries c →
  store (set now key d ttl c)
  = mapDelete key (store c)
    ++ [(key, mkEntry d (now + default (ttlMs c) ttl))].
Proof.
  intros He Hlen. rewrite set_store. cbv zeta.
  pose proof (mapDelete_length_present key _ (mapGet_Some_in _ _ _ He)).
  rewrite bool_decide_eq_false_2; [reflexivity|].
  rewrite length_app. cbn [length]. lia.
Qed.

(** X3.  [set(k, v, ttl)] then [get(k)] at time [t], in a cache with room
    for an entry: up to the expiry the entry comes back with its data and
    its expiry; after it the answer is absent and the key has left the
    store. *)
Theorem set_then_get_until_expiry (now t : Z) (key : jsstring) (d : T)
    (ttl : Z) (c : DnsCache T) :
  1 ≤ maxEntries c →
  let c' := set now key d (Some ttl) c in
  (t ≤ now + ttl → (get t key c').1 = Some (mkEntry d (now + ttl)))
  ∧ (now + ttl < t →
     (get t key c').1 = None
     ∧ mapGet key (store (get t key c').2) = None).
Proof.
  intros Hcap c'.
  pose proof (set_lookup now key d (Some ttl) c Hcap) as Hlook.
  simpl in Hlook. fold c' in Hlook.
  split; intros Ht.
  - unfold get. rewrite Hlook. simpl.
    by rewrite bool_decide_eq_false_2 by lia.
  - apply (get_expired t key c' _ Hlook). simpl. lia.
Qed.

(** X4.  Eviction follows recency.  In a full store of distinct keys, a
    [set] on a new key evicts the oldest binding; when the oldest binding
    was read by a [get] before, and has not expired, it is the next one
    that is evicted, and the binding that was read stays. *)
Theorem eviction_follows_recency (now now' : Z) (key : jsstring) (d : T)
    (ttl : option Z) (c : DnsCache T) (k0 k1 : jsstring)
    (e0 e1 : CacheEntry T) (rest : list (jsstring * CacheEntry T)) :
  store c = (k0, e0) :: (k1, e1) :: rest →
  NoDup (keys c) → key ∉ keys c → k0 ≠ [] → k1 ≠ [] →
  Z.of_nat (length (store c)) = maxEntries c →
  ¬ expiresAt e0 < now →
  let entry := mkEntry d (now' + default (ttlMs c) ttl) in
  store (set now' key d ttl c) = (k1, e1) :: rest ++ [(key, entry)]
  ∧ store (set now' key d ttl (get now k0 c).2)
    = rest ++ [(k0, e0); (key, entry)].
Proof.
  intros Hstore Hnd Hfresh Hk0 Hk1 Hfull Hlive entry.
  split.
  - by rewrite (set_evicts_oldest now' key d ttl c k0 e0 _ Hstore).
  - assert (Hget : mapGet k0 (store c) = Some e0).
    { by rewrite Hstore, mapGet_cons, bool_decide_eq_true_2. }
    unfold keys in *. rewrite Hstore in Hnd, Hfresh, Hfull.
    rewrite !fmap_cons in Hnd, Hfresh. cbn [fst] in Hnd, Hfresh.
    apply NoDup_cons in Hnd as [Hk0rest Hnd].
    assert (Hread : store (get now k0 c).2
                    = (k1, e1) :: rest ++ [(k0, e0)]).
    { unfold get. rewrite Hget, bool_decide_eq_false_2 by done.
      cbn [snd store withStore]. rewrite refresh_store, Hstore.
      rewrite mapDelete_cons_eq.
      rewrite mapDelete_absent; [reflexivity|].
      rewrite fmap_cons. exact Hk0rest. }
    assert (Hsame : ∀ c', maxEntries (get now k0 c').2 = maxEntries c'
                          ∧ ttlMs (get now k0 c').2 = ttlMs c').
    { intros c'. unfold get.
      destruct (mapGet k0 (store c')); [destruct (bool_decide _)|]; done. }
    destruct (Hsame c) as [Hmax Httl].
    rewrite (set_evicts_oldest now' key d ttl (get now k0 c).2 k1 e1
               (rest ++ [(k0, e0)]) Hread).
    + rewrite Httl, <- app_assoc. reflexivity.
    + unfold keys. rewrite Hread, fmap_cons, fmap_app. cbn [fmap list_fmap fst].
      apply NoDup_cons in Hnd as [Hk1rest Hnd].
      apply not_elem_of_cons in Hk0rest as [Hk01 Hk0rest].
      apply NoDup_cons. split.
      * rewrite elem_of_app, list_elem_of_singleton. intros [?|?]; [done|].
        congruence.
      * apply NoDup_app. split; [done|]. split; [|apply NoDup_singleton].
        by intros k Hk ->%list_elem_of_singleton.
    + unfold keys. rewrite Hread, fmap_cons, fmap_app. cbn [fmap list_fmap fst].
      apply not_elem_of_cons in Hfresh as [Hne0 Hfresh].
      apply not_elem_of_cons in Hfresh as [Hne1 Hfresh].
      rewrite not_elem_of_cons, elem_of_app, list_elem_of_singleton.
      split; [done|]. intros [?|?]; [done|]. congruence.
    + exact Hk1.
    + rewrite Hmax, <- Hfull, Hread. cbn [length]. rewrite length_app.
      cbn [length]. lia.
Qed.

End Generic.

Lemma uses_stay_within_capacity_witness :
  let ops := [CallSet 0 (js "MX:a.b") 1%Z None; CallSet 1 (js "A:a.b") 2%Z None;
              CallGet 2 (js "MX:a.b"); CallSet 3 (js "AAAA:a.b") 3%Z None] in
  let c := callAll ops (new (Some 2) None) in
  0 ≤ default 2000 (Some 2)
  ∧ ([] ∉ keysSet ops)
  ∧ Z.of_nat (length (store c)) ≤ 2
  ∧ keys c = [js "MX:a.b"; js "AAAA:a.b"].
Proof.
  intros ops c.
  assert (Hcap : 0 ≤ default 2000 (Some 2)) by (simpl; lia).
  assert (Hkeys : [] ∉ keysSet ops).
  { intros Hin. vm_compute in Hin.
    repeat (apply elem_of_cons in Hin as [Hin|Hin]; [discriminate|]).
    by apply elem_of_nil in Hin. }
  split; [exact Hcap|]. split; [exact Hkeys|].
  split; [exact (proj1 (uses_stay_within_capacity (Some 2) None ops Hcap Hkeys))|].
  reflexivity.
Defined.

Lemma set_overwrites_and_refreshes_witness :
  let c : DnsCache Z :=
    set 1 (js "A:a.b") 2 None
      (set 0 (js "MX:a.b") 1 None (new (Some 2) (Some 1000))) in
  mapGet (js "MX:a.b") (store c) = Some (mkEntry 1 1000)
  ∧ Z.of_nat (length (store c)) ≤ maxEntries c
  ∧ store (set 5 (js "MX:a.b") 7 (Some 10) c)
    = [(js "A:a.b", mkEntry 2 1001); (js "MX:a.b", mkEntry 7 15)].
Proof.
  intros c.
  assert (Hget : mapGet (js "MX:a.b") (store c) = Some (mkEntry 1 1000))
    by reflexivity.
  assert (Hlen : Z.of_nat (length (store c)) ≤ maxEntries c)
    by (vm_compute; discriminate).
  split; [exact Hget|]. split; [exact Hlen|].
  etrans;
    [exact (set_overwrites_and_refreshes 5 (js "MX:a.b") 7 (Some 10) c _
              Hget Hlen)|reflexivity].
Defined.

Lemma set_then_get_until_expiry_witness :
  let c : DnsCache Z := new (Some 2) None in
  let c' := set 0 (js "MX:a.b") 1 (Some 10) c in
  1 ≤ maxEntries c
  ∧ (get 10 (js "MX:a.b") c').1 = Some (mkEntry 1 10)
  ∧ (get 11 (js "MX:a.b") c').1 = None.
Proof.
  intros c c'.
  assert (Hcap : 1 ≤ maxEntries c) by (simpl; lia).
  split; [exact Hcap|].
  split.
  - apply (proj1 (set_then_get_until_expiry 0 10 (js "MX:a.b") 1 10 c Hcap)).
    lia.
  - apply (proj2 (set_then_get_until_expiry 0 11 (js "MX:a.b") 1 10 c Hcap)).
    lia.
Defined.

Lemma eviction_follows_recency_witness :
  let c : DnsCache Z :=
    set 1 (js "A:a.b") 2 None
      (set 0 (js "MX:a.b") 1 None (new (Some 2) (Some 1000))) in
  store c = [(js "MX:a.b", mkEntry 1 1000); (js "A:a.b", mkEntry 2 1001)]
  ∧ keys (set 3 (js "AAAA:a.b") 3 None c) = [js "A:a.b"; js "AAAA:a.b"]
  ∧ keys (set 3 (js "AAAA:a.b") 3 None (get 2 (js "MX:a.b") c).2)
    = [js "MX:a.b"; js "AAAA:a.b"].
Proof.
  intros c.
  assert (Hstore : store c = [(js "MX:a.b", mkEntry 1 1000);
                              (js "A:a.b", mkEntry 2 1001)]) by reflexivity.
  assert (Hnd : NoDup (keys c)).
  { unfold keys. rewrite Hstore. cbn [fmap list_fmap fst].
    apply NoDup_cons. split; [|apply NoDup_singleton].
    intros Hin%list_elem_of_singleton. discriminate. }
  assert (Hfresh : js "AAAA:a.b" ∉ keys c).
  { unfold keys. rewrite Hstore. cbn [fmap list_fmap fst].
    intros Hin. apply elem_of_cons in Hin as [Hin|Hin]; [discriminate|].
    apply list_elem_of_singleton in Hin. discriminate. }
  assert (Hk0 : js "MX:a.b" ≠ []) by discriminate.
  assert (Hk1 : js "A:a.b" ≠ []) by discriminate.
  assert (Hfull : Z.of_nat (length (store c)) = maxEntries c) by reflexivity.
  assert (Hlive : ¬ expiresAt (mkEntry 1%Z 1000) < 2) by (simpl; lia).
  destruct (eviction_follows_recency 2 3 (js "AAAA:a.b") 3 None c _ _ _ _ []
              Hstore Hnd Hfresh Hk0 Hk1 Hfull Hlive) as [Hplain Hread].
  split; [exact Hstore|].
  unfold keys. rewrite Hplain, Hread. split; reflexivity.
Defined.

End CacheFacts.

(* ===================================================================== *)
(** * Further properties of the rate limiter *)
(* ===================================================================== *)

Module LimiterFacts.
Import Limiter LimiterProps.
Local Open Scope Z_scope.

Lemma clockOrdered_snoc calls c :
  clockOrdered (calls ++ [c]) →
  clockOrdered calls ∧ ∀ a, a ∈ calls → a.1 ≤ c.1.
Proof.
  intros Hord. split.
  - intros i j a b Hi Hj Hij.
    apply (Hord i j); [by apply lookup_app_l_Some..|done].
  - intros a [i Hi]%list_elem_of_lookup.
    apply (Hord i (length calls)).
    + by apply lookup_app_l_Some.
    + by rewrite lookup_app_r, Nat.sub_diag by lia.
    + apply lookup_lt_Some in Hi. lia.
Qed.

Lemma clockOrdered_nil : clockOrdered [].
Proof. intros i j a b Hi. by rewrite lookup_nil in Hi. Qed.

Lemma clockOrdered_cons a calls :
  Forall (λ b, a.1 ≤ b.1) calls → clockOrdered calls →
  clockOrdered (a :: calls).
Proof.
  intros Hall Hord i j x y Hi Hj Hij.
  destruct i as [|i]; destruct j as [|j]; simpl in *.
  - injection Hi as <-. injection Hj as <-. lia.
  - injection Hi as <-. rewrite Forall_forall in Hall.
    apply Hall. by eapply list_elem_of_lookup_2.
  - lia.
  - apply (Hord i j); [done..|lia].
Qed.

Lemma allowAll_snoc calls now key l :
  allowAll (calls ++ [(now, key)]) l
  = ((allowAll calls l).1 ++ [(allow now key (allowAll calls l).2).1],
     (allow now key (allowAll calls l).2).2).
Proof.
  revert l. induction calls as [|[t k] calls IH]; intros l; simpl.
  - by destruct (allow now key l).
  - destruct (allow t k l) as [r l1]. rewrite IH.
    by destruct (allowAll calls l1).
Qed.

Lemma allowAll_length calls l : length (allowAll calls l).1 = length calls.
Proof.
  revert l. induction calls as [|[t k] calls IH]; intros l; simpl; [done|].
  destruct (allow t k l) as [r l1]. specialize (IH l1).
  destruct (allowAll calls l1). simpl in *. by rewrite IH.
Qed.

Lemma admittedTimes_snoc key calls answers now k answer :
  length answers = length calls →
  admittedTimes key (calls ++ [(now, k)]) (answers ++ [answer])
  = admittedTimes key calls answers
    ++ (if answer && bool_decide (k = key) then [now] else []).
Proof.
  intros Hlen. unfold admittedTimes.
  rewrite zip_with_app by done. rewrite omap_app. f_equal.
  simpl. by destruct (answer && bool_decide (k = key)).
Qed.

Lemma filter_filter_weaker (P Q : Z → Prop) `{∀ x, Decision (P x)}
    `{∀ x, Decision (Q x)} (l : list Z) :
  (∀ x, P x → Q x) → filter P (filter Q l) = filter P l.
Proof.
  intros HPQ. induction l as [|x l IH]; [done|].
  destruct (decide (Q x)) as [HQ|HQ].
  - rewrite (filter_cons_True Q) by done.
    destruct (decide (P x)).
    + rewrite !(filter_cons_True P) by done. by rewrite IH.
    + rewrite !(filter_cons_False P) by done. exact IH.
  - rewrite (filter_cons_False Q) by done.
    rewrite (filter_cons_False P) by (intros HP; by apply HQ, HPQ). exact IH.
Qed.

(** What the bucket of a key holds, seen from a later clock reading:
    the admitted calls on that key. *)
Lemma bucket_recent_admitted lim win calls key t :
  clockOrdered calls → (∀ a, a ∈ calls → a.1 ≤ t) →
  filter (λ ts, t - win ≤ ts) (bucket key (allowAll calls (new lim win)).2)
  = filter (λ ts, t - win ≤ ts)
           (admittedTimes key calls (allowAll calls (new lim win)).1).
Proof.
  revert t. induction calls as [|[now k] calls IH] using rev_ind;
    intros t Hord Hle.
  - simpl. unfold bucket, new. simpl. by rewrite lookup_empty.
  - apply clockOrdered_snoc in Hord as [Hord Hnow]. cbn [fst] in Hnow.
    assert (Hnowt : now ≤ t).
    { apply (Hle (now, k)). rewrite elem_of_app, list_elem_of_singleton. auto. }
    assert (Hle' : ∀ a, a ∈ calls → a.1 ≤ t).
    { intros a Ha. apply Hle. rewrite elem_of_app. auto. }
    rewrite allowAll_snoc. cbn [fst snd].
    rewrite admittedTimes_snoc by apply allowAll_length.
    set (l := (allowAll calls (new lim win)).2).
    assert (Hwin : windowMs l = win).
    { unfold l. by rewrite allowAll_windowMs. }
    destruct (decide (k = key)) as [->|Hk].
    + rewrite bool_decide_eq_true_2, andb_true_r by done.
      pose proof (allow_bucket now key l) as Hb. cbv zeta in Hb.
      rewrite Hb, Hwin. clear Hb.
      assert (Hfresh :
                filter (λ ts, t - win ≤ ts)
                       (filter (λ ts, now - win ≤ ts) (bucket key l))
                = filter (λ ts, t - win ≤ ts)
                    (admittedTimes key calls (allowAll calls (new lim win)).1)).
      { rewrite filter_filter_weaker by (intros x; lia).
        by apply IH. }
      destruct (allow now key l).1.
      * by rewrite !filter_app, Hfresh.
      * by rewrite app_nil_r, Hfresh.
    + rewrite bool_decide_eq_false_2, andb_false_r, app_nil_r by done.
      rewrite <- (IH t Hord Hle'). f_equal.
      unfold bucket. by rewrite allow_other by done.
Qed.

(** X5.  With a clock that never goes back, a call is admitted exactly
    when fewer than [limit] of the earlier calls on the same key were
    admitted at a time not older than [now - windowMs]. *)
Theorem allow_counts_admitted_calls (lim win : Z)
    (calls : list (Z * jsstring)) (now : Z) (key : jsstring) :
  clockOrdered (calls ++ [(now, key)]) →
  let answers := (allowAll calls (new lim win)).1 in
  let l := (allowAll calls (new lim win)).2 in
  let recent :=
    filter (λ ts, now - win ≤ ts) (admittedTimes key calls answers) in
  (allow now key l).1 = bool_decide (Z.of_nat (length recent) < lim).
Proof.
  intros [Hord Hnow]%clockOrdered_snoc answers l recent. cbn [fst] in Hnow.
  unfold recent, answers.
  rewrite <- (bucket_recent_admitted lim win calls key now Hord Hnow).
  fold l. unfold allow. fold (bucket key l).
  assert (Hlim : limit l = lim) by (unfold l; by rewrite allowAll_limit).
  assert (Hwin : windowMs l = win) by (unfold l; by rewrite allowAll_windowMs).
  rewrite Hlim, Hwin.
  repeat case_bool_decide; simpl; try reflexivity; lia.
Qed.

Lemma allow_counts_admitted_calls_witness :
  let key := js "example.com" in
  let calls := [(0, key); (10, js "other.org"); (500, key); (900, key)] in
  clockOrdered (calls ++ [(1200, key)])
  ∧ (allowAll calls (new 2 1000)).1 = [true; true; true; false]
  ∧ (allow 1200 key (allowAll calls (new 2 1000)).2).1 = true.
Proof.
  intros key calls.
  assert (Hord : clockOrdered (calls ++ [(1200, key)])).
  { repeat (apply clockOrdered_cons;
              [repeat (apply Forall_cons; split; [simpl; lia|]);
               apply Forall_nil_2|]).
    apply clockOrdered_nil. }
  split; [exact Hord|]. split; [reflexivity|].
  etrans; [exact (allow_counts_admitted_calls 2 1000 calls 1200 key Hord)|].
  reflexivity.
Defined.

Lemma allow_agreeOn now key l1 l2 :
  agreeOn key l1 l2 →
  (allow now key l1).1 = (allow now key l2).1
  ∧ agreeOn key (allow now key l1).2 (allow now key l2).2.
Proof.
  intros (Hlim & Hwin & Hb).
  assert (Hans : (allow now key l1).1 = (allow now key l2).1).
  { unfold allow. fold (bucket key l1) (bucket key l2).
    rewrite Hlim, Hwin, Hb. by case_bool_decide. }
  split; [exact Hans|]. unfold agreeOn.
  rewrite !allow_limit, !allow_windowMs.
  split; [done|]. split; [done|].
  pose proof (allow_bucket now key l1) as H1.
  pose proof (allow_bucket now key l2) as H2. cbv zeta in H1, H2.
  by rewrite H1, H2, Hans, Hwin, Hb.
Qed.

Lemma allow_other_agreeOn now k key l :
  k ≠ key → agreeOn key (allow now k l).2 l.
Proof.
  intros Hk. unfold agreeOn. rewrite allow_limit, allow_windowMs.
  split; [done|]. split; [done|].
  unfold bucket. by rewrite allow_other by done.
Qed.

(** X6.  The keys do not interfere: in any sequence of calls, the answers
    to the calls on a key are the answers the limiter gives when only the
    calls on that key are made. *)
Theorem allow_keys_independent (calls : list (Z * jsstring))
    (key : jsstring) (l : RateLimiter) :
  (filter (λ ca, ca.1.2 = key) (zip calls (allowAll calls l).1)).*2
  = (allowAll (callsOn key calls) l).1.
Proof.
  assert (Hgen : ∀ l1 l2, agreeOn key l1 l2 →
            (filter (λ ca : (Z * jsstring) * bool, ca.1.2 = key)
                    (zip calls (allowAll calls l1).1)).*2
            = (allowAll (callsOn key calls) l2).1).
  { induction calls as [|[now k] calls IH]; intros l1 l2 Hag; [done|].
    unfold callsOn. simpl.
    destruct (allow now k l1) as [r l1'] eqn:Ha1.
    destruct (allowAll calls l1') as [rs l1''] eqn:Hrest. simpl.
    destruct (decide (k = key)) as [->|Hk].
    - rewrite filter_cons_True by done. rewrite filter_cons_True by done.
      simpl. destruct (allow now key l2) as [r2 l2'] eqn:Ha2.
      destruct (allow_agreeOn now key l1 l2 Hag) as [Hans Hag'].
      rewrite Ha1, Ha2 in Hans, Hag'. simpl in Hans, Hag'. subst r2.
      specialize (IH l1' l2' Hag'). rewrite Hrest in IH. simpl in IH.
      fold (callsOn key calls).
      destruct (allowAll (callsOn key calls) l2') as [rs2 l2''].
      simpl in *. f_equal. exact IH.
    - rewrite filter_cons_False by done. rewrite filter_cons_False by done.
      assert (Hag' : agreeOn key l1' l2).
      { destruct Hag as (Hlim & Hwin & Hb).
        destruct (allow_other_agreeOn now k key l1 Hk) as (Hlim' & Hwin' & Hb').
        rewrite Ha1 in Hlim', Hwin', Hb'. simpl in *.
        unfold agreeOn. rewrite Hlim', Hwin', Hb'. done. }
      specialize (IH l1' l2 Hag'). rewrite Hrest in IH. exact IH. }
  apply Hgen. by unfold agreeOn.
Qed.

End LimiterFacts.

(* ===================================================================== *)
(** * Properties of the score *)
(* ===================================================================== *)

Module ScoringFacts.
Import Scoring ScoringProps.

(** An integer is at most the rounding of [x] exactly when it is at most
    [x + 1/2]. *)
Lemma mathRound_ge (z : Z) (x : Q) :
  (z ≤ mathRound x)%Z ↔ (inject_Z z <= x + (1 # 2))%Q.
Proof.
  unfold mathRound. split.
  - intros Hz. eapply Qle_trans; [|apply Qfloor_le].
    by rewrite <- Zle_Qle.
  - intros Hz. apply Qfloor_resp_le in Hz. by rewrite Qfloor_Z in Hz.
Qed.

Lemma mathRound_Z (n : Z) : mathRound (inject_Z n) = n.
Proof.
  apply Z.le_antisymm.
  - apply Z.lt_succ_r. apply Z.nle_gt. intros Hle.
    apply mathRound_ge in Hle. revert Hle.
    unfold Qle, inject_Z, Qplus. simpl. lia.
  - apply mathRound_ge. unfold Qle, inject_Z, Qplus. simpl. lia.
Qed.

Lemma mathRound_mono (x y : Q) :
  (x <= y)%Q → (mathRound x ≤ mathRound y)%Z.
Proof.
  intros Hxy. apply mathRound_ge.
  eapply Qle_trans; [apply (proj1 (mathRound_ge _ x)); lia|].
  by apply Qplus_le_l.
Qed.

(** On a finite score [clampScore] is the integer clamp. *)
Lemma clampScore_Finite (q : Q) :
  Num.clampScore (Num.Finite q) = Num.Finite (inject_Z (clampScore q)).
Proof.
  unfold Num.clampScore, clampScore. cbn [Num.Math_round Num.Math_min].
  set (r := mathRound q).
  change 100%Q with (inject_Z 100). change 0%Q with (inject_Z 0).
  destruct (Qle_bool (inject_Z 100) (inject_Z r)) eqn:Hmin;
    cbn [Num.Math_max].
  - apply Qle_bool_iff in Hmin. rewrite <- Zle_Qle in Hmin.
    replace (Z.max 0 (Z.min 100 r)) with 100%Z by lia. reflexivity.
  - assert (Hlt : (r < 100)%Z).
    { apply Z.nle_gt. intros Hle. rewrite Zle_Qle in Hle. apply Qle_bool_iff in Hle.
      congruence. }
    destruct (Qle_bool (inject_Z 0) (inject_Z r)) eqn:Hmax.
    + apply Qle_bool_iff in Hmax. rewrite <- Zle_Qle in Hmax.
      replace (Z.max 0 (Z.min 100 r)) with r by lia. reflexivity.
    + assert (Hneg : (r < 0)%Z).
      { apply Z.nle_gt. intros Hle. rewrite Zle_Qle in Hle. apply Qle_bool_iff in Hle.
        congruence. }
      replace (Z.max 0 (Z.min 100 r)) with 0%Z by lia. reflexivity.
Qed.

Lemma leb_Finite (a b : Z) :
  Num.leb (Num.Finite (inject_Z a)) (Num.Finite (inject_Z b)) = true
  ↔ (a ≤ b)%Z.
Proof. cbn [Num.leb]. by rewrite Qle_bool_iff, <- Zle_Qle. Qed.

(** X7.  [clampScore] answers not-a-number exactly when the score is
    not-a-number.  On every other score, the infinities included, it
    answers an integer from 0 to 100: the clamped rounding of a finite
    score, 100 for the positive infinity and 0 for the negative one.  It
    leaves the integers from 0 to 100 as they are and is monotone: a
    score that is at least another is clamped to at least as much. *)
Theorem clampScore_clamps :
  (∀ score, Num.clampScore score = Num.NaN ↔ score = Num.NaN)
  ∧ (∀ score, score ≠ Num.NaN →
       ∃ n : Z, (0 ≤ n ≤ 100)%Z
                ∧ Num.clampScore score = Num.Finite (inject_Z n))
  ∧ (∀ q : Q,
       Num.clampScore (Num.Finite q) = Num.Finite (inject_Z (clampScore q)))
  ∧ Num.clampScore Num.PosInfinity = Num.Finite 100
  ∧ Num.clampScore Num.NegInfinity = Num.Finite 0
  ∧ (∀ n : Z, (0 ≤ n ≤ 100)%Z →
       Num.clampScore (Num.Finite (inject_Z n)) = Num.Finite (inject_Z n))
  ∧ (∀ s1 s2, Num.leb s1 s2 = true →
       Num.leb (Num.clampScore s1) (Num.clampScore s2) = true).
Proof.
  assert (Hcases : ∀ score,
            match score with
            | Num.Finite q =>
                Num.clampScore score = Num.Finite (inject_Z (clampScore q))
            | Num.PosInfinity => Num.clampScore score = Num.Finite 100
            | Num.NegInfinity => Num.clampScore score = Num.Finite 0
            | Num.NaN => Num.clampScore score = Num.NaN
            end).
  { intros [q| | |]; [apply clampScore_Finite|reflexivity..]. }
  assert (Hrange : ∀ q, (0 ≤ clampScore q ≤ 100)%Z).
  { intros q. unfold clampScore. lia. }
  split; [|split; [|split; [|split; [|split; [|split]]]]].
  - intros score. pose proof (Hcases score) as Hc.
    destruct score; rewrite Hc; split; done.
  - intros score Hscore. pose proof (Hcases score) as Hc.
    destruct score as [q| | |]; [| | |done].
    + exists (clampScore q). split; [apply Hrange|exact Hc].
    + exists 100%Z. split; [lia|exact Hc].
    + exists 0%Z. split; [lia|exact Hc].
  - intros q. apply clampScore_Finite.
  - reflexivity.
  - reflexivity.
  - intros n Hn. rewrite clampScore_Finite. unfold clampScore.
    rewrite mathRound_Z. do 2 f_equal. lia.
  - intros s1 s2 Hle.
    pose proof (Hcases s1) as H1. pose proof (Hcases s2) as H2.
    pose proof Hrange as Hr.
    destruct s1 as [q1| | |], s2 as [q2| | |]; try discriminate Hle;
      rewrite ?H1, ?H2.
    + apply leb_Finite. unfold clampScore.
      cbn [Num.leb] in Hle. apply Qle_bool_iff in Hle.
      pose proof (mathRound_mono q1 q2 Hle). lia.
    + apply (leb_Finite _ 100). apply Hr.
    + by apply (leb_Finite 100 100).
    + apply (leb_Finite 0 _). apply Hr.
    + by apply (leb_Finite 0 100).
    + by apply (leb_Finite 0 0).
Qed.

Lemma geb_clampScore (z : Z) (score : Q) :
  (0 < z ≤ 100)%Z →
  geb (inject_Z (clampScore score)) (inject_Z z)
  = geb score (inject_Z z - (1 # 2)).
Proof.
  intros Hz. apply eq_true_iff_eq. rewrite !geb_true, <- Zle_Qle.
  unfold clampScore.
  assert (Hround : (z ≤ Z.max 0 (Z.min 100 (mathRound score))
                    ↔ z ≤ mathRound score)%Z) by lia.
  rewrite Hround, mathRound_ge. destruct score as [p q].
  unfold Qle, Qplus, Qminus, Qopp, inject_Z. simpl.
  rewrite ?Pos2Z.inj_mul. lia.
Qed.

(** X8.  The verdict [runValidation] computes, [computeVerdict] of the
    clamped score under the default thresholds 85, 60 and 30, is the
    verdict of the score itself under the thresholds 84.5, 59.5 and 29.5:
    rounding moves each boundary half a point down. *)
Theorem verdict_of_clamped_score (score : Q) :
  computeVerdict (inject_Z (clampScore score)) None
  = computeVerdict score
      (Some (mkThresholds (169 # 2) (119 # 2) (59 # 2))).
Proof.
  unfold computeVerdict. cbn [default DEFAULT_THRESHOLDS valid risky unknown].
  change 85%Q with (inject_Z 85). change 60%Q with (inject_Z 60).
  change 30%Q with (inject_Z 30).
  rewrite !geb_clampScore by lia.
  assert (Hgeb : ∀ a b : Q, (a == b)%Q → geb score a = geb score b).
  { intros a b Hab. unfold geb. by rewrite Hab. }
  rewrite (Hgeb (inject_Z 85 - (1 # 2))%Q (169 # 2)) by reflexivity.
  rewrite (Hgeb (inject_Z 60 - (1 # 2))%Q (119 # 2)) by reflexivity.
  rewrite (Hgeb (inject_Z 30 - (1 # 2))%Q (59 # 2)) by reflexivity.
  reflexivity.
Qed.

End ScoringFacts.

(* ===================================================================== *)
(** * Further properties of the SMTP probe *)
(* ===================================================================== *)

Module SmtpFacts.
Import Rt Probe Smtp JsProps ProbeProps SmtpProps.
Local Open Scope Z_scope.

Implicit Types (s : Session SmtpProbeResult) (email text : jsstring).

(** The tests on the stage, once the stage is known. *)
Ltac stage_tests :=
  repeat match goal with
    | |- context [bool_decide (?a = ?b :> Stage)] =>
        let v := eval vm_compute in (bool_decide (a = b)) in
        change (bool_decide (a = b)) with v
    | H : context [bool_decide (?a = ?b :> Stage)] |- _ =>
        let v := eval vm_compute in (bool_decide (a = b)) in
        change (bool_decide (a = b)) with v in H
    end.

Section Closure.
Context {R : Type}.
Implicit Types (q : Session R) (r : R).

Lemma done_stage r q : stage (done r q) = stage q.
Proof. unfold done. by destruct (resolved q). Qed.

Lemma done_written r q : written (done r q) = written q.
Proof. unfold done. by destruct (resolved q). Qed.

Lemma done_destroyed r q :
  destroyed q = resolved q → destroyed (done r q) = resolved (done r q).
Proof.
  intros Hd. unfold done. destruct (resolved q) eqn:Hr; simpl; [|done].
  by rewrite Hd, Hr.
Qed.

Lemma done_resolved r q : resolved (done r q) = true.
Proof. unfold done. destruct (resolved q) eqn:Hr; simpl; done. Qed.

Lemma done_result_open r q :
  resolved q = false → result (done r q) = Some r.
Proof. unfold done. by intros ->. Qed.

End Closure.

Lemma smtp_onData_on_script email text s :
  on_script email s → on_script email (onData email text s).
Proof.
  intros (n & Hw & Hn). unfold onData, on_script.
  destruct (parseCode (lastLineOf text)) as [code|]; [|by exists n].
  cbn [stage pushLine].
  destruct (stage s) eqn:Hst; stage_tests; cbn [andb]; cbv [sent] in Hn.
  - subst n. exists 1%nat. cbn. by rewrite Hw.
  - subst n. destruct (startsWith (js "250") _).
    + exists 2%nat. cbn. by rewrite Hw.
    + destruct (startsWith (js "5") code).
      * exists 1%nat. rewrite done_stage, done_written. cbn. by rewrite Hw.
      * exists 1%nat. cbn. by rewrite Hw, Hst.
  - subst n. destruct (startsWith (js "250") _).
    + exists 3%nat. cbn. by rewrite Hw.
    + destruct (startsWith (js "5") code).
      * exists 2%nat. rewrite done_stage, done_written. cbn. by rewrite Hw.
      * exists 2%nat. cbn. by rewrite Hw, Hst.
  - subst n. destruct (startsWith (js "250") _);
      [exists 4%nat; rewrite done_stage, done_written; cbn; by rewrite Hw|].
    destruct (_ || _);
      [exists 4%nat; rewrite done_stage, done_written; cbn; by rewrite Hw|].
    destruct (startsWith (js "4") _);
      [exists 4%nat; rewrite done_stage, done_written; cbn; by rewrite Hw|].
    destruct (startsWith (js "5") code).
    + exists 3%nat. rewrite done_stage, done_written. cbn. by rewrite Hw.
    + exists 3%nat. cbn. by rewrite Hw, Hst.
  - destruct (startsWith (js "5") code).
    + exists n. rewrite done_stage, done_written. cbn. by rewrite Hw.
    + exists n. cbn. by rewrite Hw, Hst.
Qed.

Lemma smtp_handle_on_script email s ev :
  on_script email s → on_script email (handle email s ev).
Proof.
  intros Hs. destruct ev as [text|m| |]; cbn [handle].
  - by apply smtp_onData_on_script.
  - destruct Hs as (n & Hw & Hn). exists n. unfold onError.
    by rewrite done_stage, done_written.
  - destruct Hs as (n & Hw & Hn). exists n. unfold onEnd.
    by rewrite done_stage, done_written.
  - destruct Hs as (n & Hw & Hn). exists n. unfold onTimeout, fire.
    destruct (timerCleared s); [done|]. by rewrite done_stage, done_written.
Qed.

(** X9.  Whatever the server sends, what a probe writes to the socket is
    a prefix of HELO, MAIL FROM, RCPT TO for the probed address, QUIT: no
    command is sent twice, none out of order, and no message is ever
    submitted. *)
Theorem probe_writes_a_prefix_of_the_script (email : jsstring)
    (events : list Event) :
  written (run email events initial)
  `prefix_of` [js "HELO localhost" ++ [CR; LF];
               js "MAIL FROM:<probe@localhost>" ++ [CR; LF];
               (js "RCPT TO:<" ++ email ++ js ">") ++ [CR; LF];
               js "QUIT" ++ [CR; LF]].
Proof.
  assert (Hinv : on_script email (run email events initial)).
  { unfold run.
    assert (H0 : on_script email initial) by (by exists 0%nat).
    revert H0. generalize (@initial SmtpProbeResult).
    induction events as [|ev events IH]; intros s Hs; [done|].
    cbn [fold_left]. by apply IH, smtp_handle_on_script. }
  destruct Hinv as (n & -> & _). apply prefix_take.
Qed.

(** The socket is destroyed exactly when the promise is resolved. *)
Lemma smtp_handle_destroyed email s ev :
  destroyed s = resolved s →
  destroyed (handle email s ev) = resolved (handle email s ev).
Proof.
  intros Hd. destruct ev as [text|m| |]; cbn [handle].
  - unfold onData.
    destruct (parseCode (lastLineOf text)) as [code|]; [|done].
    split_tests; try (by apply done_destroyed); done.
  - by apply done_destroyed.
  - by apply done_destroyed.
  - unfold onTimeout, fire. destruct (timerCleared s); [done|].
    by apply done_destroyed.
Qed.

(** X10.  A probe settles once and cleans up: at any moment the socket
    is destroyed exactly when the promise is resolved; when the timer has
    had its turn the promise is resolved, with a result; and the events
    that come after a resolution leave the result as it is. *)
Theorem probe_settles_once (email : jsstring) (events : list Event) :
  destroyed (run email events initial) = resolved (run email events initial)
  ∧ resolved (run email (events ++ [EvTimeout]) initial) = true
  ∧ is_Some (outcome email events)
  ∧ (∀ later,
       resolved (run email events initial) = true →
       result (run email (events ++ later) initial)
       = result (run email events initial)).
Proof.
  split; [|split; [|split]].
  - unfold run. assert (H0 : destroyed (@initial SmtpProbeResult)
                             = resolved (@initial SmtpProbeResult)) by done.
    revert H0. generalize (@initial SmtpProbeResult).
    induction events as [|ev events IH]; intros s Hs; [done|].
    cbn [fold_left]. by apply IH, smtp_handle_destroyed.
  - unfold run. rewrite fold_left_app. cbn [fold_left handle].
    pose proof (smtp_run_settled email events) as Hs. unfold run in Hs.
    set (s := fold_left _ events initial) in *.
    unfold onTimeout, fire. destruct (timerCleared s) eqn:Hc.
    + by apply Hs.
    + apply done_resolved.
  - apply outcome_is_Some.
  - intros later Hr. unfold run. rewrite fold_left_app.
    by apply (fold_stable _ (smtp_handle_stable email)).
Qed.

Lemma smtp_handle_pending email s ev :
  pending s → pending (handle email s ev).
Proof.
  intros Hp. destruct (resolved s) eqn:Hr.
  - intros Hopen. destruct (smtp_handle_stable email s ev Hr). congruence.
  - specialize (Hp Hr). intros Hopen.
    destruct ev as [text|m| |]; cbn [handle] in *.
    + unfold onData in *.
      destruct (parseCode (lastLineOf text)) as [code|]; [|done].
      revert Hopen. split_tests; rewrite ?done_resolved; try discriminate;
        intros _; exact Hp.
    + unfold onError in Hopen. by rewrite done_resolved in Hopen.
    + unfold onEnd in Hopen. by rewrite done_resolved in Hopen.
    + unfold onTimeout, fire in *. destruct (timerCleared s); [done|].
      by rewrite done_resolved in Hopen.
Qed.

Lemma smtp_run_pending email events : pending (run email events initial).
Proof.
  unfold run. assert (H0 : pending (@initial SmtpProbeResult)) by done.
  revert H0. generalize (@initial SmtpProbeResult).
  induction events as [|ev events IH]; intros s Hs; [done|].
  cbn [fold_left]. by apply IH, smtp_handle_pending.
Qed.

Lemma smtp_handle_decides email s ev r :
  resolved s = false → result s = None →
  result (handle email s ev) = Some r → status r ≠ unknown →
  ∃ text, ev = EvData text ∧ stage s = Rcpt ∧ decides text r.
Proof.
  intros Hr Hnone Hres Hst.
  destruct ev as [text|m| |]; cbn [handle] in Hres.
  - exists text. split; [done|]. unfold onData in Hres. unfold decides.
    destruct (parseCode (lastLineOf text)) as [code|] eqn:Hcode;
      [|cbn in Hres; congruence].
    cbn [stage pushLine] in Hres.
    destruct (stage s) eqn:Hstage; stage_tests; cbn [andb] in Hres.
    + cbn in Hres. congruence.
    + destruct (startsWith (js "250") _); [cbn in Hres; congruence|].
      destruct (startsWith (js "5") code); [|cbn in Hres; congruence].
      rewrite done_result_open in Hres by exact Hr.
      injection Hres as <-. by cbn in Hst.
    + destruct (startsWith (js "250") _); [cbn in Hres; congruence|].
      destruct (startsWith (js "5") code); [|cbn in Hres; congruence].
      rewrite done_result_open in Hres by exact Hr.
      injection Hres as <-. by cbn in Hst.
    + split; [done|].
      destruct (startsWith (js "250") _) eqn:H250.
      { rewrite done_result_open in Hres by exact Hr.
        injection Hres as <-. cbn. auto. }
      destruct (_ || _) eqn:H55x.
      { rewrite done_result_open in Hres by exact Hr.
        injection Hres as <-. cbn. auto. }
      destruct (startsWith (js "4") _).
      { rewrite done_result_open in Hres by exact Hr.
        injection Hres as <-. by cbn in Hst. }
      destruct (startsWith (js "5") code); [|cbn in Hres; congruence].
      rewrite done_result_open in Hres by exact Hr.
      injection Hres as <-. by cbn in Hst.
    + destruct (startsWith (js "5") code); [|cbn in Hres; congruence].
      rewrite done_result_open in Hres by exact Hr.
      injection Hres as <-. by cbn in Hst.
  - unfold onError in Hres. rewrite done_result_open in Hres by exact Hr.
    injection Hres as <-. by cbn in Hst.
  - unfold onEnd in Hres. rewrite done_result_open in Hres by exact Hr.
    injection Hres as <-. by cbn in Hst.
  - unfold onTimeout, fire in Hres. destruct (timerCleared s); [congruence|].
    rewrite done_result_open in Hres by exact Hr.
    injection Hres as <-. by cbn in Hst.
Qed.

Lemma smtp_run_decides email events r :
  result (run email events initial) = Some r → status r ≠ unknown →
  ∃ pre text post,
    events = pre ++ EvData text :: post
    ∧ stage (run email pre initial) = Rcpt
    ∧ resolved (run email pre initial) = false
    ∧ decides text r.
Proof.
  induction events as [|ev events IH] using rev_ind; [done|].
  unfold run. rewrite fold_left_app. cbn [fold_left]. fold (run email events initial).
  intros Hres Hst.
  destruct (resolved (run email events initial)) eqn:Hr.
  - destruct (smtp_handle_stable email _ ev Hr) as [Hsame _].
    rewrite Hsame in Hres.
    destruct (IH Hres Hst) as (pre & text & post & -> & Hrest).
    exists pre, text, (post ++ [ev]). split; [|exact Hrest].
    by rewrite <- app_assoc.
  - destruct (smtp_handle_decides email _ ev r Hr
                (smtp_run_pending email events Hr) Hres Hst)
      as (text & -> & Hstage & Hdec).
    by exists events, text, [].
Qed.

(** X11.  A probe answers valid or invalid only on the reply to RCPT TO:
    when the outcome is not unknown, the conversation reached the rcpt
    stage, after HELO, MAIL FROM and RCPT TO were sent and nothing else,
    and the reply read there started with 250 for valid, with 550, 551
    or 553 for invalid; the code reported is the code of that reply. *)
Theorem definitive_outcome_comes_from_rcpt (email : jsstring)
    (events : list Event) (r : SmtpProbeResult) :
  outcome email events = Some r → status r ≠ unknown →
  ∃ pre text post,
    events = pre ++ EvData text :: post
    ∧ stage (run email pre initial) = Rcpt
    ∧ resolved (run email pre initial) = false
    ∧ written (run email pre initial)
      = [js "HELO localhost" ++ [CR; LF];
         js "MAIL FROM:<probe@localhost>" ++ [CR; LF];
         (js "RCPT TO:<" ++ email ++ js ">") ++ [CR; LF]]
    ∧ decides text r.
Proof.
  unfold outcome. intros Hres Hst.
  destruct (smtp_run_decides email _ r Hres Hst)
    as (pre & text & post & Hev & Hstage & Hopen & Hdec).
  assert (Hscript : on_script email (run email pre initial)).
  { unfold run. assert (H0 : on_script email initial) by (by exists 0%nat).
    revert H0. generalize (@initial SmtpProbeResult). clear.
    induction pre as [|ev pre IH]; intros s Hs; [done|].
    cbn [fold_left]. by apply IH, smtp_handle_on_script. }
  destruct Hscript as (n & Hw & Hn). rewrite Hstage in Hn. cbv [sent] in Hn.
  subst n.
  destruct post as [|x post _] using rev_ind.
  - apply app_inj_tail in Hev as [_ Hbad]. discriminate.
  - rewrite app_comm_cons, app_assoc in Hev.
    apply app_inj_tail in Hev as [Hev _].
    exists pre, text, post. by rewrite Hw.
Qed.

Lemma definitive_outcome_comes_from_rcpt_witness :
  let email := js "user@example.com" in
  let events := [EvData (crlf "220 mx.example.com ESMTP");
                 EvData (crlf "250 ok"); EvData (crlf "250 ok");
                 EvData (crlf "550 5.1.1 no such user"); EvEnd] in
  let r := mkProbe invalid (Some (js "550")) in
  outcome email events = Some r
  ∧ status r ≠ unknown
  ∧ ∃ pre text post,
      events = pre ++ EvData text :: post
      ∧ stage (run email pre initial) = Rcpt
      ∧ decides text r.
Proof.
  intros email events r.
  assert (Hout : outcome email events = Some r) by reflexivity.
  assert (Hst : status r ≠ unknown) by discriminate.
  split; [exact Hout|]. split; [exact Hst|].
  destruct (definitive_outcome_comes_from_rcpt email events r Hout Hst)
    as (pre & text & post & Hev & Hstage & _ & _ & Hdec).
  exists pre, text, post. split; [exact Hev|]. split; [exact Hstage|exact Hdec].
Defined.

End SmtpFacts.

(* ===================================================================== *)
(** * Further properties of the DNS lookups *)
(* ===================================================================== *)

Module DnsFacts.
Import Rt Dns DnsProps CacheProps CacheFacts.
Local Open Scope Z_scope.

(** X12.  Without a cache, [checkDNS] issues one query for each lookup
    that is switched on, MX, TXT at the root and TXT at [_dmarc.], then
    always the A and the AAAA query, in this order and nothing else,
    whatever the answers are. *)
Theorem checkDNS_uncached_queries `{Runtime} (E : Env) (w : World)
    (domain : jsstring) (opts : DnsOpts) :
  ops (checkDNS domain opts None E w).2
  = ops w
    ++ (if notFalse (opt_mx opts) then [OpResolveMx domain] else [])
    ++ (if notFalse (opt_spf opts) then [OpResolveTxt domain] else [])
    ++ (if notFalse (opt_dmarc opts)
        then [OpResolveTxt (js "_dmarc." ++ domain)] else [])
    ++ [OpResolve4 domain; OpResolve6 domain].
Proof.
  unfold checkDNS, lookupAll. generalize (js "_dmarc." ++ domain).
  intros dname.
  unfold callIf, resumeIf, resolveMx, resolveTxt, resolveA, resolveAAAA,
    resolveCached_call, resolveCached_resume, cacheGet, cacheSet,
    queryMx, queryTxt, query4, query6, mbind, M_bind, mret, M_ret.
  destruct (notFalse (opt_mx opts)), (notFalse (opt_spf opts)),
    (notFalse (opt_dmarc opts)); cbn;
    repeat match goal with
      | |- context [race ?a] => destruct (race a)
      end; cbn; rewrite <- ?app_assoc; reflexivity.
Qed.

Lemma assemble_shape `{Runtime} (d : jsstring)
    (checkMx checkSpf checkDmarc : bool) (found : Lookups) :
  let r := assemble d checkMx checkSpf checkDmarc found in
  domain r = d
  ∧ (is_Some (mx r) ↔ checkMx = true)
  ∧ (is_Some (spf r) ↔ checkSpf = true)
  ∧ (is_Some (dmarc r) ↔ checkDmarc = true)
  ∧ (is_Some (mxHosts r) ↔ mx r = Some true)
  ∧ mxHosts r ≠ Some []
  ∧ (mx r = Some true → domainExists r = true).
Proof.
  unfold assemble.
  destruct checkMx, (okRecords (mxRes found)) as [[|m ms]|];
    destruct checkSpf, (okRecords (spfTxtRes found)) as [records|];
    destruct checkDmarc, (okRecords (dmarcTxtRes found)) as [records'|];
    cbn; repeat split; intros; try done; try (by eexists);
    try (by match goal with Hn : is_Some None |- _ => destruct Hn end).
Qed.

(** X13.  The result of [checkDNS] carries the domain it was asked; the
    fields [mx], [spf] and [dmarc] are present exactly when their lookup is
    not switched off; [mxHosts] is present exactly when [mx] is true, and
    it is then not empty; and a domain with an MX record exists. *)
Theorem checkDNS_result_shape `{Runtime} (E : Env) (w : World)
    (d : jsstring) (opts : DnsOpts) (cache : option DnsCache) :
  let r := (checkDNS d opts cache E w).1.1 in
  domain r = d
  ∧ (is_Some (mx r) ↔ opt_mx opts ≠ Some false)
  ∧ (is_Some (spf r) ↔ opt_spf opts ≠ Some false)
  ∧ (is_Some (dmarc r) ↔ opt_dmarc opts ≠ Some false)
  ∧ (is_Some (mxHosts r) ↔ mx r = Some true)
  ∧ mxHosts r ≠ Some []
  ∧ (mx r = Some true → domainExists r = true).
Proof.
  intros r. unfold r. rewrite checkDNS_found.
  assert (Hnf : ∀ o, notFalse o = true ↔ o ≠ Some false).
  { intros [[|]|]; cbn; split; congruence. }
  rewrite <- !Hnf. apply assemble_shape.
Qed.

Lemma get_hit (E : Env) (c : DnsCache) (key : jsstring) (e : Envelope)
    (now : Z) :
  holds E c key e → (∃ n, now = clock E n) →
  ∃ expiry c',
    Cache.get now key c = (Some (Cache.mkEntry e expiry), c')
    ∧ ∀ k e', holds E c k e' → holds E c' k e'.
Proof.
  intros (expiry & Hget & Hlive) [n ->].
  exists expiry. eexists. unfold Cache.get. rewrite Hget. cbn [Cache.expiresAt].
  rewrite bool_decide_eq_false_2 by (specialize (Hlive n); lia).
  split; [reflexivity|].
  intros k e' (expiry' & Hk & Hlive'). exists expiry'. split; [|exact Hlive'].
  cbn [Cache.store Cache.withStore]. rewrite refresh_store.
  by rewrite (refresh_lookup _ _ _ _ Hget).
Qed.

Lemma call_hit {T} `{Cached T} (E : Env) (w : World) (c : DnsCache)
    (key : jsstring) (e : Envelope) (queryFn : M (Settled T)) :
  holds E c key e →
  ∃ c',
    resolveCached_call (Some c) key queryFn E w
    = ((Hit (unwrap e), Some c'), next w)
    ∧ ∀ k e', holds E c k e' → holds E c' k e'.
Proof.
  intros Hh.
  destruct (get_hit E c key e (clock E (tick w)) Hh) as (exp & c' & Hg & Hk);
    [by eexists|].
  exists c'. split; [|exact Hk].
  unfold resolveCached_call, cacheGet, dateNow, mbind, M_bind, mret, M_ret.
  by rewrite Hg.
Qed.

Lemma call_miss {T} `{Cached T} (E : Env) (w : World) (c : DnsCache)
    (key : jsstring) (queryFn : M (Settled T)) :
  Cache.store c = [] →
  resolveCached_call (Some c) key queryFn E w
  = ((Awaiting key (queryFn E (next w)).1, Some c), (queryFn E (next w)).2).
Proof.
  intros Hempty.
  unfold resolveCached_call, cacheGet, dateNow, mbind, M_bind, mret, M_ret.
  unfold Cache.get. rewrite Hempty. cbn.
  by destruct (queryFn E (next w)).
Qed.

Lemma resume_awaiting {T} `{Cached T} (E : Env) (w : World) (c : DnsCache)
    (key : jsstring) (answer : Settled T) :
  ∃ r,
    resolveCached_resume (Some c) (Awaiting key answer) E w
    = ((r, Some (Cache.set (clock E (tick w)) key (wrap r) None c)), next w).
Proof.
  unfold resolveCached_resume, cacheSet, dateNow, mbind, M_bind, mret, M_ret.
  destruct answer; eexists; reflexivity.
Qed.

(** [set] keeps the settings and grows the store by one binding at most. *)
Lemma set_settings {T} now key (d : T) ttl (c : Cache.DnsCache T) :
  Cache.maxEntries (Cache.set now key d ttl c) = Cache.maxEntries c
  ∧ Cache.ttlMs (Cache.set now key d ttl c) = Cache.ttlMs c
  ∧ (length (Cache.store (Cache.set now key d ttl c))
     ≤ length (Cache.store c) + 1)%nat.
Proof.
  rewrite set_store. cbv zeta.
  assert (Hlen : (length (Cache.mapDelete key (Cache.store c)
                          ++ [(key, Cache.mkEntry d
                                 (now + default (Cache.ttlMs c) ttl))])
                  ≤ length (Cache.store c) + 1)%nat).
  { rewrite length_app. cbn [length].
    pose proof (mapDelete_length key (Cache.store c)). lia. }
  case_bool_decide; [|done].
  destruct (Cache.firstKey _) as [k|]; [|done].
  destruct (truthy k); [|done].
  cbn [Cache.maxEntries Cache.ttlMs Cache.store Cache.withStore].
  split; [done|]. split; [done|].
  etrans; [apply mapDelete_length|exact Hlen].
Qed.

(** A [set] in a store with room left keeps the other bindings. *)
Lemma set_other {T} now key (d : T) ttl (c : Cache.DnsCache T) k :
  k ≠ key →
  Z.of_nat (length (Cache.store c)) < Cache.maxEntries c →
  Cache.mapGet k (Cache.store (Cache.set now key d ttl c))
  = Cache.mapGet k (Cache.store c).
Proof.
  intros Hk Hroom. rewrite set_store. cbv zeta.
  rewrite bool_decide_eq_false_2.
  - cbn [Cache.store Cache.withStore].
    destruct (Cache.mapGet k (Cache.store c)) as [e|] eqn:Hg.
    + apply mapGet_app_l. by rewrite mapGet_delete_ne.
    + rewrite mapGet_app_r by (by rewrite mapGet_delete_ne).
      by rewrite mapGet_cons, bool_decide_eq_false_2.
  - rewrite length_app. cbn [length].
    pose proof (mapDelete_length key (Cache.store c)). lia.
Qed.

Lemma filled_set (E : Env) (cap ttl : Z) (n : nat) held (c : DnsCache)
    (m : nat) (key : jsstring) (e : Envelope) :
  filled E cap ttl n held c →
  Z.of_nat n < cap →
  (∀ i j, clock E j ≤ clock E i + ttl) →
  key ∉ held.*1 →
  filled E cap ttl (S n) ((key, e) :: held)
         (Cache.set (clock E m) key e None c).
Proof.
  intros (Hcap & Httl & Hlen & Hheld) Hroom Hclock Hfresh.
  destruct (set_settings (clock E m) key e None c) as (Hcap' & Httl' & Hlen').
  split; [congruence|]. split; [congruence|]. split; [lia|].
  intros k e' [Heq|Hin]%elem_of_cons.
  - injection Heq as -> ->. exists (clock E m + ttl). split; [|by intros].
    rewrite set_lookup by lia. by rewrite Httl.
  - destruct (Hheld k e' Hin) as (expiry & Hg & Hlive).
    exists expiry. split; [|exact Hlive].
    rewrite set_other; [exact Hg| |lia].
    intros ->. apply Hfresh. apply list_elem_of_fmap. by exists (key, e').
Qed.

Ltac key_ne :=
  unfold makeCacheKey; cbn;
  first
    [ discriminate
    | let Heq := fresh in
      intros Heq; injection Heq as Heq;
      apply (f_equal length) in Heq; rewrite ?length_app in Heq;
      cbn in Heq; lia ].

Ltac fresh_key :=
  cbn [fmap list_fmap fst]; rewrite ?not_elem_of_cons;
  repeat split; first [apply not_elem_of_nil | key_ne].

Ltac fill H0 Hclock :=
  first
    [ exact H0
    | apply filled_set; [fill H0 Hclock | lia | exact Hclock | fresh_key] ].

Ltac resume_all :=
  repeat match goal with
    | |- context [resolveCached_resume (Some ?c) (Awaiting ?k ?a) ?E ?w] =>
        let r := fresh "r" in
        let Hr := fresh "Hr" in
        destruct (resume_awaiting E w c k a) as [r Hr];
        rewrite Hr; clear Hr; cbv beta iota zeta
    end.

Lemma lookupAll_fills (E : Env) (w : World) (d : jsstring) (timeoutMs : Z)
    (checkMx checkSpf checkDmarc : bool) (cap ttl : Z) :
  5 ≤ cap → (∀ i j, clock E j ≤ clock E i + ttl) →
  ∃ found c1 w1,
    lookupAll d timeoutMs checkMx checkSpf checkDmarc
      (Some (Cache.new (Some cap) (Some ttl))) E w
    = ((found, Some c1), w1)
    ∧ lookupsMade checkMx checkSpf checkDmarc found
    ∧ ∀ k e, (k, e) ∈ entriesOf d found → holds E c1 k e.
Proof.
  intros Hcap Hclock.
  assert (H0 : filled E cap ttl 0 [] (Cache.new (Some cap) (Some ttl))).
  { split; [done|]. split; [done|]. split; [done|].
    by intros k e ?%elem_of_nil. }
  unfold lookupAll, callIf, resumeIf, resolveMx, resolveTxt, resolveA,
    resolveAAAA, mbind, M_bind, mret, M_ret.
  destruct checkMx, checkSpf, checkDmarc; cbv beta iota zeta;
    rewrite ?call_miss by reflexivity; cbv beta iota zeta;
    rewrite ?call_miss by reflexivity; cbv beta iota zeta;
    rewrite ?call_miss by reflexivity; cbv beta iota zeta;
    rewrite ?call_miss by reflexivity; cbv beta iota zeta;
    rewrite ?call_miss by reflexivity; cbv beta iota zeta;
    resume_all;
    do 3 eexists; (split; [reflexivity|]);
    (split; [unfold lookupsMade; cbn; repeat split; intros; try done;
             try (by eexists);
             try (by match goal with Hn : is_Some None |- _ => destruct Hn end)|]);
    unfold entriesOf; cbn [mxRes spfTxtRes dmarcTxtRes aRes aaaaRes
                             from_option app].
  all: match goal with
       | |- ∀ k e, (k, e) ∈ ?held → holds ?E ?c k e =>
           cut (∃ n, filled E cap ttl n held c ∧ (n ≤ 5)%nat);
           [intros (n & (_ & _ & _ & Hheld) & _); exact Hheld|]
       end.
  all: eexists; split; [fill H0 Hclock|lia].
Qed.

Ltac in_list :=
  solve [repeat first [apply list_elem_of_here | apply list_elem_of_further]].

Ltac hit_all :=
  repeat match goal with
    | Hall : (∀ k e, (k, e) ∈ ?held → holds ?E ?c k e)
      |- context [resolveCached_call (Some ?c) ?k ?q ?E ?w] =>
        match held with
        | context [(k, ?e)] =>
            let c' := fresh "c" in
            let Hcall := fresh "Hcall" in
            let Hkeep := fresh "Hkeep" in
            let Hall' := fresh "Hall" in
            destruct (call_hit E w c k e q (Hall k e ltac:(in_list)))
              as (c' & Hcall & Hkeep);
            rewrite Hcall;
            assert (Hall' := λ k' e' Hin, Hkeep k' e' (Hall k' e' Hin));
            clear Hcall Hkeep Hall; cbv beta iota zeta
        end
    end.

Lemma lookupAll_hits (E : Env) (w : World) (d : jsstring) (timeoutMs : Z)
    (checkMx checkSpf checkDmarc : bool) (found : Lookups) (c1 : DnsCache) :
  lookupsMade checkMx checkSpf checkDmarc found →
  (∀ k e, (k, e) ∈ entriesOf d found → holds E c1 k e) →
  ∃ c2 w2,
    lookupAll d timeoutMs checkMx checkSpf checkDmarc (Some c1) E w
    = ((found, Some c2), w2)
    ∧ ops w2 = ops w.
Proof.
  destruct found as [mxR spfR dmarcR aR a6R].
  intros (Hm & Hs & Hd). cbn in Hm, Hs, Hd.
  unfold entriesOf. cbn [mxRes spfTxtRes dmarcTxtRes aRes aaaaRes].
  assert (Hopt : ∀ {A} (o : option A) (b : bool),
            (is_Some o ↔ b = true) →
            (b = true ∧ ∃ r, o = Some r) ∨ (b = false ∧ o = None)).
  { intros A [r|] [|] Ho; eauto.
    - destruct Ho as [Ho _]. by discriminate Ho.
    - destruct Ho as [_ Ho]. by destruct Ho. }
  destruct (Hopt _ _ _ Hm) as [[-> [rm ->]]|[-> ->]];
    destruct (Hopt _ _ _ Hs) as [[-> [rs ->]]|[-> ->]];
    destruct (Hopt _ _ _ Hd) as [[-> [rd ->]]|[-> ->]];
    clear Hm Hs Hd Hopt; cbn [from_option app]; intros Hall;
    unfold lookupAll, callIf, resumeIf, resolveMx, resolveTxt, resolveA,
      resolveAAAA, mbind, M_bind, mret, M_ret; cbv beta iota zeta;
    hit_all; unfold resolveCached_resume, mret, M_ret; cbn [unwrap cached_mx
      cached_txt cached_addr]; do 2 eexists; split; reflexivity.
Qed.

(** X14.  A second [checkDNS] is served by the cache.  With a cache made
    for five entries or more, and a clock that stays within the time to
    live, the call that follows a first one on the same domain with the
    same options gives the same result and issues no query at all, the
    failed lookups of the first call included. *)
Theorem checkDNS_again_is_served_by_the_cache `{Runtime} (E : Env)
    (w w' : World) (d : jsstring) (opts : DnsOpts) (cap ttl : Z) :
  5 ≤ cap →
  (∀ i j, clock E j ≤ clock E i + ttl) →
  let first :=
    checkDNS d opts (Some (Cache.new (Some cap) (Some ttl))) E w in
  let second := checkDNS d opts first.1.2 E w' in
  second.1.1 = first.1.1 ∧ ops second.2 = ops w'.
Proof.
  intros Hcap Hclock first second. unfold second, first, checkDNS.
  unfold mbind, M_bind, mret, M_ret. cbv zeta.
  destruct (lookupAll_fills E w d (default 4000 (opt_timeoutMs opts))
              (notFalse (opt_mx opts)) (notFalse (opt_spf opts))
              (notFalse (opt_dmarc opts)) cap ttl Hcap Hclock)
    as (found & c1 & w1 & -> & Hmade & Hheld).
  cbn [fst snd].
  destruct (lookupAll_hits E w' d (default 4000 (opt_timeoutMs opts))
              _ _ _ found c1 Hmade Hheld) as (c2 & w2 & -> & Hops).
  cbn [fst snd]. by split.
Qed.

Lemma checkDNS_again_is_served_by_the_cache_witness :
  let E :=
    staticEnv (λ _, Some (Fulfilled [mkMx (js "mx.example.com") 10]))
              (λ _, Some Rejected) (λ _, None)
              (λ _, Some (Fulfilled [js "2001:db8::1"])) (λ _, []) in
  let opts := mkOpts None None None None in
  let first :=
    @checkDNS asciiRuntime (js "example.com") opts
      (Some (Cache.new (Some 2000) (Some 600000))) E (mkWorld 0 []) in
  let second :=
    @checkDNS asciiRuntime (js "example.com") opts first.1.2 E first.2 in
  5 ≤ 2000
  ∧ (∀ i j, clock E j ≤ clock E i + 600000)
  ∧ length (ops first.2) = 5%nat
  ∧ second.1.1 = first.1.1
  ∧ ops second.2 = ops first.2.
Proof.
  intros E opts first second.
  assert (Hcap : 5 ≤ 2000) by lia.
  assert (Hclock : ∀ i j, clock E j ≤ clock E i + 600000)
    by (intros i j; simpl; lia).
  split; [exact Hcap|]. split; [exact Hclock|]. split; [reflexivity|].
  exact (@checkDNS_again_is_served_by_the_cache asciiRuntime E (mkWorld 0 [])
           first.2 (js "example.com") opts 2000 600000 Hcap Hclock).
Defined.

End DnsFacts.

(* ===================================================================== *)
(** * Further properties of the catch-all detector *)
(* ===================================================================== *)

Module CatchAllFacts.
Import Rt Probe CatchAll JsProps ProbeProps CatchAllProps SmtpFacts.
Local Open Scope Z_scope.

Implicit Types (s : Session ProbeResult) (testEmail text : jsstring).

Lemma endsWith_inv (p line : jsstring) :
  endsWith p line = true → ∃ front, line = front ++ p.
Proof.
  unfold endsWith. intros [rest Hrev]%startsWith_inv.
  exists (rev rest). apply (f_equal (@rev N)) in Hrev.
  by rewrite rev_app_distr, !rev_involutive in Hrev.
Qed.

Lemma startsWith_app (p rest : jsstring) : startsWith p (p ++ rest) = true.
Proof. induction p as [|a p IH]; [done|]. simpl. by rewrite N.eqb_refl. Qed.

Lemma includes_here (p line : jsstring) :
  startsWith p line = true → includes p line = true.
Proof. intros Hp. destruct line; cbn [includes]; by rewrite Hp. Qed.

Lemma includes_app (p front rest : jsstring) :
  includes p (front ++ p ++ rest) = true.
Proof.
  induction front as [|a front IH].
  - rewrite app_nil_l. apply includes_here, startsWith_app.
  - cbn [app includes]. rewrite IH. apply orb_true_r.
Qed.

(** X15.  [mightBeCatchAll] answers false for every domain: the suffixes
    it looks for start with a dot, and it asks at the same time that the
    domain holds no dot. *)
Theorem mightBeCatchAll_is_always_false (domain : jsstring)
    (mxHosts : option (list jsstring)) :
  mightBeCatchAll domain mxHosts = false.
Proof.
  unfold mightBeCatchAll. cbv zeta.
  destruct (existsb _ _) eqn:Htld; [|done].
  apply existsb_exists in Htld as (tld & Hin & Hends).
  apply endsWith_inv in Hends as [front ->].
  assert (Hdot : tld = js "." ++ drop 1 tld).
  { cbn in Hin. repeat (destruct Hin as [<-|Hin]; [reflexivity|]). done. }
  rewrite Hdot. by rewrite includes_app.
Qed.

Lemma catchAll_handle_pending testEmail s ev :
  pending s → pending (handle testEmail s ev).
Proof.
  intros Hp. destruct (resolved s) eqn:Hr.
  - intros Hopen. destruct (catchAll_handle_stable testEmail s ev Hr).
    congruence.
  - specialize (Hp Hr). intros Hopen.
    destruct ev as [text|m| |]; cbn [handle] in *.
    + unfold onData in *.
      destruct (parseCode (lastLineOf text)) as [code|]; [|done].
      revert Hopen. split_tests; rewrite ?done_resolved; try discriminate;
        intros _; exact Hp.
    + unfold onError in Hopen. by rewrite done_resolved in Hopen.
    + unfold onEnd in Hopen. by rewrite done_resolved in Hopen.
    + unfold onTimeout, fire in *. destruct (timerCleared s); [done|].
      by rewrite done_resolved in Hopen.
Qed.

Lemma catchAll_run_pending testEmail events :
  pending (run testEmail events initial).
Proof.
  unfold run. assert (H0 : pending (@initial ProbeResult)) by done.
  revert H0. generalize (@initial ProbeResult).
  induction events as [|ev events IH]; intros s Hs; [done|].
  cbn [fold_left]. by apply IH, catchAll_handle_pending.
Qed.

Lemma catchAll_handle_accepts testEmail s ev r :
  resolved s = false → result s = None →
  result (handle testEmail s ev) = Some r → accepts r = true →
  ∃ text, ev = EvData text ∧ stage s = Rcpt
          ∧ startsWith (js "250") (lastLineOf text) = true
          ∧ code r = parseCode (lastLineOf text) ∧ error r = None.
Proof.
  intros Hr Hnone Hres Hacc.
  destruct ev as [text|m| |]; cbn [handle] in Hres.
  - exists text. split; [done|]. unfold onData in Hres.
    destruct (parseCode (lastLineOf text)) as [code|] eqn:Hcode;
      [|congruence].
    destruct (stage s) eqn:Hstage; stage_tests; cbn [andb] in Hres.
    + cbn in Hres. congruence.
    + destruct (startsWith (js "250") _); [cbn in Hres; congruence|].
      destruct (startsWith (js "5") code); [|congruence].
      rewrite done_result_open in Hres by exact Hr.
      injection Hres as <-. by cbn in Hacc.
    + destruct (startsWith (js "250") _); [cbn in Hres; congruence|].
      destruct (startsWith (js "5") code); [|congruence].
      rewrite done_result_open in Hres by exact Hr.
      injection Hres as <-. by cbn in Hacc.
    + split; [done|].
      destruct (startsWith (js "250") _) eqn:H250.
      { rewrite done_result_open in Hres by exact Hr.
        injection Hres as <-. by cbn. }
      destruct (_ || _);
        [rewrite done_result_open in Hres by exact Hr;
         injection Hres as <-; by cbn in Hacc|].
      destruct (startsWith (js "4") _);
        rewrite done_result_open in Hres by exact Hr;
        injection Hres as <-; by cbn in Hacc.
    + destruct (startsWith (js "5") code); [|congruence].
      rewrite done_result_open in Hres by exact Hr.
      injection Hres as <-. by cbn in Hacc.
  - unfold onError in Hres. rewrite done_result_open in Hres by exact Hr.
    injection Hres as <-. by cbn in Hacc.
  - unfold onEnd in Hres. rewrite done_result_open in Hres by exact Hr.
    injection Hres as <-. by cbn in Hacc.
  - unfold onTimeout, fire in Hres. destruct (timerCleared s); [congruence|].
    rewrite done_result_open in Hres by exact Hr.
    injection Hres as <-. by cbn in Hacc.
Qed.

(** X16.  A catch-all probe reports that the random address was accepted
    only on the reply to RCPT TO: the conversation reached the rcpt stage
    still open and the reply read there started with 250; the result then
    carries the code of that reply and no error. *)
Theorem acceptance_comes_from_rcpt (testEmail : jsstring)
    (events : list Event) (r : ProbeResult) :
  outcome testEmail events = Some r → accepts r = true →
  ∃ pre text post,
    events = pre ++ EvData text :: post
    ∧ stage (run testEmail pre initial) = Rcpt
    ∧ resolved (run testEmail pre initial) = false
    ∧ startsWith (js "250") (lastLineOf text) = true
    ∧ code r = parseCode (lastLineOf text)
    ∧ error r = None.
Proof.
  unfold outcome. intros Hres Hacc.
  assert (Hgen : ∀ evs,
            result (run testEmail evs initial) = Some r →
            ∃ pre text post,
              evs = pre ++ EvData text :: post
              ∧ stage (run testEmail pre initial) = Rcpt
              ∧ resolved (run testEmail pre initial) = false
              ∧ startsWith (js "250") (lastLineOf text) = true
              ∧ code r = parseCode (lastLineOf text)
              ∧ error r = None).
  { clear Hres. induction evs as [|ev evs IH] using rev_ind; [done|].
    unfold run. rewrite fold_left_app. cbn [fold_left].
    fold (run testEmail evs initial). intros Hres.
    destruct (resolved (run testEmail evs initial)) eqn:Hr.
    - destruct (catchAll_handle_stable testEmail _ ev Hr) as [Hsame _].
      rewrite Hsame in Hres.
      destruct (IH Hres) as (pre & text & post & -> & Hrest).
      exists pre, text, (post ++ [ev]). split; [|exact Hrest].
      by rewrite <- app_assoc.
    - destruct (catchAll_handle_accepts testEmail _ ev r Hr
                  (catchAll_run_pending testEmail evs Hr) Hres Hacc)
        as (text & -> & Hstage & Hrest).
      exists evs, text, []. split; [reflexivity|].
      split; [exact Hstage|]. split; [exact Hr|exact Hrest]. }
  destruct (Hgen _ Hres) as (pre & text & post & Hev & Hrest).
  destruct post as [|x post _] using rev_ind.
  - apply app_inj_tail in Hev as [_ Hbad]. discriminate.
  - rewrite app_comm_cons, app_assoc in Hev.
    apply app_inj_tail in Hev as [Hev _].
    by exists pre, text, post.
Qed.

Lemma acceptance_comes_from_rcpt_witness :
  let testEmail := js "catch-all-test-00@example.com" in
  let events := [EvData (crlf "220 mx.example.com ESMTP");
                 EvData (crlf "250 ok"); EvData (crlf "250 ok");
                 EvData (crlf "250 2.1.5 ok"); EvEnd] in
  let r := mkProbe true (Some (js "250")) None in
  outcome testEmail events = Some r
  ∧ accepts r = true
  ∧ ∃ pre text post,
      events = pre ++ EvData text :: post
      ∧ stage (run testEmail pre initial) = Rcpt
      ∧ startsWith (js "250") (lastLineOf text) = true.
Proof.
  intros testEmail events r.
  assert (Hout : outcome testEmail events = Some r) by reflexivity.
  assert (Hacc : accepts r = true) by reflexivity.
  split; [exact Hout|]. split; [exact Hacc|].
  destruct (acceptance_comes_from_rcpt testEmail events r Hout Hacc)
    as (pre & text & post & Hev & Hstage & _ & H250 & _).
  exists pre, text, post. split; [exact Hev|]. split; [exact Hstage|exact H250].
Defined.

End CatchAllFacts.

(* ===================================================================== *)
(** * Properties of the normalization *)
(* ===================================================================== *)

Module NormalizeFacts.
Import Rt Normalize Verify JsProps.
Local Open Scope Z_scope.

Lemma trimStart_blank (ws s : jsstring) :
  blank ws → trimStart (ws ++ s) = trimStart s.
Proof.
  induction 1 as [|c ws Hc _ IH]; [done|]. cbn [app trimStart]. by rewrite Hc.
Qed.

Lemma trimStart_app (s t : jsstring) :
  trimStart (s ++ t)
  = if bool_decide (trimStart s = []) then trimStart t else trimStart s ++ t.
Proof.
  induction s as [|c s IH]; [done|]. cbn [app trimStart].
  destruct (isWhiteSpace c); [exact IH|]. by rewrite bool_decide_eq_false_2.
Qed.

Lemma trimEnd_blank (s ws : jsstring) :
  blank ws → trimEnd (s ++ ws) = trimEnd s.
Proof.
  intros Hws. unfold trimEnd. rewrite rev_app_distr.
  rewrite trimStart_blank; [done|]. by apply Forall_rev.
Qed.

Lemma trim_blank (front s back : jsstring) :
  blank front → blank back → trim (front ++ s ++ back) = trim s.
Proof.
  intros Hf Hb. unfold trim. rewrite trimStart_blank by done.
  rewrite trimStart_app. case_bool_decide as Hs.
  - rewrite Hs. rewrite <- (app_nil_r back), trimStart_blank by done.
    reflexivity.
  - by apply trimEnd_blank.
Qed.

(** X17.  [normalizeEmail] does not see the white space around its
    input. *)
Theorem normalizeEmail_ignores_surrounding_blanks `{Runtime}
    (front email back : jsstring) :
  blank front → blank back →
  normalizeEmail (front ++ email ++ back) = normalizeEmail email.
Proof.
  intros Hf Hb. unfold normalizeEmail. by rewrite trim_blank.
Qed.

Lemma normalizeEmail_ignores_surrounding_blanks_witness :
  blank (js "  ") ∧ blank [9%N; LF]
  ∧ @normalizeEmail asciiRuntime
      (js "  " ++ js "Jane.Doe@Example.COM" ++ [9%N; LF])
    = mkNormalized true None (Some (js "Jane.Doe")) (Some (js "example.com"))
        (Some (js "Jane.Doe@example.com")) (Some (js "example.com")).
Proof.
  assert (Hf : blank (js "  ")) by (repeat constructor).
  assert (Hb : blank [9%N; LF]) by (repeat constructor).
  split; [exact Hf|]. split; [exact Hb|].
  etrans;
    [exact (@normalizeEmail_ignores_surrounding_blanks asciiRuntime
              _ (js "Jane.Doe@Example.COM") _ Hf Hb)|].
  reflexivity.
Defined.

Lemma splitAt_no_sep (sep : N) (cur s : jsstring) :
  sep ∉ s → splitAt sep cur s = [cur ++ s].
Proof.
  revert cur. induction s as [|c s IH]; intros cur Hs; cbn [splitAt].
  - by rewrite app_nil_r.
  - apply not_elem_of_cons in Hs as [Hc Hs].
    rewrite (proj2 (N.eqb_neq c sep)) by congruence.
    rewrite IH by done. by rewrite <- app_assoc.
Qed.

Lemma splitAt_app_sep (sep : N) (cur a b : jsstring) :
  sep ∉ a →
  splitAt sep cur (a ++ sep :: b) = (cur ++ a) :: splitAt sep [] b.
Proof.
  revert cur. induction a as [|c a IH]; intros cur Ha; cbn [app splitAt].
  - by rewrite N.eqb_refl, app_nil_r.
  - apply not_elem_of_cons in Ha as [Hc Ha].
    rewrite (proj2 (N.eqb_neq c sep)) by congruence.
    rewrite IH by done. by rewrite <- app_assoc.
Qed.

Lemma splitAt_one (sep : N) (cur s a : jsstring) :
  splitAt sep cur s = [a] → a = cur ++ s ∧ sep ∉ s.
Proof.
  revert cur. induction s as [|c s IH]; intros cur; cbn [splitAt].
  - intros [= <-]. split; [by rewrite app_nil_r|apply not_elem_of_nil].
  - destruct (c =? sep)%N eqn:Hc.
    + intros [= _ Hrest]. apply (f_equal length) in Hrest.
      by rewrite splitAt_length in Hrest.
    + intros [-> Hs]%IH. apply N.eqb_neq in Hc.
      split; [by rewrite <- app_assoc|].
      apply not_elem_of_cons. split; [congruence|done].
Qed.

Lemma splitAt_two (sep : N) (cur s a b : jsstring) :
  splitAt sep cur s = [a; b] →
  ∃ front, a = cur ++ front ∧ s = front ++ sep :: b
           ∧ (sep ∉ front) ∧ (sep ∉ b).
Proof.
  revert cur. induction s as [|c s IH]; intros cur; cbn [splitAt]; [done|].
  destruct (c =? sep)%N eqn:Hc.
  - apply N.eqb_eq in Hc as ->. intros [= <- Hrest].
    apply splitAt_one in Hrest as [-> Hb]. exists [].
    split; [by rewrite app_nil_r|]. split; [done|].
    split; [apply not_elem_of_nil|done].
  - intros (front & -> & -> & Hf & Hb)%IH. apply N.eqb_neq in Hc.
    exists (c :: front). split; [by rewrite <- app_assoc|].
    split; [done|]. split; [|done].
    apply not_elem_of_cons. split; [congruence|done].
Qed.

Lemma normalizeEmail_wellFormed `{Runtime} (email lp dom ascii : jsstring) :
  wellFormed email lp dom ascii →
  normalizeEmail email
  = mkNormalized true None (Some lp) (Some (toLowerCase dom))
      (Some (lp ++ [AT] ++ toLowerCase dom)) (Some ascii).
Proof.
  intros (Htrim & Hlp & Hdom & Hnlp & Hndom & Hascii & Hne).
  unfold normalizeEmail, split. rewrite Htrim.
  rewrite splitAt_app_sep, splitAt_no_sep by done. cbn [app].
  destruct lp as [|x lp]; [done|]. destruct dom as [|y dom]; [done|].
  cbn [truthy negb]. rewrite Hascii.
  destruct ascii as [|z ascii]; [done|]. reflexivity.
Qed.

(** X18.  [normalizeEmail] succeeds exactly on the inputs that are, once
    trimmed, a local part and a domain around a single [@], neither of
    them empty, with a domain whose lowercased form [domainToASCII] turns
    into a name that is not empty.  The result then holds the local part
    as it was written, the lowercased domain, the two joined by [@], and
    the ASCII name. *)
Theorem normalizeEmail_succeeds_iff_well_formed `{Runtime}
    (email : jsstring) :
  (∀ lp dom ascii,
     wellFormed email lp dom ascii →
     normalizeEmail email
     = mkNormalized true None (Some lp) (Some (toLowerCase dom))
         (Some (lp ++ [AT] ++ toLowerCase dom)) (Some ascii))
  ∧ (ok (normalizeEmail email) = true →
     ∃ lp dom ascii, wellFormed email lp dom ascii).
Proof.
  split; [apply normalizeEmail_wellFormed|].
  unfold normalizeEmail.
  destruct (split AT (trim email)) as [|lp [|dom [|p ps]]] eqn:Hsplit;
    try done.
  apply splitAt_two in Hsplit as (front & -> & Htrim & Hf & Hd).
  cbn [app].
  destruct front as [|x lp]; [done|]. destruct dom as [|y dom]; [done|].
  cbn [truthy negb].
  destruct (domainToASCII _) as [ascii|] eqn:Hascii; [|done].
  destruct ascii as [|z ascii]; [done|]. intros _.
  exists (x :: lp), (y :: dom), (z :: ascii). by repeat split.
Qed.

End NormalizeFacts.

(* ===================================================================== *)
(** * Properties of the syntax check *)
(* ===================================================================== *)

Module RegexFacts.
Import Regex.

Lemma lang_void_inv (s : jsstring) : lang Void s ↔ False.
Proof. split; inversion 1. Qed.

Lemma lang_eps_inv (s : jsstring) : lang Eps s ↔ s = [].
Proof. split; [by inversion 1|intros ->; constructor]. Qed.

Lemma lang_class_inv (p : N → bool) (s : jsstring) :
  lang (Class p) s ↔ ∃ c, s = [c] ∧ p c = true.
Proof.
  split.
  - inversion 1; subst. eauto.
  - intros (c & -> & Hp). by constructor.
Qed.

Lemma lang_seq_inv (r1 r2 : regex) (s : jsstring) :
  lang (Seq r1 r2) s ↔ ∃ s1 s2, s = s1 ++ s2 ∧ lang r1 s1 ∧ lang r2 s2.
Proof.
  split.
  - inversion 1; subst. eauto.
  - intros (s1 & s2 & -> & H1 & H2). by constructor.
Qed.

Lemma lang_alt_inv (r1 r2 : regex) (s : jsstring) :
  lang (Alt r1 r2) s ↔ lang r1 s ∨ lang r2 s.
Proof.
  split.
  - inversion 1; subst; auto.
  - intros [H1|H2]; [by apply lang_alt_l|by apply lang_alt_r].
Qed.

Lemma nullable_lang (r : regex) : nullable r = true ↔ lang r [].
Proof.
  induction r as [| |p|r1 IH1 r2 IH2|r1 IH1 r2 IH2|r IH]; cbn [nullable].
  - by rewrite lang_void_inv.
  - by rewrite lang_eps_inv.
  - rewrite lang_class_inv. split; [done|]. by intros (c & ? & _).
  - rewrite andb_true_iff, IH1, IH2, lang_seq_inv. split.
    + intros [H1 H2]. by exists [], [].
    + intros (s1 & s2 & Heq & H1 & H2). symmetry in Heq.
      apply app_eq_nil in Heq as [-> ->]. done.
  - by rewrite orb_true_iff, IH1, IH2, lang_alt_inv.
  - split; [intros _; constructor|done].
Qed.

Lemma lang_star_cons (r : regex) (c : N) (s : jsstring) :
  lang (Star r) (c :: s) →
  ∃ s1 s2, s = s1 ++ s2 ∧ lang r (c :: s1) ∧ lang (Star r) s2.
Proof.
  intros Hl. remember (Star r) as r' eqn:Hr. remember (c :: s) as w eqn:Hw.
  induction Hl as [| | | | | |r0 s1 s2 H1 _ H2 IH2]; try discriminate.
  injection Hr as ->. destruct s1 as [|x s1].
  - apply IH2; [done|exact Hw].
  - injection Hw as -> <-. by exists s1, s2.
Qed.

Lemma lang_seq_cons (r1 r2 : regex) (c : N) (s : jsstring) :
  lang (Seq r1 r2) (c :: s)
  ↔ (∃ s1 s2, s = s1 ++ s2 ∧ lang r1 (c :: s1) ∧ lang r2 s2)
    ∨ (lang r1 [] ∧ lang r2 (c :: s)).
Proof.
  rewrite lang_seq_inv. split.
  - intros (s1 & s2 & Heq & H1 & H2). destruct s1 as [|x s1].
    + right. cbn [app] in Heq. by subst.
    + left. cbn [app] in Heq. injection Heq as <- ->. by exists s1, s2.
  - intros [(s1 & s2 & -> & H1 & H2)|[H1 H2]].
    + by exists (c :: s1), s2.
    + by exists [], (c :: s).
Qed.

Lemma deriv_lang (c : N) (r : regex) (s : jsstring) :
  lang (deriv c r) s ↔ lang r (c :: s).
Proof.
  revert s.
  induction r as [| |p|r1 IH1 r2 IH2|r1 IH1 r2 IH2|r IH]; intros s;
    cbn [deriv].
  - by rewrite !lang_void_inv.
  - by rewrite lang_void_inv, lang_eps_inv.
  - rewrite lang_class_inv. destruct (p c) eqn:Hp.
    + rewrite lang_eps_inv. split.
      * intros ->. by exists c.
      * by intros (x & [= <- ->] & _).
    + rewrite lang_void_inv. split; [done|].
      intros (x & [= <- ->] & Hx). congruence.
  - assert (Hseq : lang (Seq (deriv c r1) r2) s
                   ↔ ∃ s1 s2, s = s1 ++ s2 ∧ lang r1 (c :: s1) ∧ lang r2 s2).
    { rewrite lang_seq_inv. split.
      - intros (s1 & s2 & -> & H1 & H2). exists s1, s2.
        by rewrite <- IH1.
      - intros (s1 & s2 & -> & H1 & H2). exists s1, s2.
        by rewrite IH1. }
    rewrite lang_seq_cons. destruct (nullable r1) eqn:Hn.
    + apply nullable_lang in Hn. rewrite lang_alt_inv, Hseq, IH2. tauto.
    + rewrite Hseq. split; [auto|]. intros [H1|[H1 _]]; [done|].
      apply nullable_lang in H1. congruence.
  - by rewrite !lang_alt_inv, IH1, IH2.
  - rewrite lang_seq_inv. split.
    + intros (s1 & s2 & -> & H1 & H2).
      apply IH in H1. apply (lang_star_app _ (c :: s1) s2 H1 H2).
    + intros (s1 & s2 & -> & H1 & H2)%lang_star_cons.
      exists s1, s2. by rewrite IH.
Qed.

(** The test by derivatives decides the language. *)
Lemma test_lang (r : regex) (s : jsstring) : test r s = true ↔ lang r s.
Proof.
  unfold test. revert r. induction s as [|c s IH]; intros r; cbn [fold_left].
  - apply nullable_lang.
  - rewrite IH. apply deriv_lang.
Qed.

Lemma lang_chr (c : N) (s : jsstring) : lang (Chr c) s ↔ s = [c].
Proof.
  unfold Chr. rewrite lang_class_inv. split.
  - intros (x & -> & Hx). apply N.eqb_eq in Hx. by subst.
  - intros ->. exists c. by rewrite N.eqb_refl.
Qed.

Lemma lang_star_class (p : N → bool) (s : jsstring) :
  lang (Star (Class p)) s ↔ Forall (λ c, p c = true) s.
Proof.
  split.
  - intros Hl. remember (Star (Class p)) as r eqn:Hr.
    induction Hl as [| | | | | |r0 s1 s2 H1 _ H2 IH2]; try discriminate.
    + constructor.
    + injection Hr as ->. apply lang_class_inv in H1 as (c & -> & Hc).
      constructor; [done|]. by apply IH2.
  - induction 1 as [|c s Hc _ IH]; [constructor|].
    apply (lang_star_app _ [c] s); [by constructor|done].
Qed.

Lemma lang_plus_class (p : N → bool) (s : jsstring) :
  lang (Plus (Class p)) s ↔ s ≠ [] ∧ Forall (λ c, p c = true) s.
Proof.
  unfold Plus. rewrite lang_seq_inv. split.
  - intros (s1 & s2 & -> & (c & -> & Hc)%lang_class_inv & H2%lang_star_class).
    split; [done|]. by constructor.
  - intros [Hne Hall]. destruct Hall as [|c s Hc Hall]; [done|].
    exists [c], s. split; [done|]. split; [by constructor|].
    by apply lang_star_class.
Qed.

End RegexFacts.

Module SyntaxFacts.
Import Regex Verify Syntax RegexFacts JsProps NormalizeFacts CatchAllFacts.

Lemma lang_plain (s : jsstring) :
  lang (Plus (Class notSpaceNorAt)) s ↔ plain s.
Proof. apply lang_plus_class. Qed.

Lemma BASIC_RE_lang (email : jsstring) :
  lang BASIC_RE email ↔
  ∃ l d t, email = l ++ [AT] ++ d ++ [DOT] ++ t
           ∧ plain l ∧ plain d ∧ plain t.
Proof.
  unfold BASIC_RE. split.
  - intros (l & s1 & -> & Hl & Hs1)%lang_seq_inv.
    apply lang_seq_inv in Hs1 as (a & s2 & -> & ->%lang_chr & Hs2).
    apply lang_seq_inv in Hs2 as (d & s3 & -> & Hd & Hs3).
    apply lang_seq_inv in Hs3 as (b & t & -> & ->%lang_chr & Ht).
    exists l, d, t. by rewrite !lang_plain in *.
  - intros (l & d & t & -> & Hl & Hd & Ht).
    repeat (apply lang_seq; [by first [apply lang_plain | apply lang_chr]|]).
    by apply lang_plain.
Qed.

(** X19.  In basic mode [validateSyntax] accepts exactly the strings made
    of a local part, [@], and a domain with a dot inside: three stretches
    of code units that are neither white space nor [@], none of them
    empty, the first two separated by [@] and the last two by a dot.
    Every other string is turned down with the reason of the basic
    mode. *)
Theorem basic_syntax_accepts_local_at_domain_dot_tld (email : jsstring) :
  (validateSyntax email basic = (true, None) ↔
   ∃ l d t, email = l ++ [AT] ++ d ++ [DOT] ++ t
            ∧ plain l ∧ plain d ∧ plain t)
  ∧ (validateSyntax email basic = (true, None)
     ∨ validateSyntax email basic
       = (false, Some (js "Email does not match basic syntax"))).
Proof.
  rewrite <- BASIC_RE_lang, <- test_lang. cbn [validateSyntax].
  destruct (test BASIC_RE email); cbn [negb]; split; try (split; done); auto.
Qed.

Ltac bool_props :=
  repeat first
    [ rewrite orb_true_iff in * | rewrite andb_true_iff in *
    | rewrite N.eqb_eq in * | rewrite N.leb_le in * ].

Lemma printable_notSpaceNorAt (c : N) :
  (33 ≤ c < 127)%N → c ≠ AT → notSpaceNorAt c = true.
Proof.
  intros Hc Hat. unfold notSpaceNorAt.
  apply andb_true_iff. split; apply negb_true_iff, not_true_iff_false.
  - unfold isWhiteSpace. bool_props. lia.
  - bool_props. done.
Qed.

Lemma isAlpha_notSpaceNorAt (c : N) :
  isAlpha c = true → notSpaceNorAt c = true.
Proof.
  unfold isAlpha. intros Hc. bool_props.
  apply printable_notSpaceNorAt; unfold AT; lia.
Qed.

Lemma isDigit_notSpaceNorAt (c : N) :
  isDigit c = true → notSpaceNorAt c = true.
Proof.
  unfold isDigit. intros Hc. bool_props.
  apply printable_notSpaceNorAt; unfold AT; lia.
Qed.

Lemma localClass_notSpaceNorAt (c : N) :
  localClass c = true → notSpaceNorAt c = true.
Proof.
  unfold localClass. rewrite !orb_true_iff.
  intros [[Hc|Hc]|Hc];
    [by apply isAlpha_notSpaceNorAt|by apply isDigit_notSpaceNorAt|].
  apply existsb_exists in Hc as (x & Hin & <-%N.eqb_eq).
  vm_compute in Hin. repeat (destruct Hin as [<-|Hin]; [reflexivity|]).
  done.
Qed.

Lemma labelClass_notSpaceNorAt (c : N) :
  labelClass c = true ∨ c = DOT → notSpaceNorAt c = true.
Proof.
  unfold labelClass. rewrite !orb_true_iff, N.eqb_eq.
  intros [[[Hc|Hc]| ->]| ->];
    [by apply isAlpha_notSpaceNorAt|by apply isDigit_notSpaceNorAt|done..].
Qed.

Lemma lang_labels_star (u : jsstring) :
  lang (Star (Seq (Plus (Class labelClass)) (Chr DOT))) u →
  Forall (λ c, labelClass c = true ∨ c = DOT) u.
Proof.
  intros Hl. remember (Star _) as r eqn:Hr.
  induction Hl as [| | | | | |r0 s1 s2 H1 _ H2 IH2]; try discriminate.
  - constructor.
  - injection Hr as ->.
    apply lang_seq_inv in H1 as (l & d & -> & Hl & ->%lang_chr).
    apply lang_plus_class in Hl as [_ Hl].
    rewrite !Forall_app. split; [split|by apply IH2].
    + eapply Forall_impl; [exact Hl|]. auto.
    + constructor; [by right|constructor].
Qed.

Lemma lang_labels (u : jsstring) :
  lang (Plus (Seq (Plus (Class labelClass)) (Chr DOT))) u →
  ∃ x, u = x ++ [DOT] ∧ x ≠ []
       ∧ Forall (λ c, labelClass c = true ∨ c = DOT) x.
Proof.
  intros Hl. remember (Plus _) as r eqn:Hr. unfold Plus in Hr. subst r.
  apply lang_seq_inv in Hl as (u1 & u2 & -> & H1 & H2).
  apply lang_seq_inv in H1 as (l & d & -> & Hl & ->%lang_chr).
  apply lang_plus_class in Hl as [Hne Hl].
  assert (Hl' : Forall (λ c, labelClass c = true ∨ c = DOT) l).
  { eapply Forall_impl; [exact Hl|]. auto. }
  assert (Hall := lang_labels_star _ H2).
  assert (Hend : u2 = [] ∨ ∃ y, u2 = y ++ [DOT]).
  { clear -H2. remember (Star _) as r eqn:Hr.
    induction H2 as [| | | | | |r0 s1 s2 H1 _ H2 IH2]; try discriminate.
    - by left.
    - injection Hr as ->. right.
      apply lang_seq_inv in H1 as (l & d & -> & _ & ->%lang_chr).
      destruct (IH2 eq_refl) as [->|[y ->]].
      + exists l. by rewrite app_nil_r.
      + exists ((l ++ [DOT]) ++ y). by rewrite !app_assoc. }
  destruct Hend as [->|[y ->]].
  - exists l. by rewrite app_nil_r.
  - exists ((l ++ [DOT]) ++ y). split; [by rewrite !app_assoc|].
    split; [by destruct l|].
    apply Forall_app in Hall as [Hy _].
    rewrite !Forall_app. split; [split|done]; [done|].
    constructor; [by right|constructor].
Qed.

Lemma lang_two_or_more (p : N → bool) (v : jsstring) :
  lang (TwoOrMore (Class p)) v → v ≠ [] ∧ Forall (λ c, p c = true) v.
Proof.
  unfold TwoOrMore.
  intros (a & v1 & -> & (x & -> & Hx)%lang_class_inv & Hv1)%lang_seq_inv.
  apply lang_seq_inv in Hv1
    as (b & v2 & -> & (y & -> & Hy)%lang_class_inv & Hv2%lang_star_class).
  split; [done|]. by repeat constructor.
Qed.

(** X20.  The rfc mode is stricter than the basic mode: an address
    [validateSyntax] accepts in rfc mode is accepted in basic mode too.
    Such an address has at most 254 code units and a local part of 1 to
    64 code units before its only [@]. *)
Theorem rfc_syntax_is_stricter_than_basic (email : jsstring) :
  validateSyntax email rfc = (true, None) →
  validateSyntax email basic = (true, None)
  ∧ (length email ≤ 254)%nat
  ∧ ∃ local domain,
      email = local ++ [AT] ++ domain
      ∧ (AT ∉ local) ∧ (AT ∉ domain)
      ∧ (1 ≤ length local ≤ 64)%nat.
Proof.
  cbn [validateSyntax]. unfold reject.
  case_bool_decide as Hlen; [discriminate|].
  destruct (split AT email) as [|local [|domain [|p ps]]] eqn:Hsplit;
    try discriminate.
  destruct (truthy local) eqn:Hlocal; [|discriminate].
  destruct (truthy domain) eqn:Hdomain; [|discriminate]. cbn [negb orb].
  case_bool_decide as Hlen'; [discriminate|].
  destruct (_ || _); [discriminate|].
  destruct (test localRe local) eqn:Hl; [|discriminate].
  destruct (test domainRe domain) eqn:Hd; [|discriminate].
  intros _. cbn [negb].
  apply splitAt_two in Hsplit as (front & -> & -> & Hf & Hdm).
  cbn [app] in *.
  apply test_lang, lang_plus_class in Hl as [Hne Hl].
  apply test_lang, lang_seq_inv in Hd as (u & v & -> & Hu & Hv).
  apply lang_labels in Hu as (x & -> & Hx & Hxall).
  apply lang_two_or_more in Hv as [Hv Hvall].
  split; [|split; [lia|]].
  - assert (Hbasic : test BASIC_RE (front ++ AT :: (x ++ [DOT]) ++ v) = true).
    { apply test_lang, BASIC_RE_lang. exists front, x, v.
      split; [by rewrite <- !app_assoc|].
      split; [|split]; (split; [done|]).
      - eapply Forall_impl; [exact Hl|]. apply localClass_notSpaceNorAt.
      - eapply Forall_impl; [exact Hxall|]. apply labelClass_notSpaceNorAt.
      - eapply Forall_impl; [exact Hvall|]. apply isAlpha_notSpaceNorAt. }
    by rewrite Hbasic.
  - exists front, ((x ++ [DOT]) ++ v). split; [done|].
    split; [done|]. split; [done|]. destruct front; [done|].
    cbn [length] in *. lia.
Qed.

Lemma rfc_syntax_is_stricter_than_basic_witness :
  validateSyntax (js "jane.doe+news@mail.example.com") rfc = (true, None)
  ∧ validateSyntax (js "jane.doe+news@mail.example.com") basic
    = (true, None).
Proof.
  assert (Hrfc : validateSyntax (js "jane.doe+news@mail.example.com") rfc
                 = (true, None)) by (vm_compute; reflexivity).
  split; [exact Hrfc|].
  exact (proj1 (rfc_syntax_is_stricter_than_basic _ Hrfc)).
Defined.

End SyntaxFacts.

(* ===================================================================== *)
(** * Further properties of the orchestrator *)
(* ===================================================================== *)

Module VerifyFacts.
Import Rt Normalize Verify JsProps NormalizeFacts.
Local Open Scope Z_scope.

(** X21.  The second gate.  When the input is well formed and
    [validateSyntax] turns its normalized form down, the run answers
    invalid with confidence 0, the reason of [validateSyntax] (or the
    stock one when it gives none) as only reason and the normalized
    address, and it leaves the world as it found it: the stages after the
    gate are not run, the clock is not read, no query or connection is
    issued. *)
Theorem syntax_failure_is_invalid_without_io `{Runtime}
    {LateOptions : Type}
    (validateSyntax : jsstring → Mode → bool * option jsstring)
    (afterSyntaxGate :
       jsstring → @VerifyOptions LateOptions → ValidationRunOptions →
       RuntimeOptions → CacheRef → Normalized → list DebugTraceStep →
       Pools → M (Run * Pools))
    (email : jsstring) (options : VerifyOptions)
    (runOptions : ValidationRunOptions) (pools : Pools)
    (E : Env) (w : World) (lp dom ascii : jsstring)
    (reason : option jsstring) :
  wellFormed email lp dom ascii →
  toLowerCase dom ≠ [] →
  validateSyntax (lp ++ [AT] ++ toLowerCase dom)
                 (default basic (o_mode options)) = (false, reason) →
  let out := runValidation validateSyntax afterSyntaxGate
               email options runOptions pools E w in
  verdict (result out.1.1) = Scoring.Invalid
  ∧ confidence (result out.1.1) = 0
  ∧ reasons (result out.1.1)
    = [default (js "Invalid email syntax") reason]
  ∧ normalizedEmail (result out.1.1) = lp ++ [AT] ++ toLowerCase dom
  ∧ out.1.2 = (createDnsCache options pools).2
  ∧ out.2 = w.
Proof.
  intros Hwf Hdom Hsyntax.
  pose proof (normalizeEmail_wellFormed email _ _ _ Hwf) as Hn.
  destruct Hwf as (_ & Hlp & _).
  unfold runValidation. cbv zeta.
  destruct (createDnsCache options pools) as [cache pools1].
  rewrite Hn. cbn [Normalize.ok Normalize.normalizedEmail Normalize.domain
                   Normalize.localPart negb orb truthyOpt default].
  destruct lp as [|x lp]; [done|].
  destruct (toLowerCase dom) as [|y d] eqn:Hd; [done|].
  cbn [app truthy negb orb].
  match goal with
  | |- context [validateSyntax ?a ?m] =>
      change (validateSyntax a m)
        with (validateSyntax ((x :: lp) ++ [AT] ++ y :: d)
                             (default basic (o_mode options)))
  end.
  rewrite Hsyntax.
  cbn [negb]. destruct (includeDetails runOptions); done.
Qed.

Lemma syntax_failure_is_invalid_without_io_witness :
  let email := js " user@Example " in
  let validateSyntax (e : jsstring) (_ : Mode) :=
    (false, Some (js "Email does not match basic syntax")) in
  let afterSyntaxGate (email : jsstring) (_ : @VerifyOptions unit)
        (_ : ValidationRunOptions) (_ : RuntimeOptions) (_ : CacheRef)
        (_ : Normalized) (trace : list DebugTraceStep) (pools : Pools)
      : M (Run * Pools) :=
    _ ← queryMx (js "example") 4000;
    mret (mkRun (mkPMEmailResult email email Scoring.Valid 100 []
                   (checks (buildInvalidResult email email [] basic false))
                   None) trace, pools) in
  let options :=
    mkVerifyOptions None None None None None None None None None None None
                    None None None None None None () in
  let E := staticEnv (λ _, Some Rejected) (λ _, Some Rejected)
                     (λ _, Some Rejected) (λ _, Some Rejected) (λ _, []) in
  let w := mkWorld 0 [] in
  let out := @runValidation asciiRuntime unit validateSyntax afterSyntaxGate
               email options (mkRunOptions false false) (mkPools ∅ ∅) E w in
  @wellFormed asciiRuntime email (js "user") (js "Example") (js "example")
  ∧ verdict (result out.1.1) = Scoring.Invalid
  ∧ reasons (result out.1.1) = [js "Email does not match basic syntax"]
  ∧ normalizedEmail (result out.1.1) = js "user@example"
  ∧ ops out.2 = [].
Proof.
  intros email validateSyntax afterSyntaxGate options E w out.
  assert (Hwf : @wellFormed asciiRuntime email (js "user") (js "Example")
                  (js "example")).
  { unfold wellFormed. split; [reflexivity|].
    split; [discriminate|]. split; [discriminate|].
    split; [by vm_compute; intros H; repeat
              (apply elem_of_cons in H as [H|H]; [discriminate|]);
            apply elem_of_nil in H|].
    split; [by vm_compute; intros H; repeat
              (apply elem_of_cons in H as [H|H]; [discriminate|]);
            apply elem_of_nil in H|].
    split; [reflexivity|discriminate]. }
  assert (Hdom : @toLowerCase asciiRuntime (js "Example") ≠ [])
    by discriminate.
  destruct (@syntax_failure_is_invalid_without_io asciiRuntime unit
              validateSyntax afterSyntaxGate email options
              (mkRunOptions false false) (mkPools ∅ ∅) E w
              (js "user") (js "Example") (js "example")
              (Some (js "Email does not match basic syntax"))
              Hwf Hdom eq_refl)
    as (Hv & _ & Hr & Hne & _ & Hw).
  split; [exact Hwf|]. split; [exact Hv|]. split; [exact Hr|].
  split; [exact Hne|]. unfold out. by rewrite Hw.
Defined.

End VerifyFacts.

(* ===================================================================== *)
(** * The network operations of the DNS lookups *)
(* ===================================================================== *)

Module IoFacts.
Import Rt Verify Pipeline.
Local Open Scope Z_scope.

Lemma emits_ret {A} (a : A) : emits (mret a) [].
Proof. intros E w. exists []. by rewrite app_nil_r. Qed.

Lemma emits_bind {A B} (m : M A) (f : A → M B) (l1 l2 : list NetOp) :
  emits m l1 → (∀ a, emits (f a) l2) → emits (m ≫= f) (l1 ++ l2).
Proof.
  intros Hm Hf E w. unfold mbind, M_bind.
  destruct (Hm E w) as (added1 & Hops1 & Hsub1).
  destruct (m E w) as [a w1]. cbn [snd] in Hops1.
  destruct (Hf a E w1) as (added2 & Hops2 & Hsub2).
  exists (added1 ++ added2). split.
  - by rewrite Hops2, Hops1, <- app_assoc.
  - by apply sublist_app.
Qed.

Lemma emits_weaken {A} (m : M A) (l1 l2 : list NetOp) :
  emits m l1 → l1 `sublist_of` l2 → emits m l2.
Proof.
  intros Hm Hsub E w. destruct (Hm E w) as (added & Hops & Hadded).
  exists added. split; [done|]. by etrans.
Qed.

Lemma emits_dateNow : emits dateNow [].
Proof. intros E w. exists []. by rewrite app_nil_r. Qed.

Lemma emits_cacheGet cache key : emits (Dns.cacheGet cache key) [].
Proof.
  destruct cache as [c|]; cbn [Dns.cacheGet]; [|apply emits_ret].
  apply (emits_bind _ _ [] []); [apply emits_dateNow|]. intros now.
  destruct (Cache.get now key c). apply emits_ret.
Qed.

Lemma emits_cacheSet cache key e : emits (Dns.cacheSet cache key e) [].
Proof.
  destruct cache as [c|]; cbn [Dns.cacheSet]; [|apply emits_ret].
  apply (emits_bind _ _ [] []); [apply emits_dateNow|]. intros now.
  apply emits_ret.
Qed.

Lemma emits_call {T} `{Dns.Cached T} cache key (queryFn : M (Settled T)) op :
  emits queryFn [op] → emits (Dns.resolveCached_call cache key queryFn) [op].
Proof.
  intros Hq. unfold Dns.resolveCached_call.
  apply (emits_bind _ _ [] [op]); [apply emits_cacheGet|].
  intros [[entry|] cache1]; [apply (emits_weaken _ []); [apply emits_ret|]|].
  - apply sublist_nil_l.
  - apply (emits_bind _ _ [op] []); [done|]. intros answer. apply emits_ret.
Qed.

Lemma emits_resume {T} `{Dns.Cached T} cache (s : Dns.Started T) :
  emits (Dns.resolveCached_resume cache s) [].
Proof.
  destruct s as [r|key [records|]]; cbn [Dns.resolveCached_resume];
    [apply emits_ret|..];
    (apply (emits_bind _ _ [] []); [apply emits_cacheSet|]);
    intros cache1; apply emits_ret.
Qed.

Lemma emits_callIf {T} (enabled : bool) cache
    (call : option Dns.DnsCache → M (Dns.Started T * option Dns.DnsCache))
    op :
  (∀ c, emits (call c) [op]) → emits (Dns.callIf enabled cache call) [op].
Proof.
  intros Hcall. unfold Dns.callIf. destruct enabled.
  - apply (emits_bind _ _ [op] []); [done|]. intros [s cache1].
    apply emits_ret.
  - apply (emits_weaken _ []); [apply emits_ret|apply sublist_nil_l].
Qed.

Lemma emits_resumeIf {T} `{Dns.Cached T} cache (s : option (Dns.Started T)) :
  emits (Dns.resumeIf cache s) [].
Proof.
  destruct s as [s|]; cbn [Dns.resumeIf]; [|apply emits_ret].
  apply (emits_bind _ _ [] []); [apply emits_resume|]. intros [r cache1].
  apply emits_ret.
Qed.

Lemma emits_query (name : jsstring) (timeoutMs : Z) :
  emits (queryMx name timeoutMs) [OpResolveMx name]
  ∧ emits (queryTxt name timeoutMs) [OpResolveTxt name]
  ∧ emits (query4 name timeoutMs) [OpResolve4 name]
  ∧ emits (query6 name timeoutMs) [OpResolve6 name].
Proof. repeat split; intros E w; by eexists. Qed.

Lemma emits_lookupAll domain timeoutMs checkMx checkSpf checkDmarc cache :
  emits (Dns.lookupAll domain timeoutMs checkMx checkSpf checkDmarc cache)
        (dnsQueries domain).
Proof.
  unfold Dns.lookupAll, dnsQueries.
  apply (emits_bind _ _ [_] [_; _; _; _]).
  { apply emits_callIf. intros c. apply emits_call, emits_query. }
  intros [mxP c1]. apply (emits_bind _ _ [_] [_; _; _]).
  { apply emits_callIf. intros c. apply emits_call, emits_query. }
  intros [spfP c2]. apply (emits_bind _ _ [_] [_; _]).
  { apply emits_callIf. intros c. apply emits_call, emits_query. }
  intros [dmarcP c3]. apply (emits_bind _ _ [_] [_]).
  { apply emits_call, emits_query. }
  intros [aP c4]. apply (emits_bind _ _ [_] []).
  { apply emits_call, emits_query. }
  intros [aaaaP c5]. apply (emits_bind _ _ [] []); [apply emits_resumeIf|].
  intros [mxRes c6]. apply (emits_bind _ _ [] []); [apply emits_resumeIf|].
  intros [spfRes c7]. apply (emits_bind _ _ [] []); [apply emits_resumeIf|].
  intros [dmarcRes c8]. apply (emits_bind _ _ [] []); [apply emits_resume|].
  intros [aRes c9]. apply (emits_bind _ _ [] []); [apply emits_resume|].
  intros [aaaaRes c10]. apply emits_ret.
Qed.

Lemma emits_checkDNS `{Runtime} domain opts cache :
  emits (Dns.checkDNS domain opts cache) (dnsQueries domain).
Proof.
  unfold Dns.checkDNS. cbv zeta.
  rewrite <- (app_nil_r (dnsQueries domain)).
  apply emits_bind; [apply emits_lookupAll|]. intros [found cache1].
  apply emits_ret.
Qed.

End IoFacts.

(* ===================================================================== *)
(** * Properties of the stages after the syntax gate *)
(* ===================================================================== *)

Module PipelineFacts.
Import Rt Verify Pipeline ScoringProps ScoringFacts DnsProps DnsFacts IoFacts.
Local Open Scope Z_scope.


(** The closures of [runValidation] are read through the fields of the
    locals they build. *)
Ltac locals :=
  cbn [score l_reasons l_risks l_scoreBreakdown l_checks l_trace
       Pipeline.trace maybePushRisk maybePushScoreBreakdown setChecks
       pushReason deduct setScore includeDetails collectTrace pushTrace
       syntax dns smtp Verify.typo Verify.disposable settled
       withDns withRoleEmail withPatterns withTypo withDisposable
       withSmtp withCatchAll fst snd] in *.


Ltac bases :=
  unfold sameBase in *; locals;
  repeat match goal with H : _ ∧ _ |- _ => destruct H end;
  repeat split; congruence.

Section Kept.
Context (runOptions : ValidationRunOptions).

(** The stages leave the syntax and DNS entries of the checks alone. *)
Lemma settled_eachPattern weights l pattern :
  settled (l_checks (eachPattern runOptions weights l pattern))
  = settled (l_checks l).
Proof. unfold eachPattern. destruct runOptions as [c [|]]; by locals. Qed.

Lemma settled_fold weights patterns l :
  settled (l_checks (fold_left (eachPattern runOptions weights) patterns l))
  = settled (l_checks l).
Proof.
  revert l. induction patterns as [|p ps IH]; intros l; [done|].
  cbn [fold_left]. by rewrite IH, settled_eachPattern.
Qed.

Lemma settled_roleEmail isRoleEmail enabled weights localPart l :
  settled (l_checks (stageRoleEmail isRoleEmail runOptions enabled weights
                                   localPart l).2)
  = settled (l_checks l).
Proof.
  unfold stageRoleEmail. destruct enabled; [|done]. cbv zeta.
  destruct runOptions as [c [|]], (RoleEmail.isRole _); by locals.
Qed.

Lemma settled_patterns detectPatterns traceOfPatterns enabled weights
    localPart l :
  settled (l_checks (stagePatterns detectPatterns traceOfPatterns runOptions
                                  enabled weights localPart l))
  = settled (l_checks l).
Proof.
  unfold stagePatterns. cbv zeta. destruct enabled; [|done].
  case_bool_decide.
  - destruct (Patterns.getHighestSeverity _) as [[| |]|];
      locals; rewrite settled_fold; by locals.
  - destruct runOptions as [c [|]]; by locals.
Qed.

Lemma settled_plus weights canonicalResult l :
  settled (l_checks (stagePlus runOptions weights canonicalResult l))
  = settled (l_checks l).
Proof.
  unfold stagePlus. destruct (Canonical.plusTagRemoved _); [|done].
  destruct runOptions as [c [|]]; by locals.
Qed.

Lemma settled_typo suggestTypo enabled weights normalizedEmail l :
  settled (l_checks (stageTypo suggestTypo runOptions enabled weights
                              normalizedEmail l))
  = settled (l_checks l).
Proof.
  unfold stageTypo. cbv zeta. destruct enabled; [|done].
  destruct runOptions as [c [|]], (truthyOpt _); by locals.
Qed.

Lemma settled_disposable {P : Type}
    (checkDisposable : jsstring → option P → bool * option jsstring)
    enabled weights domain provider l :
  settled (l_checks (stageDisposable checkDisposable runOptions enabled
                                    weights domain provider l))
  = settled (l_checks l).
Proof.
  unfold stageDisposable. cbv zeta. destruct enabled; [|done].
  destruct runOptions as [c [|]], (checkDisposable domain provider).1;
    by locals.
Qed.

Lemma settled_dnsImpact enabled found weight reason signal description
    check note severity l :
  settled (l_checks (dnsImpact runOptions enabled found weight reason signal
                              description check note severity l))
  = settled (l_checks l).
Proof.
  unfold dnsImpact. destruct enabled; [|done]. cbn [andb].
  destruct runOptions as [c [|]]; case_bool_decide; by locals.
Qed.

Lemma settled_localStages {P : Type} detectProvider getCanonicalEmail
    isRoleEmail detectPatterns suggestTypo
    (checkDisposable : jsstring → option P → bool * option jsstring)
    traceOfPatterns options ro weights localPart domain normalizedEmail
    dnsResult l :
  settled (l_checks (localStages detectProvider getCanonicalEmail isRoleEmail
                      detectPatterns suggestTypo checkDisposable
                      traceOfPatterns runOptions options ro weights localPart
                      domain normalizedEmail dnsResult l).2)
  = settled (l_checks l).
Proof.
  unfold localStages. cbv zeta.
  destruct (stageRoleEmail _ _ _ _ _ _) as [roleResult l1] eqn:Hrole.
  cbn [snd]. unfold stageDnsImpact.
  rewrite !settled_dnsImpact, settled_disposable, settled_typo, settled_plus,
    settled_patterns.
  change l1 with (roleResult, l1).2. rewrite <- Hrole, settled_roleEmail.
  unfold stageCanonical, stageProvider.
  destruct (if includeDetails runOptions then _ else _); by locals.
Qed.

Lemma settled_stepSmtp `{Runtime} ro weights domain normalizedEmail cache
    l pools E w :
  settled (l_checks (stepSmtp runOptions ro weights domain normalizedEmail
                             cache l pools E w).1.1)
  = settled (l_checks l).
Proof.
  unfold stepSmtp. destruct (enabled _); [|done]. cbv zeta.
  destruct (getLimiter _ _) as [limiter pools1].
  unfold mbind, M_bind.
  destruct (Smtp.probeSmtpSessions _ _ _ _ _ E w) as [[[smtpResult l1] c1] w1].
  cbn [fst mret M_ret]. unfold stageSmtp. cbv zeta.
  destruct runOptions as [c [|]], (Smtp.status smtpResult); by locals.
Qed.

Lemma settled_stepCatchAll `{Runtime} {P : Type}
    (options : @VerifyOptions (@LateOptions P)) ro weights domain dnsResult
    cache l pools E w :
  settled (l_checks (stepCatchAll runOptions options ro weights domain
                                 dnsResult cache l pools E w).1.1)
  = settled (l_checks l).
Proof.
  unfold stepCatchAll. destruct (_ && _); [|done].
  unfold mbind, M_bind.
  destruct (CatchAll.checkCatchAll _ _ _ E w) as [[catchAllResult c1] w1].
  cbn [fst mret M_ret]. unfold stageCatchAll. cbv zeta.
  destruct runOptions as [c [|]], (CatchAll.isCatchAll catchAllResult);
    by locals.
Qed.

Lemma finish_result {P : Type} getProviderName email normalizedEmail domain
    (options : @VerifyOptions (@LateOptions P)) providerResult
    canonicalResult roleResult dnsResult l :
  let r := result (finish getProviderName runOptions email normalizedEmail
                          domain options providerResult canonicalResult
                          roleResult dnsResult l) in
  confidence r = Scoring.clampScore (inject_Z (score l))
  ∧ verdict r
    = Scoring.computeVerdict (inject_Z (confidence r))
        (o_scoring_thresholds (o_late options))
  ∧ reasons r = l_reasons l
  ∧ checks r = l_checks l
  ∧ Verify.normalizedEmail r = normalizedEmail
  ∧ Verify.email r = email.
Proof.
  unfold finish. cbv zeta. cbn [result confidence verdict reasons checks].
  repeat split.
  by destruct (o_scoring_thresholds (o_late options)) as [[a b c]|].
Qed.

End Kept.

Section Detailed.
Context (collect : bool).
Local Abbreviation detailed := (mkRunOptions collect true).













End Detailed.

Ltac charges :=
  unfold charged, DEFAULT_WEIGHTS in *; locals;
  cbn [Pipeline.typo Pipeline.disposable noMx noSpf noDmarc smtpInvalid
       smtpUnknown Pipeline.catchAll Pipeline.roleEmail patternHigh
       patternMedium patternLow plusAddressing getPatternImpact] in *;
  intuition (try discriminate; try congruence; try lia).

Section Stock.
Context (runOptions : ValidationRunOptions) (paid : bool).

Lemma charged_roleEmail isRoleEmail enabled localPart l :
  charged paid l →
  charged paid (stageRoleEmail isRoleEmail runOptions enabled
                               DEFAULT_WEIGHTS localPart l).2.
Proof.
  intros Hl. unfold stageRoleEmail. destruct enabled; [|done].
  destruct runOptions as [c [|]], (RoleEmail.isRole _); charges.
Qed.

Lemma charged_eachPattern l pattern :
  charged paid l →
  charged paid (eachPattern runOptions DEFAULT_WEIGHTS l pattern).
Proof.
  intros Hl. unfold eachPattern. cbv zeta.
  destruct runOptions as [c [|]], (Patterns.severity pattern); charges.
Qed.

Lemma charged_patterns detectPatterns traceOfPatterns enabled localPart l :
  charged paid l →
  charged paid (stagePatterns detectPatterns traceOfPatterns runOptions
                              enabled DEFAULT_WEIGHTS localPart l).
Proof.
  intros Hl. unfold stagePatterns. destruct enabled; [|done].
  cbv zeta. case_bool_decide; [|destruct runOptions as [c [|]]; charges].
  assert (Hfold : ∀ ps l0, charged paid l0 →
            charged paid
              (fold_left (eachPattern runOptions DEFAULT_WEIGHTS) ps l0)).
  { induction ps as [|p ps IH]; intros l0 H0; [done|].
    cbn [fold_left]. by apply IH, charged_eachPattern. }
  assert (Hreason : ∀ r l0, charged paid l0 → charged paid (pushReason r l0))
    by (intros; charges).
  destruct (Patterns.getHighestSeverity _) as [[| |]|];
    [apply Hreason|..]; apply Hfold; charges.
Qed.

Lemma charged_plus canonicalResult l :
  charged paid l →
  charged paid (stagePlus runOptions DEFAULT_WEIGHTS canonicalResult l).
Proof.
  intros Hl. unfold stagePlus.
  destruct (Canonical.plusTagRemoved _); [|done].
  destruct runOptions as [c [|]]; charges.
Qed.

Lemma charged_typo suggestTypo enabled normalizedEmail l :
  charged paid l →
  charged paid (stageTypo suggestTypo runOptions enabled DEFAULT_WEIGHTS
                          normalizedEmail l).
Proof.
  intros Hl. unfold stageTypo. destruct enabled; [|done]. cbv zeta.
  destruct (suggestTypo normalizedEmail) as [ok suggestion].
  cbn [snd]. destruct (truthyOpt suggestion) eqn:Hs;
    destruct runOptions as [c [|]]; charges.
Qed.

Lemma charged_disposable {P : Type}
    (checkDisposable : jsstring → option P → bool * option jsstring)
    enabled domain provider l :
  charged paid l →
  charged paid (stageDisposable checkDisposable runOptions enabled
                                DEFAULT_WEIGHTS domain provider l).
Proof.
  intros Hl. unfold stageDisposable. destruct enabled; [|done]. cbv zeta.
  destruct (checkDisposable domain provider) as [[|] source];
    destruct runOptions as [c [|]]; charges.
Qed.

Lemma charged_dnsImpact enabled found weight reason signal description
    check note severity l :
  0 ≤ weight →
  charged paid l →
  charged paid (dnsImpact runOptions enabled found weight reason signal
                          description check note severity l).
Proof.
  intros Hw Hl. unfold dnsImpact. destruct enabled; [|done]. cbn [andb].
  case_bool_decide; destruct runOptions as [c [|]]; charges.
Qed.

Lemma charged_noMx enabled found reason signal description check note
    severity l :
  charged paid l →
  charged (enabled && bool_decide (found = Some false))
          (dnsImpact runOptions enabled found 50 reason signal description
                     check note severity l).
Proof.
  intros Hl. unfold dnsImpact. destruct enabled; cbn [andb]; [|charges].
  case_bool_decide; destruct runOptions as [c [|]]; charges.
Qed.

Lemma charged_smtp smtpResult l :
  charged paid l →
  charged paid (stageSmtp runOptions DEFAULT_WEIGHTS smtpResult l).
Proof.
  intros Hl. unfold stageSmtp. cbv zeta.
  destruct (Smtp.status smtpResult) eqn:Hs;
    destruct runOptions as [c [|]]; charges.
Qed.

Lemma charged_catchAll catchAllResult l :
  charged paid l →
  charged paid (stageCatchAll runOptions DEFAULT_WEIGHTS catchAllResult l).
Proof.
  intros Hl. unfold stageCatchAll. cbv zeta.
  destruct (CatchAll.isCatchAll catchAllResult);
    destruct runOptions as [c [|]]; charges.
Qed.

Lemma charged_stepSmtp `{Runtime} ro domain normalizedEmail cache l pools
    E w :
  charged paid l →
  charged paid (stepSmtp runOptions ro DEFAULT_WEIGHTS domain
                         normalizedEmail cache l pools E w).1.1.
Proof.
  intros Hl. unfold stepSmtp. destruct (enabled _); [|done]. cbv zeta.
  destruct (getLimiter _ _) as [limiter pools1].
  unfold mbind, M_bind.
  destruct (Smtp.probeSmtpSessions _ _ _ _ _ E w) as [[[smtpResult l1] c1] w1].
  cbn [fst mret M_ret]. by apply charged_smtp.
Qed.

Lemma charged_stepCatchAll `{Runtime} {P : Type}
    (options : @VerifyOptions (@LateOptions P)) ro domain dnsResult cache l
    pools E w :
  charged paid l →
  charged paid (stepCatchAll runOptions options ro DEFAULT_WEIGHTS domain
                             dnsResult cache l pools E w).1.1.
Proof.
  intros Hl. unfold stepCatchAll. destruct (_ && _); [|done].
  unfold mbind, M_bind.
  destruct (CatchAll.checkCatchAll _ _ _ E w) as [[catchAllResult c1] w1].
  cbn [fst mret M_ret]. by apply charged_catchAll.
Qed.

End Stock.

Lemma charged_localStages {P : Type} runOptions detectProvider
    getCanonicalEmail isRoleEmail detectPatterns suggestTypo
    (checkDisposable : jsstring → option P → bool * option jsstring)
    traceOfPatterns options ro localPart domain normalizedEmail dnsResult l :
  charged false l →
  charged (r_mx (dnsOpts ro) && bool_decide (Dns.mx dnsResult = Some false))
    (localStages detectProvider getCanonicalEmail isRoleEmail detectPatterns
       suggestTypo checkDisposable traceOfPatterns runOptions options ro
       DEFAULT_WEIGHTS localPart domain normalizedEmail dnsResult l).2.
Proof.
  intros Hl. unfold localStages. cbv zeta.
  destruct (stageRoleEmail _ _ _ _ _ _) as [roleResult l1] eqn:Hrole.
  cbn [snd]. unfold stageDnsImpact.
  do 2 (apply charged_dnsImpact; [done|]).
  apply (charged_noMx _ false), charged_disposable, charged_typo,
    charged_plus, charged_patterns.
  change l1 with (roleResult, l1).2. rewrite <- Hrole.
  apply charged_roleEmail.
  unfold stageCanonical, stageProvider.
  destruct (if includeDetails runOptions then _ else _); charges.
Qed.

Section Basic.
Context (b1 b2 : bool).
Local Abbreviation ro1 := (mkRunOptions false b1).
Local Abbreviation ro2 := (mkRunOptions false b2).

Lemma sameBase_roleEmail isRoleEmail enabled weights localPart l1 l2 :
  sameBase l1 l2 →
  let out1 := stageRoleEmail isRoleEmail ro1 enabled weights localPart l1 in
  let out2 := stageRoleEmail isRoleEmail ro2 enabled weights localPart l2 in
  out1.1 = out2.1 ∧ sameBase out1.2 out2.2.
Proof.
  intros Hl. unfold stageRoleEmail. destruct enabled; [|done].
  destruct (RoleEmail.isRole _), b1, b2; (split; [done|]); bases.
Qed.

Lemma sameBase_eachPattern weights l1 l2 pattern :
  sameBase l1 l2 →
  sameBase (eachPattern ro1 weights l1 pattern)
           (eachPattern ro2 weights l2 pattern).
Proof. intros Hl. unfold eachPattern. destruct b1, b2; bases. Qed.

Lemma sameBase_patterns detectPatterns traceOfPatterns enabled weights
    localPart l1 l2 :
  sameBase l1 l2 →
  sameBase (stagePatterns detectPatterns traceOfPatterns ro1 enabled weights
                          localPart l1)
           (stagePatterns detectPatterns traceOfPatterns ro2 enabled weights
                          localPart l2).
Proof.
  intros Hl. unfold stagePatterns. destruct enabled; [|done].
  cbv zeta. case_bool_decide; [|destruct b1, b2; bases].
  assert (Hfold : ∀ ps l1 l2, sameBase l1 l2 →
            sameBase (fold_left (eachPattern ro1 weights) ps l1)
                     (fold_left (eachPattern ro2 weights) ps l2)).
  { induction ps as [|p ps IH]; intros l3 l4 H0; [done|].
    cbn [fold_left]. by apply IH, sameBase_eachPattern. }
  assert (Hreason : ∀ r l1 l2, sameBase l1 l2 →
            sameBase (pushReason r l1) (pushReason r l2))
    by (intros; bases).
  destruct (Patterns.getHighestSeverity _) as [[| |]|];
    [apply Hreason|..]; apply Hfold; bases.
Qed.

Lemma sameBase_plus weights canonicalResult l1 l2 :
  sameBase l1 l2 →
  sameBase (stagePlus ro1 weights canonicalResult l1)
           (stagePlus ro2 weights canonicalResult l2).
Proof.
  intros Hl. unfold stagePlus.
  destruct (Canonical.plusTagRemoved _); [|done]. destruct b1, b2; bases.
Qed.

Lemma sameBase_typo suggestTypo enabled weights normalizedEmail l1 l2 :
  sameBase l1 l2 →
  sameBase (stageTypo suggestTypo ro1 enabled weights normalizedEmail l1)
           (stageTypo suggestTypo ro2 enabled weights normalizedEmail l2).
Proof.
  intros Hl. unfold stageTypo. destruct enabled; [|done]. cbv zeta.
  destruct (truthyOpt _), b1, b2; bases.
Qed.

Lemma sameBase_disposable {P : Type}
    (checkDisposable : jsstring → option P → bool * option jsstring)
    enabled weights domain provider l1 l2 :
  sameBase l1 l2 →
  sameBase (stageDisposable checkDisposable ro1 enabled weights domain
                            provider l1)
           (stageDisposable checkDisposable ro2 enabled weights domain
                            provider l2).
Proof.
  intros Hl. unfold stageDisposable. destruct enabled; [|done]. cbv zeta.
  destruct (checkDisposable domain provider).1, b1, b2; bases.
Qed.

Lemma sameBase_dnsImpact enabled found weight reason signal description
    check note severity l1 l2 :
  sameBase l1 l2 →
  sameBase (dnsImpact ro1 enabled found weight reason signal description
                      check note severity l1)
           (dnsImpact ro2 enabled found weight reason signal description
                      check note severity l2).
Proof.
  intros Hl. unfold dnsImpact. destruct enabled; [|done]. cbn [andb].
  case_bool_decide; destruct b1, b2; bases.
Qed.

Lemma sameBase_smtp weights smtpResult l1 l2 :
  sameBase l1 l2 →
  sameBase (stageSmtp ro1 weights smtpResult l1)
           (stageSmtp ro2 weights smtpResult l2).
Proof.
  intros Hl. unfold stageSmtp. cbv zeta.
  destruct (Smtp.status smtpResult), b1, b2; bases.
Qed.

Lemma sameBase_catchAll weights catchAllResult l1 l2 :
  sameBase l1 l2 →
  sameBase (stageCatchAll ro1 weights catchAllResult l1)
           (stageCatchAll ro2 weights catchAllResult l2).
Proof.
  intros Hl. unfold stageCatchAll. cbv zeta.
  destruct (CatchAll.isCatchAll catchAllResult), b1, b2; bases.
Qed.

Lemma sameBase_localStages {P : Type} detectProvider getCanonicalEmail
    isRoleEmail detectPatterns suggestTypo
    (checkDisposable : jsstring → option P → bool * option jsstring)
    traceOfPatterns options ro weights localPart domain normalizedEmail
    dnsResult l1 l2 :
  sameBase l1 l2 →
  let out1 := localStages detectProvider getCanonicalEmail isRoleEmail
                detectPatterns suggestTypo checkDisposable traceOfPatterns
                ro1 options ro weights localPart domain normalizedEmail
                dnsResult l1 in
  let out2 := localStages detectProvider getCanonicalEmail isRoleEmail
                detectPatterns suggestTypo checkDisposable traceOfPatterns
                ro2 options ro weights localPart domain normalizedEmail
                dnsResult l2 in
  out1.1.1.2 = out2.1.1.2 ∧ out1.1.2 = out2.1.2 ∧ sameBase out1.2 out2.2.
Proof.
  intros Hl. unfold localStages. cbn [includeDetails]. cbv zeta.
  match goal with
  | |- context [stageRoleEmail ?f ro1 ?e ?ws ?lp ?la] =>
      match goal with
      | |- context [stageRoleEmail f ro2 e ws lp ?lb] =>
          destruct (sameBase_roleEmail f e ws lp la lb) as [Hrole Hbase];
            [|destruct (stageRoleEmail f ro1 e ws lp la)
                as [roleResult1 l3];
              destruct (stageRoleEmail f ro2 e ws lp lb)
                as [roleResult2 l4]]
      end
  end.
  { unfold stageCanonical, stageProvider. destruct b1, b2; bases. }
  cbn [fst snd] in *. subst roleResult2. split; [done|]. split; [done|].
  unfold stageDnsImpact.
  do 3 apply sameBase_dnsImpact.
  by apply sameBase_disposable, sameBase_typo, sameBase_plus,
    sameBase_patterns.
Qed.

Lemma sameBase_stepSmtp `{Runtime} ro weights domain normalizedEmail cache
    l1 l2 pools E w :
  sameBase l1 l2 →
  let out1 := stepSmtp ro1 ro weights domain normalizedEmail cache l1 pools
                       E w in
  let out2 := stepSmtp ro2 ro weights domain normalizedEmail cache l2 pools
                       E w in
  sameBase out1.1.1 out2.1.1 ∧ out1.1.2 = out2.1.2 ∧ out1.2 = out2.2.
Proof.
  intros Hl. unfold stepSmtp. destruct (enabled _); [|done]. cbv zeta.
  destruct (getLimiter _ _) as [limiter pools1].
  unfold mbind, M_bind.
  destruct (Smtp.probeSmtpSessions _ _ _ _ _ E w) as [[[smtpResult l3] c1] w1].
  cbn [fst snd mret M_ret]. split; [|done]. by apply sameBase_smtp.
Qed.

Lemma sameBase_stepCatchAll `{Runtime} {P : Type}
    (options : @VerifyOptions (@LateOptions P)) ro weights domain dnsResult
    cache l1 l2 pools E w :
  sameBase l1 l2 →
  let out1 := stepCatchAll ro1 options ro weights domain dnsResult cache l1
                           pools E w in
  let out2 := stepCatchAll ro2 options ro weights domain dnsResult cache l2
                           pools E w in
  sameBase out1.1.1 out2.1.1 ∧ out1.1.2 = out2.1.2 ∧ out1.2 = out2.2.
Proof.
  intros Hl. unfold stepCatchAll. destruct (_ && _); [|done].
  unfold mbind, M_bind.
  destruct (CatchAll.checkCatchAll _ _ _ E w) as [[catchAllResult c1] w1].
  cbn [fst snd mret M_ret]. split; [|done]. by apply sameBase_catchAll.
Qed.

Lemma sameBase_finish {P : Type} getProviderName email normalizedEmail
    domain (options : @VerifyOptions (@LateOptions P)) provider1 provider2
    canonicalResult roleResult dnsResult l1 l2 :
  sameBase l1 l2 →
  toOutputResult
    (result (finish getProviderName ro1 email normalizedEmail domain options
                    provider1 canonicalResult roleResult dnsResult l1))
    outBasic
  = toOutputResult
      (result (finish getProviderName ro2 email normalizedEmail domain
                      options provider2 canonicalResult roleResult dnsResult
                      l2))
      outBasic.
Proof.
  intros (Hs & Hr & Hc & Ht). unfold finish. cbv zeta.
  cbn [toOutputResult result Verify.email Verify.normalizedEmail verdict
       confidence reasons checks].
  locals. by rewrite Hs, Hr, Hc.
Qed.

End Basic.

Section Collaborators.
Context `{Runtime} {DisposableProvider : Type}.
Context (detectProvider :
           jsstring → option (list jsstring) → Provider.ProviderDetectionResult)
        (getProviderName : jsstring → option (list jsstring) → jsstring)
        (getCanonicalEmail :
           jsstring → option (list jsstring) → Canonical.CanonicalResult)
        (isRoleEmail : jsstring → RoleEmail.RoleEmailResult)
        (detectPatterns : jsstring → list Patterns.PatternSignal)
        (suggestTypo : jsstring → bool * option jsstring)
        (checkDisposable :
           jsstring → option DisposableProvider → bool * option jsstring)
        (traceOfPatterns : list Patterns.PatternSignal → TraceValue).

Local Abbreviation afterGate :=
  (afterSyntaxGate detectProvider getProviderName getCanonicalEmail
     isRoleEmail detectPatterns suggestTypo checkDisposable traceOfPatterns).
Local Abbreviation validation :=
  (Pipeline.runValidation detectProvider getProviderName getCanonicalEmail
     isRoleEmail detectPatterns suggestTypo checkDisposable traceOfPatterns).

Implicit Types (options : @VerifyOptions (@LateOptions DisposableProvider)).


(** X23.  With integer weights, the only ones [Pipeline.Weights] holds,
    the confidence of a result is an integer from 0 to 100.  When the
    syntax check of the result is ok, the verdict is the tier of that
    confidence under the thresholds of the options, the stock ones when
    none are given; when it is not, the verdict is invalid, the
    confidence 0, and the only reason is the reason of the syntax
    check. *)
Theorem verdict_is_the_tier_of_the_confidence
    (runOptions : ValidationRunOptions) (email : jsstring) options
    (pools : Pools) (E : Env) (w : World) :
  let r := result (validation email options runOptions pools E w).1.1 in
  0 ≤ confidence r ≤ 100
  ∧ (syntaxOk (syntax (checks r)) = true →
     verdict r
     = Scoring.computeVerdict (inject_Z (confidence r))
         (o_scoring_thresholds (o_late options)))
  ∧ (syntaxOk (syntax (checks r)) = false →
     verdict r = Scoring.Invalid ∧ confidence r = 0
     ∧ ∃ reason, reasons r = [reason]
                 ∧ syntaxReason (syntax (checks r)) = Some reason).
Proof.
  cbv zeta. unfold Pipeline.runValidation, Verify.runValidation. cbv zeta.
  destruct (createDnsCache options pools) as [cache pools1].
  assert (Hgate : ∀ e n reason m s,
            let r := if includeDetails runOptions
                     then buildInvalidResult e n reason m s
                     else toOutputResult (buildInvalidResult e n reason m s)
                                         outBasic in
            0 ≤ confidence r ≤ 100
            ∧ (syntaxOk (syntax (checks r)) = true →
               verdict r
               = Scoring.computeVerdict (inject_Z (confidence r))
                   (o_scoring_thresholds (o_late options)))
            ∧ (syntaxOk (syntax (checks r)) = false →
               verdict r = Scoring.Invalid ∧ confidence r = 0
               ∧ ∃ reason, reasons r = [reason]
                           ∧ syntaxReason (syntax (checks r)) = Some reason)).
  { intros e n reason m s. destruct (includeDetails runOptions);
      cbn [buildInvalidResult toOutputResult confidence verdict reasons
           checks syntax syntaxOk syntaxReason];
      (split; [lia|]); (split; [done|]); intros _;
      repeat split; by eexists. }
  destruct (_ || _); [apply Hgate|].
  destruct (Syntax.validateSyntax _ _) as [syntaxOk syntaxReason].
  destruct syntaxOk; cbn [negb]; [|apply Hgate]. clear Hgate.
  unfold afterSyntaxGate, afterLookups. cbv zeta. unfold mbind, M_bind.
  destruct (Dns.checkDNS _ _ _ E w) as [[dnsResult cache1] w1].
  match goal with
  | |- context [localStages ?a ?b ?c ?d ?e ?f ?g ?ro ?o ?r ?ws ?lp ?dm ?ne
                            ?dr ?l] =>
      pose proof (settled_localStages ro a b c d e f g o r ws lp dm ne dr l)
        as Hl;
        destruct (localStages a b c d e f g ro o r ws lp dm ne dr l)
          as [[[providerResult canonicalResult] roleResult] l1]
  end.
  cbn [snd] in Hl.
  match goal with
  | |- context [stepSmtp ?ro ?r ?ws ?dm ?ne ?c ?l ?p E w1] =>
      pose proof (settled_stepSmtp ro r ws dm ne c l p E w1) as Hl2;
        destruct (stepSmtp ro r ws dm ne c l p E w1) as [[l2 pools2] w2]
  end.
  cbn [fst] in Hl2.
  match goal with
  | |- context [stepCatchAll ?ro ?o ?r ?ws ?dm ?dr ?c ?l ?p E w2] =>
      pose proof (settled_stepCatchAll ro o r ws dm dr c l p E w2) as Hl3;
        destruct (stepCatchAll ro o r ws dm dr c l p E w2)
          as [[l3 pools3] w3]
  end.
  cbn [fst] in Hl3. cbn [mret M_ret fst].
  match goal with
  | |- context [finish ?g ?ro ?e ?n ?d ?o ?p ?c ?r ?dr ?l] =>
      destruct (finish_result ro g e n d o p c r dr l)
        as (Hconf & Hverdict & _ & Hchecks & _)
  end.
  rewrite Hl2, Hl in Hl3. apply (f_equal fst) in Hl3.
  unfold stageDns, createInitialChecks in Hl3. locals.
  rewrite Hchecks, Hl3. cbn [syntaxOk]. split.
  - rewrite Hconf. unfold Scoring.clampScore. lia.
  - split; [intros _; exact Hverdict|done].
Qed.

Lemma validation_base (b : bool) (email : jsstring) options (pools : Pools)
    (E : Env) (w : World) :
  let out1 := validation email options (mkRunOptions false b) pools E w in
  let out2 := validation email options (mkRunOptions false true) pools E w in
  toOutputResult (result out1.1.1) outBasic
  = toOutputResult (result out2.1.1) outBasic
  ∧ out1.1.2 = out2.1.2 ∧ out1.2 = out2.2.
Proof.
  cbv zeta. unfold Pipeline.runValidation, Verify.runValidation. cbv zeta.
  destruct (createDnsCache options pools) as [cache pools1].
  cbn [includeDetails].
  destruct (_ || _); [by destruct b|].
  destruct (Syntax.validateSyntax _ _) as [syntaxOk syntaxReason].
  destruct syntaxOk; cbn [negb]; [|by destruct b].
  unfold afterSyntaxGate, afterLookups. cbv zeta. unfold mbind, M_bind.
  destruct (Dns.checkDNS _ _ _ E w) as [[dnsResult cache1] w1].
  match goal with
  | |- context [localStages ?a ?b0 ?c ?d ?e ?f ?g (mkRunOptions false b) ?o
                            ?r ?ws ?lp ?dm ?ne ?dr ?la] =>
      match goal with
      | |- context [localStages a b0 c d e f g (mkRunOptions false true) o
                                r ws lp dm ne dr ?lb] =>
          destruct (sameBase_localStages b true a b0 c d e f g o r ws lp dm
                      ne dr la lb) as (Hc & Hr & Hl);
            [unfold stageDns; bases|];
            destruct (localStages a b0 c d e f g (mkRunOptions false b) o r
                        ws lp dm ne dr la)
              as [[[provider1 canonical1] role1] l1];
            destruct (localStages a b0 c d e f g (mkRunOptions false true) o
                        r ws lp dm ne dr lb)
              as [[[provider2 canonical2] role2] l2]
      end
  end.
  cbn [fst snd] in Hc, Hr, Hl. subst canonical2 role2.
  match goal with
  | |- context [stepSmtp (mkRunOptions false b) ?r ?ws ?dm ?ne ?c l1 ?p E
                         w1] =>
      destruct (sameBase_stepSmtp b true r ws dm ne c l1 l2 p E w1 Hl)
        as (Hl2 & Hp2 & Hw2);
        destruct (stepSmtp (mkRunOptions false b) r ws dm ne c l1 p E w1)
          as [[l3 pools3] w3];
        destruct (stepSmtp (mkRunOptions false true) r ws dm ne c l2 p E w1)
          as [[l4 pools4] w4]
  end.
  cbn [fst snd] in Hl2, Hp2, Hw2. subst pools4 w4.
  match goal with
  | |- context [stepCatchAll (mkRunOptions false b) ?o ?r ?ws ?dm ?dr ?c l3
                             ?p E w3] =>
      destruct (sameBase_stepCatchAll b true o r ws dm dr c l3 l4 p E w3
                  Hl2) as (Hl3 & Hp3 & Hw3);
        destruct (stepCatchAll (mkRunOptions false b) o r ws dm dr c l3 p E
                               w3) as [[l5 pools5] w5];
        destruct (stepCatchAll (mkRunOptions false true) o r ws dm dr c l4 p
                               E w3) as [[l6 pools6] w6]
  end.
  cbn [fst snd] in Hl3, Hp3, Hw3. subst pools6 w6.
  cbn [mret M_ret fst snd]. split; [|done]. by apply sameBase_finish.
Qed.

(** X24.  [verifyEmail] answers what the detailed run answers, cut to the
    output that was asked for: the basic result is the detailed one
    without its intelligence, risks and score breakdown.  Asking for one
    output or the other changes neither the verdict, the confidence, the
    reasons and the checks, nor what is done to the pools and to the
    network. *)
Theorem verifyEmail_is_the_detailed_run_cut_to_the_output
    (email : jsstring) options (pools : Pools) (E : Env) (w : World) :
  Pipeline.verifyEmail detectProvider getProviderName getCanonicalEmail
    isRoleEmail detectPatterns suggestTypo checkDisposable traceOfPatterns
    email options pools E w
  = let out := validation email options (mkRunOptions false true) pools E w in
    (toOutputResult (result out.1.1) (default outBasic (o_output options)),
     out.1.2, out.2).
Proof.
  pose proof (validation_base false email options pools E w) as Hbase.
  unfold Pipeline.verifyEmail, Verify.verifyEmail. cbv zeta in *.
  unfold Pipeline.runValidation, mbind, M_bind in *.
  destruct (o_output options) as [[|]|]; cbn [from_option id].
  - destruct (Verify.runValidation _ _ _ _ (mkRunOptions false false) _ _ _)
      as [[run1 pools1] w1].
    destruct (Verify.runValidation _ _ _ _ (mkRunOptions false true) _ _ _)
      as [[run2 pools2] w2].
    cbn [fst snd mret M_ret] in *. destruct Hbase as (-> & -> & ->). done.
  - destruct (Verify.runValidation _ _ _ _ (mkRunOptions false true) _ _ _)
      as [[run2 pools2] w2]. reflexivity.
  - destruct (Verify.runValidation _ _ _ _ (mkRunOptions false false) _ _ _)
      as [[run1 pools1] w1].
    destruct (Verify.runValidation _ _ _ _ (mkRunOptions false true) _ _ _)
      as [[run2 pools2] w2].
    cbn [fst snd mret M_ret] in *. destruct Hbase as (-> & -> & ->). done.
Qed.

Lemma emits_validation (runOptions : ValidationRunOptions)
    (email : jsstring) options (pools : Pools) :
  default false (o_smtp_enabled options) = false →
  default false (o_catchAll_enabled options) = false →
  emits (validation email options runOptions pools)
        (dnsQueries
           (default [] (Normalize.domain (Normalize.normalizeEmail email)))).
Proof.
  intros Hsmtp HcatchAll.
  unfold Pipeline.runValidation, Verify.runValidation. cbv zeta.
  destruct (createDnsCache options pools) as [cache pools1].
  assert (Hquiet : ∀ (out : Run * Pools) l, emits (mret out) l).
  { intros out l. apply (emits_weaken _ []); [apply emits_ret|].
    apply sublist_nil_l. }
  destruct (_ || _); [apply Hquiet|].
  destruct (Syntax.validateSyntax _ _) as [syntaxOk syntaxReason].
  destruct syntaxOk; cbn [negb]; [|apply Hquiet].
  unfold afterSyntaxGate, afterLookups. cbv zeta.
  rewrite <- (app_nil_r (dnsQueries _)).
  apply emits_bind; [apply emits_checkDNS|]. intros [dnsResult cache1].
  destruct (localStages _ _ _ _ _ _ _ _ _ _ _ _ _ _ _ _)
    as [[[providerResult canonicalResult] roleResult] l1].
  apply (emits_bind _ _ [] []).
  { unfold stepSmtp, resolveOptions. cbn [smtpOpts enabled].
    rewrite Hsmtp. apply emits_ret. }
  intros [l2 pools2]. apply (emits_bind _ _ [] []).
  { unfold stepCatchAll, resolveOptions. cbn [catchAllEnabled].
    rewrite HcatchAll. apply emits_ret. }
  intros [l3 pools3]. apply emits_ret.
Qed.

(** X25.  With the SMTP probe and the catch-all detection off, as they
    are unless the options turn them on, a run opens no connection: the
    operations it adds to the network are DNS queries about the domain of
    the address, each at most once, in the order MX, TXT, TXT of
    [_dmarc.], A, AAAA. *)
Theorem without_probes_only_the_domain_is_queried
    (runOptions : ValidationRunOptions) (email : jsstring) options
    (pools : Pools) (E : Env) (w : World) :
  default false (o_smtp_enabled options) = false →
  default false (o_catchAll_enabled options) = false →
  ∃ added,
    ops (validation email options runOptions pools E w).2 = ops w ++ added
    ∧ added `sublist_of`
        dnsQueries
          (default [] (Normalize.domain (Normalize.normalizeEmail email)))
    ∧ ∀ port host, OpConnect port host ∉ added.
Proof.
  intros Hsmtp HcatchAll.
  destruct (emits_validation runOptions email options pools Hsmtp HcatchAll
              E w) as (added & Hops & Hsub).
  exists added. split; [done|]. split; [done|].
  intros port host Hin.
  apply sublist_submseteq in Hsub.
  apply (elem_of_submseteq _ _ _ Hin) in Hsub.
  unfold dnsQueries in Hsub.
  repeat (apply elem_of_cons in Hsub as [Hsub|Hsub]; [discriminate|]).
  by apply elem_of_nil in Hsub.
Qed.

(** X26.  Under the stock weights and thresholds a valid verdict goes
    with a confidence of 85 at least, and it is never given to an address
    the checks report against: the syntax check is ok, the domain is not
    disposable, no correction of the domain is suggested, the MX lookup
    has not come back empty, and the SMTP probe has not answered
    invalid. *)
Theorem valid_verdict_excludes_the_major_signals
    (runOptions : ValidationRunOptions) (email : jsstring) options
    (pools : Pools) (E : Env) (w : World) :
  o_scoring_weights (o_late options) = None →
  o_scoring_thresholds (o_late options) = None →
  let r := result (validation email options runOptions pools E w).1.1 in
  verdict r = Scoring.Valid →
  85 ≤ confidence r
  ∧ syntaxOk (syntax (checks r)) = true
  ∧ (Verify.disposable (checks r)).1 = false
  ∧ truthyOpt (Verify.typo (checks r)).2 = false
  ∧ dnsMx (dns (checks r)) ≠ Some false
  ∧ (smtp (checks r)).1.2 ≠ Smtp.invalid.
Proof.
  intros Hweights Hthresholds. cbv zeta.
  unfold Pipeline.runValidation, Verify.runValidation. cbv zeta.
  destruct (createDnsCache options pools) as [cache pools1].
  destruct (_ || _); [by destruct (includeDetails runOptions)|].
  destruct (Syntax.validateSyntax _ _) as [syntaxOk syntaxReason].
  destruct syntaxOk; cbn [negb]; [|by destruct (includeDetails runOptions)].
  unfold afterSyntaxGate, afterLookups. cbv zeta. rewrite Hweights.
  change (mergeWeights None) with DEFAULT_WEIGHTS.
  unfold mbind, M_bind.
  match goal with
  | |- context [Dns.checkDNS ?d ?o ?c E w] =>
      pose proof (checkDNS_found E w d o c) as Hfound;
        destruct (Dns.checkDNS d o c E w) as [[dnsResult cache1] w1]
  end.
  cbn [fst Dns.opt_mx Dns.opt_spf Dns.opt_dmarc Dns.notFalse] in Hfound.
  assert (Hmx : Dns.mx dnsResult = Some false →
                r_mx (dnsOpts (resolveOptions options)) = true).
  { intros Hm.
    match type of Hfound with
    | _ = Dns.assemble ?d ?cm ?cs ?cd ?f =>
        destruct (assemble_shape d cm cs cd f) as (_ & Hshape & _)
    end.
    rewrite <- Hfound, Hm in Hshape.
    destruct (r_mx _); [done|]. by apply Hshape. }
  clear Hfound.
  match goal with
  | |- context [localStages ?a ?b ?c ?d ?e ?f ?g ?ro ?o ?r ?ws ?lp ?dm ?ne
                            ?dr ?l] =>
      pose proof (settled_localStages ro a b c d e f g o r ws lp dm ne dr l)
        as Hl;
        pose proof (charged_localStages ro a b c d e f g o r lp dm ne dr l)
          as Hc;
        destruct (localStages a b c d e f g ro o r ws lp dm ne dr l)
          as [[[providerResult canonicalResult] roleResult] l1]
  end.
  cbn [snd] in Hl, Hc.
  match goal with
  | |- context [stepSmtp ?ro ?r ?ws ?dm ?ne ?c ?l ?p E w1] =>
      pose proof (settled_stepSmtp ro r ws dm ne c l p E w1) as Hl2;
        pose proof (λ paid, charged_stepSmtp ro paid r dm ne c l p E w1)
          as Hc2;
        destruct (stepSmtp ro r ws dm ne c l p E w1) as [[l2 pools2] w2]
  end.
  cbn [fst] in Hl2, Hc2.
  match goal with
  | |- context [stepCatchAll ?ro ?o ?r ?ws ?dm ?dr ?c ?l ?p E w2] =>
      pose proof (settled_stepCatchAll ro o r ws dm dr c l p E w2) as Hl3;
        pose proof (λ paid, charged_stepCatchAll ro paid o r dm dr c l p E w2)
          as Hc3;
        destruct (stepCatchAll ro o r ws dm dr c l p E w2)
          as [[l3 pools3] w3]
  end.
  cbn [fst] in Hl3, Hc3. cbn [mret M_ret fst].
  match goal with
  | |- context [finish ?g ?ro ?e ?n ?d ?o ?p ?c ?r ?dr ?l] =>
      destruct (finish_result ro g e n d o p c r dr l)
        as (Hconf & Hverdict & _ & Hchecks & _)
  end.
  rewrite Hverdict, Hthresholds, Hchecks. clear Hverdict.
  rewrite Hl2, Hl in Hl3. unfold stageDns, createInitialChecks in Hl3.
  locals. injection Hl3 as Hsyntax Hdns. rewrite Hsyntax, Hdns.
  cbn [syntaxOk dnsMx].
  assert (Hcharged : charged
            (r_mx (dnsOpts (resolveOptions options))
             && bool_decide (Dns.mx dnsResult = Some false)) l3).
  { apply Hc3, Hc2, Hc. unfold stageDns, createInitialChecks, charged.
    locals. cbn [truthyOpt]. repeat split; (done || lia). }
  clear Hc Hc2 Hc3 Hl Hl2 Hsyntax Hdns.
  unfold Scoring.computeVerdict.
  cbn [default from_option id Scoring.DEFAULT_THRESHOLDS Scoring.valid].
  destruct (Scoring.geb (inject_Z (confidence _)) 85) eqn:Hgeb;
    [|by repeat case_match].
  intros _. apply geb_true in Hgeb.
  change 85%Q with (inject_Z 85) in Hgeb. rewrite <- Zle_Qle in Hgeb.
  split; [exact Hgeb|]. split; [done|].
  rewrite Hconf in Hgeb. unfold Scoring.clampScore in Hgeb.
  rewrite mathRound_Z in Hgeb.
  destruct Hcharged as (_ & Hd & Ht & Hs & Hn).
  split; [destruct (Verify.disposable (l_checks l3)).1; [lia|done]|].
  split; [destruct (truthyOpt _); [lia|done]|].
  split.
  - intros Hm. specialize (Hmx Hm). rewrite Hmx, Hm in Hn.
    specialize (Hn eq_refl). lia.
  - intros Hi. specialize (Hs Hi). lia.
Qed.

(** With the two probes off, what follows the DNS lookups is a function
    of what they found: neither the pools nor the world are read or
    changed. *)
Lemma afterLookups_quiet (email : jsstring) options
    (runOptions : ValidationRunOptions) (cache : CacheRef)
    (normalized : Normalize.Normalized) (trace0 : list DebugTraceStep)
    (dnsResult : Dns.DnsResult) (pools pools' : Pools) (E E' : Env)
    (w w' : World) :
  default false (o_smtp_enabled options) = false →
  default false (o_catchAll_enabled options) = false →
  afterLookups detectProvider getProviderName getCanonicalEmail isRoleEmail
    detectPatterns suggestTypo checkDisposable traceOfPatterns email options
    runOptions (resolveOptions options) cache normalized trace0 dnsResult
    pools E w
  = ((afterLookups detectProvider getProviderName getCanonicalEmail
        isRoleEmail detectPatterns suggestTypo checkDisposable
        traceOfPatterns email options runOptions (resolveOptions options)
        cache normalized trace0 dnsResult pools' E' w').1.1,
     pools, w).
Proof.
  intros Hsmtp HcatchAll. unfold afterLookups. cbv zeta.
  destruct (localStages _ _ _ _ _ _ _ _ _ _ _ _ _ _ _ _)
    as [[[providerResult canonicalResult] roleResult] l1].
  unfold stepSmtp, stepCatchAll, resolveOptions.
  cbn [smtpOpts enabled catchAllEnabled]. rewrite Hsmtp, HcatchAll.
  reflexivity.
Qed.

Lemma createDnsCache_key options (pools : Pools) :
  (createDnsCache options pools).1
  = (default (10 * 60 * 1000) (o_cache_dnsTtlMs options),
     default 2000 (o_cache_maxEntries options)).
Proof. unfold createDnsCache. cbv zeta. by destruct (_ !! _). Qed.

(** Two runs on the same address with the same options, the probes
    off: both stop at a gate, or both go through the DNS lookups and
    answer alike when the lookups do. *)
Lemma validation_quiet (email : jsstring) options
    (runOptions : ValidationRunOptions) (pools pools' : Pools) (E E' : Env)
    (w w' : World) :
  default false (o_smtp_enabled options) = false →
  default false (o_catchAll_enabled options) = false →
  let key := (default (10 * 60 * 1000) (o_cache_dnsTtlMs options),
              default 2000 (o_cache_maxEntries options)) in
  let ro := resolveOptions options in
  let lookups p :=
    Dns.checkDNS
      (default [] (Normalize.domain (Normalize.normalizeEmail email)))
      (Dns.mkOpts (Some (r_mx (dnsOpts ro))) (Some (r_spf (dnsOpts ro)))
                  (Some (r_dmarc (dnsOpts ro)))
                  (Some (r_dnsTimeoutMs (dnsOpts ro))))
      (dnsCachePool (createDnsCache options p).2 !! key) in
  let out := validation email options runOptions pools E w in
  let out' := validation email options runOptions pools' E' w' in
  (out.1.2 = (createDnsCache options pools).2 ∧ out.2 = w
   ∧ out'.1.2 = (createDnsCache options pools').2 ∧ out'.2 = w'
   ∧ out.1.1 = out'.1.1)
  ∨ (out.1.2 = putCache key (lookups pools E w).1.2
                 (createDnsCache options pools).2
     ∧ out.2 = (lookups pools E w).2
     ∧ out'.1.2 = putCache key (lookups pools' E' w').1.2
                    (createDnsCache options pools').2
     ∧ out'.2 = (lookups pools' E' w').2
     ∧ ((lookups pools E w).1.1 = (lookups pools' E' w').1.1 →
        out.1.1 = out'.1.1)).
Proof.
  intros Hsmtp HcatchAll. cbv zeta.
  unfold Pipeline.runValidation, Verify.runValidation. cbv zeta.
  pose proof (createDnsCache_key options pools) as Hkey.
  pose proof (createDnsCache_key options pools') as Hkey'.
  destruct (createDnsCache options pools) as [cache pools0].
  destruct (createDnsCache options pools') as [cache' pools0'].
  cbn [fst snd] in *. subst cache cache'.
  destruct (_ || _); [left; by repeat split|].
  destruct (Syntax.validateSyntax _ _) as [syntaxOk syntaxReason].
  destruct syntaxOk; cbn [negb]; [|left; by repeat split].
  right. unfold afterSyntaxGate, mbind, M_bind.
  destruct (Dns.checkDNS _ _ _ E w) as [[dnsResult cache1] w1].
  destruct (Dns.checkDNS _ _ _ E' w') as [[dnsResult' cache1'] w1'].
  cbn [fst snd].
  rewrite (afterLookups_quiet _ _ _ _ _ _ dnsResult _ pools _ E _ w)
    by done.
  rewrite (afterLookups_quiet _ _ _ _ _ _ dnsResult' _ pools _ E _ w)
    by done.
  cbn [fst snd]. repeat split. by intros <-.
Qed.

Lemma checkDNS_filled (E : Env) (w w' : World) (d : jsstring)
    (opts : Dns.DnsOpts) (cap ttl : Z) :
  5 ≤ cap →
  (∀ i j, clock E j ≤ clock E i + ttl) →
  ∃ c1,
    (Dns.checkDNS d opts (Some (Cache.new (Some cap) (Some ttl))) E w).1.2
    = Some c1
    ∧ (Dns.checkDNS d opts (Some c1) E w').1.1
      = (Dns.checkDNS d opts (Some (Cache.new (Some cap) (Some ttl))) E
                      w).1.1
    ∧ ops (Dns.checkDNS d opts (Some c1) E w').2 = ops w'.
Proof.
  intros Hcap Hclock. unfold Dns.checkDNS, mbind, M_bind, mret, M_ret.
  cbv zeta.
  destruct (lookupAll_fills E w d (default 4000 (Dns.opt_timeoutMs opts))
              (Dns.notFalse (Dns.opt_mx opts))
              (Dns.notFalse (Dns.opt_spf opts))
              (Dns.notFalse (Dns.opt_dmarc opts)) cap ttl Hcap Hclock)
    as (found & c1 & w1 & -> & Hmade & Hheld).
  exists c1. cbn [fst snd]. split; [done|].
  destruct (lookupAll_hits E w' d (default 4000 (Dns.opt_timeoutMs opts))
              _ _ _ found c1 Hmade Hheld) as (c2 & w2 & -> & Hops).
  cbn [fst snd]. by split.
Qed.

(** X27.  The pooled cache serves the second run.  With the probes off,
    when the pool holds no cache yet for the cache options of the call,
    the cache is made for five entries or more and the clock stays within
    its time to live, a second run on the same address with the same
    options answers what the first answered and issues no network
    operation at all. *)
Theorem second_run_is_served_by_the_pooled_cache
    (runOptions : ValidationRunOptions) (email : jsstring) options
    (pools : Pools) (E : Env) (w : World) :
  default false (o_smtp_enabled options) = false →
  default false (o_catchAll_enabled options) = false →
  let ttlMs := default (10 * 60 * 1000) (o_cache_dnsTtlMs options) in
  let maxEntries := default 2000 (o_cache_maxEntries options) in
  dnsCachePool pools !! (ttlMs, maxEntries) = None →
  5 ≤ maxEntries →
  (∀ i j, clock E j ≤ clock E i + ttlMs) →
  let first := validation email options runOptions pools E w in
  let second := validation email options runOptions first.1.2 E first.2 in
  second.1.1 = first.1.1 ∧ ops second.2 = ops first.2.
Proof.
  intros Hsmtp HcatchAll ttlMs maxEntries Hfresh Hcap Hclock first second.
  assert (Hcreate : createDnsCache options pools
            = ((ttlMs, maxEntries),
               mkPools (limiterPool pools)
                 (<[(ttlMs, maxEntries) :=
                      Cache.new (Some maxEntries) (Some ttlMs)]>
                    (dnsCachePool pools)))).
  { unfold createDnsCache. cbv zeta. fold ttlMs maxEntries.
    by rewrite Hfresh. }
  assert (Hagain : ∀ c lim pool,
            createDnsCache options
              (mkPools lim (<[(ttlMs, maxEntries) := c]> pool))
            = ((ttlMs, maxEntries),
               mkPools lim (<[(ttlMs, maxEntries) := c]> pool))).
  { intros c lim pool. unfold createDnsCache. cbv zeta.
    fold ttlMs maxEntries. cbn [dnsCachePool].
    by rewrite lookup_insert_eq. }
  destruct (validation_quiet email options runOptions pools first.1.2 E E w
              first.2 Hsmtp HcatchAll)
    as [(Hp & Hw & _ & Hw' & Hr)|(Hp & Hw & _ & Hw' & Hr)];
    fold first in Hp, Hw; fold second in Hw', Hr;
    rewrite Hcreate in Hp; cbn [snd] in Hp.
  - split; [done|]. by rewrite Hw'.
  - rewrite Hcreate in Hw. cbn [snd dnsCachePool] in Hw, Hp.
    fold ttlMs maxEntries in Hw, Hp.
    rewrite lookup_insert_eq in Hw, Hp.
    match type of Hw with
    | _ = (Dns.checkDNS ?d ?o _ _ _).2 =>
        destruct (checkDNS_filled E w first.2 d o maxEntries ttlMs Hcap
                    Hclock) as (c1 & Hc1 & Hsame & Hops)
    end.
    rewrite Hc1 in Hp. unfold putCache in Hp. cbn [limiterPool dnsCachePool]
      in Hp.
    rewrite Hp, Hagain in Hw', Hr. cbn [snd dnsCachePool] in Hw', Hr.
    fold ttlMs maxEntries in Hw', Hr.
    rewrite Hcreate in Hr. cbn [snd dnsCachePool] in Hr.
    fold ttlMs maxEntries in Hr.
    rewrite !lookup_insert_eq in Hw', Hr.
    split; [|by rewrite Hw', Hops].
    symmetry. apply Hr. rewrite ?lookup_insert_eq. by rewrite Hsame.
Qed.

End Collaborators.

Lemma without_probes_only_the_domain_is_queried_witness :
  let options :=
    mkVerifyOptions None None None None None None None None None None None
      None None None None None None
      (mkLate (None : option unit) None None) in
  let E :=
    staticEnv (λ _, Some (Fulfilled [mkMx (js "mx.example.com") 10]))
              (λ _, Some Rejected) (λ _, None)
              (λ _, Some (Fulfilled [js "2001:db8::1"])) (λ _, []) in
  let run :=
    @Pipeline.runValidation asciiRuntime unit
      (λ _ _, Provider.mkDetection None (js "none") true None)
      (λ _ _, js "Unknown")
      (λ e _, Canonical.mkCanonical e false 0 false None)
      (λ _, RoleEmail.mkRole false None None)
      (λ _, []) (λ _, (true, None)) (λ _ _, (false, None))
      (λ _, TUndefined)
      (js "jane@example.com") options (mkRunOptions false false)
      (mkPools ∅ ∅) E (mkWorld 0 []) in
  default false (o_smtp_enabled options) = false
  ∧ default false (o_catchAll_enabled options) = false
  ∧ ∃ added,
      ops run.2 = [] ++ added
      ∧ added `sublist_of` dnsQueries (js "example.com")
      ∧ ∀ port host, OpConnect port host ∉ added.
Proof.
  intros options E run.
  assert (Hsmtp : default false (o_smtp_enabled options) = false)
    by reflexivity.
  assert (HcatchAll : default false (o_catchAll_enabled options) = false)
    by reflexivity.
  split; [exact Hsmtp|]. split; [exact HcatchAll|].
  exact (@without_probes_only_the_domain_is_queried asciiRuntime unit
           _ _ _ _ _ _ _ _ (mkRunOptions false false)
           (js "jane@example.com") options (mkPools ∅ ∅) E (mkWorld 0 [])
           Hsmtp HcatchAll).
Defined.

Lemma valid_verdict_excludes_the_major_signals_witness :
  let options :=
    mkVerifyOptions None None None None None None None None None None None
      None None None None None None
      (mkLate (None : option unit) None None) in
  let txt name :=
    if bool_decide (name = js "example.com")
    then Some (Fulfilled [[js "v=spf1 -all"]])
    else Some (Fulfilled [[js "v=DMARC1; p=none"]]) in
  let E :=
    staticEnv (λ _, Some (Fulfilled [mkMx (js "mx.example.com") 10]))
              txt (λ _, None)
              (λ _, Some (Fulfilled [js "2001:db8::1"])) (λ _, []) in
  let run :=
    @Pipeline.runValidation asciiRuntime unit
      (λ _ _, Provider.mkDetection None (js "none") true None)
      (λ _ _, js "Unknown")
      (λ e _, Canonical.mkCanonical e false 0 false None)
      (λ _, RoleEmail.mkRole false None None)
      (λ _, []) (λ _, (true, None)) (λ _ _, (false, None))
      (λ _, TUndefined)
      (js "jane@example.com") options (mkRunOptions false false)
      (mkPools ∅ ∅) E (mkWorld 0 []) in
  o_scoring_weights (o_late options) = None
  ∧ o_scoring_thresholds (o_late options) = None
  ∧ verdict (result run.1.1) = Scoring.Valid
  ∧ 85 ≤ confidence (result run.1.1)
  ∧ dnsMx (dns (checks (result run.1.1))) ≠ Some false.
Proof.
  intros options txt E run.
  assert (Hweights : o_scoring_weights (o_late options) = None)
    by reflexivity.
  assert (Hthresholds : o_scoring_thresholds (o_late options) = None)
    by reflexivity.
  assert (Hvalid : verdict (result run.1.1) = Scoring.Valid)
    by (vm_compute; reflexivity).
  split; [exact Hweights|]. split; [exact Hthresholds|].
  split; [exact Hvalid|].
  destruct (@valid_verdict_excludes_the_major_signals asciiRuntime unit
              _ _ _ _ _ _ _ _ (mkRunOptions false false)
              (js "jane@example.com") options (mkPools ∅ ∅) E
              (mkWorld 0 []) Hweights Hthresholds Hvalid)
    as (Hconf & _ & _ & _ & Hmx & _).
  split; [exact Hconf|exact Hmx].
Defined.

Lemma second_run_is_served_by_the_pooled_cache_witness :
  let options :=
    mkVerifyOptions None None None None None None None None None None None
      None None None None None None
      (mkLate (None : option unit) None None) in
  let E :=
    staticEnv (λ _, Some (Fulfilled [mkMx (js "mx.example.com") 10]))
              (λ _, Some Rejected) (λ _, None)
              (λ _, Some (Fulfilled [js "2001:db8::1"])) (λ _, []) in
  let validation :=
    @Pipeline.runValidation asciiRuntime unit
      (λ _ _, Provider.mkDetection None (js "none") true None)
      (λ _ _, js "Unknown")
      (λ e _, Canonical.mkCanonical e false 0 false None)
      (λ _, RoleEmail.mkRole false None None)
      (λ _, []) (λ _, (true, None)) (λ _ _, (false, None))
      (λ _, TUndefined)
      (js "jane@example.com") options (mkRunOptions true true) in
  let first := validation (mkPools ∅ ∅) E (mkWorld 0 []) in
  let second := validation first.1.2 E first.2 in
  default false (o_smtp_enabled options) = false
  ∧ default false (o_catchAll_enabled options) = false
  ∧ dnsCachePool (mkPools ∅ ∅) !! (10 * 60 * 1000, 2000) = None
  ∧ 5 ≤ 2000
  ∧ (∀ i j, clock E j ≤ clock E i + 10 * 60 * 1000)
  ∧ length (ops first.2) = 5%nat
  ∧ second.1.1 = first.1.1
  ∧ ops second.2 = ops first.2.
Proof.
  intros options E validation first second.
  assert (Hsmtp : default false (o_smtp_enabled options) = false)
    by reflexivity.
  assert (HcatchAll : default false (o_catchAll_enabled options) = false)
    by reflexivity.
  assert (Hfresh : dnsCachePool (mkPools ∅ ∅) !! (10 * 60 * 1000, 2000)
                   = None) by reflexivity.
  assert (Hcap : 5 ≤ 2000) by lia.
  assert (Hclock : ∀ i j, clock E j ≤ clock E i + 10 * 60 * 1000)
    by (intros i j; simpl; lia).
  split; [exact Hsmtp|]. split; [exact HcatchAll|]. split; [exact Hfresh|].
  split; [exact Hcap|]. split; [exact Hclock|].
  split; [vm_compute; reflexivity|].
  exact (@second_run_is_served_by_the_pooled_cache asciiRuntime unit
           _ _ _ _ _ _ _ _ (mkRunOptions true true)
           (js "jane@example.com") options (mkPools ∅ ∅) E (mkWorld 0 [])
           Hsmtp HcatchAll Hfresh Hcap Hclock).
Defined.

End PipelineFacts.

(* ===================================================================== *)
(** * Properties of the typo suggestions *)
(* ===================================================================== *)

Module TypoFacts.
Import Typo.
Local Open Scope Z_scope.

(** ** The recurrence *)

Lemma lev_nil_l (v : jsstring) : lev [] v = Z.of_nat (length v).
Proof. by destruct v. Qed.

Lemma lev_nil_r (u : jsstring) : lev u [] = Z.of_nat (length u).
Proof. by destruct u. Qed.

Lemma lev_cons (x y : N) (u v : jsstring) :
  lev (x :: u) (y :: v)
  = Z.min (Z.min (lev u (y :: v) + 1) (lev (x :: u) v + 1))
          (lev u v + (if bool_decide (x = y) then 0 else 1)).
Proof. reflexivity. Qed.

Lemma lev_nonneg (u v : jsstring) : 0 ≤ lev u v.
Proof.
  revert v. induction u as [|x u IHu]; intros v; [rewrite lev_nil_l; lia|].
  induction v as [|y v IHv]; [rewrite lev_nil_r; lia|].
  rewrite lev_cons. pose proof (IHu (y :: v)). pose proof (IHu v).
  case_bool_decide; lia.
Qed.

Lemma lev_refl (u : jsstring) : lev u u = 0.
Proof.
  induction u as [|x u IH]; [done|]. rewrite lev_cons, IH.
  rewrite bool_decide_eq_true_2 by done.
  pose proof (lev_nonneg u (x :: u)). pose proof (lev_nonneg (x :: u) u).
  lia.
Qed.

Lemma lev_zero (u v : jsstring) : lev u v = 0 → u = v.
Proof.
  revert v. induction u as [|x u IHu]; intros v.
  { rewrite lev_nil_l. destruct v; [done|simpl; lia]. }
  induction v as [|y v IHv].
  { rewrite lev_nil_r. simpl. lia. }
  rewrite lev_cons.
  pose proof (lev_nonneg u (y :: v)). pose proof (lev_nonneg (x :: u) v).
  pose proof (lev_nonneg u v).
  case_bool_decide as Hxy; [|lia]. intros Hzero. subst y.
  f_equal. apply IHu. lia.
Qed.

Lemma lev_sym (u v : jsstring) : lev u v = lev v u.
Proof.
  revert v. induction u as [|x u IHu]; intros v.
  { by rewrite lev_nil_l, lev_nil_r. }
  induction v as [|y v IHv].
  { by rewrite lev_nil_l, lev_nil_r. }
  rewrite !lev_cons, IHv, (IHu (y :: v)), (IHu v).
  assert (Hcost : (if bool_decide (x = y) then 0 else 1)
                  = (if bool_decide (y = x) then 0 else 1) :> Z).
  { repeat case_bool_decide; congruence. }
  rewrite Hcost. lia.
Qed.

Lemma lev_bounds (u v : jsstring) :
  Z.abs (Z.of_nat (length u) - Z.of_nat (length v)) ≤ lev u v
  ∧ lev u v ≤ Z.max (Z.of_nat (length u)) (Z.of_nat (length v)).
Proof.
  revert v. induction u as [|x u IHu]; intros v.
  { rewrite lev_nil_l. simpl. lia. }
  induction v as [|y v IHv].
  { rewrite lev_nil_r. simpl. lia. }
  rewrite lev_cons.
  pose proof (IHu (y :: v)) as H1. pose proof (IHu v) as H2.
  cbn [length] in *. case_bool_decide; lia.
Qed.

(** ** The array of [levenshtein] *)

(** The distance between the first [i] code units of [a] and the first
    [j] of [b], the last code units being read first. *)
Local Abbreviation D a b i j := (lev (rev (take i a)) (rev (take j b))).

Lemma D_zero_l (a b : jsstring) (j : nat) :
  (j ≤ length b)%nat → D a b 0%nat j = Z.of_nat j.
Proof.
  intros Hj. rewrite take_0. cbn [rev]. rewrite lev_nil_l.
  rewrite length_rev, length_take. lia.
Qed.

Lemma D_zero_r (a b : jsstring) (i : nat) :
  (i ≤ length a)%nat → D a b i 0%nat = Z.of_nat i.
Proof.
  intros Hi. rewrite (take_0 b). cbn [rev]. rewrite lev_nil_r.
  rewrite length_rev, length_take. lia.
Qed.

Lemma D_step (a b : jsstring) (i j : nat) :
  (i < length a)%nat → (j < length b)%nat →
  D a b (S i) (S j)
  = Z.min (Z.min (D a b i (S j) + 1) (D a b (S i) j + 1))
          (D a b i j + (if bool_decide (a !! i = b !! j) then 0 else 1)).
Proof.
  intros Hi Hj. unfold jsstring in *.
  destruct (lookup_lt_is_Some_2 a i Hi) as [x Hx].
  destruct (lookup_lt_is_Some_2 b j Hj) as [y Hy].
  rewrite (take_S_r a i x Hx), (take_S_r b j y Hy), !rev_unit, lev_cons.
  rewrite Hx, Hy.
  assert (Hcost : (if bool_decide (x = y) then 0 else 1)
                  = (if bool_decide (Some x = Some y) then 0 else 1) :> Z).
  { repeat case_bool_decide; congruence. }
  by rewrite Hcost.
Qed.

Lemma init_row (n m : nat) (dp : list Z) :
  length dp = n → (m ≤ n)%nat →
  let dp' := foldl (λ dp j, <[j := Z.of_nat j]> dp) dp (seq 0 m) in
  length dp' = n
  ∧ (∀ k, (k < m)%nat → dp' !! k = Some (Z.of_nat k)).
Proof.
  intros Hn. induction m as [|m IH]; intros Hm; cbv zeta.
  { split; [done|]. intros k Hk. lia. }
  destruct (IH ltac:(lia)) as [Hlen Hrow].
  rewrite seq_S, foldl_app. cbn [foldl plus]. split.
  - by rewrite length_insert.
  - intros k Hk. destruct (decide (k = m)) as [->|Hne].
    + apply list_lookup_insert_eq. lia.
    + rewrite list_lookup_insert_ne by done. apply Hrow. lia.
Qed.

Lemma cells (a b : jsstring) (i : nat) (dp : list Z) (m : nat) :
  (i < length a)%nat → (m ≤ length b)%nat →
  length dp = S (length b) →
  dp !! 0%nat = Some (D a b (S i) 0%nat) →
  (∀ k, (1 ≤ k ≤ length b)%nat → dp !! k = Some (D a b i k)) →
  let out := foldl (cell a b (S i)) (dp, D a b i 0%nat) (seq 1 m) in
  length out.1 = S (length b)
  ∧ (∀ k, (k ≤ m)%nat → out.1 !! k = Some (D a b (S i) k))
  ∧ (∀ k, (m < k ≤ length b)%nat → out.1 !! k = Some (D a b i k))
  ∧ out.2 = D a b i m.
Proof.
  intros Hi Hm Hlen H0 Hrest. induction m as [|m IH]; cbv zeta.
  { cbn [seq foldl fst snd]. split; [done|]. split; [|split; [|done]].
    - intros k Hk. by replace k with 0%nat by lia.
    - intros k Hk. apply Hrest. lia. }
  destruct (IH ltac:(lia)) as (Hlen' & Hdone & Htodo & Hprev).
  rewrite seq_S, foldl_app. cbn [foldl plus].
  destruct (foldl _ _ (seq 1 m)) as [dp' prev']. cbn [fst snd] in *.
  subst prev'. unfold cell.
  rewrite (list_lookup_total_correct dp' (S m) _ (Htodo (S m) ltac:(lia))).
  replace (S m - 1)%nat with m by lia. replace (S i - 1)%nat with i by lia.
  rewrite (list_lookup_total_correct dp' m _ (Hdone m ltac:(lia))).
  rewrite <- D_step by lia. cbn [fst snd].
  split; [by rewrite length_insert|]. split; [|split; [|done]].
  - intros k Hk. destruct (decide (k = S m)) as [->|Hne].
    + apply list_lookup_insert_eq. lia.
    + rewrite list_lookup_insert_ne by done. apply Hdone. lia.
  - intros k Hk. rewrite list_lookup_insert_ne by lia. apply Htodo. lia.
Qed.

Lemma row_next (a b : jsstring) (i : nat) (dp : list Z) :
  (i < length a)%nat →
  length dp = S (length b) →
  (∀ k, (k ≤ length b)%nat → dp !! k = Some (D a b i k)) →
  length (row a b dp (S i)) = S (length b)
  ∧ ∀ k, (k ≤ length b)%nat → row a b dp (S i) !! k = Some (D a b (S i) k).
Proof.
  intros Hi Hlen Hrow. unfold row. cbv zeta.
  replace (Z.of_nat (S i) - 1) with (D a b i 0%nat)
    by (rewrite D_zero_r; lia).
  destruct (cells a b i (<[0%nat := Z.of_nat (S i)]> dp) (length b) Hi)
    as (Hlen' & Hdone & _); [done|by rewrite length_insert|..|by split].
  - rewrite list_lookup_insert_eq by lia. by rewrite D_zero_r by lia.
  - intros k Hk. rewrite list_lookup_insert_ne by lia. apply Hrow. lia.
Qed.

Lemma rows (a b : jsstring) (n : nat) (dp : list Z) :
  (n ≤ length a)%nat →
  length dp = S (length b) →
  (∀ k, (k ≤ length b)%nat → dp !! k = Some (D a b 0%nat k)) →
  let dp' := foldl (row a b) dp (seq 1 n) in
  length dp' = S (length b)
  ∧ ∀ k, (k ≤ length b)%nat → dp' !! k = Some (D a b n k).
Proof.
  intros Hn Hlen Hrow. induction n as [|n IH]; cbv zeta; [by split|].
  destruct (IH ltac:(lia)) as [Hlen' Hrow'].
  rewrite seq_S, foldl_app. cbn [foldl plus].
  by apply row_next.
Qed.

Lemma levenshtein_lev (a b : jsstring) :
  levenshtein a b = lev (rev a) (rev b).
Proof.
  unfold levenshtein. cbv zeta.
  destruct (init_row (length b + 1) (length b + 1)
              (replicate (length b + 1) 0))
    as [Hlen Hrow]; [by rewrite length_replicate|lia|].
  destruct (rows a b (length a) _ ltac:(lia)
              ltac:(rewrite Hlen; lia)
              ltac:(intros k Hk; rewrite D_zero_l by done;
                    apply Hrow; lia))
    as [_ Hlast].
  pose proof (Hlast (length b) ltac:(lia)) as Hend.
  rewrite (list_lookup_total_correct _ _ _ Hend).
  by rewrite !firstn_all.
Qed.

Lemma levenshtein_zero (a b : jsstring) : levenshtein a b = 0 ↔ a = b.
Proof.
  rewrite levenshtein_lev. split.
  - intros Hzero%lev_zero. apply (f_equal (@rev N)) in Hzero.
    by rewrite !rev_involutive in Hzero.
  - intros ->. apply lev_refl.
Qed.

(** X28.  [levenshtein] computes the edit distance.  It obeys the
    recurrence that defines it: the distance to the empty string is the
    length of the other string, and the distance between two strings
    that end with [x] and [y] is the least of three, one more than the
    distance once [x] is dropped, one more than the distance once [y] is
    dropped, and the distance once both are dropped, plus one when [x]
    and [y] differ.  It is symmetric, it is 0 exactly between a string
    and itself, and it lies between the difference of the two lengths and
    the greater of them. *)
Theorem levenshtein_is_the_edit_distance :
  (∀ b, levenshtein [] b = Z.of_nat (length b))
  ∧ (∀ a, levenshtein a [] = Z.of_nat (length a))
  ∧ (∀ a b x y,
       levenshtein (a ++ [x]) (b ++ [y])
       = Z.min (Z.min (levenshtein a (b ++ [y]) + 1)
                      (levenshtein (a ++ [x]) b + 1))
               (levenshtein a b + (if bool_decide (x = y) then 0 else 1)))
  ∧ (∀ a b, levenshtein a b = levenshtein b a)
  ∧ (∀ a b, levenshtein a b = 0 ↔ a = b)
  ∧ (∀ a b,
       Z.abs (Z.of_nat (length a) - Z.of_nat (length b)) ≤ levenshtein a b
       ∧ levenshtein a b ≤ Z.max (Z.of_nat (length a)) (Z.of_nat (length b))).
Proof.
  split; [|split; [|split; [|split; [|split]]]].
  - intros b. by rewrite levenshtein_lev, lev_nil_l, length_rev.
  - intros a. by rewrite levenshtein_lev, lev_nil_r, length_rev.
  - intros a b x y. by rewrite !levenshtein_lev, !rev_unit, lev_cons.
  - intros a b. rewrite !levenshtein_lev. apply lev_sym.
  - apply levenshtein_zero.
  - intros a b. rewrite levenshtein_lev.
    pose proof (lev_bounds (rev a) (rev b)) as Hb.
    by rewrite !length_rev in Hb.
Qed.

Section Tables.
Context `{Runtime} (COMMON_EMAIL_DOMAINS PRIMARY_DOMAINS : list jsstring).

(** What the loop of [findBestMatch] holds once it has gone through
    [seen]: nothing when no domain of [seen] is near, and otherwise the
    first of the nearest ones with its distance. *)
Lemma consider_all (lower : jsstring) (maxDistance : Z)
    (seen : list jsstring) :
  match foldl (consider lower maxDistance) None seen with
  | None => ∀ c, c ∈ seen → ¬ near lower maxDistance c
  | Some (c, d) =>
      d = levenshtein lower c ∧ near lower maxDistance c
      ∧ ∃ before after,
          seen = before ++ c :: after
          ∧ (∀ c', c' ∈ before → near lower maxDistance c' →
                   d < levenshtein lower c')
          ∧ (∀ c', c' ∈ after → near lower maxDistance c' →
                   d ≤ levenshtein lower c')
  end.
Proof.
  induction seen as [|x seen IH] using rev_ind.
  { cbn. by intros c ?%elem_of_nil. }
  rewrite foldl_app. cbn [foldl]. unfold consider at 1. cbv zeta.
  destruct (bool_decide (levenshtein lower x ≤ maxDistance)
            && bool_decide (0 < levenshtein lower x)) eqn:Hnear.
  - apply andb_true_iff in Hnear as [Hmax%bool_decide_eq_true
                                       Hpos%bool_decide_eq_true].
    destruct (foldl _ None seen) as [[c d]|].
    + destruct IH as (-> & Hc & before & after & -> & Hbefore & Hafter).
      case_bool_decide as Hless.
      * split; [done|]. split; [done|].
        exists (before ++ c :: after), []. split; [done|]. split.
        -- intros c' [Hin|Hin]%elem_of_app Hc'.
           ++ specialize (Hbefore c' Hin Hc'). lia.
           ++ apply elem_of_cons in Hin as [->|Hin]; [lia|].
              specialize (Hafter c' Hin Hc'). lia.
        -- by intros c' ?%elem_of_nil.
      * split; [done|]. split; [done|].
        exists before, (after ++ [x]). split; [by rewrite <- app_assoc|].
        split; [done|].
        intros c' [Hin|Hin]%elem_of_app Hc'; [by apply Hafter|].
        apply list_elem_of_singleton in Hin as ->. lia.
    + split; [done|]. split; [done|].
      exists seen, []. split; [done|]. split.
      * intros c' Hin Hc'. by destruct (IH c' Hin).
      * by intros c' ?%elem_of_nil.
  - assert (Hx : ¬ near lower maxDistance x).
    { intros [Hpos Hmax]. apply andb_false_iff in Hnear as [Hn|Hn];
        apply bool_decide_eq_false in Hn; lia. }
    destruct (foldl _ None seen) as [[c d]|].
    + destruct IH as (-> & Hc & before & after & -> & Hbefore & Hafter).
      split; [done|]. split; [done|].
      exists before, (after ++ [x]). split; [by rewrite <- app_assoc|].
      split; [done|].
      intros c' [Hin|Hin]%elem_of_app Hc'; [by apply Hafter|].
      by apply list_elem_of_singleton in Hin as ->.
    + intros c' [Hin|Hin]%elem_of_app; [by apply IH|].
      by apply list_elem_of_singleton in Hin as ->.
Qed.

(** X29.  [findBestMatch] suggests the nearest of the primary domains.
    It suggests nothing exactly when the lowercased domain is a known
    one, or no primary domain is near, that is at a distance from 1 to
    [maxDistance] (2 unless given).  What it suggests is a primary domain
    that differs from the lowercased domain and is near; no primary
    domain is nearer, and those listed before it are farther. *)
Theorem findBestMatch_suggests_the_nearest_primary_domain
    (domain : jsstring) (maxDistance : option Z) :
  let lower := toLowerCase domain in
  let limit := default 2 maxDistance in
  let found :=
    findBestMatch COMMON_EMAIL_DOMAINS PRIMARY_DOMAINS domain maxDistance in
  (found = None ↔
   lower ∈ COMMON_EMAIL_DOMAINS
   ∨ ∀ c, c ∈ PRIMARY_DOMAINS → ¬ near lower limit c)
  ∧ (∀ c, found = Some c →
     (lower ∉ COMMON_EMAIL_DOMAINS) ∧ c ≠ lower ∧ near lower limit c
     ∧ ∃ before after,
         PRIMARY_DOMAINS = before ++ c :: after
         ∧ (∀ c', c' ∈ before → near lower limit c' →
                  levenshtein lower c < levenshtein lower c')
         ∧ (∀ c', c' ∈ after → near lower limit c' →
                  levenshtein lower c ≤ levenshtein lower c')).
Proof.
  cbv zeta. unfold findBestMatch. cbv zeta.
  pose proof (consider_all (toLowerCase domain) (default 2 maxDistance)
                PRIMARY_DOMAINS) as Hall.
  case_bool_decide as Hknown.
  { split; [by split; [left|]|done]. }
  destruct (foldl _ None PRIMARY_DOMAINS) as [[c d]|]; cbn [fmap option_fmap
    option_map fst].
  - destruct Hall as (-> & Hc & before & after & Heq & Hbefore & Hafter).
    split.
    + split; [done|]. intros [Hin|Hnone]; [done|].
      destruct (Hnone c); [|done]. rewrite Heq.
      apply elem_of_app. right. apply list_elem_of_here.
    + intros c0 [= <-]. split; [done|]. split.
      * intros ->. destruct Hc as [Hpos _].
        rewrite (proj2 (levenshtein_zero _ _) eq_refl) in Hpos. lia.
      * split; [done|]. by exists before, after.
  - split; [|done]. split; [by right|done].
Qed.

(** X30.  [suggestTypo] answers ok exactly for an address made of a local
    part and a domain that is not empty around a single [@].  The address
    it suggests is then the local part as it was written, [@], and the
    domain [findBestMatch] suggests for the domain; it suggests none when
    [findBestMatch] does not. *)
Theorem suggestTypo_keeps_the_local_part (email : jsstring) :
  let find := findBestMatch COMMON_EMAIL_DOMAINS PRIMARY_DOMAINS in
  let answer := suggestTypo COMMON_EMAIL_DOMAINS PRIMARY_DOMAINS email in
  (answer.1 = true ↔
   ∃ lp domain, email = lp ++ [AT] ++ domain
                ∧ (AT ∉ lp) ∧ (AT ∉ domain) ∧ domain ≠ [])
  ∧ (answer.1 = false → answer.2 = None)
  ∧ (∀ lp domain,
       email = lp ++ [AT] ++ domain → AT ∉ lp → AT ∉ domain →
       domain ≠ [] →
       answer.2
       = match find domain None with
         | Some [] => None
         | Some suggestion => Some (lp ++ [AT] ++ suggestion)
         | None => None
         end).
Proof.
  cbv zeta. unfold suggestTypo. split; [|split].
  - split.
    + destruct (split AT email) as [|lp [|domain [|p ps]]] eqn:Hsplit;
        try done.
      apply NormalizeFacts.splitAt_two in Hsplit
        as (front & -> & -> & Hf & Hd).
      destruct domain as [|y domain]; [done|]. intros _.
      by exists front, (y :: domain).
    + intros (lp & domain & -> & Hlp & Hd & Hne).
      unfold split. cbn [app].
      rewrite NormalizeFacts.splitAt_app_sep, NormalizeFacts.splitAt_no_sep
        by done.
      destruct domain as [|y domain]; [done|]. cbn [app truthy negb].
      by repeat case_match.
  - destruct (split AT email) as [|lp [|domain [|p ps]]]; try done.
    destruct (negb (truthy domain)); [done|]. by repeat case_match.
  - intros lp domain -> Hlp Hd Hne. unfold split. cbn [app].
    rewrite NormalizeFacts.splitAt_app_sep, NormalizeFacts.splitAt_no_sep
      by done.
    destruct domain as [|y domain]; [done|]. cbn [app truthy negb].
    by destruct (findBestMatch _ _ _ _) as [[|z s]|].
Qed.

End Tables.

End TypoFacts.
